(* ===== verification/_CoqProject ===== *)
-Q . S2P
Prelude.v
Sqlite.v
Tables.v
Outbox.v
Counters.v
OutboxSpec.v
OutboxInv.v
Open.v
System.v
Schedule.v
Queues.v
Capacity.v
Ages.v
Samples.v
SystemTheorems.v
OutboxTheorems.v
Drain.v
ScheduleTheorems.v
EventId.v
BoundedQueue.v
Pipeline.v
Backoff.v
PipelineSim.v
Liveness.v
PipelineCalls.v
Settling.v
PipelineSamples.v
PipelineTheorems.v
PipelineStop.v
FsModule.v
FsCalls.v
FsSamples.v
FsTheorems.v
