(* ===== verification/Prelude.v ===== *)
(** * A durable outbox between FreeSWITCH and Kafka: verification library

    The program is a FreeSWITCH module that publishes call events to Kafka through a durable outbox
    in SQLite. An event callback commits the event to the outbox; a worker thread takes due rows off
    it, hands them to librdkafka, and settles each row when its delivery report arrives. Events of
    one call carry sequence numbers, and only the row at the delivery cursor of its call may be sent,
    so Kafka sees the events of a call in order, each at least once, across failures of SQLite, of
    the broker, and deaths of the process.

    ** Parts, and where they are modelled

    - Calls to SQLite, the clock, [Statement], [Transaction] (src/kafka_outbox.cpp, 16-85): Sqlite.v.
      A method is a function from a connection to an outcome (a value, a C++ exception, or the death
      of the process) and a connection. [Env] answers the n-th call: success, failure, or death
      before or after the effect. The proof rules ([wp], [EffectFree], [txwp], [acwp]) and the
      contract [refines] of a method that must be atomic are here.
    - The structs and the four tables (include/kafka_outbox.hpp; the schema in [Outbox::open]):
      Tables.v. Rows in rowid order are a list; tables used by primary key are finite maps.
    - The methods of [Outbox] (src/kafka_outbox.cpp, 221-552): Outbox.v, statement by statement.
      OutboxSpec.v gives for each an atomic function of the database ([insert_txn], [take_txn],
      [ack_txn], ...) and proves the refinement. OutboxInv.v has the invariant [wf] of the database,
      that every transaction keeps it, and the relation [admitted] that characterises admission.
    - [Outbox::open] and [Outbox::close]: Open.v, with the migration and its specification [open_txn].
    - [make_event_id]: EventId.v. [BoundedQueue] (include/bounded_queue.hpp): BoundedQueue.v.
    - [KafkaPipeline] (src/kafka_pipeline.cpp, include/kafka_pipeline.hpp): Pipeline.v, every method,
      with [worker_loop] cut into a turn, the batch loop and the exit. librdkafka is the class
      [Kafka]; other threads are the class [World], which may call [enqueue], [request_rebuild] or
      begin [stop] before each outbox call of the worker, those of [settle_send_failure] and of
      delivery reports included. Shared state is one record [Pipe]; two of its fields, [p_produced]
      and [p_admitted], are history that no code reads: the records of the messages handed over, and
      the events whose admission [enqueue] reported.
    - The FreeSWITCH module (mod_event_kafka.cpp, mod_event_kafka.hpp): FsModule.v, configuration,
      publisher, subscription, load and shutdown. FreeSWITCH is the class [FreeSwitch]; the handlers
      it holds for the module are part of the state [Fs].

    ** The abstract process

    System.v is a transition system over the database, the reports still owed and a history of
    admissions, sends, acknowledgements and reclaimed rows. Its steps are the atomic functions of
    OutboxSpec.v, in any order. Schedule.v (batches, service turns), Queues.v (one FIFO queue per
    call), Capacity.v (limits) and Ages.v (expiry, statistics) prove what holds in every reachable
    state. PipelineSim.v proves that the code of the pipeline is a refinement of this system, so its
    theorems hold of the messages that librdkafka receives. Backoff.v, PipelineCalls.v, Settling.v and
    PipelineStop.v give the contracts of the single methods; Settling.v has those of failed sends and
    delivery reports while other threads admit events (the relation [interference]), and Counters.v
    what every outbox call leaves alone, which these need; Drain.v and Liveness.v what an
    undisturbed worker does to its backlog, FsCalls.v the functions of the module.

    ** What the theorems show

    - SystemTheorems.v: order within a call, one acknowledgement per sequence, no event lost,
      reports that always find their row in flight, the invariant.
    - OutboxTheorems.v: atomicity of every state-changing method under failures and deaths, the exact
      conditions of admission, read-back of an admitted event, limits, FIFO queues.
    - ScheduleTheorems.v: the batches of [fetch_due], their handling, rotation between calls, expiry
      by age, [retry_dead], the queries, and opening, migrating and reopening a file.
    - PipelineTheorems.v: refinement, order and content of messages, [enqueue], delivery reports, back-off,
      recovery at [start], the halted pipeline, eventual delivery of a backlog, event ids, the queue.
    - FsTheorems.v: loading, a whole session, publishing an event, the way of each setting.
    - Samples.v, PipelineSamples.v and FsSamples.v have the concrete environments, files and runs at
      which the theorems are applied.

    ** Bounds and fuel

    Sequences, turns and cursors are [Z] with the bounds of [int64_t] in the invariant; [attempts] is
    narrowed to [int] where the code narrows it; metrics and the queue's counter wrap at 2^64. The
    back-off loop has fuel 8, its own bound, and more changes nothing ([backoff_bounds]). The loop
    [while (running_)] runs for a given number of turns: the theorems hold for every number, and
    [backlog_is_delivered] says how many are enough. No other recursion needs fuel.

    ** Assumed

    - SQLite: a call that fails has no effect; a transaction that is not committed leaves nothing;
      ROLLBACK in a destructor succeeds; statements mean what SQL says. Arithmetic inside SQL does
      not overflow beyond what the invariant bounds.
    - librdkafka ([KafkaLaws]): a report is served once, for an outstanding message, on the polling
      thread; destroying the producer drops what is outstanding.
    - Locks: a method under [Impl::mu] or [lifecycle_mu_] is one step. Between two outbox calls the
      worker's reads of its flags and its calls to librdkafka are taken together.

    ** Not modelled

    Allocation failures, C strings as memory and log output (what modelling showed about them is in
    the findings of the manifest); wake-ups and time-outs of [wait_for], [sleep_for] and poll; a
    second load of a loaded module. The scripts, tests, configuration samples and documents around
    the program are not code of the module. *)
From stdpp Require Export base tactics option list sorting gmap strings.
From Stdlib Require Export ZArith Lia.

#[global] Open Scope Z_scope.

(** ** Machine integers *)

(** [std::numeric_limits<int64_t>::max()]. *)
Definition int64_max : Z := 9223372036854775807.
Definition int64_min : Z := -9223372036854775808.
Definition in_int64 (z : Z) : Prop := int64_min ≤ z ≤ int64_max.
#[global] Instance in_int64_dec z : Decision (in_int64 z).
Proof. unfold in_int64. apply _. Defined.

(** The narrowing conversion [int(x)] of an [int64_t]: the representative of [x] modulo 2^32
    in [-2^31, 2^31). *)
Definition to_int32 (z : Z) : Z := (z + 2147483648) `mod` 4294967296 - 2147483648.

Lemma to_int32_small z : -2147483648 ≤ z < 2147483648 → to_int32 z = z.
Proof. intros. unfold to_int32. rewrite Z.mod_small; lia. Qed.

Lemma to_int32_range z : -2147483648 ≤ to_int32 z < 2147483648.
Proof. unfold to_int32. pose proof (Z.mod_pos_bound (z + 2147483648) 4294967296). lia. Qed.

(** ** SQL values and comparisons *)

(** [COALESCE(x, d)] is [coalesce d x]. *)
Abbreviation coalesce d x := (default d x).

(** The comparison [a = b] of two nullable SQL values, as a condition: NULL on either side does
    not satisfy it. *)
Definition sql_eq {A} (a b : option A) : Prop :=
  match a, b with Some x, Some y => x = y | _, _ => False end.
#[global] Instance sql_eq_dec {A} `{EqDecision A} (a b : option A) : Decision (sql_eq a b).
Proof. destruct a, b; simpl; apply _. Defined.

Lemma sql_eq_Some {A} (a b : option A) : sql_eq a b ↔ ∃ x, a = Some x ∧ b = Some x.
Proof. destruct a, b; simpl; naive_solver. Qed.

Lemma sql_eq_Some_r {A} (a : option A) x : sql_eq a (Some x) ↔ a = Some x.
Proof. destruct a; simpl; naive_solver. Qed.

(** ** Table operations on row lists *)

(** [UPDATE t SET f WHERE P] on a table kept as a list in rowid order, and the row count that
    [sqlite3_changes] reports for it. *)
Section tables.
Context {A : Type} (P : A → Prop) `{!∀ x, Decision (P x)}.

Definition update_where (f : A → A) (l : list A) : list A :=
  (λ r, if decide (P r) then f r else r) <$> l.

Definition count_where (l : list A) : Z := Z.of_nat (length (filter P l)).

Definition delete_where (l : list A) : list A := filter (λ r, ¬ P r) l.

Lemma elem_of_update_where f l r :
  r ∈ update_where f l ↔ ∃ r0, r0 ∈ l ∧ ((P r0 ∧ r = f r0) ∨ (¬ P r0 ∧ r = r0)).
Proof.
  unfold update_where. rewrite list_elem_of_fmap. split.
  - intros (r0 & -> & Hin). exists r0. case_decide; naive_solver.
  - intros (r0 & Hin & Hc). exists r0. case_decide; naive_solver.
Qed.

Lemma update_where_keep f l r : r ∈ l → ¬ P r → r ∈ update_where f l.
Proof. intros Hr HP. apply elem_of_update_where. eauto. Qed.

Lemma elem_of_delete_where l r : r ∈ delete_where l ↔ r ∈ l ∧ ¬ P r.
Proof. unfold delete_where. rewrite list_elem_of_filter. naive_solver. Qed.

Lemma update_where_none f l : (∀ r, r ∈ l → ¬ P r) → update_where f l = l.
Proof.
  intros Hno. unfold update_where. rewrite <- (list_fmap_id l) at 2. apply list_fmap_ext.
  intros i r Hr. rewrite decide_False; [done|]. apply Hno. by eapply list_elem_of_lookup_2.
Qed.

Lemma update_where_project {B} (g : A → B) f l :
  (∀ r, P r → g (f r) = g r) → g <$> update_where f l = g <$> l.
Proof.
  intros Hg. unfold update_where. rewrite <- list_fmap_compose. apply list_fmap_ext.
  intros i r _. simpl. case_decide; auto.
Qed.

Lemma count_where_0 l : count_where l = 0 ↔ ∀ r, r ∈ l → ¬ P r.
Proof.
  unfold count_where. split.
  - intros Hz r Hr HP. assert (r ∈ filter P l) as Hf by (apply list_elem_of_filter; auto).
    destruct (filter P l); [by apply not_elem_of_nil in Hf | simpl in Hz; lia].
  - intros Hno. destruct (filter P l) as [|x l'] eqn:E; [done|].
    assert (x ∈ filter P l) as [? ?]%list_elem_of_filter by (rewrite E; left). naive_solver.
Qed.

Lemma count_where_nonneg l : 0 ≤ count_where l.
Proof. unfold count_where. lia. Qed.

(** At most one row carries a given value of a key column. *)
Lemma count_where_unique {B} (key : A → B) (k : B) l :
  (∀ r, P r → key r = k) → NoDup (key <$> l) → count_where l ≤ 1.
Proof.
  intros HP Hnd. unfold count_where.
  assert (NoDup (key <$> filter P l)) as Hnd'.
  { eapply sublist_NoDup; [exact Hnd|]. apply fmap_sublist, sublist_filter. }
  assert (∀ r, r ∈ filter P l → key r = k) as Hk.
  { intros r [? ?]%list_elem_of_filter; auto. }
  destruct (filter P l) as [|x [|y l']]; simpl; try lia.
  rewrite !fmap_cons in Hnd'. apply NoDup_cons in Hnd' as [Hx _].
  exfalso. apply Hx. rewrite (Hk x), <- (Hk y) by set_solver. left.
Qed.

Lemma count_where_one {B} (key : A → B) (k : B) l r :
  (∀ r, P r → key r = k) → NoDup (key <$> l) → r ∈ l → P r → count_where l = 1.
Proof.
  intros HP Hnd Hr HPr. pose proof (count_where_unique key k l HP Hnd).
  pose proof (count_where_nonneg l). destruct (decide (count_where l = 0)) as [Hz|]; [|lia].
  by destruct (proj1 (count_where_0 l) Hz r Hr).
Qed.

Lemma count_where_pos l : 0 < count_where l → ∃ r, r ∈ l ∧ P r.
Proof.
  unfold count_where. destruct (filter P l) as [|x l'] eqn:E; simpl; [lia|].
  intros _. exists x. assert (x ∈ filter P l) as [? ?]%list_elem_of_filter by (rewrite E; left).
  done.
Qed.
End tables.

Lemma filter_none {A} (P : A → Prop) `{!∀ x, Decision (P x)} (l : list A) :
  filter P l = [] ↔ ∀ x, x ∈ l → ¬ P x.
Proof.
  split.
  - intros Hf x Hx HP. assert (x ∈ filter P l) as Hin by (by apply list_elem_of_filter).
    rewrite Hf in Hin. by apply not_elem_of_nil in Hin.
  - intros Hno. destruct (filter P l) as [|x l'] eqn:Hf; [done|].
    assert (x ∈ filter P l) as [HP Hx]%list_elem_of_filter by (rewrite Hf; left). by destruct (Hno x).
Qed.

Lemma filter_everything {A} (P : A → Prop) `{!∀ x, Decision (P x)} (l : list A) :
  (∀ x, x ∈ l → P x) → filter P l = l.
Proof.
  induction l as [|x l IH]; intros HP; [done|].
  rewrite filter_cons_True by (apply HP; left). f_equal. apply IH. intros y Hy. apply HP. by right.
Qed.

(** A split of the selected elements comes from a split of the list. *)
Lemma omap_split {A B} (f : A → option B) (l : list A) k1 y k2 :
  omap f l = k1 ++ y :: k2 →
  ∃ l1 x l2, l = l1 ++ x :: l2 ∧ f x = Some y ∧ omap f l1 = k1 ∧ omap f l2 = k2.
Proof.
  revert k1. induction l as [|x l IH]; intros k1 Heq; [by destruct k1|]. simpl in Heq.
  destruct (f x) as [z|] eqn:Hx.
  - destruct k1 as [|z' k1]; injection Heq as -> Heq.
    + by exists [], x, l.
    + destruct (IH k1 Heq) as (l1 & x' & l2 & -> & Hx' & <- & <-).
      exists (x :: l1), x', l2. simpl. by rewrite Hx.
  - destruct (IH k1 Heq) as (l1 & x' & l2 & -> & Hx' & <- & <-).
    exists (x :: l1), x', l2. simpl. by rewrite Hx.
Qed.

(** ** Stable sorting *)

Section sort.
Context {A : Type} (le : A → A → Prop) `{!∀ x y, Decision (le x y)}.

Fixpoint insert_by (x : A) (l : list A) : list A :=
  match l with
  | [] => [x]
  | y :: l' => if decide (le x y) then x :: l else y :: insert_by x l'
  end.

(** [ORDER BY] with ties left in the order of the table. *)
Definition sort_by (l : list A) : list A := foldr insert_by [] l.

Lemma insert_by_perm x l : insert_by x l ≡ₚ x :: l.
Proof.
  induction l as [|y l IH]; simpl; [done|]. case_decide; [done|].
  rewrite IH. constructor.
Qed.

Lemma sort_by_perm l : sort_by l ≡ₚ l.
Proof. induction l as [|x l IH]; simpl; [done|]. by rewrite insert_by_perm, IH. Qed.

Lemma elem_of_sort_by l x : x ∈ sort_by l ↔ x ∈ l.
Proof. by rewrite sort_by_perm. Qed.

Context (le_trans : ∀ x y z, le x y → le y z → le x z) (le_total : ∀ x y, le x y ∨ le y x).

Lemma insert_by_sorted x l : StronglySorted le l → StronglySorted le (insert_by x l).
Proof using le_trans le_total.
  induction 1 as [|y l Hl IH Hy]; simpl; [repeat constructor|].
  case_decide as Hxy.
  - constructor; [by constructor|]. constructor; [done|].
    eapply Forall_impl; [exact Hy|]. eauto.
  - constructor; [done|]. rewrite insert_by_perm. constructor; [|done].
    by destruct (le_total x y).
Qed.

Lemma sort_by_sorted l : StronglySorted le (sort_by l).
Proof using le_trans le_total.
  induction l as [|x l IH]; simpl; [constructor|]. by apply insert_by_sorted.
Qed.

(** Rows that the order does not separate keep their relative order. *)
Lemma insert_by_stable (P : A → Prop) `{!∀ x, Decision (P x)} x l :
  (∀ y z, P y → P z → le y z) → filter P (insert_by x l) = filter P (x :: l).
Proof.
  intros HP. induction l as [|y l IH]; simpl; [done|]. case_decide as Hxy; [done|].
  rewrite !filter_cons in *. rewrite IH.
  destruct (decide (P x)), (decide (P y)); try done. by destruct Hxy; apply HP.
Qed.

Lemma sort_by_stable (P : A → Prop) `{!∀ x, Decision (P x)} l :
  (∀ y z, P y → P z → le y z) → filter P (sort_by l) = filter P l.
Proof.
  intros HP. induction l as [|x l IH]; simpl; [done|].
  rewrite insert_by_stable by done. by rewrite !filter_cons, IH.
Qed.
End sort.
