(* ===== verification/Sqlite.v ===== *)
(** The effect layer under the outbox: a state monad with C++ exceptions and process death, the
    calls that the outbox makes to SQLite and to the clock, the RAII wrappers [Statement] and
    [Transaction] of src/kafka_outbox.cpp, and the proof rules for code written with them.

    What a call to SQLite answers is not decided here: an environment [Env] says for the n-th call
    whether it succeeds, fails with a message, or never returns because the process is killed. *)
From S2P Require Import Prelude.

(** ** Computations *)

(** How a computation ends: with a value, with a C++ exception, or not at all. *)
Inductive Outcome (A : Type) : Type :=
  | Ok (a : A)
  | Throw (what : string)
  | Killed.
Arguments Ok {A} a.
Arguments Throw {A} what.
Arguments Killed {A}.

Definition M (S A : Type) : Type := S → Outcome A * S.

#[export] Instance M_ret {S} : MRet (M S) := λ A a s, (Ok a, s).
#[export] Instance M_bind {S} : MBind (M S) := λ A B k m s,
  match m s with
  | (Ok a, s') => k a s'
  | (Throw e, s') => (Throw e, s')
  | (Killed, s') => (Killed, s')
  end.

(** [throw std::runtime_error(what)]. *)
Definition throw {S A} (what : string) : M S A := λ s, (Throw what, s).

(** [if (!c) throw std::runtime_error(what)]. *)
Definition ensure {S} (c : Prop) `{!Decision c} (what : string) : M S unit :=
  if decide c then mret tt else throw what.

(** [try { return m; } catch (const std::exception& e) { err = e.what(); return false; }]:
    [inr a] when the method returns true (with its results [a]), [inl err] when it returns false
    after setting [err]. *)
Definition try_err {S A} (m : M S A) : M S (string + A) := λ s,
  match m s with
  | (Ok a, s') => (Ok (inr a), s')
  | (Throw e, s') => (Ok (inl e), s')
  | (Killed, s') => (Killed, s')
  end.

(** ** The environment: SQLite's answers and the wall clock *)

Inductive Fault : Type :=
  | FaultErr (msg : string)          (** the call returns an error code; [sqlite3_errmsg] is [msg] *)
  | FaultKill (applied : bool).      (** the process dies in the call, before or after its effect *)

(** Errors that SQLite raises for what a statement asks, as opposed to a failure of the medium. *)
Inductive SqError : Type :=
  | UniqueConstraint (columns : string)
  | NestedTransaction.

Class Env := {
  sq_fault : nat → option Fault;     (** outcome of the n-th call; [None] is success *)
  sq_errmsg : SqError → string;      (** the text of [sqlite3_errmsg] *)
  clock : nat → Z;                   (** the n-th reading of [std::chrono::system_clock], in ms *)
}.

(** No call from the [q]-th on fails. *)
Definition quiet_from `{Env} (q : nat) : Prop := ∀ n, (q ≤ n)%nat → sq_fault n = None.

(** ** A connection to a database with contents [D] *)

Record Conn (D : Type) : Type := mkConn {
  c_open : bool;            (** [sqlite3* db] is not null *)
  c_db : D;                 (** what statements on this connection see *)
  c_txn : option D;         (** contents at BEGIN, while a transaction is open *)
  c_changes : Z;            (** [sqlite3_changes] *)
  c_io : nat;               (** calls made so far *)
  c_tick : nat;             (** clock readings so far *)
}.
Arguments mkConn {D}.
Arguments c_open {D}.
Arguments c_db {D}.
Arguments c_txn {D}.
Arguments c_changes {D}.
Arguments c_io {D}.
Arguments c_tick {D}.

(** What the file holds if the process dies now: the contents before the open transaction, or the
    current ones when there is none. *)
Definition durable {D} (c : Conn D) : D := default (c_db c) (c_txn c).

Definition bump {D} (c : Conn D) : Conn D :=
  mkConn (c_open c) (c_db c) (c_txn c) (c_changes c) (S (c_io c)) (c_tick c).

Definition set_db {D} (d : D) (n : Z) (c : Conn D) : Conn D :=
  mkConn (c_open c) d (c_txn c) n (c_io c) (c_tick c).

Definition set_txn {D} (t : option D) (c : Conn D) : Conn D :=
  mkConn (c_open c) (c_db c) t (c_changes c) (c_io c) (c_tick c).

Section calls.
Context `{E : Env} {D : Type}.
Implicit Types (c : Conn D) (d : D).

(** One call that may fail, die before its effect, or die after it. *)
Definition sq_io {A} (eff : Conn D → Outcome A * Conn D) : M (Conn D) A := λ c,
  match sq_fault (c_io c) with
  | None => eff (bump c)
  | Some (FaultErr m) => (Throw m, bump c)
  | Some (FaultKill false) => (Killed, bump c)
  | Some (FaultKill true) => (Killed, snd (eff (bump c)))
  end.

(** A call with no effect on the contents: prepare, bind, a step that returns a row. *)
Definition sq_call : M (Conn D) unit := sq_io (λ c, (Ok tt, c)).

(** A data-changing statement stepped to completion: the contents it leaves and its row count,
    or the error it raises. *)
Definition sq_exec (f : D → SqError + (D * Z)) : M (Conn D) unit := sq_io (λ c,
  match f (c_db c) with
  | inl e => (Throw (sq_errmsg e), c)
  | inr (d, n) => (Ok tt, set_db d n c)
  end).

Definition sq_read {A} (f : D → A) : M (Conn D) A := λ c, (Ok (f (c_db c)), c).

(** [sqlite3_changes(db)]. *)
Definition sqlite3_changes : M (Conn D) Z := λ c, (Ok (c_changes c), c).

(** [wall_now_ms()]. *)
Definition wall_now_ms : M (Conn D) Z := λ c,
  (Ok (clock (c_tick c)),
   mkConn (c_open c) (c_db c) (c_txn c) (c_changes c) (c_io c) (S (c_tick c))).

(** [Statement::Statement(db, q)]. *)
Definition prepare : M (Conn D) unit := λ c,
  if c_open c then sq_call c else (Throw "db closed", c).

(** [Statement::bind]: the message of a failing bind is the wrapper's own. *)
Definition bind_call (what : string) : M (Conn D) unit := λ c,
  match sq_call c with
  | (Throw _, c') => (Throw what, c')
  | r => r
  end.
Definition bind_text : M (Conn D) unit := bind_call "bind text".
Definition bind_int : M (Conn D) unit := bind_call "bind integer".

(** [Statement::row()] on a SELECT: one step, then read the columns. *)
Definition query {A} (f : D → A) : M (Conn D) A := sq_call;; sq_read f.

(** [while (q.row()) result.push_back(...)] over the rows [f] of a SELECT: one step per row and
    one more that reports the end. *)
Fixpoint step_rows {A} (rows : list A) : M (Conn D) (list A) :=
  match rows with
  | [] => sq_call;; mret []
  | r :: rows' => sq_call;; rest ← step_rows rows'; mret (r :: rest)
  end.

(** [Transaction::Transaction(db)]: [BEGIN IMMEDIATE]. *)
Definition begin_immediate : M (Conn D) unit := λ c,
  if c_open c then
    sq_io (λ c', match c_txn c' with
                 | None => (Ok tt, set_txn (Some (c_db c')) c')
                 | Some _ => (Throw (sq_errmsg NestedTransaction), c')
                 end) c
  else (Throw "db closed", c).

(** [Transaction::commit()]. *)
Definition commit : M (Conn D) unit := sq_io (λ c, (Ok tt, set_txn None c)).

(** [Transaction::~Transaction()]: [ROLLBACK] unless committed. *)
Definition rollback_if_open (c : Conn D) : Conn D :=
  match c_txn c with
  | Some d => mkConn (c_open c) d None (c_changes c) (c_io c) (c_tick c)
  | None => c
  end.

(** Leaving the scope of a [Transaction], by return or by exception, runs its destructor; process
    death does not. *)
Definition with_destructor {A} (body : M (Conn D) A) : M (Conn D) A := λ c,
  match body c with
  | (Ok a, c') => (Ok a, rollback_if_open c')
  | (Throw e, c') => (Throw e, rollback_if_open c')
  | (Killed, c') => (Killed, c')
  end.

(** A block that starts with [Transaction tx(db)]. *)
Definition scoped_transaction {A} (body : M (Conn D) A) : M (Conn D) A :=
  begin_immediate;; with_destructor body.
End calls.

(** ** Proof rules *)

(** Weakest precondition over the three ways to end. *)
Definition wp {S A} (m : M S A) (Q : A → S → Prop) (R : string → S → Prop) (K : S → Prop)
    (s : S) : Prop :=
  match m s with
  | (Ok a, s') => Q a s'
  | (Throw e, s') => R e s'
  | (Killed, s') => K s'
  end.

Lemma wp_bind {S A B} (m : M S A) (k : A → M S B) Q R K s :
  wp m (λ a s', wp (k a) Q R K s') R K s → wp (m ≫= k) Q R K s.
Proof. unfold wp, mbind, M_bind. by destruct (m s) as [[] ?]. Qed.

Lemma wp_mono {S A} (m : M S A) (Q Q' : A → S → Prop) (R R' : string → S → Prop)
    (K K' : S → Prop) s :
  wp m Q R K s → (∀ a s', Q a s' → Q' a s') → (∀ e s', R e s' → R' e s') →
  (∀ s', K s' → K' s') → wp m Q' R' K' s.
Proof. unfold wp. destruct (m s) as [[] ?]; eauto. Qed.

(** A computation that is known to return. *)
Lemma wp_returns {S A} (m : M S A) (Q : A → S → Prop) (R : string → S → Prop) (K : S → Prop) s a :
  wp m Q R K s → fst (m s) = Ok a → Q a (snd (m s)).
Proof. unfold wp. destruct (m s) as [[] ?]; simpl; congruence. Qed.

Lemma wp_try_err {S A} (m : M S A) (Q : string + A → S → Prop) R K s :
  wp m (λ a s', Q (inr a) s') (λ e s', Q (inl e) s') K s → wp (try_err m) Q R K s.
Proof. unfold wp, try_err. by destruct (m s) as [[] ?]. Qed.

Section rules.
Context `{E : Env} {D : Type}.
Implicit Types (c : Conn D) (d : D) (q t : nat) (ch : Z) (tx : option D).

(** The connection is open, sees [d] (inside the transaction [tx], if any), last changed [ch]
    rows, has read the clock [t] times and made at least [q] calls. *)
Definition at_state q tx d ch t c : Prop :=
  c_open c = true ∧ c_txn c = tx ∧ (q ≤ c_io c)%nat ∧
  c_db c = d ∧ c_changes c = ch ∧ c_tick c = t.

(** *** Calls that leave the contents alone *)

(** [m] changes nothing but the counters: it returns [val] of the state it starts from after
    [dt] clock readings, or throws because a call failed, or the process dies. *)
Class EffectFree {A} (m : M (Conn D) A) (val : D → Z → nat → A) (dt : nat) : Prop :=
  effect_free q tx d ch t c : at_state q tx d ch t c →
    wp m (λ a c', a = val d ch t ∧ at_state q tx d ch (dt + t) c')
         (λ e c', ¬ quiet_from q ∧ ∃ t', at_state q tx d ch t' c')
         (λ c', ∃ t', at_state q tx d ch t' c') c.

Lemma at_state_bump q tx d ch t c : at_state q tx d ch t c → at_state q tx d ch t (bump c).
Proof. intros (?&?&?&?&?&?). repeat split; simpl; auto. Qed.

Lemma not_quiet q n f : (q ≤ n)%nat → sq_fault n = Some f → ¬ quiet_from q.
Proof. intros Hn Hf Hq. rewrite Hq in Hf; done. Qed.

#[export] Instance effect_free_call : EffectFree sq_call (λ _ _ _, tt) 0.
Proof.
  intros q tx d ch t c Hc. pose proof (at_state_bump _ _ _ _ _ _ Hc) as Hb.
  destruct Hc as (_&_&Hq&_). unfold wp, sq_call, sq_io.
  destruct (sq_fault (c_io c)) as [[m|[]]|] eqn:Hf; simpl; eauto using not_quiet.
Qed.

#[export] Instance effect_free_prepare : EffectFree prepare (λ _ _ _, tt) 0.
Proof.
  intros q tx d ch t c Hc. unfold wp, prepare. destruct Hc as [Ho Hc'] eqn:E'. rewrite Ho.
  by apply effect_free_call.
Qed.

#[export] Instance effect_free_bind what : EffectFree (bind_call what) (λ _ _ _, tt) 0.
Proof.
  intros q tx d ch t c Hc. pose proof (effect_free_call q tx d ch t c Hc) as Hw.
  unfold wp in *. unfold bind_call. destruct (sq_call c) as [[] ?]; done.
Qed.

#[export] Instance effect_free_read {A} (f : D → A) : EffectFree (sq_read f) (λ d _ _, f d) 0.
Proof. intros q tx d ch t c (?&?&?&Hd&?). unfold wp. simpl. by rewrite Hd. Qed.

#[export] Instance effect_free_changes : EffectFree sqlite3_changes (λ _ ch _, ch) 0.
Proof. intros q tx d ch t c (?&?&?&?&Hch&?). unfold wp. simpl. by rewrite Hch. Qed.

#[export] Instance effect_free_now : EffectFree wall_now_ms (λ _ _ t, clock t) 1.
Proof.
  intros q tx d ch t c (?&?&?&?&?&Ht). unfold wp, wall_now_ms. rewrite Ht.
  repeat split; simpl; auto.
Qed.

Lemma effect_free_seq {A B} (m : M (Conn D) A) (k : A → M (Conn D) B) val dt val' dt' :
  EffectFree m val dt → (∀ a, EffectFree (k a) (val' a) dt') →
  EffectFree (m ≫= k) (λ d ch t, val' (val d ch t) d ch (dt + t)%nat) (dt' + dt).
Proof.
  intros Hm Hk q tx d ch t c Hc. apply wp_bind.
  eapply wp_mono; [exact (Hm q tx d ch t c Hc)| |done|done].
  intros a c' [-> Hc']. rewrite <- Nat.add_assoc. exact (Hk _ _ _ _ _ _ _ Hc').
Qed.

#[export] Instance effect_free_query {A} (f : D → A) : EffectFree (query f) (λ d _ _, f d) 0.
Proof. exact (effect_free_seq _ _ _ _ _ _ effect_free_call (λ _, effect_free_read f)). Qed.

#[export] Instance effect_free_ret {A} (a : A) : EffectFree (mret a) (λ _ _ _, a) 0.
Proof. intros q tx d ch t c Hc. done. Qed.

#[export] Instance effect_free_rows {A} (rows : list A) :
  EffectFree (step_rows rows) (λ _ _ _, rows) 0.
Proof.
  induction rows as [|r rows IH]; simpl.
  - exact (effect_free_seq _ _ _ _ _ _ effect_free_call (λ _, effect_free_ret [])).
  - refine (effect_free_seq _ _ _ 0%nat (λ _ _ _ _, r :: rows) 0%nat effect_free_call _).
    intros _. exact (effect_free_seq _ _ _ _ (λ l _ _ _, r :: l) _ IH
      (λ l, effect_free_ret (r :: l))).
Qed.

(** *** Code inside a transaction *)

(** Code inside a transaction begun at [d0]: it ends with [Q] of its result and of what the
    connection sees; or it throws, with a message satisfying [R] when no call failed; or the
    process dies. In every case the transaction is still open, so nothing is durable yet. *)
Definition txwp {A} q d0 (m : M (Conn D) A) (Q : A → D → Z → nat → Prop) (R : string → Prop)
    d ch t : Prop :=
  ∀ c, at_state q (Some d0) d ch t c →
  wp m (λ a c', ∃ d' ch' t', at_state q (Some d0) d' ch' t' c' ∧ Q a d' ch' t')
       (λ e c', c_open c' = true ∧ c_txn c' = Some d0 ∧ (quiet_from q → R e))
       (λ c', c_txn c' = Some d0) c.

Lemma txwp_bind {A B} q d0 (m : M (Conn D) A) (k : A → M (Conn D) B) Q R d ch t :
  txwp q d0 m (λ a d' ch' t', txwp q d0 (k a) Q R d' ch' t') R d ch t →
  txwp q d0 (m ≫= k) Q R d ch t.
Proof.
  intros Hm c Hc. apply wp_bind. eapply wp_mono; [exact (Hm c Hc)| |done|done].
  intros a c' (d' & ch' & t' & Hc' & Hk). exact (Hk c' Hc').
Qed.

Lemma txwp_ret {A} q d0 (a : A) (Q : A → D → Z → nat → Prop) R d ch t :
  Q a d ch t → txwp q d0 (mret a) Q R d ch t.
Proof. intros HQ c Hc. unfold wp. simpl. eauto 10. Qed.

Lemma txwp_free {A} q d0 (m : M (Conn D) A) val dt (Q : A → D → Z → nat → Prop) R d ch t :
  EffectFree m val dt → Q (val d ch t) d ch (dt + t)%nat → txwp q d0 m Q R d ch t.
Proof.
  intros Hm HQ c Hc. eapply wp_mono; [exact (Hm _ _ _ _ _ c Hc)|..].
  - intros a c' [-> Hc']. eauto 10.
  - intros e c' (Hn & t' & ?&?&_). done.
  - intros c' (t' & ?&?&_). done.
Qed.

(** The rules below run the first computation of a sequence. *)
Lemma txwp_step {A B} q d0 (m : M (Conn D) A) (k : A → M (Conn D) B) val dt Q R d ch t :
  EffectFree m val dt → txwp q d0 (k (val d ch t)) Q R d ch (dt + t)%nat →
  txwp q d0 (m ≫= k) Q R d ch t.
Proof. intros Hm Hk. apply txwp_bind. by eapply txwp_free. Qed.

Lemma txwp_throw {A} q d0 what (Q : A → D → Z → nat → Prop) (R : string → Prop) d ch t :
  R what → txwp q d0 (throw what) Q R d ch t.
Proof. intros HR c (?&?&?). unfold wp. simpl. auto. Qed.

Lemma txwp_ensure {B} q d0 (P : Prop) `{!Decision P} what (k : unit → M (Conn D) B) Q
    (R : string → Prop) d ch t :
  (¬ P → R what) → (P → txwp q d0 (k tt) Q R d ch t) →
  txwp q d0 (ensure P what ≫= k) Q R d ch t.
Proof.
  intros HR HQ. apply txwp_bind. unfold ensure. case_decide; [apply txwp_ret|apply txwp_throw];
    auto.
Qed.

Lemma txwp_ensure_last q d0 (P : Prop) `{!Decision P} what (Q : unit → D → Z → nat → Prop)
    (R : string → Prop) d ch t :
  (¬ P → R what) → (P → Q tt d ch t) → txwp q d0 (ensure P what) Q R d ch t.
Proof. intros HR HQ. unfold ensure. case_decide; [apply txwp_ret|apply txwp_throw]; auto. Qed.

Lemma txwp_exec {B} q d0 f (k : unit → M (Conn D) B) Q (R : string → Prop) d ch t :
  match f d with
  | inl e => R (sq_errmsg e)
  | inr (d', n) => txwp q d0 (k tt) Q R d' n t
  end → txwp q d0 (sq_exec f ≫= k) Q R d ch t.
Proof.
  intros Hf. apply txwp_bind. intros c Hc. pose proof (at_state_bump _ _ _ _ _ _ Hc) as Hb.
  destruct Hc as (Ho & Ht & Hq & Hd & Hch & Htk). unfold wp, sq_exec, sq_io.
  destruct (sq_fault (c_io c)) as [[m|[]]|] eqn:Hfl; simpl; try rewrite Hd.
  - repeat split; auto. intros Hn. by destruct (not_quiet _ _ _ Hq Hfl Hn).
  - by destruct (f d) as [e|[d' n]].
  - done.
  - destruct (f d) as [e|[d' n]]; simpl; [done|]. exists d', n, t.
    split; [|exact Hf]. destruct Hb as (?&?&?&_&_&?). by split_and!.
Qed.

Lemma txwp_exec_last q d0 f Q (R : string → Prop) d ch t :
  match f d with
  | inl e => R (sq_errmsg e)
  | inr (d', n) => Q tt d' n t
  end → txwp q d0 (sq_exec f) Q R d ch t.
Proof.
  intros Hf c Hc. pose proof (txwp_exec q d0 f mret Q R d ch t) as Hx.
  assert (match f d with inl e => R (sq_errmsg e)
          | inr (d', n) => txwp q d0 (mret tt) Q R d' n t end) as Hf'.
  { destruct (f d) as [?|[? ?]]; [done|]. by apply txwp_ret. }
  specialize (Hx Hf' c Hc). unfold wp in *. unfold mbind, M_bind in Hx.
  by destruct (sq_exec f c) as [[] ?].
Qed.

(** *** Read-only code outside a transaction *)

Definition reads {A} (m : M (Conn D) A) (val : D → nat → A) : Prop :=
  ∀ c, c_open c = true → c_txn c = None →
  wp m (λ a c', a = val (c_db c) (c_tick c) ∧ c_open c' = true ∧ c_txn c' = None ∧
                c_db c' = c_db c)
       (λ e c', ¬ quiet_from (c_io c) ∧ c_open c' = true ∧ c_txn c' = None ∧ c_db c' = c_db c)
       (λ c', durable c' = c_db c) c.

Lemma at_state_self c :
  c_open c = true → at_state (c_io c) (c_txn c) (c_db c) (c_changes c) (c_tick c) c.
Proof. by repeat split. Qed.
End rules.

(** ** Methods that answer true or false: refinement of a specification *)

Section refinement.
Context `{E : Env} {D : Type}.

(** What a method promises, as a function of the contents and of the clock position: the message
    of a refusal, or its result and the contents it commits. *)
Definition Spec (A : Type) : Type := D → nat → string + (A * D).

(** [m], called on an open connection outside a transaction with contents satisfying [Pre], does what [spec] says and nothing
    in between: it returns true exactly with the committed effect of [spec]; when it returns
    false the contents are untouched, and the message is the one of [spec] if no call failed;
    it never lets an exception escape; and if the process dies in it, the file holds either the
    old contents or the complete effect. *)
Definition refines {A} (Pre : D → Prop) (m : M (Conn D) (string + A)) (spec : Spec A) : Prop :=
  ∀ c, c_open c = true → c_txn c = None → Pre (c_db c) →
  wp m (λ res c', c_open c' = true ∧ c_txn c' = None ∧
          match res with
          | inr a => spec (c_db c) (c_tick c) = inr (a, c_db c')
          | inl e => c_db c' = c_db c ∧
                     (quiet_from (c_io c) → spec (c_db c) (c_tick c) = inl e)
          end)
       (λ _ _, False)
       (λ c', durable c' = c_db c ∨
              ∃ a, spec (c_db c) (c_tick c) = inr (a, durable c')) c.

Lemma wp_with_destructor {A} (body : M (Conn D) A) Q R K c :
  wp body (λ a c', Q a (rollback_if_open c')) (λ e c', R e (rollback_if_open c')) K c →
  wp (with_destructor body) Q R K c.
Proof. unfold wp, with_destructor. by destruct (body c) as [[] ?]. Qed.

(** A method of the form [try { Statement q(db, UPDATE); bind...; q.done(); if (...) throw;
    return true; }], outside any transaction, started at [d] and meant to answer [r]. *)
Definition acwp {A} q (d : D) (r : string + (A * D)) (m : M (Conn D) A) ch t : Prop :=
  ∀ c, at_state q None d ch t c →
  wp m (λ a c', c_open c' = true ∧ c_txn c' = None ∧ r = inr (a, c_db c'))
       (λ e c', c_open c' = true ∧ c_txn c' = None ∧ c_db c' = d ∧ (quiet_from q → r = inl e))
       (λ c', durable c' = d ∨ ∃ a, r = inr (a, durable c')) c.

(** A [Transaction] block at the end of a method. *)
Lemma acwp_transaction {A} q d r (body : M (Conn D) A) ch t :
  txwp q d body (λ a d' _ _, r = inr (a, d')) (λ e, r = inl e) d ch t →
  acwp q d r (scoped_transaction (a ← body; commit;; mret a)) ch t.
Proof.
  intros Hbody c (Ho & Ht & Hq & Hd & Hch & Htk). unfold scoped_transaction. apply wp_bind.
  unfold begin_immediate, wp at 1. rewrite Ho. unfold sq_io.
  destruct (sq_fault (c_io c)) as [[m|[]]|] eqn:Hf; simpl; rewrite ?Ht; simpl.
  - split_and!; [done..|]. intros Hn. by destruct (not_quiet _ _ _ Hq Hf Hn).
  - by left.
  - left. unfold durable. simpl. by rewrite Ht.
  - apply wp_with_destructor, wp_bind. rewrite Hd.
    assert (at_state q (Some d) d ch t (set_txn (Some d) (bump c))) as Hc1
      by (repeat split; simpl; auto).
    eapply wp_mono; [exact (Hbody _ Hc1)|..].
    + intros a c2 (d' & ch' & t' & (Ho2 & Ht2 & Hq2 & Hd2 & _) & Hspec). subst d'.
      apply wp_bind. unfold wp, commit, sq_io.
      destruct (sq_fault (c_io c2)) as [[m|[]]|] eqn:Hf2; simpl.
      * unfold rollback_if_open. simpl. rewrite Ht2. simpl. split_and!; [done..|].
        intros Hn. by destruct (not_quiet _ _ _ Hq2 Hf2 Hn).
      * right. eauto.
      * left. unfold durable. simpl. by rewrite Ht2.
      * auto.
    + intros e c2 (Ho2 & Ht2 & HR). unfold rollback_if_open. rewrite Ht2. simpl. auto.
    + intros c2 Ht2. left. unfold durable. by rewrite Ht2.
Qed.

Lemma acwp_assoc {A B C} q d r (m : M (Conn D) A) (f : A → M (Conn D) B) (g : B → M (Conn D) C) ch t :
  acwp q d r (m ≫= λ x, f x ≫= g) ch t → acwp q d r ((m ≫= f) ≫= g) ch t.
Proof.
  intros Hm c Hc. specialize (Hm c Hc). unfold wp, mbind, M_bind in *. by destruct (m c) as [[] ?].
Qed.

Lemma acwp_ensure {B} q d r (P : Prop) `{!Decision P} what (k : unit → M (Conn D) B) ch t :
  (¬ P → r = inl what) → (P → acwp q d r (k tt) ch t) →
  acwp q d r (ensure P what ≫= k) ch t.
Proof.
  intros HR HQ c Hc. apply wp_bind. unfold ensure. case_decide; [by apply HQ|].
  destruct Hc as (?&?&_&?&_). unfold wp. simpl. auto.
Qed.

Lemma acwp_step {A B} q d r (m : M (Conn D) A) (k : A → M (Conn D) B) val dt ch t :
  EffectFree m val dt → acwp q d r (k (val d ch t)) ch (dt + t)%nat →
  acwp q d r (m ≫= k) ch t.
Proof.
  intros Hm Hk c Hc. apply wp_bind. eapply wp_mono; [exact (Hm _ _ _ _ _ c Hc)|..].
  - intros a c' [-> Hc']. exact (Hk c' Hc').
  - intros e c' (Hn & t' & ?&?&?&?&_). split_and!; [done..|]. intros Hq. destruct (Hn Hq).
  - intros c' (t' & ?&Htx&?&?&_). left. unfold durable. by rewrite Htx.
Qed.

(** The UPDATE and the test of its row count that follows it. An UPDATE whose row count is
    refused must have changed nothing, because it is already durable. *)
Lemma acwp_exec {A} q d r f (post : M (Conn D) A) (verdict : Z → string + A) ch t :
  (∀ c, post c = match verdict (c_changes c) with
                 | inr a => (Ok a, c)
                 | inl what => (Throw what, c)
                 end) →
  match f d with
  | inl e => r = inl (sq_errmsg e)
  | inr (d', n) => match verdict n with
                   | inr a => r = inr (a, d')
                   | inl what => d' = d ∧ r = inl what
                   end
  end → acwp q d r (sq_exec f;; post) ch t.
Proof.
  intros Hpost Hf c (Ho & Ht & Hq & Hd & Hch & Htk). unfold wp, sq_exec, sq_io, mbind, M_bind.
  destruct (sq_fault (c_io c)) as [[m|[]]|] eqn:Hfl; simpl; rewrite ?Hd.
  - split_and!; [done..|]. intros Hn. by destruct (not_quiet _ _ _ Hq Hfl Hn).
  - unfold durable. destruct (f d) as [e|[d' n]]; simpl; rewrite Ht; simpl; [by left|].
    destruct (verdict n); naive_solver.
  - left. unfold durable. simpl. by rewrite Ht.
  - destruct (f d) as [e|[d' n]]; simpl; [naive_solver|]. rewrite Hpost. simpl.
    destruct (verdict n); naive_solver.
Qed.

(** The test of the row count that most methods end with. *)
Lemma changes_verdict {A} (P : Z → Prop) `{!∀ n, Decision (P n)} what (a : A) (c : Conn D) :
  (n ← sqlite3_changes; ensure (P n) what;; mret a) c =
  match (if decide (P (c_changes c)) then inr a else inl what) with
  | inr a => (Ok a, c)
  | inl what => (Throw what, c)
  end.
Proof. unfold ensure, sqlite3_changes, mbind, M_bind. by destruct (decide _). Qed.

Lemma changes_run (c : Conn D) : sqlite3_changes c = (Ok (c_changes c), c).
Proof. done. Qed.

Lemma refines_autocommit {A} (Pre : D → Prop) (m : M (Conn D) A) (spec : Spec A) :
  (∀ q d ch t, Pre d → acwp q d (spec d t) m ch t) → refines Pre (try_err m) spec.
Proof.
  intros Hm c Ho Ht HPre. apply wp_try_err. pose proof (at_state_self c Ho) as Hc. rewrite Ht in Hc.
  eapply wp_mono; [exact (Hm _ _ _ _ HPre c Hc)|..]; naive_solver.
Qed.

(** A method of the form [try { Transaction tx(db); body; tx.commit(); return true; }]. *)
Lemma refines_transaction {A} (Pre : D → Prop) (body : M (Conn D) A) (spec : Spec A) :
  (∀ q d ch t, Pre d →
     txwp q d body (λ a d' _ _, spec d t = inr (a, d')) (λ e, spec d t = inl e) d ch t) →
  refines Pre (try_err (scoped_transaction (a ← body; commit;; mret a))) spec.
Proof.
  intros Hbody. apply refines_autocommit. intros q d ch t HPre. apply acwp_transaction. by apply Hbody.
Qed.

(** Whatever fails or dies inside a method that refines [spec], a property of the contents that
    [spec] preserves still holds of the file. *)
Lemma refines_invariant {A} (Pre : D → Prop) (m : M (Conn D) (string + A)) (spec : Spec A)
    (I : D → Prop) c :
  refines Pre m spec → c_open c = true → c_txn c = None → Pre (c_db c) → I (c_db c) →
  (∀ a d', spec (c_db c) (c_tick c) = inr (a, d') → I d') →
  I (durable (snd (m c))).
Proof.
  intros Hm Ho Ht HPre HI Hspec. specialize (Hm c Ho Ht HPre). unfold wp in Hm.
  destruct (m c) as [[[e|a]|e|] c']; simpl in *.
  - destruct Hm as (_ & Htx & Hd & _). unfold durable. by rewrite Htx, Hd.
  - destruct Hm as (_ & Htx & ?). unfold durable. rewrite Htx. simpl. eauto.
  - done.
  - destruct Hm as [->|[a ?]]; [done|]. eauto.
Qed.

(** On a connection that was never opened or was closed, the wrappers refuse. *)
Lemma closed_transaction {A} (body : M (Conn D) A) c :
  c_open c = false → try_err (scoped_transaction body) c = (Ok (inl "db closed"), c).
Proof.
  intros Ho. unfold try_err, scoped_transaction, mbind, M_bind, begin_immediate. by rewrite Ho.
Qed.

Lemma closed_statement {A} (k : unit → M (Conn D) A) c :
  c_open c = false → try_err (prepare ≫= k) c = (Ok (inl "db closed"), c).
Proof. intros Ho. unfold try_err, mbind, M_bind, prepare. by rewrite Ho. Qed.
End refinement.

#[global] Opaque sq_call sq_exec sq_read query prepare bind_call sqlite3_changes wall_now_ms.

(** Runs the next computation of a sequence inside a transaction. *)
Ltac tx_step :=
  lazymatch goal with
  | |- txwp _ _ (ensure _ _ ≫= _) _ _ _ _ _ => apply txwp_ensure
  | |- txwp _ _ (ensure _ _) _ _ _ _ _ => apply txwp_ensure_last
  | |- txwp _ _ (sq_exec _ ≫= _) _ _ _ _ _ => apply txwp_exec
  | |- txwp _ _ (sq_exec _) _ _ _ _ _ => apply txwp_exec_last
  | |- txwp _ _ (throw _) _ _ _ _ _ => apply txwp_throw
  | |- txwp _ _ (throw _ ≫= _) _ _ _ _ _ => apply txwp_bind, txwp_throw
  | |- txwp _ _ (mret _) _ _ _ _ _ => apply txwp_ret
  | |- txwp _ _ (mret _ ≫= _) _ _ _ _ _ => apply txwp_bind, txwp_ret
  | |- txwp _ _ ((_ ≫= _) ≫= _) _ _ _ _ _ => apply txwp_bind
  | |- txwp _ _ (_ ≫= _) _ _ _ _ _ => eapply txwp_step; [apply _|]
  end; cbv beta; cbn [Nat.add].
(** Runs the next computation of an autocommit method. *)
Ltac ac_step :=
  lazymatch goal with
  | |- acwp _ _ _ ((_ ≫= _) ≫= _) _ _ => apply acwp_assoc
  | |- acwp _ _ _ (ensure _ _ ≫= _) _ _ => apply acwp_ensure
  | |- acwp _ _ _ (_ ≫= _) _ _ => eapply acwp_step; [apply _|]
  end; cbv beta; cbn [Nat.add].

Ltac tx_run := repeat tx_step.
