(* ===== verification/Tables.v ===== *)
(** The data of the outbox: the C++ structs of include/kafka_outbox.hpp, and the SQLite tables that
    src/kafka_outbox.cpp creates, with the conditions its statements test.

    A table with a rowid order that a query depends on ([outbox]) is the list of its rows in rowid
    order; a table addressed by its primary key only is a finite map. A nullable column is an
    option. *)
From S2P Require Import Prelude.

(** ** The C++ side *)

Inductive OutboxState := Pending | InFlight | Dead.
#[export] Instance OutboxState_eq_dec : EqDecision OutboxState.
Proof. solve_decision. Defined.

Record OutboxRecord := mkRecord {
  event_id : string;
  topic : string;
  msg_key : string;
  payload : string;
  state : OutboxState;
  attempts : Z;
  next_attempt_at_ms : Z;
  last_error : string;
  created_at_ms : Z;
  updated_at_ms : Z;
  call_uuid : string;
  call_seq : Z;
}.

Record OutboxStats := mkStats { pending : Z; in_flight : Z; dead : Z; total_bytes : Z }.

(** [Outbox::Impl]'s limits, set by the constructor. *)
Record Limits := mkLimits { max_rows : Z; max_bytes : Z }.

(** ** The SQL side *)

(** A row of [outbox]. *)
Record Row := mkRow {
  r_event_id : string;
  r_topic : string;
  r_msg_key : option string;
  r_payload : string;
  r_state : string;
  r_attempts : Z;
  r_next_attempt_at_ms : Z;
  r_last_error : option string;
  r_created_at_ms : Z;
  r_updated_at_ms : Z;
  r_call_uuid : option string;
  r_call_seq : option Z;
  r_eligible_at_ms : option Z;
}.
#[export] Instance Row_eq_dec : EqDecision Row.
Proof. solve_decision. Defined.

(** A row of [call_streams], under its primary key [(topic, call_uuid)]. *)
Record Stream := mkStream {
  s_msg_key : string;
  s_mode : string;
  s_next_seq : Z;
  s_admit_seq : Z;
  s_last_served_ms : Z;
}.

(** A row of [retired_calls], under its primary key [(topic, call_uuid)]. *)
Record Retired := mkRetired {
  t_msg_key : string;
  t_next_seq : Z;
  t_retired_at_ms : Z;
  t_reason : string;
}.

Abbreviation CallKey := (string * string)%type.

(** The database file: its schema, then its tables. [order_scheduler] has at most one row, by its
    CHECK (id=1). *)
Record Db := mkDb {
  user_version : Z;
  has_table : bool;          (** the table [outbox] exists *)
  has_seq : bool;            (** it has the column [call_seq] *)
  has_eligible : bool;       (** it has the column [eligible_at_ms] *)
  has_seq_index : bool;      (** the unique index [idx_outbox_seq] exists *)
  outbox : list Row;
  call_streams : gmap CallKey Stream;
  retired_calls : gmap CallKey Retired;
  order_scheduler : option Z;
}.

#[export] Instance Stream_eq_dec : EqDecision Stream.
Proof. solve_decision. Defined.
#[export] Instance Retired_eq_dec : EqDecision Retired.
Proof. solve_decision. Defined.
#[export] Instance Db_eq_dec : EqDecision Db.
Proof. solve_decision. Defined.

Definition set_outbox (f : list Row → list Row) (d : Db) : Db :=
  mkDb (user_version d) (has_table d) (has_seq d) (has_eligible d) (has_seq_index d)
    (f (outbox d)) (call_streams d) (retired_calls d) (order_scheduler d).
Definition set_streams (f : gmap CallKey Stream → gmap CallKey Stream) (d : Db) : Db :=
  mkDb (user_version d) (has_table d) (has_seq d) (has_eligible d) (has_seq_index d)
    (outbox d) (f (call_streams d)) (retired_calls d) (order_scheduler d).
Definition set_scheduler (t : option Z) (d : Db) : Db :=
  mkDb (user_version d) (has_table d) (has_seq d) (has_eligible d) (has_seq_index d)
    (outbox d) (call_streams d) (retired_calls d) t.

(** *** Column updates *)

Definition with_state (st : string) (now : Z) (r : Row) : Row :=
  mkRow (r_event_id r) (r_topic r) (r_msg_key r) (r_payload r) st (r_attempts r)
    (r_next_attempt_at_ms r) (r_last_error r) (r_created_at_ms r) now (r_call_uuid r)
    (r_call_seq r) (r_eligible_at_ms r).
Definition with_attempts (n : Z) (r : Row) : Row :=
  mkRow (r_event_id r) (r_topic r) (r_msg_key r) (r_payload r) (r_state r) n
    (r_next_attempt_at_ms r) (r_last_error r) (r_created_at_ms r) (r_updated_at_ms r)
    (r_call_uuid r) (r_call_seq r) (r_eligible_at_ms r).
Definition with_next_attempt (t : Z) (r : Row) : Row :=
  mkRow (r_event_id r) (r_topic r) (r_msg_key r) (r_payload r) (r_state r) (r_attempts r)
    t (r_last_error r) (r_created_at_ms r) (r_updated_at_ms r)
    (r_call_uuid r) (r_call_seq r) (r_eligible_at_ms r).
Definition with_error (e : string) (r : Row) : Row :=
  mkRow (r_event_id r) (r_topic r) (r_msg_key r) (r_payload r) (r_state r) (r_attempts r)
    (r_next_attempt_at_ms r) (Some e) (r_created_at_ms r) (r_updated_at_ms r)
    (r_call_uuid r) (r_call_seq r) (r_eligible_at_ms r).
Definition with_eligible (t : Z) (r : Row) : Row :=
  mkRow (r_event_id r) (r_topic r) (r_msg_key r) (r_payload r) (r_state r) (r_attempts r)
    (r_next_attempt_at_ms r) (r_last_error r) (r_created_at_ms r) (r_updated_at_ms r)
    (r_call_uuid r) (r_call_seq r) (Some t).

Definition with_next_seq (n : Z) (s : Stream) : Stream :=
  mkStream (s_msg_key s) (s_mode s) n (s_admit_seq s) (s_last_served_ms s).
Definition with_admit_seq (n : Z) (s : Stream) : Stream :=
  mkStream (s_msg_key s) (s_mode s) (s_next_seq s) n (s_last_served_ms s).
Definition with_last_served (t : Z) (s : Stream) : Stream :=
  mkStream (s_msg_key s) (s_mode s) (s_next_seq s) (s_admit_seq s) t.

(** *** Conditions shared by the statements *)

(** [COALESCE(call_uuid,'')='']. *)
Definition ungrouped (r : Row) : Prop := coalesce "" (r_call_uuid r) = "".
#[export] Instance ungrouped_dec r : Decision (ungrouped r).
Proof. unfold ungrouped. apply _. Defined.

(** The stream a row joins with, ON [o.topic=s.topic AND o.call_uuid=s.call_uuid]. *)
Definition stream_of (d : Db) (r : Row) : option Stream :=
  u ← r_call_uuid r; call_streams d !! (r_topic r, u).

(** [call_seq=(SELECT next_seq FROM call_streams s WHERE s.topic=outbox.topic AND
    s.call_uuid=outbox.call_uuid)]. *)
Definition is_head (d : Db) (r : Row) : Prop :=
  sql_eq (r_call_seq r) (s_next_seq <$> stream_of d r).
#[export] Instance is_head_dec d r : Decision (is_head d r).
Proof. unfold is_head. apply _. Defined.

(** The condition that every statement about sendable rows repeats. *)
Definition deliverable (d : Db) (r : Row) : Prop := ungrouped r ∨ is_head d r.
#[export] Instance deliverable_dec d r : Decision (deliverable d r).
Proof. unfold deliverable. apply _. Defined.

(** [count( * )] and [COALESCE(sum(length(payload)),0)] of [outbox]. *)
Definition row_count (d : Db) : Z := Z.of_nat (length (outbox d)).
Definition payload_bytes (rows : list Row) : Z :=
  foldr (λ r n, Z.of_nat (String.length (r_payload r)) + n) 0 rows.

(** [record(Statement&)]: the columns of a result row as an [OutboxRecord]. A NULL text is the
    empty string; a state other than 'in_flight' and 'dead' reads as pending. *)
Definition record (r : Row) : OutboxRecord :=
  mkRecord (r_event_id r) (r_topic r) (coalesce "" (r_msg_key r)) (r_payload r)
    (if decide (r_state r = "in_flight") then InFlight
     else if decide (r_state r = "dead") then Dead else Pending)
    (to_int32 (r_attempts r)) (r_next_attempt_at_ms r) (coalesce "" (r_last_error r))
    (r_created_at_ms r) (r_updated_at_ms r) (coalesce "" (r_call_uuid r))
    (coalesce (-1) (r_call_seq r)).
