(* ===== verification/Outbox.v ===== *)
(** The operations of class [Outbox] (src/kafka_outbox.cpp), statement by statement: every prepare,
    bind and step is a call that may fail, [Transaction] blocks are scoped, clock readings happen
    where the code takes them. A method that returns false with [err] set answers [inl err]; one
    that returns true answers [inr]. The mutex [Impl::mu], held for the whole of each method,
    makes each of them one step of the process. *)
From S2P Require Import Prelude Sqlite Tables.

Section outbox.
Context `{E : Env}.
Implicit Types (d : Db) (id : string).
Abbreviation DbM := (M (Conn Db)).

(** *** Admission *)

(** The capacity test, made twice by [insert_pending]. *)
Definition over_capacity (lim : Limits) (rec : OutboxRecord) d : Prop :=
  max_rows lim ≤ row_count d ∨
  max_bytes lim < payload_bytes (outbox d) + Z.of_nat (String.length (payload rec)).
#[global] Instance over_capacity_dec lim rec d : Decision (over_capacity lim rec d).
Proof. unfold over_capacity. apply _. Defined.

(** [DELETE FROM outbox WHERE state='dead' AND last_error='expired_ttl' AND
    COALESCE(call_uuid,'')='']. *)
Definition reclaimable (r : Row) : Prop :=
  r_state r = "dead" ∧ r_last_error r = Some "expired_ttl" ∧ ungrouped r.
#[global] Instance reclaimable_dec r : Decision (reclaimable r).
Proof. unfold reclaimable. apply _. Defined.
Definition reclaim_expired d : SqError + (Db * Z) :=
  inr (set_outbox (delete_where reclaimable) d, count_where reclaimable (outbox d)).

(** [INSERT INTO call_streams(topic,call_uuid,msg_key,mode)]: the other columns default to 0. *)
Definition create_stream (k : CallKey) (key mode : string) d : SqError + (Db * Z) :=
  match call_streams d !! k with
  | Some _ => inl (UniqueConstraint "call_streams.topic, call_streams.call_uuid")
  | None => inr (set_streams <[k := mkStream key mode 0 0 0]> d, 1)
  end.

(** [UPDATE call_streams SET admit_seq=MAX(admit_seq,?) WHERE topic=? AND call_uuid=?]. *)
Definition raise_admit_seq (n : Z) (k : CallKey) d : SqError + (Db * Z) :=
  inr (set_streams (alter (λ s, with_admit_seq (Z.max (s_admit_seq s) n) s) k) d,
       if decide (is_Some (call_streams d !! k)) then 1 else 0).

(** The row of the INSERT, and the INSERT under the primary key and the unique index (in which
    NULLs are distinct). *)
Definition pending_row (rec : OutboxRecord) (seq now : Z) (deliverable_now : bool) : Row :=
  mkRow (event_id rec) (topic rec) (Some (msg_key rec)) (payload rec) "pending" 0
    (if decide (next_attempt_at_ms rec = 0) then now else next_attempt_at_ms rec) (Some "")
    now now (Some (call_uuid rec))
    (if decide (call_uuid rec = "") then None else Some seq)
    (if deliverable_now then Some now else None).
Definition same_seq (r r' : Row) : Prop :=
  r_topic r = r_topic r' ∧ sql_eq (r_call_uuid r) (r_call_uuid r') ∧
  sql_eq (r_call_seq r) (r_call_seq r').
#[global] Instance same_seq_dec r r' : Decision (same_seq r r').
Proof. unfold same_seq. apply _. Defined.
Definition insert_row (r : Row) d : SqError + (Db * Z) :=
  if decide (Exists (λ r', r_event_id r' = r_event_id r) (outbox d)) then
    inl (UniqueConstraint "outbox.event_id")
  else if decide (Exists (same_seq r) (outbox d)) then
    inl (UniqueConstraint "outbox.topic, outbox.call_uuid, outbox.call_seq")
  else inr (set_outbox (λ rows, rows ++ [r]) d, 1).

(** [seq < 0 ? "admission" : "source"]. *)
Definition order_mode (seq : Z) : string := if decide (seq < 0) then "admission" else "source".

(** Sequence allocation for an event with a call id: its sequence, and whether it is already the
    call head. *)
Definition allocate_seq (lim : Limits) (rec : OutboxRecord) : DbM (Z * bool) :=
  let k := (topic rec, call_uuid rec) in
  let seq := call_seq rec in
  let mode := order_mode seq in
  ensure (msg_key rec ≠ "") "ordered call requires nonempty key";;
  prepare;; bind_text;; bind_text;;
  row ← query (λ d, call_streams d !! k);
  '(seq', deliverable_now) ←
    match row with
    | Some s =>
        ensure (s_msg_key s = msg_key rec ∧ s_mode s = mode) "call key/order mode changed";;
        let cursor := s_next_seq s in
        if decide (seq < 0) then
          mret (s_admit_seq s, bool_decide (s_admit_seq s = cursor))
        else
          ensure (¬ seq < cursor) "source sequence already acknowledged";;
          mret (seq, bool_decide (seq = cursor))
    | None =>
        prepare;;
        n ← query (λ d, Z.of_nat (size (call_streams d)));
        ensure (n < max_rows lim)
          "stream capacity exceeded; inspect capacity; raise limit or explicitly retire proven closed calls";;
        prepare;; bind_text;; bind_text;; bind_text;; bind_text;;
        sq_exec (create_stream k (msg_key rec) mode);;
        let seq' := if decide (seq < 0) then 0 else seq in
        mret (seq', bool_decide (seq' = 0))
    end;
  ensure (0 ≤ seq' ∧ seq' ≠ int64_max) "source sequence out of range";;
  prepare;; bind_int;; bind_text;; bind_text;;
  sq_exec (raise_admit_seq (seq' + 1) k);;
  mret (seq', deliverable_now).

(** The body of [Outbox::insert_pending]: the sequence stored in [*assigned_sequence]. *)
Definition insert_pending_body (lim : Limits) (rec : OutboxRecord) : DbM Z :=
  (if decide (call_uuid rec ≠ "") then
     prepare;; bind_text;; bind_text;;
     hit ← query (λ d, retired_calls d !! (topic rec, call_uuid rec));
     ensure (hit = None) "call explicitly retired; reuse/late admission rejected"
   else mret tt);;
  prepare;;
  over ← query (λ d, bool_decide (over_capacity lim rec d));
  (if over : bool then sq_exec reclaim_expired else mret tt);;
  prepare;;
  still_over ← query (λ d, bool_decide (over_capacity lim rec d));
  ensure (still_over = false) "outbox capacity exceeded";;
  '(seq, deliverable_now) ←
    (if decide (call_uuid rec ≠ "") then allocate_seq lim rec
     else ensure (call_seq rec < 0) "source sequence requires call_uuid";;
          mret (call_seq rec, true));
  prepare;;
  now ← (if decide (created_at_ms rec ≠ 0) then mret (created_at_ms rec) else wall_now_ms);
  bind_text;; bind_text;; bind_text;; bind_call "bind payload";;
  bind_int;; bind_int;; bind_int;; bind_text;;
  (if decide (call_uuid rec = "") then mret tt else bind_int);;
  (if deliverable_now : bool then bind_int else mret tt);;
  sq_exec (insert_row (pending_row rec seq now deliverable_now));;
  mret (if decide (call_uuid rec = "") then -1 else seq).

Definition insert_pending (lim : Limits) (rec : OutboxRecord) : DbM (string + Z) :=
  try_err (scoped_transaction (a ← insert_pending_body lim rec; commit;; mret a)).

(** *** Scheduling *)

(** [WHERE o.state='pending' AND o.next_attempt_at_ms<=? AND (COALESCE(o.call_uuid,'')='' OR
    o.call_seq=s.next_seq)]. *)
Definition due (now : Z) d (r : Row) : Prop :=
  r_state r = "pending" ∧ r_next_attempt_at_ms r ≤ now ∧ deliverable d r.
#[global] Instance due_dec now d r : Decision (due now d r).
Proof. unfold due. apply _. Defined.

(** [ORDER BY COALESCE(s.last_served_ms,0),o.created_at_ms,o.rowid]. The table is in rowid order:
    the position of a row stands for its rowid. *)
Definition last_turn d (r : Row) : Z := coalesce 0 (s_last_served_ms <$> stream_of d r).
Definition rowid d (r : Row) : nat :=
  coalesce 0%nat (fst <$> list_find (λ r', r_event_id r' = r_event_id r) (outbox d)).
Definition served_before d (r r' : Row) : Prop :=
  last_turn d r < last_turn d r' ∨
  (last_turn d r = last_turn d r' ∧
   (r_created_at_ms r < r_created_at_ms r' ∨
    (r_created_at_ms r = r_created_at_ms r' ∧ (rowid d r ≤ rowid d r')%nat))).
#[global] Instance served_before_dec d r r' : Decision (served_before d r r').
Proof. unfold served_before. apply _. Defined.

(** [LIMIT ?]: a negative limit is none. *)
Definition sql_limit {A} (n : Z) (l : list A) : list A :=
  if decide (n < 0) then l else take (Z.to_nat n) l.

Definition due_rows (now limit : Z) d : list Row :=
  sql_limit limit (sort_by (served_before d) (filter (due now d) (outbox d))).

Definition fetch_due (now limit : Z) : DbM (list OutboxRecord) := λ c,
  if c_open c then
    (prepare;; bind_int;; bind_int;;
     rows ← sq_read (due_rows now limit);
     rows' ← step_rows rows; mret (record <$> rows')) c
  else (Ok [], c).

(** *** State changes *)

Definition markable id d (r : Row) : Prop :=
  r_event_id r = id ∧ r_state r = "pending" ∧ deliverable d r.
#[global] Instance markable_dec id d r : Decision (markable id d r).
Proof. unfold markable. apply _. Defined.
Definition sql_take_off id (now : Z) d : SqError + (Db * Z) :=
  inr (set_outbox (update_where (markable id d)
         (λ r, with_attempts (r_attempts r + 1) (with_state "in_flight" now r))) d,
       count_where (markable id d) (outbox d)).

(** [UPDATE order_scheduler SET turn=turn+1 WHERE id=1 AND turn<9223372036854775807]. *)
Definition sql_tick d : SqError + (Db * Z) :=
  inr match order_scheduler d with
      | Some t => if decide (t < int64_max) then (set_scheduler (Some (t + 1)) d, 1) else (d, 0)
      | None => (d, 0)
      end.

(** [UPDATE call_streams SET last_served_ms=(SELECT turn FROM order_scheduler WHERE id=1) WHERE
    (topic,call_uuid)=(SELECT topic,call_uuid FROM outbox WHERE event_id=?)]. *)
Definition row_by_id id (rows : list Row) : option Row :=
  head (filter (λ r, r_event_id r = id) rows).
Definition sql_served id d : SqError + (Db * Z) :=
  inr match r ← row_by_id id (outbox d); u ← r_call_uuid r; Some (r_topic r, u) with
      | Some k => (set_streams (alter (with_last_served (coalesce 0 (order_scheduler d))) k) d,
                   if decide (is_Some (call_streams d !! k)) then 1 else 0)
      | None => (d, 0)
      end.

Definition mark_in_flight_body id : DbM unit :=
  prepare;; now ← wall_now_ms; bind_int;; bind_text;;
  sq_exec (sql_take_off id now);;
  n ← sqlite3_changes; ensure (n = 1) "not a pending call head";;
  prepare;; sq_exec sql_tick;;
  n ← sqlite3_changes; ensure (n = 1) "scheduler turn exhausted";;
  prepare;; bind_text;; sq_exec (sql_served id);;
  mret tt.
Definition mark_in_flight id : DbM (string + unit) :=
  try_err (scoped_transaction (a ← mark_in_flight_body id; commit;; mret a)).

Definition in_flight_row id d : option Row :=
  head (filter (λ r, r_event_id r = id ∧ r_state r = "in_flight") (outbox d)).

(** [UPDATE call_streams SET next_seq=next_seq+1 WHERE topic=? AND call_uuid=? AND next_seq=?]. *)
Definition sql_advance (k : CallKey) (seq : Z) d : SqError + (Db * Z) :=
  inr match call_streams d !! k with
      | Some s => if decide (s_next_seq s = seq)
                  then (set_streams <[k := with_next_seq (s_next_seq s + 1) s]> d, 1)
                  else (d, 0)
      | None => (d, 0)
      end.

(** [UPDATE outbox SET eligible_at_ms=? WHERE topic=? AND call_uuid=? AND call_seq=? AND
    eligible_at_ms IS NULL]. *)
Definition successor (k : CallKey) (seq : Z) (r : Row) : Prop :=
  r_topic r = k.1 ∧ r_call_uuid r = Some k.2 ∧ r_call_seq r = Some seq ∧
  r_eligible_at_ms r = None.
#[global] Instance successor_dec k seq r : Decision (successor k seq r).
Proof. unfold successor. apply _. Defined.
Definition sql_promote (k : CallKey) (seq now : Z) d : SqError + (Db * Z) :=
  inr (set_outbox (update_where (successor k seq) (with_eligible now)) d,
       count_where (successor k seq) (outbox d)).

Definition sql_delete id d : SqError + (Db * Z) :=
  inr (set_outbox (delete_where (λ r, r_event_id r = id)) d,
       count_where (λ r, r_event_id r = id) (outbox d)).

Definition mark_acked_body id : DbM unit :=
  prepare;; bind_text;;
  head ← query (in_flight_row id);
  match head with
  | None => throw "ACK for non-in-flight event"
  | Some r =>
      let call := coalesce "" (r_call_uuid r) in
      let k := (r_topic r, call) in
      let seq := coalesce 0 (r_call_seq r) in
      (if decide (call ≠ "") then
         prepare;; bind_text;; bind_text;; bind_int;;
         sq_exec (sql_advance k seq);;
         n ← sqlite3_changes; ensure (n = 1) "ACK is not the call head";;
         prepare;; became_head ← wall_now_ms;
         bind_int;; bind_text;; bind_text;; bind_int;;
         sq_exec (sql_promote k (seq + 1) became_head)
       else mret tt);;
      prepare;; bind_text;; sq_exec (sql_delete id);;
      mret tt
  end.
Definition mark_acked id : DbM (string + unit) :=
  try_err (scoped_transaction (a ← mark_acked_body id; commit;; mret a)).

(** One UPDATE in autocommit mode, and its row count. *)
Definition sql_update (P : Row → Prop) `{!∀ r, Decision (P r)} (f : Row → Row) d
    : SqError + (Db * Z) :=
  inr (set_outbox (update_where P f) d, count_where P (outbox d)).

Definition in_flight_id id (r : Row) : Prop := r_event_id r = id ∧ r_state r = "in_flight".
#[global] Instance in_flight_id_dec id r : Decision (in_flight_id id r).
Proof. unfold in_flight_id. apply _. Defined.
Definition mark_retry id (next : Z) (error : string) : DbM (string + unit) :=
  try_err (
    prepare;; bind_int;; bind_text;; now ← wall_now_ms; bind_int;; bind_text;;
    sq_exec (sql_update (in_flight_id id)
      (λ r, with_error error (with_next_attempt next (with_state "pending" now r))));;
    n ← sqlite3_changes; ensure (n = 1) "retry for non-in-flight event";; mret tt).

Definition live_id id (r : Row) : Prop :=
  r_event_id r = id ∧ (r_state r = "pending" ∨ r_state r = "in_flight").
#[global] Instance live_id_dec id r : Decision (live_id id r).
Proof. unfold live_id. apply _. Defined.
Definition mark_dead id (error : string) : DbM (string + unit) :=
  try_err (
    prepare;; bind_text;; now ← wall_now_ms; bind_int;; bind_text;;
    sq_exec (sql_update (live_id id) (λ r, with_error error (with_state "dead" now r)));;
    n ← sqlite3_changes; ensure (n = 1) "dead transition has no live row";; mret tt).

Definition dead_id id (r : Row) : Prop := r_event_id r = id ∧ r_state r = "dead".
#[global] Instance dead_id_dec id r : Decision (dead_id id r).
Proof. unfold dead_id. apply _. Defined.
Definition retry_dead id : DbM (string + unit) :=
  try_err (
    prepare;; next ← wall_now_ms; bind_int;; now ← wall_now_ms; bind_int;; bind_text;;
    sq_exec (sql_update (dead_id id)
      (λ r, with_error "" (with_next_attempt next (with_state "pending" now r))));;
    n ← sqlite3_changes; ensure (n = 1) "no dead row to retry";; mret tt).

Definition in_flight_any (r : Row) : Prop := r_state r = "in_flight".
#[global] Instance in_flight_any_dec r : Decision (in_flight_any r).
Proof. unfold in_flight_any. apply _. Defined.
Definition requeue_in_flight : DbM (string + unit) :=
  try_err (
    prepare;; next ← wall_now_ms; bind_int;; now ← wall_now_ms; bind_int;;
    sq_exec (sql_update in_flight_any (λ r, with_next_attempt next (with_state "pending" now r)));;
    mret tt).

(** [state='pending' AND eligible_at_ms IS NOT NULL AND (? - eligible_at_ms)>? AND
    (COALESCE(call_uuid,'')='' OR call_seq=(SELECT next_seq ...))]. *)
Definition overage (now ttl : Z) d (r : Row) : Prop :=
  r_state r = "pending" ∧
  match r_eligible_at_ms r with Some t => now - t > ttl | None => False end ∧
  deliverable d r.
#[global] Instance overage_dec now ttl d r : Decision (overage now ttl d r).
Proof. unfold overage. destruct (r_eligible_at_ms r); apply _. Defined.
Definition sql_expire (now ttl : Z) d : SqError + (Db * Z) :=
  sql_update (overage now ttl d) (λ r, with_error "expired_ttl" (with_state "dead" now r)) d.

(** [expire_ttl] returns the row count, or -1 with [err] set. *)
Definition expire_ttl (now ttl : Z) : DbM (string + Z) :=
  if decide (ttl ≤ 0) then mret (inr 0)
  else try_err (
    prepare;; bind_int;; bind_int;; bind_int;;
    sq_exec (sql_expire now ttl);;
    sqlite3_changes).

(** *** Queries *)

Definition get id : DbM (option OutboxRecord) := λ c,
  if c_open c then
    (prepare;; bind_text;; r ← query (λ d, row_by_id id (outbox d)); mret (record <$> r)) c
  else (Ok None, c).

(** [SELECT state,count( * ),COALESCE(sum(length(payload)),0) FROM outbox GROUP BY state]. *)
Definition state_groups d : list (string * Z * Z) :=
  (λ st, let rows := filter (λ r, r_state r = st) (outbox d) in
         (st, Z.of_nat (length rows), payload_bytes rows))
  <$> remove_dups (r_state <$> outbox d).
Definition add_group (st : OutboxStats) (g : string * Z * Z) : OutboxStats :=
  let '(name, n, b) := g in
  if decide (name = "pending") then mkStats n (in_flight st) (dead st) (total_bytes st + b)
  else if decide (name = "in_flight") then mkStats (pending st) n (dead st) (total_bytes st + b)
  else if decide (name = "dead") then mkStats (pending st) (in_flight st) n (total_bytes st + b)
  else mkStats (pending st) (in_flight st) (dead st) (total_bytes st + b).
Definition stats : DbM OutboxStats := λ c,
  if c_open c then
    (prepare;; gs ← sq_read state_groups; gs' ← step_rows gs;
     mret (foldl add_group (mkStats 0 0 0 0) gs')) c
  else (Ok (mkStats 0 0 0 0), c).

Definition min_list (l : list Z) : option Z :=
  match l with [] => None | x :: l' => Some (foldr Z.min x l') end.
Definition oldest_pending_age_ms (now : Z) : DbM Z := λ c,
  if c_open c then
    (prepare;;
     m ← query (λ d, min_list (r_created_at_ms <$> filter (λ r, r_state r = "pending") (outbox d)));
     mret match m with None => 0 | Some t => Z.max 0 (now - t) end) c
  else (Ok 0, c).
End outbox.
