(* ===== verification/Counters.v ===== *)
(** What every call into the outbox leaves alone, however it ends: the connection stays open or
    closed, and the number of SQLite calls made only grows. So a method that runs later sees the
    failures that lie ahead of an earlier one. *)
From S2P Require Import Prelude Sqlite Tables Outbox.

(** [c'] is a later state of the connection [c]. *)
Definition later {D} (c c' : Conn D) : Prop := c_open c' = c_open c ∧ (c_io c ≤ c_io c')%nat.

Lemma later_refl {D} (c : Conn D) : later c c.
Proof. by split. Qed.
Lemma later_trans {D} (c1 c2 c3 : Conn D) : later c1 c2 → later c2 c3 → later c1 c3.
Proof. intros [??] [??]. split; [congruence|lia]. Qed.

Lemma quiet_later `{E : Env} q n : quiet_from q → (q ≤ n)%nat → quiet_from n.
Proof. intros Hq Hn m Hm. apply Hq. lia. Qed.

Class Progress {D A} (m : M (Conn D) A) : Prop := progress c : later c (snd (m c)).

Section progress.
Context `{E : Env} {D : Type}.
Implicit Types c : Conn D.
#[local] Transparent sq_call sq_exec sq_read query prepare bind_call sqlite3_changes wall_now_ms.

#[export] Instance progress_bind {A B} (m : M (Conn D) A) (k : A → M (Conn D) B) :
  Progress m → (∀ a, Progress (k a)) → Progress (m ≫= k).
Proof.
  intros Hm Hk c. unfold mbind, M_bind. pose proof (Hm c) as H.
  destruct (m c) as [[a|e|] c']; [|done..]. simpl in *. eapply later_trans; [exact H|apply Hk].
Qed.
#[export] Instance progress_ret {A} (a : A) : Progress (mret a : M (Conn D) A).
Proof. intros c. apply later_refl. Qed.
#[export] Instance progress_throw {A} e : Progress (throw e : M (Conn D) A).
Proof. intros c. apply later_refl. Qed.
#[export] Instance progress_ensure (P : Prop) `{!Decision P} e : Progress (ensure P e : M (Conn D) unit).
Proof. unfold ensure. case_decide; apply _. Qed.
#[export] Instance progress_try {A} (m : M (Conn D) A) : Progress m → Progress (try_err m).
Proof. intros Hm c. unfold try_err. pose proof (Hm c) as H. by destruct (m c) as [[] ?]. Qed.
#[export] Instance progress_decide {A} (P : Prop) `{!Decision P} (m1 m2 : M (Conn D) A) :
  Progress m1 → Progress m2 → Progress (if decide P then m1 else m2).
Proof. by case_decide. Qed.
#[export] Instance progress_if {A} (b : bool) (m1 m2 : M (Conn D) A) :
  Progress m1 → Progress m2 → Progress (if b then m1 else m2).
Proof. by destruct b. Qed.
#[export] Instance progress_option {A B} (o : option A) (m1 : A → M (Conn D) B) m2 :
  (∀ a, Progress (m1 a)) → Progress m2 →
  Progress (match o with Some a => m1 a | None => m2 end).
Proof. by destruct o. Qed.
#[export] Instance progress_pair {A B C} (x : A * B) (m : A → B → M (Conn D) C) :
  (∀ a b, Progress (m a b)) → Progress (let '(a, b) := x in m a b).
Proof. by destruct x. Qed.

Lemma progress_io {A} (eff : Conn D → Outcome A * Conn D) :
  (∀ c, later c (snd (eff c))) → Progress (sq_io eff).
Proof.
  intros He c. assert (later c (bump c)) as Hb by (split; simpl; [done|lia]). unfold sq_io.
  destruct (sq_fault (c_io c)) as [[?|[]]|]; try exact Hb; exact (later_trans _ _ _ Hb (He _)).
Qed.
#[export] Instance progress_call : Progress (sq_call : M (Conn D) unit).
Proof. apply progress_io, later_refl. Qed.
#[export] Instance progress_exec (f : D → SqError + (D * Z)) : Progress (sq_exec f).
Proof. apply progress_io. intros c. by destruct (f (c_db c)) as [|[]]. Qed.
#[export] Instance progress_read {A} (f : D → A) : Progress (sq_read f).
Proof. intros c. apply later_refl. Qed.
#[export] Instance progress_changes : Progress (sqlite3_changes : M (Conn D) Z).
Proof. intros c. apply later_refl. Qed.
#[export] Instance progress_now : Progress (wall_now_ms : M (Conn D) Z).
Proof. by intros c. Qed.
#[export] Instance progress_prepare : Progress (prepare : M (Conn D) unit).
Proof. intros c. unfold prepare. destruct (c_open c); [apply progress_call|apply later_refl]. Qed.
#[export] Instance progress_bind_call what : Progress (bind_call what : M (Conn D) unit).
Proof.
  intros c. unfold bind_call. pose proof (progress_call c) as H. by destruct (sq_call c) as [[] ?].
Qed.
#[export] Instance progress_query {A} (f : D → A) : Progress (query f).
Proof. unfold query. apply _. Qed.
#[export] Instance progress_commit : Progress (commit : M (Conn D) unit).
Proof. by apply progress_io. Qed.
#[export] Instance progress_begin : Progress (begin_immediate : M (Conn D) unit).
Proof.
  intros c. unfold begin_immediate. destruct (c_open c); [|apply later_refl].
  apply progress_io. intros c'. by destruct (c_txn c').
Qed.
#[export] Instance progress_transaction {A} (m : M (Conn D) A) :
  Progress m → Progress (scoped_transaction m).
Proof.
  intros Hm. apply progress_bind; [apply _|]. intros _ c. unfold with_destructor.
  pose proof (Hm c) as H. destruct (m c) as [[] c']; unfold rollback_if_open; simpl in *;
    by destruct (c_txn c').
Qed.
End progress.

#[export] Instance progress_insert `{E : Env} lim rec : Progress (insert_pending lim rec).
Proof.
  unfold insert_pending, insert_pending_body, allocate_seq, bind_text, bind_int. apply _.
Qed.
#[export] Instance progress_get `{E : Env} id : Progress (get id).
Proof.
  intros c. unfold get. destruct (c_open c); [|apply later_refl]. revert c.
  change (Progress (prepare;; bind_text;; r ← query (λ d, row_by_id id (outbox d));
    mret (record <$> r))). unfold bind_text. apply _.
Qed.
