(* ===== verification/OutboxSpec.v ===== *)
(** What each method of [Outbox] promises, as an atomic function of the database, and the proofs
    that the methods of Outbox.v keep the promise whatever SQLite call fails and wherever the
    process dies. *)
From S2P Require Import Prelude Sqlite Tables Outbox.

Section spec.
Context `{E : Env}.
Implicit Types (d : Db) (id : string) (t : nat).

(** ** Admission *)

(** The stream an event joins: the recorded one, or a fresh one with both cursors at 0. *)
Definition joined_stream (rec : OutboxRecord) d : Stream :=
  default (mkStream (msg_key rec) (order_mode (call_seq rec)) 0 0 0)
    (call_streams d !! (topic rec, call_uuid rec)).

(** The sequence an event of a call gets, whether it is the call head, and the cursor update. *)
Definition admit_txn (lim : Limits) (rec : OutboxRecord) d : string + (Z * bool * Db) :=
  let k := (topic rec, call_uuid rec) in
  let s := joined_stream rec d in
  let seq := if decide (call_seq rec < 0) then s_admit_seq s else call_seq rec in
  if decide (msg_key rec = "") then inl "ordered call requires nonempty key"
  else if decide (¬ (s_msg_key s = msg_key rec ∧ s_mode s = order_mode (call_seq rec)))
  then inl "call key/order mode changed"
  else if decide (0 ≤ call_seq rec < s_next_seq s)
  then inl "source sequence already acknowledged"
  else if decide (call_streams d !! k = None ∧ max_rows lim ≤ Z.of_nat (size (call_streams d)))
  then inl "stream capacity exceeded; inspect capacity; raise limit or explicitly retire proven closed calls"
  else if decide (¬ (0 ≤ seq ∧ seq ≠ int64_max)) then inl "source sequence out of range"
  else inr (seq, bool_decide (seq = s_next_seq s),
            set_streams <[k := with_admit_seq (Z.max (s_admit_seq s) (seq + 1)) s]> d).

Definition reclaimed (lim : Limits) (rec : OutboxRecord) d : Db :=
  if decide (over_capacity lim rec d) then set_outbox (delete_where reclaimable) d else d.

(** The INSERT itself, and the sequence reported to the caller. *)
Definition store_txn (rec : OutboxRecord) (seq : Z) (head : bool) : Spec Z := λ d t,
  let now := if decide (created_at_ms rec ≠ 0) then created_at_ms rec else clock t in
  match insert_row (pending_row rec seq now head) d with
  | inl e => inl (sq_errmsg e)
  | inr (d', _) => inr (if decide (call_uuid rec = "") then -1 else seq, d')
  end.

Definition insert_txn (lim : Limits) (rec : OutboxRecord) : Spec Z := λ d t,
  let d1 := reclaimed lim rec d in
  if decide (call_uuid rec ≠ "" ∧ retired_calls d !! (topic rec, call_uuid rec) ≠ None)
  then inl "call explicitly retired; reuse/late admission rejected"
  else if decide (over_capacity lim rec d1) then inl "outbox capacity exceeded"
  else
    match (if decide (call_uuid rec ≠ "") then admit_txn lim rec d1
           else if decide (0 ≤ call_seq rec) then inl "source sequence requires call_uuid"
           else inr (call_seq rec, true, d1)) with
    | inl e => inl e
    | inr (seq, head, d2) => store_txn rec seq head d2 t
    end.

(** ** State changes *)

Definition take_txn id : Spec unit := λ d t,
  if decide (count_where (markable id d) (outbox d) = 1) then
    match order_scheduler d with
    | Some turn =>
        if decide (turn < int64_max) then
          let d1 := set_outbox (update_where (markable id d)
                      (λ r, with_attempts (r_attempts r + 1)
                              (with_state "in_flight" (clock t) r))) d in
          let d2 := set_scheduler (Some (turn + 1)) d1 in
          inr (tt, match r ← row_by_id id (outbox d1); u ← r_call_uuid r; Some (r_topic r, u) with
                   | Some k => set_streams (alter (with_last_served (turn + 1)) k) d2
                   | None => d2
                   end)
        else inl "scheduler turn exhausted"
    | None => inl "scheduler turn exhausted"
    end
  else inl "not a pending call head".

Definition ack_txn id : Spec unit := λ d t,
  match in_flight_row id d with
  | None => inl "ACK for non-in-flight event"
  | Some r =>
      let call := coalesce "" (r_call_uuid r) in
      let k := (r_topic r, call) in
      let seq := coalesce 0 (r_call_seq r) in
      let remove := set_outbox (delete_where (λ r, r_event_id r = id)) in
      if decide (call = "") then inr (tt, remove d)
      else match call_streams d !! k with
           | Some s =>
               if decide (s_next_seq s = seq) then
                 let d1 := set_streams <[k := with_next_seq (seq + 1) s]> d in
                 inr (tt, remove (set_outbox (update_where (successor k (seq + 1))
                                    (with_eligible (clock t))) d1))
               else inl "ACK is not the call head"
           | None => inl "ACK is not the call head"
           end
  end.

(** An update of the rows satisfying [P], which must be exactly one. *)
Definition one_row_txn (P : Row → Prop) `{!∀ r, Decision (P r)} (f : Row → Row) (what : string)
    d : string + (unit * Db) :=
  if decide (count_where P (outbox d) = 1) then inr (tt, set_outbox (update_where P f) d)
  else inl what.

Definition retry_txn id (next : Z) (error : string) : Spec unit := λ d t,
  one_row_txn (in_flight_id id)
    (λ r, with_error error (with_next_attempt next (with_state "pending" (clock t) r)))
    "retry for non-in-flight event" d.
Definition dead_txn id (error : string) : Spec unit := λ d t,
  one_row_txn (live_id id) (λ r, with_error error (with_state "dead" (clock t) r))
    "dead transition has no live row" d.
Definition revive_txn id : Spec unit := λ d t,
  one_row_txn (dead_id id)
    (λ r, with_error "" (with_next_attempt (clock t) (with_state "pending" (clock (S t)) r)))
    "no dead row to retry" d.
Definition requeue_txn : Spec unit := λ d t,
  inr (tt, set_outbox (update_where in_flight_any
    (λ r, with_next_attempt (clock t) (with_state "pending" (clock (S t)) r))) d).
Definition expire_txn (now ttl : Z) : Spec Z := λ d t,
  if decide (ttl ≤ 0) then inr (0, d)
  else inr (count_where (overage now ttl d) (outbox d),
            set_outbox (update_where (overage now ttl d)
              (λ r, with_error "expired_ttl" (with_state "dead" now r))) d).

(** ** The methods refine them *)

Lemma alter_stream f k s d :
  call_streams d !! k = Some s → set_streams (alter f k) d = set_streams <[k := f s]> d.
Proof. intros Hs. unfold set_streams. f_equal. by rewrite alter_alt, Hs. Qed.

Lemma alter_new_stream f k s d :
  set_streams (alter f k) (set_streams <[k := s]> d) = set_streams <[k := f s]> d.
Proof. unfold set_streams. simpl. f_equal. by rewrite alter_insert_eq. Qed.

(** The end of [allocate_seq], common to an existing and to a new stream. *)
Lemma txwp_raise q d0 (seq : Z) (head : bool) kk d1 Q (R : string → Prop) d ch t :
  set_streams (alter (λ s, with_admit_seq (Z.max (s_admit_seq s) (seq + 1)) s) kk) d = d1 →
  match (if decide (¬ (0 ≤ seq ∧ seq ≠ int64_max)) then inl "source sequence out of range"
         else inr (seq, head, d1)) with
  | inl e => R e
  | inr (seq, head, d') => ∀ ch', Q (seq, head) d' ch' t
  end →
  txwp q d0 (ensure (0 ≤ seq ∧ seq ≠ int64_max) "source sequence out of range";;
             prepare;; bind_int;; bind_text;; bind_text;;
             sq_exec (raise_admit_seq (seq + 1) kk);; mret (seq, head)) Q R d ch t.
Proof.
  intros <- H. tx_step; intros Hr; [by rewrite decide_True in H|].
  rewrite decide_False in H by tauto. tx_run. simpl. tx_run. apply H.
Qed.

Lemma txwp_allocate {B} q d0 lim rec (k : Z * bool → M (Conn Db) B) Q (R : string → Prop) d ch t :
  match admit_txn lim rec d with
  | inl e => R e
  | inr (seq, head, d') => ∀ ch', txwp q d0 (k (seq, head)) Q R d' ch' t
  end → txwp q d0 (allocate_seq lim rec ≫= k) Q R d ch t.
Proof.
  intros H. apply txwp_bind. unfold allocate_seq. unfold admit_txn, joined_stream in H.
  set (kk := (topic rec, call_uuid rec)) in *.
  tx_step; [intros; by rewrite decide_True in H by (by apply dec_stable)|].
  intros Hkey. rewrite decide_False in H by done. do 4 tx_step.
  destruct (call_streams d !! kk) as [s|] eqn:Hs; simpl in H.
  - tx_step. tx_step; [intros; by rewrite decide_True in H|]. intros Hsame.
    rewrite decide_False in H by tauto.
    destruct (decide (call_seq rec < 0)) as [Hneg|Hneg].
    + rewrite decide_False in H by lia. tx_step.
      eapply txwp_raise; [by apply alter_stream|exact H].
    + tx_step; intros Hc; [rewrite decide_True in H by lia; exact H|].
      rewrite decide_False in H by lia. tx_step.
      eapply txwp_raise; [by apply alter_stream|exact H].
  - tx_step. do 2 tx_step. rewrite decide_False in H by tauto.
    rewrite decide_False in H by lia.
    tx_step; intros Hcap; [rewrite decide_True in H by (split; [done|lia]); exact H|].
    rewrite decide_False in H by (intros [_ ?]; lia). do 6 tx_step.
    unfold create_stream. rewrite Hs. tx_step.
    eapply txwp_raise; [apply alter_new_stream|].
    destruct (decide (call_seq rec < 0)); exact H.
Qed.

(** The end of [insert_pending], after the sequence is known. *)
Lemma txwp_store q d0 rec (seq : Z) (head : bool) (Q : Z → Db → Z → nat → Prop) R d ch t :
  match store_txn rec seq head d t with
  | inl e => R e
  | inr (a, d') => ∀ ch' t', Q a d' ch' t'
  end →
  txwp q d0 (prepare;;
    now ← (if decide (created_at_ms rec ≠ 0) then mret (created_at_ms rec) else wall_now_ms);
    bind_text;; bind_text;; bind_text;; bind_call "bind payload";;
    bind_int;; bind_int;; bind_int;; bind_text;;
    (if decide (call_uuid rec = "") then mret tt else bind_int);;
    (if head then bind_int else mret tt);;
    sq_exec (insert_row (pending_row rec seq now head));;
    mret (if decide (call_uuid rec = "") then -1 else seq)) Q R d ch t.
Proof.
  intros H. unfold store_txn in H. cbv zeta in H. tx_step.
  destruct (decide (created_at_ms rec ≠ 0)); do 9 tx_step;
    destruct (decide (call_uuid rec = "")), head; do 3 tx_step;
    destruct (insert_row _ d) as [?|[? ?]]; tx_run; auto.
Qed.

(** The middle of [insert_pending]: capacity, with at most one reclaim. *)
Lemma txwp_capacity {B} q d0 lim rec (k : M (Conn Db) B) Q (R : string → Prop) d ch t :
  (over_capacity lim rec (reclaimed lim rec d) → R "outbox capacity exceeded") →
  (¬ over_capacity lim rec (reclaimed lim rec d) →
   ∀ ch', txwp q d0 k Q R (reclaimed lim rec d) ch' t) →
  txwp q d0 (prepare;;
    over ← query (λ d, bool_decide (over_capacity lim rec d));
    (if over : bool then sq_exec reclaim_expired else mret tt);;
    prepare;;
    still_over ← query (λ d, bool_decide (over_capacity lim rec d));
    ensure (still_over = false) "outbox capacity exceeded";; k) Q R d ch t.
Proof.
  intros HR HQ. do 2 tx_step. unfold reclaimed in *.
  destruct (decide (over_capacity lim rec d)) as [Hov|Hov].
  - rewrite bool_decide_true by done. tx_step. simpl. do 3 tx_step.
    + intros ?%not_false_is_true%bool_decide_eq_true. auto.
    + intros ?%bool_decide_eq_false. auto.
  - rewrite bool_decide_false by done. do 4 tx_step; rewrite bool_decide_false by done; auto.
    done.
Qed.

(** [insert_pending] is atomic: it commits the admission [insert_txn] describes, or refuses with
    nothing changed. *)
Lemma insert_pending_refines lim rec : refines (λ _, True) (insert_pending lim rec) (insert_txn lim rec).
Proof.
  apply refines_transaction. intros q d ch t _. unfold insert_pending_body, insert_txn.
  cbv zeta. apply txwp_bind.
  match goal with |- txwp _ _ _ ?Q ?R _ _ _ => set (QQ := Q); set (RR := R) end.
  assert (∀ ch', ¬ (call_uuid rec ≠ "" ∧ retired_calls d !! (topic rec, call_uuid rec) ≠ None) →
          QQ tt d ch' t) as Hrest.
  { intros ch' Hret. unfold QQ, RR. rewrite (decide_False (P := call_uuid rec ≠ "" ∧ _)) by done.
    apply txwp_capacity; intros Hcap; [by rewrite decide_True|]. intros ch1.
    rewrite (decide_False (P := over_capacity _ _ _)) by done.
    destruct (decide (call_uuid rec ≠ "")).
    - apply txwp_allocate. destruct (admit_txn _ _ _) as [e|[[seq head] d2]]; [done|].
      intros ch2. cbv beta iota. apply txwp_store. by destruct (store_txn _ _ _ _ _) as [?|[? ?]].
    - tx_step. tx_step; intros Hs; [by rewrite (decide_True (P := 0 ≤ _)) by lia|].
      rewrite (decide_False (P := 0 ≤ _)) by lia. tx_step. cbv beta iota.
      apply txwp_store. by destruct (store_txn _ _ _ _ _) as [?|[? ?]]. }
  destruct (decide (call_uuid rec ≠ "")) as [Hcall|Hcall].
  - do 4 tx_step. tx_step; intros Hhit; [|by apply Hrest; intros [_ ?]].
    unfold RR. by rewrite (decide_True (P := call_uuid rec ≠ "" ∧ _)).
  - tx_step. by apply Hrest; intros [? _].
Qed.

Lemma mark_in_flight_refines id : refines (λ _, True) (mark_in_flight id) (take_txn id).
Proof.
  apply refines_transaction. intros q d ch t _. unfold mark_in_flight_body, take_txn.
  do 5 tx_step. simpl. do 2 tx_step; intros Hn; [by rewrite decide_False|].
  rewrite (decide_True (P := count_where _ _ = 1)) by done.
  do 2 tx_step. simpl.
  destruct (order_scheduler d) as [turn|]; [|by do 2 tx_step].
  destruct (decide (turn < int64_max)); [|by do 2 tx_step].
  tx_step. tx_step; [done|intros _]. do 3 tx_step. unfold sql_served. simpl.
  destruct (r ← row_by_id _ _; _); by tx_step.
Qed.

Lemma mark_acked_refines id : refines (λ _, True) (mark_acked id) (ack_txn id).
Proof.
  apply refines_transaction. intros q d ch t _. unfold mark_acked_body, ack_txn. cbv zeta.
  do 3 tx_step. destruct (in_flight_row id d) as [r|]; [|by tx_step].
  destruct (decide (coalesce "" (r_call_uuid r) = "")) as [Hc|Hc].
  - rewrite decide_False by tauto. do 4 tx_step. simpl. by repeat tx_step.
  - rewrite decide_True by done. do 6 tx_step. unfold sql_advance.
    destruct (call_streams d !! _) as [s|]; [|by do 2 tx_step].
    destruct (decide (s_next_seq s = _)) as [Hs|]; [|by do 2 tx_step].
    rewrite <- Hs. tx_step. tx_step; [done|intros _]. do 7 tx_step. simpl.
    do 3 tx_step. simpl. by repeat tx_step.
Qed.

(** The primary key of [outbox]. The one-row updates below run outside a transaction, so a row
    count other than 1 must mean that no row was touched. *)
Definition ids_unique d : Prop := NoDup (r_event_id <$> outbox d).

Lemma set_outbox_same f d : f (outbox d) = outbox d → set_outbox f d = d.
Proof. destruct d. unfold set_outbox. simpl. by intros ->. Qed.

Lemma acwp_one_row q d id (P : Row → Prop) `{!∀ r, Decision (P r)} f what ch t :
  ids_unique d → (∀ r, P r → r_event_id r = id) →
  acwp q d (one_row_txn P f what d)
    (sq_exec (sql_update P f);; n ← sqlite3_changes; ensure (n = 1) what;; mret tt) ch t.
Proof.
  intros Hids HP.
  apply (acwp_exec _ _ _ _ _ (λ n, if decide (n = 1) then inr tt else inl what));
    [exact (changes_verdict (λ n, n = 1) what tt)|]. simpl. unfold one_row_txn. case_decide as Hn; [done|]. split; [|done].
  apply set_outbox_same, update_where_none. apply (count_where_0 P).
  pose proof (count_where_unique P r_event_id id (outbox d) HP Hids).
  pose proof (count_where_nonneg P (outbox d)). lia.
Qed.

Lemma mark_retry_refines id next error :
  refines ids_unique (mark_retry id next error) (retry_txn id next error).
Proof.
  apply refines_autocommit. intros q d ch t Hids. do 6 ac_step.
  by apply (acwp_one_row _ _ id); [|intros r [? ?]].
Qed.

Lemma mark_dead_refines id error : refines ids_unique (mark_dead id error) (dead_txn id error).
Proof.
  apply refines_autocommit. intros q d ch t Hids. do 5 ac_step.
  by apply (acwp_one_row _ _ id); [|intros r [? ?]].
Qed.

Lemma retry_dead_refines id : refines ids_unique (retry_dead id) (revive_txn id).
Proof.
  apply refines_autocommit. intros q d ch t Hids. do 6 ac_step.
  by apply (acwp_one_row _ _ id); [|intros r [? ?]].
Qed.

Lemma requeue_in_flight_refines : refines (λ _, True) requeue_in_flight requeue_txn.
Proof.
  apply refines_autocommit. intros q d ch t _. do 5 ac_step.
  by apply (acwp_exec _ _ _ _ _ (λ _, inr tt)).
Qed.

Lemma expire_ttl_refines now ttl :
  refines (λ _, True) (expire_ttl now ttl) (expire_txn now ttl).
Proof.
  unfold expire_ttl, expire_txn. case_decide; [by intros c Ho Ht _|].
  apply refines_autocommit. intros q d ch t _. do 4 ac_step.
  by apply (acwp_exec _ _ _ _ _ inr).
Qed.

(** ** Queries *)

#[local] Existing Instance effect_free_seq.

(** The queries return what they read, change nothing, and let a failing call escape as an
    exception. *)
Lemma reads_guarded {A} (m : M (Conn Db) A) v dt val (dflt : A) :
  EffectFree m v dt → (∀ d ch t, v d ch t = val d t) →
  reads (λ c, if c_open c then m c else (Ok dflt, c)) val.
Proof.
  intros Hm Hv c Ho Ht. unfold wp. rewrite Ho.
  pose proof (at_state_self c Ho) as Hc. rewrite Ht in Hc.
  eapply wp_mono; [exact (Hm _ _ _ _ _ _ Hc)|..].
  - intros a c' [-> (?&?&?&?&_)]. by rewrite Hv.
  - intros e c' (Hn & t' & ?&?&?&?&_). done.
  - intros c' (t' & ?&Htx&?&<-&_). unfold durable. by rewrite Htx.
Qed.

Lemma fetch_due_reads now limit :
  reads (fetch_due now limit) (λ d _, record <$> due_rows now limit d).
Proof. eapply reads_guarded; [apply _|done]. Qed.

Lemma get_reads id : reads (get id) (λ d _, record <$> row_by_id id (outbox d)).
Proof. eapply reads_guarded; [apply _|done]. Qed.

Lemma stats_reads : reads stats (λ d _, foldl add_group (mkStats 0 0 0 0) (state_groups d)).
Proof. eapply reads_guarded; [apply _|done]. Qed.

Lemma oldest_pending_age_ms_reads now :
  reads (oldest_pending_age_ms now) (λ d _,
    match min_list (r_created_at_ms <$> filter (λ r, r_state r = "pending") (outbox d)) with
    | None => 0
    | Some t => Z.max 0 (now - t)
    end).
Proof. eapply reads_guarded; [apply _|done]. Qed.
End spec.
