(* ===== verification/OutboxInv.v ===== *)
(** The invariant of the outbox database, and that every committed transaction keeps it. *)
From S2P Require Import Prelude Sqlite Tables Outbox OutboxSpec.

(** ** Which call a row belongs to *)

Definition row_call (r : Row) : option CallKey :=
  u ← r_call_uuid r; if decide (u = "") then None else Some (r_topic r, u).

Lemma row_call_Some r k :
  row_call r = Some k ↔ r_topic r = k.1 ∧ r_call_uuid r = Some k.2 ∧ k.2 ≠ "".
Proof.
  unfold row_call. destruct k as [tp u]. destruct (r_call_uuid r); simpl; [|naive_solver].
  case_decide; naive_solver.
Qed.

Lemma row_call_None r : row_call r = None ↔ ungrouped r.
Proof.
  unfold row_call, ungrouped. destruct (r_call_uuid r); simpl; [|done].
  case_decide; naive_solver.
Qed.

Lemma row_call_not_ungrouped r k : row_call r = Some k → ¬ ungrouped r.
Proof. intros H Hu%row_call_None. congruence. Qed.

Lemma stream_of_call d r k : row_call r = Some k → stream_of d r = call_streams d !! k.
Proof.
  intros (Ht & Hu & _)%row_call_Some. unfold stream_of. rewrite Hu. simpl.
  rewrite Ht. by destruct k.
Qed.

Lemma is_head_call d r k s :
  row_call r = Some k → call_streams d !! k = Some s →
  is_head d r ↔ r_call_seq r = Some (s_next_seq s).
Proof.
  intros Hk Hs. unfold is_head. rewrite (stream_of_call d r k Hk), Hs. apply sql_eq_Some_r.
Qed.

(** ** Well-formed databases *)

(** A row against the cursors: an ordered row has a stream with its key, a sequence at or past the
    cursor that was admitted, and a deliverable age exactly when it is the head; only the head is
    ever in flight. An ungrouped row has no sequence and is deliverable from its admission. *)
Definition row_ok (m : gmap CallKey Stream) (r : Row) : Prop :=
  r_state r ∈ ["pending"; "in_flight"; "dead"] ∧ 0 ≤ r_attempts r ∧
  match row_call r with
  | None => r_call_seq r = None ∧ is_Some (r_eligible_at_ms r)
  | Some k => ∃ s n, m !! k = Some s ∧ r_call_seq r = Some n ∧
      s_next_seq s ≤ n < s_admit_seq s ∧ r_msg_key r = Some (s_msg_key s) ∧
      (is_Some (r_eligible_at_ms r) ↔ n = s_next_seq s) ∧
      (r_state r = "in_flight" → n = s_next_seq s)
  end.

Definition stream_ok (k : CallKey) (s : Stream) : Prop :=
  0 ≤ s_next_seq s ≤ s_admit_seq s ∧ s_admit_seq s ≤ int64_max ∧
  s_msg_key s ≠ "" ∧ k.2 ≠ "" ∧ s_mode s ∈ ["admission"; "source"].

(** Every admitted, unacknowledged sequence of an admission-order call has its row. *)
Definition contiguous (rows : list Row) (k : CallKey) (s : Stream) : Prop :=
  s_mode s = "admission" → ∀ n, s_next_seq s ≤ n < s_admit_seq s →
  ∃ r, r ∈ rows ∧ row_call r = Some k ∧ r_call_seq r = Some n.

(** Service turns are distinct and were all handed out by the scheduler. *)
Definition turns_ok (m : gmap CallKey Stream) (turn : option Z) : Prop :=
  ∃ t, turn = Some t ∧ 0 ≤ t ≤ int64_max ∧
    (∀ k s, m !! k = Some s → 0 ≤ s_last_served_ms s ≤ t) ∧
    (∀ k1 k2 s1 s2, m !! k1 = Some s1 → m !! k2 = Some s2 →
       s_last_served_ms s1 = s_last_served_ms s2 → s_last_served_ms s1 ≠ 0 → k1 = k2).

Record wf (d : Db) : Prop := {
  wf_ids : ids_unique d;
  wf_rows r : r ∈ outbox d → row_ok (call_streams d) r;
  wf_seq r1 r2 k : r1 ∈ outbox d → r2 ∈ outbox d →
    row_call r1 = Some k → row_call r2 = Some k → r_call_seq r1 = r_call_seq r2 →
    r_event_id r1 = r_event_id r2;
  wf_streams k s : call_streams d !! k = Some s → stream_ok k s;
  wf_contiguous k s : call_streams d !! k = Some s → contiguous (outbox d) k s;
  wf_turns : turns_ok (call_streams d) (order_scheduler d);
  wf_retired k : is_Some (retired_calls d !! k) → call_streams d !! k = None;
}.

(** The capacity limits. *)
Definition within (lim : Limits) (d : Db) : Prop :=
  row_count d ≤ max_rows lim ∧ payload_bytes (outbox d) ≤ max_bytes lim ∧
  Z.of_nat (size (call_streams d)) ≤ max_rows lim.

(** ** Consequences *)

Lemma ids_row d r1 r2 :
  ids_unique d → r1 ∈ outbox d → r2 ∈ outbox d → r_event_id r1 = r_event_id r2 → r1 = r2.
Proof.
  intros Hnd [i Hi]%list_elem_of_lookup [j Hj]%list_elem_of_lookup Hid.
  assert (i = j) as ->; [|congruence].
  eapply NoDup_lookup; [exact Hnd|..]; rewrite list_lookup_fmap; [by rewrite Hi|].
  rewrite Hj. simpl. by rewrite Hid.
Qed.

Lemma wf_row_unique d r1 r2 k :
  wf d → r1 ∈ outbox d → r2 ∈ outbox d → row_call r1 = Some k → row_call r2 = Some k →
  r_call_seq r1 = r_call_seq r2 → r1 = r2.
Proof. intros Hwf ?????. eapply ids_row; eauto using wf_ids, wf_seq. Qed.

(** ** Updates that keep every row in its slot *)

(** [r'] is [r] up to delivery status: same event, call, sequence and deliverable age. *)
Definition same_slot (r r' : Row) : Prop :=
  r_event_id r' = r_event_id r ∧ r_topic r' = r_topic r ∧ r_msg_key r' = r_msg_key r ∧
  r_payload r' = r_payload r ∧ r_created_at_ms r' = r_created_at_ms r ∧
  r_call_uuid r' = r_call_uuid r ∧ r_call_seq r' = r_call_seq r ∧
  r_eligible_at_ms r' = r_eligible_at_ms r.

Lemma same_slot_call r r' : same_slot r r' → row_call r' = row_call r.
Proof. intros (_ & Ht & _ & _ & _ & Hu & _). unfold row_call. by rewrite Hu, Ht. Qed.

Lemma row_ok_slot m r r' :
  row_ok m r → same_slot r r' → r_state r' ∈ ["pending"; "in_flight"; "dead"] →
  0 ≤ r_attempts r' →
  (r_state r' = "in_flight" → ∀ k s, row_call r = Some k → m !! k = Some s →
     r_call_seq r = Some (s_next_seq s)) →
  row_ok m r'.
Proof.
  intros (_ & _ & Hr) Hsl Hst Hat Hfl. split; [done|]. split; [done|].
  rewrite (same_slot_call r r' Hsl). destruct Hsl as (_&_&->&_&_&_&->&->).
  destruct (row_call r) as [k|]; [|done]. destruct Hr as (s & n & Hs & Hn & Hb & Hk & He & _).
  exists s, n. do 5 (split; [done|]). intros Hif. specialize (Hfl Hif k s eq_refl Hs). congruence.
Qed.

Section update.
Context (P : Row → Prop) `{!∀ r, Decision (P r)} (f : Row → Row).

Lemma ids_update d :
  (∀ r, P r → r_event_id (f r) = r_event_id r) →
  r_event_id <$> update_where P f (outbox d) = r_event_id <$> outbox d.
Proof using Type. intros Hf. by apply update_where_project. Qed.

(** The shape of every status change. *)
Lemma wf_update d :
  wf d → (∀ r, same_slot r (f r)) →
  (∀ r, r ∈ outbox d → P r → row_ok (call_streams d) (f r)) →
  wf (set_outbox (update_where P f) d).
Proof.
  intros Hwf Hsl Hok.
  assert (∀ r, r ∈ update_where P f (outbox d) →
    ∃ r0, r0 ∈ outbox d ∧ same_slot r0 r ∧ row_ok (call_streams d) r) as Hin.
  { intros r (r0 & Hr0 & [[HP ->]|[HP ->]])%elem_of_update_where; exists r0; eauto.
    split_and!; [done|by repeat split|by apply wf_rows]. }
  split; simpl.
  - unfold ids_unique. simpl. rewrite ids_update by (intros r _; apply Hsl). apply Hwf.
  - intros r (r0 & _ & _ & ?)%Hin. done.
  - intros r1 r2 k (r1' & H1 & S1 & _)%Hin (r2' & H2 & S2 & _)%Hin.
    rewrite (same_slot_call _ _ S1), (same_slot_call _ _ S2).
    destruct S1 as (->&_&_&_&_&_&->&_), S2 as (->&_&_&_&_&_&->&_). by apply (wf_seq d Hwf).
  - apply Hwf.
  - intros k s Hs Hm n Hn. destruct (wf_contiguous d Hwf k s Hs Hm n Hn) as (r & Hr & Hk & Hq).
    exists (if decide (P r) then f r else r). split_and!.
    + apply elem_of_update_where. exists r. case_decide; auto.
    + case_decide; [|done]. by rewrite (same_slot_call _ _ (Hsl r)).
    + case_decide; [|done]. by destruct (Hsl r) as (_&_&_&_&_&_&->&_).
  - apply Hwf.
  - apply Hwf.
Qed.
End update.

(** ** Status changes *)

Create HintDb outbox.
#[export] Hint Extern 1 (same_slot _ _) => (repeat split) : outbox.
#[export] Hint Extern 1 (_ ∈ ["pending"; "in_flight"; "dead"]) => set_solver : outbox.
#[export] Hint Resolve wf_ids wf_rows : outbox.

(** A row that is moved to a state other than in flight stays well formed. *)
Lemma row_ok_parked m r r' :
  row_ok m r → same_slot r r' → r_attempts r' = r_attempts r →
  r_state r' = "pending" ∨ r_state r' = "dead" → row_ok m r'.
Proof.
  intros Hr Hsl Ha Hst. apply (row_ok_slot m r); try done.
  - destruct Hst as [-> | ->]; set_solver.
  - rewrite Ha. apply Hr.
  - intros Hif. rewrite Hif in Hst. by destruct Hst.
Qed.

Section status.
Context `{E : Env}.
Implicit Types (d : Db) (id : string) (t : nat).

Lemma one_row_wf P `{!∀ r, Decision (P r)} f what d u d' :
  wf d → one_row_txn P f what d = inr (u, d') → (∀ r, same_slot r (f r)) →
  (∀ r, r_attempts (f r) = r_attempts r) →
  (∀ r, r_state (f r) = "pending" ∨ r_state (f r) = "dead") → wf d'.
Proof.
  intros Hwf Htx Hsl Ha Hst. unfold one_row_txn in Htx. case_decide; simplify_eq.
  apply wf_update; eauto using row_ok_parked with outbox.
Qed.

Lemma retry_wf id next error d t u d' :
  wf d → retry_txn id next error d t = inr (u, d') → wf d'.
Proof. intros Hwf Htx. eapply one_row_wf; eauto with outbox. Qed.

Lemma dead_wf id error d t u d' : wf d → dead_txn id error d t = inr (u, d') → wf d'.
Proof. intros Hwf Htx. eapply one_row_wf; eauto with outbox. Qed.

Lemma revive_wf id d t u d' : wf d → revive_txn id d t = inr (u, d') → wf d'.
Proof. intros Hwf Htx. eapply one_row_wf; eauto with outbox. Qed.

Lemma requeue_wf d t u d' : wf d → requeue_txn d t = inr (u, d') → wf d'.
Proof.
  intros Hwf Htx. unfold requeue_txn in Htx. simplify_eq.
  apply wf_update; eauto using row_ok_parked with outbox.
Qed.

Lemma expire_wf now ttl d t n d' : wf d → expire_txn now ttl d t = inr (n, d') → wf d'.
Proof.
  intros Hwf Htx. unfold expire_txn in Htx. case_decide; simplify_eq; [done|].
  apply wf_update; eauto using row_ok_parked with outbox.
Qed.
End status.

(** ** Cursor changes *)

(** [s'] is [s] up to the scheduler's turn. *)
Definition same_cursor (s s' : Stream) : Prop :=
  s_msg_key s' = s_msg_key s ∧ s_mode s' = s_mode s ∧
  s_next_seq s' = s_next_seq s ∧ s_admit_seq s' = s_admit_seq s.

Lemma row_ok_cursor m m' r :
  (∀ k s, row_call r = Some k → m !! k = Some s → ∃ s', m' !! k = Some s' ∧
     s_msg_key s' = s_msg_key s ∧ s_next_seq s' = s_next_seq s ∧ s_admit_seq s ≤ s_admit_seq s') →
  row_ok m r → row_ok m' r.
Proof.
  intros Hm (Hst & Ha & Hr). split; [done|]. split; [done|]. destruct (row_call r) as [k|]; [|done].
  destruct Hr as (s & n & Hs & Hn & Hb & Hk & He & Hif).
  destruct (Hm k s eq_refl Hs) as (s' & Hs' & Hk' & Hn' & Ha').
  exists s', n. rewrite Hk', Hn'. repeat (split; [done || lia|]). done.
Qed.

(** Streams whose cursors agree carry the same rows. *)
Lemma wf_served d m turn :
  wf d → (∀ k, option_Forall2 same_cursor (call_streams d !! k) (m !! k)) → turns_ok m turn →
  wf (set_streams (λ _, m) (set_scheduler turn d)).
Proof.
  intros Hwf Hm Hturn.
  assert (∀ k s', m !! k = Some s' → ∃ s, call_streams d !! k = Some s ∧ same_cursor s s') as Hinv.
  { intros k s' Hs'. specialize (Hm k). rewrite Hs' in Hm. inversion Hm; eauto. }
  split; simpl; try apply Hwf; [|..|done|].
  - intros r Hr. apply (row_ok_cursor (call_streams d)); [|by apply wf_rows].
    intros k s _ Hs. specialize (Hm k). rewrite Hs in Hm. inversion Hm as [? s' Hc|]; subst.
    destruct Hc as (?&?&?&?). exists s'. split_and!; auto; lia.
  - intros k s' Hs'. destruct (Hinv _ _ Hs') as (s0 & Hs0 & Hk & Hmd & Hn & Ha).
    unfold stream_ok. rewrite Hk, Hmd, Hn, Ha. by apply (wf_streams d Hwf).
  - intros k s' Hs'. destruct (Hinv _ _ Hs') as (s0 & Hs0 & Hk & Hmd & Hn & Ha).
    unfold contiguous. rewrite Hmd, Hn, Ha. by apply (wf_contiguous d Hwf).
  - intros k Hk. specialize (Hm k). rewrite (wf_retired d Hwf k Hk) in Hm. by inversion Hm.
Qed.

Lemma same_cursor_refl s : same_cursor s s.
Proof. done. Qed.

Lemma turns_ok_tick m t : turns_ok m (Some t) → t < int64_max → turns_ok m (Some (t + 1)).
Proof.
  intros (t' & [= <-] & Hb & Hle & Hd) Hlt. exists (t + 1). split_and!; [done|lia|lia| |done].
  intros k s Hs. specialize (Hle k s Hs). lia.
Qed.

Lemma turns_ok_served m t k :
  turns_ok m (Some t) → t < int64_max →
  turns_ok (alter (with_last_served (t + 1)) k m) (Some (t + 1)).
Proof.
  intros (t' & [= <-] & Hb & Hle & Hd) Hlt.
  assert (∀ k' s, alter (with_last_served (t + 1)) k m !! k' = Some s →
    (k' = k ∧ s_last_served_ms s = t + 1) ∨ (k' ≠ k ∧ m !! k' = Some s)) as Hinv.
  { intros k' s. destruct (decide (k' = k)) as [->|Hne].
    - rewrite lookup_alter_eq. intros (s0 & _ & ->)%fmap_Some. by left.
    - rewrite lookup_alter_ne by done. by right. }
  exists (t + 1). split_and!; [done|lia|lia|..].
  - intros k' s [[_ ->]|[_ Hs]]%Hinv; [lia|]. specialize (Hle _ _ Hs). lia.
  - intros k1 k2 s1 s2 [[-> H1]|[N1 H1]]%Hinv [[-> H2]|[N2 H2]]%Hinv; try done; intros He Hz.
    + specialize (Hle _ _ H2). lia.
    + specialize (Hle _ _ H1). lia.
    + eauto.
Qed.

Lemma turns_ok_insert m t k s0 s :
  (m !! k = Some s0 ∧ s_last_served_ms s = s_last_served_ms s0) ∨ s_last_served_ms s = 0 →
  turns_ok m t → turns_ok (<[k := s]> m) t.
Proof.
  intros Hs (t' & -> & Hb & Hle & Hd). exists t'.
  assert (∀ k' s', <[k := s]> m !! k' = Some s' →
    s_last_served_ms s' = 0 ∨ ∃ s'', m !! k' = Some s'' ∧ s_last_served_ms s' = s_last_served_ms s'')
    as Hinv.
  { intros k' s' [[<- <-]|[_ Hs']]%lookup_insert_Some; [|by eauto].
    destruct Hs as [[? ?]|?]; eauto. }
  split_and!; [done|lia|lia|..].
  - intros k' s' [->|(s'' & Hs'' & ->)]%Hinv; [lia|by apply (Hle k')].
  - intros k1 k2 s1 s2 [H1|(s1' & Hs1 & H1)]%Hinv [H2|(s2' & Hs2 & H2)]%Hinv He Hz;
      [congruence..|]. apply (Hd k1 k2 s1' s2'); congruence.
Qed.

Section take.
Context `{E : Env}.

(** A row that the scheduler takes off is a head, so it may be in flight. *)
Lemma row_ok_taken d id now r :
  wf d → r ∈ outbox d → markable id d r →
  row_ok (call_streams d) (with_attempts (r_attempts r + 1) (with_state "in_flight" now r)).
Proof.
  intros Hwf Hr (_ & _ & Hdel). pose proof (wf_rows d Hwf r Hr) as Hok.
  apply (row_ok_slot _ r); [done|repeat split|simpl; set_solver|destruct Hok as (_&?&_); simpl; lia|].
  intros _ k s Hk Hs. destruct Hdel as [Hu|Hh].
  - by apply row_call_None in Hu; rewrite Hu in Hk.
  - by apply (is_head_call d r k s).
Qed.

Lemma take_wf id d t u d' : wf d → take_txn id d t = inr (u, d') → wf d'.
Proof.
  intros Hwf Htx. unfold take_txn in Htx. case_decide; [|done].
  destruct (order_scheduler d) as [turn|] eqn:Ht; [|done]. case_decide as Hlt; [|done].
  set (d1 := set_outbox _ d) in Htx.
  assert (wf d1) as Hwf1.
  { apply wf_update; eauto using row_ok_taken with outbox. }
  assert (turns_ok (call_streams d1) (Some turn)) as Hto.
  { rewrite <- Ht. apply (wf_turns d1 Hwf1). }
  destruct (r ← row_by_id id (outbox d1); _) as [k|]; simplify_eq.
  - apply (wf_served d1 (alter _ k (call_streams d1)) (Some (turn + 1)) Hwf1).
    + intros k'. destruct (decide (k' = k)) as [->|Hne].
      * rewrite lookup_alter_eq. by destruct (call_streams d1 !! k); constructor.
      * rewrite lookup_alter_ne by done. destruct (call_streams d1 !! k'); by constructor.
    + by apply turns_ok_served.
  - apply (wf_served d1 (call_streams d1) (Some (turn + 1)) Hwf1).
    + intros k'. destruct (call_streams d1 !! k'); by constructor.
    + by apply turns_ok_tick.
Qed.
End take.

(** ** Acknowledgement *)

Lemma head_filter_Some (P : Row → Prop) `{!∀ r, Decision (P r)} l r :
  head (filter P l) = Some r → r ∈ l ∧ P r.
Proof.
  intros Hh. assert (r ∈ filter P l) as [? ?]%list_elem_of_filter; [|done].
  destruct (filter P l); simplify_eq/=. left.
Qed.

Lemma in_flight_row_Some id d r :
  in_flight_row id d = Some r → r ∈ outbox d ∧ r_event_id r = id ∧ r_state r = "in_flight".
Proof. by intros (? & ? & ?)%head_filter_Some. Qed.

(** Removing rows that belong to no call. *)
Lemma wf_delete (P : Row → Prop) `{!∀ r, Decision (P r)} d :
  wf d → (∀ r, r ∈ outbox d → P r → row_call r = None) → wf (set_outbox (delete_where P) d).
Proof.
  intros Hwf HP. split; simpl; try apply Hwf.
  - unfold ids_unique. simpl. eapply sublist_NoDup; [apply (wf_ids d Hwf)|].
    apply fmap_sublist, sublist_filter.
  - intros r [Hr _]%elem_of_delete_where. by apply wf_rows.
  - intros r1 r2 k [H1 _]%elem_of_delete_where [H2 _]%elem_of_delete_where.
    by apply (wf_seq d Hwf).
  - intros k s Hs Hm n Hn. destruct (wf_contiguous d Hwf k s Hs Hm n Hn) as (r & Hr & Hk & Hq).
    exists r. split_and!; [|done..]. apply elem_of_delete_where. split; [done|].
    intros HPr. by rewrite (HP r Hr HPr) in Hk.
Qed.

(** The state after the acknowledgement of the head [r] of call [k]. *)
Definition acked_db (r : Row) (k : CallKey) (s : Stream) (now : Z) (d : Db) : Db :=
  set_outbox (delete_where (λ r', r_event_id r' = r_event_id r))
    (set_outbox (update_where (successor k (s_next_seq s + 1)) (with_eligible now))
       (set_streams <[k := with_next_seq (s_next_seq s + 1) s]> d)).

Section ack.
Context (d : Db) (r : Row) (k : CallKey) (s : Stream) (now : Z) (Hwf : wf d)
  (Hr : r ∈ outbox d) (Hk : row_call r = Some k) (Hs : call_streams d !! k = Some s)
  (Hq : r_call_seq r = Some (s_next_seq s)).

Lemma elem_of_acked r' :
  r' ∈ outbox (acked_db r k s now d) ↔ ∃ r0, r0 ∈ outbox d ∧ r_event_id r0 ≠ r_event_id r ∧
    ((successor k (s_next_seq s + 1) r0 ∧ r' = with_eligible now r0) ∨
     (¬ successor k (s_next_seq s + 1) r0 ∧ r' = r0)).
Proof using Type.
  simpl. rewrite elem_of_delete_where, elem_of_update_where. split.
  - intros [(r0 & Hin & [[? ->]|[? ->]]) Hid]; exists r0; eauto 10.
  - intros (r0 & Hin & Hid & [[? ->]|[? ->]]); split; eauto 10.
Qed.

Lemma successor_call seq r0 : successor k seq r0 → row_call r0 = Some k.
Proof using Hk.
  intros (Ht & Hu & _). apply row_call_Some in Hk as (_ & _ & ?). by apply row_call_Some.
Qed.

(** Another row of the call is past the head. *)
Lemma behind_head r0 n :
  r0 ∈ outbox d → r_event_id r0 ≠ r_event_id r → row_call r0 = Some k →
  r_call_seq r0 = Some n → s_next_seq s < n.
Proof using Hwf Hr Hk Hs Hq.
  intros Hr0 Hid Hk0 Hn. destruct (wf_rows d Hwf r0 Hr0) as (_ & _ & Hok). rewrite Hk0 in Hok.
  destruct Hok as (s' & n' & Hs' & Hn' & Hb & _). simplify_eq.
  assert (s_next_seq s ≠ n); [|lia]. intros <-.
  apply Hid. eapply (wf_seq d Hwf); eauto. congruence.
Qed.

Lemma acked_row_ok r0 :
  r0 ∈ outbox d → r_event_id r0 ≠ r_event_id r →
  row_ok (call_streams (acked_db r k s now d))
    (if decide (successor k (s_next_seq s + 1) r0) then with_eligible now r0 else r0).
Proof using Hwf Hr Hk Hs Hq.
  intros Hr0 Hid. pose proof (wf_rows d Hwf r0 Hr0) as (Hst & Ha & Hok). simpl.
  destruct (decide (row_call r0 = Some k)) as [Hk0|Hk0].
  - rewrite Hk0 in Hok. destruct Hok as (s' & n & Hs' & Hn & Hb & Hkey & He & Hif).
    assert (s' = s) as -> by congruence.
    pose proof (behind_head r0 n Hr0 Hid Hk0 Hn) as Hlt.
    assert (r_eligible_at_ms r0 = None) as Hnone.
    { apply eq_None_not_Some. rewrite He. lia. }
    assert (successor k (s_next_seq s + 1) r0 ↔ n = s_next_seq s + 1) as Hsucc.
    { unfold successor. apply row_call_Some in Hk0 as (?&?&_). rewrite Hn. naive_solver. }
    assert (row_call (if decide (successor k (s_next_seq s + 1) r0)
                      then with_eligible now r0 else r0) = Some k) as Hk'
      by (case_decide; done).
    unfold row_ok. rewrite Hk', lookup_insert_eq.
    assert (r_state r0 = "in_flight" → n = s_next_seq s + 1) as Hif'
      by (intros Hf; specialize (Hif Hf); lia).
    case_decide as Hd; (split; [done|]); (split; [done|]);
      exists (with_next_seq (s_next_seq s + 1) s), n; simpl; do 4 (split; [done || lia|]).
    + split; [|done]. split; [tauto|eauto].
    + rewrite Hnone. split; [|done]. split; [by intros [] | tauto].
  - rewrite decide_False by (intros Hsc%successor_call; done).
    split; [done|]. split; [done|]. destruct (row_call r0) as [k'|]; [|done].
    by rewrite lookup_insert_ne by congruence.
Qed.

(** Only the head itself leaves the call. *)
Lemma acked_contiguous k' s' :
  call_streams (acked_db r k s now d) !! k' = Some s' →
  contiguous (outbox (acked_db r k s now d)) k' s'.
Proof using Hwf Hr Hk Hs Hq.
  simpl. intros Hs' Hm n Hn.
  assert (∃ s0, call_streams d !! k' = Some s0 ∧ s_mode s0 = "admission" ∧
    s_next_seq s0 ≤ n < s_admit_seq s0 ∧ (k' = k → s_next_seq s < n)) as (s0 & Hs0 & Hm0 & Hn0 & Hlt).
  { apply lookup_insert_Some in Hs' as [[<- <-]|[? Hs']].
    - exists s. simpl in *. repeat (split; [done || lia|]). lia.
    - exists s'. repeat (split; [done || lia|]). done. }
  destruct (wf_contiguous d Hwf k' s0 Hs0 Hm0 n Hn0) as (r0 & Hr0 & Hk0 & Hq0).
  assert (r_event_id r0 ≠ r_event_id r) as Hid.
  { intros He. assert (r0 = r) as -> by (eapply ids_row; eauto using wf_ids).
    rewrite Hk in Hk0. rewrite Hq in Hq0. simplify_eq. specialize (Hlt eq_refl). lia. }
  exists (if decide (successor k (s_next_seq s + 1) r0) then with_eligible now r0 else r0).
  split; [apply elem_of_acked; exists r0; case_decide; auto 10|by case_decide].
Qed.

Lemma acked_wf : wf (acked_db r k s now d).
Proof using Hwf Hr Hk Hs Hq.
  assert (∀ r', r' ∈ outbox (acked_db r k s now d) → ∃ r0, r0 ∈ outbox d ∧
    r_event_id r0 ≠ r_event_id r ∧ r_event_id r' = r_event_id r0 ∧
    row_call r' = row_call r0 ∧ r_call_seq r' = r_call_seq r0) as Hin.
  { intros r' (r0 & Hr0 & Hid & [[Hsc ->]|[Hsc ->]])%elem_of_acked; exists r0; eauto. }
  split.
  - unfold ids_unique. simpl. eapply sublist_NoDup;
      [|apply fmap_sublist, sublist_filter]. rewrite update_where_project; [apply Hwf|done].
  - intros r' (r0 & Hr0 & Hid & Hc)%elem_of_acked.
    pose proof (acked_row_ok r0 Hr0 Hid) as Hok. case_decide; naive_solver.
  - intros r1 r2 k' (r1' & H1 & _ & -> & -> & ->)%Hin (r2' & H2 & _ & -> & -> & ->)%Hin.
    by apply (wf_seq d Hwf).
  - simpl. intros k' s' [[<- <-]|[_ Hs']]%lookup_insert_Some; [|by apply (wf_streams d Hwf)].
    pose proof (wf_streams d Hwf k s Hs) as (?&?&?&?&?).
    pose proof (wf_rows d Hwf r Hr) as (_&_&Hok). rewrite Hk in Hok.
    destruct Hok as (s'' & n & ? & ? & Hb & _). simplify_eq.
    unfold stream_ok; simpl. split_and!; try done; lia.
  - apply acked_contiguous.
  - simpl. apply (turns_ok_insert _ _ _ s); [by left|apply Hwf].
  - simpl. intros k' Hret. rewrite lookup_insert_ne; [by apply (wf_retired d Hwf)|].
    intros ->. rewrite (wf_retired d Hwf k' Hret) in Hs. done.
Qed.
End ack.

(** A unique id selects its row. *)
Lemma row_by_id_unique d id r :
  ids_unique d → r ∈ outbox d → r_event_id r = id → row_by_id id (outbox d) = Some r.
Proof.
  intros Hids Hr Hid. unfold row_by_id.
  assert (r ∈ filter (λ r, r_event_id r = id) (outbox d)) as Hin by (by apply list_elem_of_filter).
  destruct (filter _ _) as [|r0 l] eqn:Hf; [by apply not_elem_of_nil in Hin|]. simpl. f_equal.
  assert (r0 ∈ filter (λ r, r_event_id r = id) (outbox d)) as [Hid0 Hr0]%list_elem_of_filter
    by (rewrite Hf; left).
  eapply ids_row; eauto. congruence.
Qed.

Section ack_txn.
Context `{E : Env}.

(** What a committed acknowledgement did. *)
Lemma ack_txn_inv id d t u d' :
  wf d → ack_txn id d t = inr (u, d') →
  ∃ r, r ∈ outbox d ∧ r_event_id r = id ∧ r_state r = "in_flight" ∧
    ((row_call r = None ∧ d' = set_outbox (delete_where (λ r', r_event_id r' = id)) d) ∨
     ∃ k s, row_call r = Some k ∧ call_streams d !! k = Some s ∧
       r_call_seq r = Some (s_next_seq s) ∧ d' = acked_db r k s (clock t) d).
Proof.
  intros Hwf Htx. unfold ack_txn in Htx.
  destruct (in_flight_row id d) as [r|] eqn:Hr; [|done].
  apply in_flight_row_Some in Hr as (Hr & <- & Hst). exists r. split_and!; [done..|].
  cbv zeta in Htx. case_decide as Hc.
  { left. simplify_eq. split; [|done]. by apply row_call_None. }
  right. destruct (r_call_uuid r) as [u'|] eqn:Hu; [|done]. simpl in *.
  assert (row_call r = Some (r_topic r, u')) as Hk by (by apply row_call_Some).
  destruct (wf_rows d Hwf r Hr) as (_ & _ & Hok). rewrite Hk in Hok.
  destruct Hok as (s & n & Hs & Hn & _). rewrite Hs, Hn in Htx. simpl in Htx.
  case_decide as He; simplify_eq. exists (r_topic r, u'), s. by rewrite Hn.
Qed.

Lemma ack_wf id d t u d' : wf d → ack_txn id d t = inr (u, d') → wf d'.
Proof.
  intros Hwf Htx.
  destruct (ack_txn_inv id d t u d' Hwf Htx) as (r & Hr & <- & _ & [[Hk ->]|Hord]).
  - apply wf_delete; [done|]. intros r' Hr' Hid.
    by assert (r' = r) as -> by (eapply ids_row; eauto using wf_ids).
  - destruct Hord as (k & s & Hk & Hs & Hq & ->). by apply acked_wf.
Qed.
End ack_txn.

(** ** Admission *)

(** When an event is admitted into [d], with which sequence and with what effect. *)
Inductive admitted (lim : Limits) (rec : OutboxRecord) (now : Z) (d : Db) : Z → Db → Prop :=
  | admitted_free :
      call_uuid rec = "" → call_seq rec < 0 →
      (∀ r, r ∈ outbox d → r_event_id r ≠ event_id rec) →
      admitted lim rec now d (-1)
        (set_outbox (λ rows, rows ++ [pending_row rec (call_seq rec) now true]) d)
  | admitted_call k s seq :
      k = (topic rec, call_uuid rec) → k.2 ≠ "" → retired_calls d !! k = None →
      s = joined_stream rec d → msg_key rec ≠ "" →
      s_msg_key s = msg_key rec → s_mode s = order_mode (call_seq rec) →
      seq = (if decide (call_seq rec < 0) then s_admit_seq s else call_seq rec) →
      (0 ≤ call_seq rec → s_next_seq s ≤ call_seq rec) →
      (call_streams d !! k = None → Z.of_nat (size (call_streams d)) < max_rows lim) →
      0 ≤ seq → seq ≠ int64_max →
      (∀ r, r ∈ outbox d → r_event_id r ≠ event_id rec) →
      (∀ r, r ∈ outbox d → row_call r = Some k → r_call_seq r ≠ Some seq) →
      admitted lim rec now d seq
        (set_outbox (λ rows, rows ++ [pending_row rec seq now (bool_decide (seq = s_next_seq s))])
           (set_streams <[k := with_admit_seq (Z.max (s_admit_seq s) (seq + 1)) s]> d)).

Section insert.
Context `{E : Env}.

Definition admission_time (rec : OutboxRecord) (t : nat) : Z :=
  if decide (created_at_ms rec ≠ 0) then created_at_ms rec else clock t.

(** Looking up an appended row, and any other. *)
Lemma row_by_id_append rows r :
  (∀ r', r' ∈ rows → r_event_id r' ≠ r_event_id r) →
  row_by_id (r_event_id r) (rows ++ [r]) = Some r ∧
  ∀ id, id ≠ r_event_id r → row_by_id id (rows ++ [r]) = row_by_id id rows.
Proof.
  intros Hno. unfold row_by_id. split.
  - rewrite filter_app, (proj2 (filter_none _ rows)) by done. by rewrite filter_cons_True.
  - intros id Hid. rewrite filter_app, filter_cons_False by congruence. by rewrite filter_nil, app_nil_r.
Qed.

Lemma same_seq_pending rec seq now h r :
  call_uuid rec ≠ "" →
  same_seq (pending_row rec seq now h) r ↔
  row_call r = Some (topic rec, call_uuid rec) ∧ r_call_seq r = Some seq.
Proof.
  intros Hc. unfold same_seq. simpl. rewrite (decide_False (P := call_uuid rec = "")) by done.
  rewrite row_call_Some. simpl. destruct (r_call_uuid r), (r_call_seq r); simpl; naive_solver.
Qed.

Lemma insert_row_inr r d d' n :
  insert_row r d = inr (d', n) ↔
  (∀ r', r' ∈ outbox d → r_event_id r' ≠ r_event_id r) ∧
  (∀ r', r' ∈ outbox d → ¬ same_seq r r') ∧ d' = set_outbox (λ rows, rows ++ [r]) d ∧ n = 1.
Proof.
  unfold insert_row. case_decide as H1; [|case_decide as H2].
  - split; [done|]. intros (Hno & _). apply Exists_exists in H1 as (r' & Hin & Hid).
    by destruct (Hno r').
  - split; [done|]. intros (_ & Hno & _). apply Exists_exists in H2 as (r' & Hin & Hid).
    by destruct (Hno r').
  - split.
    + intros [= <- <-]. split_and!; try done; intros r' Hin Hr';
        [apply H1|apply H2]; apply Exists_exists; by exists r'.
    + by intros (_ & _ & -> & ->).
Qed.

Lemma admit_txn_inr lim rec d seq h d' :
  admit_txn lim rec d = inr (seq, h, d') ↔
  let k := (topic rec, call_uuid rec) in let s := joined_stream rec d in
  msg_key rec ≠ "" ∧ s_msg_key s = msg_key rec ∧ s_mode s = order_mode (call_seq rec) ∧
  seq = (if decide (call_seq rec < 0) then s_admit_seq s else call_seq rec) ∧
  (0 ≤ call_seq rec → s_next_seq s ≤ call_seq rec) ∧
  (call_streams d !! k = None → Z.of_nat (size (call_streams d)) < max_rows lim) ∧
  0 ≤ seq ∧ seq ≠ int64_max ∧ h = bool_decide (seq = s_next_seq s) ∧
  d' = set_streams <[k := with_admit_seq (Z.max (s_admit_seq s) (seq + 1)) s]> d.
Proof.
  unfold admit_txn. cbv zeta. set (s := joined_stream rec d).
  set (sq := if decide (call_seq rec < 0) then _ else _).
  destruct (decide (msg_key rec = "")); [naive_solver|].
  destruct (decide (¬ (_ ∧ _))) as [Hsame|Hsame]; [naive_solver|].
  destruct (decide (0 ≤ call_seq rec < _)); [naive_solver lia|].
  destruct (decide (_ ∧ max_rows lim ≤ _)) as [[? ?]|Hcap]; [naive_solver lia|].
  destruct (decide (¬ (0 ≤ sq ∧ sq ≠ int64_max))) as [Hr|Hr]; [naive_solver|].
  apply dec_stable in Hsame, Hr. split.
  - intros [= <- <- <-]. split_and!; try tauto; [lia|]. intros Hn.
    apply Z.nle_gt. tauto.
  - intros (?&?&?&->&?&?&?&?&->&->). done.
Qed.

Lemma store_txn_inr rec seq h d t a d' :
  store_txn rec seq h d t = inr (a, d') ↔
  let r := pending_row rec seq (admission_time rec t) h in
  (∀ r', r' ∈ outbox d → r_event_id r' ≠ event_id rec) ∧
  (∀ r', r' ∈ outbox d → ¬ same_seq r r') ∧
  d' = set_outbox (λ rows, rows ++ [r]) d ∧ a = (if decide (call_uuid rec = "") then -1 else seq).
Proof.
  unfold store_txn. cbv zeta. fold (admission_time rec t).
  pose proof (insert_row_inr (pending_row rec seq (admission_time rec t) h) d) as Hi.
  destruct (insert_row _ d) as [e|[d1 n]].
  - split; [done|]. intros (H1 & H2 & _). discriminate (proj2 (Hi _ 1) (conj H1 (conj H2 (conj eq_refl eq_refl)))).
  - destruct (proj1 (Hi d1 n) eq_refl) as (H1 & H2 & -> & ->). naive_solver.
Qed.

(** [insert_txn] accepts exactly the admissible events. *)
Lemma insert_txn_admitted lim rec d t a d' :
  insert_txn lim rec d t = inr (a, d') ↔
  ¬ over_capacity lim rec (reclaimed lim rec d) ∧
  admitted lim rec (admission_time rec t) (reclaimed lim rec d) a d'.
Proof.
  assert (retired_calls (reclaimed lim rec d) = retired_calls d) as Hret
    by (unfold reclaimed; by case_decide).
  unfold insert_txn. cbv zeta. set (d1 := reclaimed lim rec d) in *. split.
  - intros H. case_decide as Hr; [done|]. case_decide as Ho; [done|]. split; [done|].
    destruct (decide (call_uuid rec ≠ "")) as [Hc|Hc].
    + destruct (admit_txn lim rec d1) as [|[[seq h] d2]] eqn:Ha; [done|].
      apply admit_txn_inr in Ha as (Hk & Hk' & Hm & Hs & Hle & Hcap & H0 & Hmx & -> & ->).
      apply store_txn_inr in H as (Hid & Hsq & -> & ->).
      rewrite decide_False by done. eapply admitted_call; eauto; simpl.
      * rewrite Hret. apply dec_stable. tauto.
      * intros r Hin Hk1 Hk2. eapply (Hsq r Hin). by apply same_seq_pending.
    + apply dec_stable in Hc. case_decide; [done|].
      apply store_txn_inr in H as (Hid & _ & -> & ->). rewrite decide_True by done.
      constructor; auto; lia.
  - intros [Ho Ha]. rewrite (decide_False (P := over_capacity _ _ _)) by done.
    destruct Ha as [Hc Hs Hid|k s seq -> Hc Hrt -> Hk Hk' Hm Hs Hle Hcap H0 Hmx Hid Hsq].
    + rewrite decide_False by tauto. rewrite decide_False by tauto.
      rewrite decide_False by lia. apply store_txn_inr. rewrite decide_True by done.
      split_and!; try done. intros r Hr (_ & Hcu & Hsq). simpl in Hsq.
      by rewrite decide_True in Hsq.
    + simpl in Hc. rewrite decide_False by (rewrite <- Hret; tauto). rewrite decide_True by done.
      rewrite (proj2 (admit_txn_inr lim rec d1 seq _ _)
        (conj Hk (conj Hk' (conj Hm (conj Hs (conj Hle (conj Hcap (conj H0 (conj Hmx
          (conj eq_refl eq_refl)))))))))).
      apply store_txn_inr. rewrite decide_False by done. split_and!; try done.
      intros r Hr Hsm%same_seq_pending; [|done]. destruct Hsm as [Hk1 Hk2].
      by destruct (Hsq r Hr Hk1).
Qed.

Lemma reclaimed_wf lim rec d : wf d → wf (reclaimed lim rec d).
Proof.
  intros Hwf. unfold reclaimed. case_decide; [|done]. apply wf_delete; [done|].
  intros r _ (_ & _ & Hu). by apply row_call_None.
Qed.
End insert.

(** The stream of an admitted event: recorded, or new with nothing admitted yet. *)
Lemma joined_stream_cases rec d :
  let k := (topic rec, call_uuid rec) in let s := joined_stream rec d in
  call_streams d !! k = Some s ∨
  (call_streams d !! k = None ∧ s = mkStream (msg_key rec) (order_mode (call_seq rec)) 0 0 0).
Proof. unfold joined_stream. simpl. destruct (call_streams d !! _); auto. Qed.

Lemma order_mode_admission n : order_mode n = "admission" → n < 0.
Proof. unfold order_mode. by case_decide. Qed.

Lemma ids_unique_append d r :
  ids_unique d → (∀ r', r' ∈ outbox d → r_event_id r' ≠ r_event_id r) →
  NoDup (r_event_id <$> (outbox d ++ [r])).
Proof.
  intros Hnd Hno. rewrite fmap_app. apply NoDup_app. split_and!; [done| |apply NoDup_singleton].
  intros i (r' & -> & Hr')%list_elem_of_fmap Hi%list_elem_of_singleton.
  by apply (Hno r').
Qed.

Lemma wf_append_free d r :
  wf d → row_ok (call_streams d) r → row_call r = None →
  (∀ r', r' ∈ outbox d → r_event_id r' ≠ r_event_id r) →
  wf (set_outbox (λ rows, rows ++ [r]) d).
Proof.
  intros Hwf Hok Hk Hid. split; simpl; try apply Hwf.
  - apply ids_unique_append; [apply Hwf|done].
  - intros r' [?| ->%list_elem_of_singleton]%elem_of_app; [by apply wf_rows|done].
  - intros r1 r2 k [?| ->%list_elem_of_singleton]%elem_of_app
      [?| ->%list_elem_of_singleton]%elem_of_app; try congruence. by apply (wf_seq d Hwf).
  - intros k s Hs Hm n Hn. destruct (wf_contiguous d Hwf k s Hs Hm n Hn) as (r' & ? & ?).
    exists r'. split; [|done]. apply elem_of_app. by left.
Qed.

Section admitted_call.
Context (rec : OutboxRecord) (now : Z) (d : Db) (Hwf : wf d).
Let k : CallKey := (topic rec, call_uuid rec).
Let s : Stream := joined_stream rec d.
Context (seq : Z)
  (Hc : call_uuid rec ≠ "") (Hret : retired_calls d !! k = None) (Hkey : msg_key rec ≠ "")
  (Hskey : s_msg_key s = msg_key rec) (Hmode : s_mode s = order_mode (call_seq rec))
  (Hseq : seq = (if decide (call_seq rec < 0) then s_admit_seq s else call_seq rec))
  (Hcur : 0 ≤ call_seq rec → s_next_seq s ≤ call_seq rec)
  (H0 : 0 ≤ seq) (Hmax : seq ≠ int64_max) (Hint : call_seq rec ≤ int64_max)
  (Hid : ∀ r, r ∈ outbox d → r_event_id r ≠ event_id rec)
  (Hfresh : ∀ r, r ∈ outbox d → row_call r = Some k → r_call_seq r ≠ Some seq).
Let r : Row := pending_row rec seq now (bool_decide (seq = s_next_seq s)).
Let s' : Stream := with_admit_seq (Z.max (s_admit_seq s) (seq + 1)) s.

Lemma joined_bounds : 0 ≤ s_next_seq s ≤ s_admit_seq s ∧ s_admit_seq s ≤ int64_max.
Proof.
  destruct (joined_stream_cases rec d) as [Hs|[_ Hs]].
  - destruct (wf_streams d Hwf _ _ Hs) as (?&?&_). done.
  - subst s. rewrite Hs. simpl. unfold int64_max. lia.
Qed.

Lemma admitted_seq_bounds : s_next_seq s ≤ seq < int64_max.
Proof.
  pose proof joined_bounds. rewrite Hseq in H0, Hmax |- *. case_decide; lia.
Qed.

Lemma admitted_row_call : row_call r = Some k.
Proof. by apply row_call_Some. Qed.

Lemma admitted_row_seq : r_call_seq r = Some seq.
Proof. simpl. by rewrite decide_False. Qed.

Lemma admitted_row_ok : row_ok (<[k := s']> (call_streams d)) r.
Proof.
  pose proof admitted_seq_bounds. split; [simpl; set_solver|]. split; [done|].
  rewrite admitted_row_call, lookup_insert_eq, admitted_row_seq. exists s', seq.
  split; [done|]. split; [done|]. split; [simpl; lia|]. split; [simpl; by rewrite Hskey|].
  split; [|done]. simpl. by case_bool_decide as Hh; split.
Qed.

Lemma admitted_old_ok r' : r' ∈ outbox d → row_ok (<[k := s']> (call_streams d)) r'.
Proof.
  intros Hr'. apply (row_ok_cursor (call_streams d)); [|by apply wf_rows].
  intros k' s0 _ Hs0. destruct (decide (k' = k)) as [->|Hne].
  - exists s'. rewrite lookup_insert_eq. split; [done|].
    destruct (joined_stream_cases rec d) as [Hs|[Hs _]]; fold k s in Hs; rewrite Hs0 in Hs; [|done].
    injection Hs as ->. simpl. split_and!; [done|done|lia].
  - exists s0. rewrite lookup_insert_ne by done. split_and!; [done..|lia].
Qed.

Lemma admitted_stream_ok : stream_ok k s'.
Proof.
  pose proof admitted_seq_bounds. pose proof joined_bounds.
  unfold stream_ok. simpl. rewrite Hskey, Hmode. split; [lia|]. split; [lia|].
  split_and!; try done. unfold order_mode. case_decide; set_solver.
Qed.

Lemma admitted_contiguous k1 s1 :
  <[k := s']> (call_streams d) !! k1 = Some s1 → contiguous (outbox d ++ [r]) k1 s1.
Proof.
  assert (∀ k0 s0 n, call_streams d !! k0 = Some s0 → s_mode s0 = "admission" →
    s_next_seq s0 ≤ n < s_admit_seq s0 →
    ∃ r0, r0 ∈ outbox d ++ [r] ∧ row_call r0 = Some k0 ∧ r_call_seq r0 = Some n) as Hold.
  { intros k0 s0 n Hs0 Hm Hn. destruct (wf_contiguous d Hwf k0 s0 Hs0 Hm n Hn) as (r0 & ? & ?).
    exists r0. split; [|done]. apply elem_of_app. by left. }
  intros [[<- <-]|[_ Hs1]]%lookup_insert_Some Hm n Hn; [|by eapply Hold].
  simpl in Hm, Hn. pose proof Hm as Hm'. rewrite Hmode in Hm'.
  apply order_mode_admission in Hm'. rewrite decide_True in Hseq by done.
  destruct (decide (n = seq)) as [->|Hne].
  - exists r. rewrite admitted_row_call, admitted_row_seq. split; [|done].
    apply elem_of_app. right. by apply list_elem_of_singleton.
  - destruct (joined_stream_cases rec d) as [Hs|[_ Hs]].
    + apply (Hold k s); [done|done|lia].
    + fold s in Hs. rewrite Hs in Hn, Hseq. simpl in *. lia.
Qed.

Lemma admitted_call_wf :
  wf (set_outbox (λ rows, rows ++ [r]) (set_streams <[k := s']> d)).
Proof.
  split; simpl.
  - apply ids_unique_append; [apply Hwf|done].
  - intros r' [?| ->%list_elem_of_singleton]%elem_of_app;
      [by apply admitted_old_ok|apply admitted_row_ok].
  - intros r1 r2 k1 [?| ->%list_elem_of_singleton]%elem_of_app
      [?| ->%list_elem_of_singleton]%elem_of_app; rewrite ?admitted_row_call, ?admitted_row_seq;
      intros; simplify_eq; try done; [by eapply (wf_seq d Hwf)|..]; exfalso; eapply Hfresh; eauto.
  - intros k1 s1 [[<- <-]|[_ ?]]%lookup_insert_Some;
      [apply admitted_stream_ok|by apply (wf_streams d Hwf)].
  - apply admitted_contiguous.
  - apply (turns_ok_insert _ _ _ s); [|apply Hwf].
    destruct (joined_stream_cases rec d) as [Hs|[_ Hs]]; [by left|right].
    subst s'. fold s in Hs. by rewrite Hs.
  - intros k1 Hk1. rewrite lookup_insert_ne; [by apply (wf_retired d Hwf)|].
    intros <-. rewrite Hret in Hk1. by destruct Hk1.
Qed.
End admitted_call.

Lemma admitted_wf lim rec now d a d' :
  wf d → call_seq rec ≤ int64_max → admitted lim rec now d a d' → wf d'.
Proof.
  intros Hwf Hint [Hc Hs Hid|k s seq -> Hc Hrt -> Hk Hk' Hm Hs Hle Hcap H0 Hmx Hid Hsq].
  - assert (row_call (pending_row rec (call_seq rec) now true) = None) as Hk.
    { apply row_call_None. done. }
    apply wf_append_free; try done. split; [simpl; set_solver|]. split; [done|].
    rewrite Hk. simpl. rewrite decide_True by done. eauto.
  - by apply admitted_call_wf.
Qed.

Lemma insert_wf `{E : Env} lim rec d t a d' :
  wf d → call_seq rec ≤ int64_max → insert_txn lim rec d t = inr (a, d') → wf d'.
Proof.
  intros Hwf Hint Htx. apply insert_txn_admitted in Htx as [_ Ha].
  exact (admitted_wf _ _ _ _ _ _ (reclaimed_wf _ _ _ Hwf) Hint Ha).
Qed.
