(* ===== verification/Open.v ===== *)
(** Opening and closing the outbox: [Outbox::open] with its ownership lock, its refusal of
    databases that it cannot schedule safely, and its schema migration; [Outbox::close]. *)
From S2P Require Import Prelude Sqlite Tables Outbox OutboxSpec OutboxInv.

(** ** The operations *)

(** [Outbox::Impl]'s changing state: the connection and whether the lock file is held. The limits
    are arguments of the operations that read them. *)
Record Handle := mkHandle { h_conn : Conn Db; h_lock : bool }.

Definition close_conn (c : Conn Db) : Conn Db :=
  mkConn false (durable c) None (c_changes c) (c_io c) (c_tick c).

(** [Outbox::close]: [sqlite3_close], then [::close] of the lock file. *)
Definition close (h : Handle) : Handle :=
  if c_open (h_conn h) then mkHandle (close_conn (h_conn h)) false
  else mkHandle (h_conn h) false.

Section open.
Context `{E : Env}.
Implicit Types (d : Db) (c : Conn Db).
Abbreviation DbM := (M (Conn Db)).

(** [sqlite3_open]: the connection exists whether or not the call succeeds. *)
Definition sqlite3_open : DbM unit := λ c,
  bind_call "outbox open failed"
    (mkConn true (c_db c) (c_txn c) (c_changes c) (c_io c) (c_tick c)).

(** [sql(db, text)] with a text that changes nothing modelled. *)
Definition sql_pragma : DbM unit := sq_call.

(** The column names that [PRAGMA table_info(outbox)] lists. *)
Definition table_columns d : list string :=
  ["event_id"; "topic"; "msg_key"; "payload"; "state"; "attempts"; "next_attempt_at_ms";
   "last_error"; "created_at_ms"; "updated_at_ms"; "call_uuid"] ++
  (if has_seq d then ["call_seq"] else []) ++
  (if has_eligible d then ["eligible_at_ms"] else []).

Definition set_schema (tbl seq eligible index : bool) d : Db :=
  mkDb (user_version d) tbl seq eligible index (outbox d) (call_streams d) (retired_calls d)
    (order_scheduler d).
Definition set_version (v : Z) d : Db :=
  mkDb v (has_table d) (has_seq d) (has_eligible d) (has_seq_index d) (outbox d) (call_streams d)
    (retired_calls d) (order_scheduler d).

(** [CREATE TABLE IF NOT EXISTS outbox(...)]: a new table has every column. *)
Definition create_outbox d : SqError + (Db * Z) :=
  inr (if has_table d then d else set_schema true true true (has_seq_index d) d, 0).
Definition add_call_seq d : SqError + (Db * Z) :=
  inr (set_schema (has_table d) true (has_eligible d) (has_seq_index d) d, 0).
Definition add_eligible d : SqError + (Db * Z) :=
  inr (set_schema (has_table d) (has_seq d) true (has_seq_index d) d, 0).

(** [CREATE UNIQUE INDEX IF NOT EXISTS idx_outbox_seq]. *)
Fixpoint seq_clash (rows : list Row) : bool :=
  match rows with
  | [] => false
  | r :: rows' => bool_decide (Exists (same_seq r) rows') || seq_clash rows'
  end.
Definition create_seq_index d : SqError + (Db * Z) :=
  if has_seq_index d then inr (d, 0)
  else if seq_clash (outbox d)
  then inl (UniqueConstraint "outbox.topic, outbox.call_uuid, outbox.call_seq")
  else inr (set_schema (has_table d) (has_seq d) (has_eligible d) true d, 0).

(** [INSERT OR IGNORE INTO order_scheduler SELECT 1,COALESCE(MAX(last_served_ms),0) FROM
    call_streams]. *)
Definition max_list (l : list Z) : option Z :=
  match l with [] => None | x :: l' => Some (foldr Z.max x l') end.
Definition served_turns d : list Z := (λ ks, s_last_served_ms ks.2) <$> map_to_list (call_streams d).
Definition start_scheduler d : SqError + (Db * Z) :=
  inr match order_scheduler d with
      | Some _ => (d, 0)
      | None => (set_scheduler (Some (coalesce 0 (max_list (served_turns d)))) d, 1)
      end.

(** The count of [... LEFT JOIN call_streams ... WHERE COALESCE(o.call_uuid,'')<>'' AND
    (o.call_seq IS NULL OR s.call_uuid IS NULL)]. *)
Definition cursorless d (r : Row) : Prop :=
  ¬ ungrouped r ∧ (r_call_seq r = None ∨ stream_of d r = None).
#[global] Instance cursorless_dec d r : Decision (cursorless d r).
Proof. unfold cursorless. apply _. Defined.

(** The count of [retired_calls r JOIN call_streams s ON ...]. *)
Definition retired_live d : list CallKey :=
  filter (λ k, is_Some (call_streams d !! k)) (map_to_list (retired_calls d)).*1.

(** [UPDATE outbox SET eligible_at_ms=created_at_ms WHERE eligible_at_ms IS NULL AND (...)]. *)
Definition unstamped d (r : Row) : Prop := r_eligible_at_ms r = None ∧ deliverable d r.
#[global] Instance unstamped_dec d r : Decision (unstamped d r).
Proof. unfold unstamped. apply _. Defined.
Definition stamp_eligible d : SqError + (Db * Z) :=
  sql_update (unstamped d) (λ r, with_eligible (r_created_at_ms r) r) d.

(** The migration transaction. *)
Definition migrate (tbl seq eligible : bool) : DbM unit :=
  sq_exec create_outbox;;
  (if decide (tbl = true ∧ seq = false) then sq_exec add_call_seq else mret tt);;
  (if decide (tbl = true ∧ eligible = false) then sq_exec add_eligible else mret tt);;
  sql_pragma;;                     (* CREATE TABLE IF NOT EXISTS call_streams *)
  sq_exec create_seq_index;;
  sql_pragma;; sql_pragma;;        (* the two plain indexes *)
  sql_pragma;; sql_pragma;;        (* CREATE TABLE IF NOT EXISTS retired_calls, order_scheduler *)
  sq_exec start_scheduler;;
  prepare;; n ← query (λ d, count_where (cursorless d) (outbox d));
  ensure (n = 0) "corrupt ordered outbox/cursor";;
  prepare;; n ← query (λ d, Z.of_nat (length (retired_live d)));
  ensure (n = 0) "retired call still has active cursor";;
  sq_exec stamp_eligible;;
  sq_exec (λ d, inr (set_version 5 d, 0)).

(** What [open] does on a fresh connection. *)
Definition open_body : DbM unit :=
  prepare;; tbl ← query has_table;
  cols ← (if tbl : bool then prepare;; cols ← sq_read table_columns; step_rows cols
          else mret []);
  let seq := bool_decide ("call_seq" ∈ cols) in
  let eligible := bool_decide ("eligible_at_ms" ∈ cols) in
  (if decide (tbl = true ∧ seq = false) then
     prepare;; n ← query row_count;
     ensure (n = 0) "legacy nonempty outbox: reconcile/backup before upgrade; no sequence inferred"
   else mret tt);;
  prepare;; v ← query user_version;
  ensure (v ≤ 5) "unsupported outbox schema version";;
  sql_pragma;; sql_pragma;;        (* journal_mode=WAL; synchronous=FULL *)
  scoped_transaction (a ← migrate tbl seq eligible; commit;; mret a).

(** [Outbox::open], where [flock_ok] tells whether the lock file could be opened and locked. *)
Definition open (flock_ok : bool) : M Handle (string + unit) := λ h,
  if c_open (h_conn h) then (Ok (inr tt), h)
  else if flock_ok then
    match (sqlite3_open;; open_body) (h_conn h) with
    | (Ok _, c) => (Ok (inr tt), mkHandle c true)
    | (Throw e, c) => (Ok (inl e), close (mkHandle c true))
    | (Killed, c) => (Killed, mkHandle c true)
    end
  else (Ok (inl "outbox already owned or lock unavailable"), mkHandle (h_conn h) false).

(** ** What opening promises *)

Definition migrated d : Db :=
  set_schema true true true true (set_scheduler
    (Some (coalesce (coalesce 0 (max_list (served_turns d))) (order_scheduler d))) d).

Definition open_txn : Spec unit := λ d _,
  if decide (has_table d = true ∧ has_seq d = false ∧ outbox d ≠ []) then
    inl "legacy nonempty outbox: reconcile/backup before upgrade; no sequence inferred"
  else if decide (5 < user_version d) then inl "unsupported outbox schema version"
  else if (negb (has_seq_index d) && seq_clash (outbox d))%bool then
    inl (sq_errmsg (UniqueConstraint "outbox.topic, outbox.call_uuid, outbox.call_seq"))
  else if decide (¬ Forall (λ r, ¬ cursorless d r) (outbox d)) then
    inl "corrupt ordered outbox/cursor"
  else if decide (retired_live d ≠ []) then inl "retired call still has active cursor"
  else inr (tt, set_version 5
                  (set_outbox (update_where (unstamped d) (λ r, with_eligible (r_created_at_ms r) r))
                     (migrated d))).

(** ** Opening refines it *)

#[local] Existing Instance effect_free_seq.

Lemma has_column d :
  bool_decide ("call_seq" ∈ table_columns d) = has_seq d ∧
  bool_decide ("eligible_at_ms" ∈ table_columns d) = has_eligible d.
Proof. unfold table_columns. by destruct (has_seq d), (has_eligible d). Qed.

Lemma count_none (P : Row → Prop) `{!∀ r, Decision (P r)} l :
  count_where P l = 0 ↔ Forall (λ r, ¬ P r) l.
Proof. by rewrite count_where_0, Forall_forall. Qed.

(** The checks and the stamping at the end of the migration. *)
Lemma txwp_checks q d0 d ch t Q (R : string → Prop) :
  (¬ Forall (λ r, ¬ cursorless d r) (outbox d) → R "corrupt ordered outbox/cursor") →
  (Forall (λ r, ¬ cursorless d r) (outbox d) → retired_live d ≠ [] →
   R "retired call still has active cursor") →
  (Forall (λ r, ¬ cursorless d r) (outbox d) → retired_live d = [] → ∀ ch' t',
   Q tt (set_version 5 (set_outbox (update_where (unstamped d)
            (λ r, with_eligible (r_created_at_ms r) r)) d)) ch' t') →
  txwp q d0 (prepare;; n ← query (λ d, count_where (cursorless d) (outbox d));
    ensure (n = 0) "corrupt ordered outbox/cursor";;
    prepare;; n ← query (λ d, Z.of_nat (length (retired_live d)));
    ensure (n = 0) "retired call still has active cursor";;
    sq_exec stamp_eligible;;
    sq_exec (λ d, inr (set_version 5 d, 0))) Q R d ch t.
Proof.
  intros Hc Hr HQ. do 2 tx_step. tx_step; rewrite count_none; [done|intros Hok].
  do 2 tx_step. tx_step; intros Hn.
  - apply Hr; [done|]. intros Hl. by rewrite Hl in Hn.
  - assert (retired_live d = []) as Hl by (apply length_zero_iff_nil; lia).
    tx_step. simpl. tx_step. by apply HQ.
Qed.

Lemma started d :
  start_scheduler (set_schema true true true true d) =
  inr (migrated d, if order_scheduler d then 0 else 1).
Proof. by destruct d as [?????? ?? []]. Qed.

(** The schema part of the migration. *)
Lemma txwp_schema {B} q d0 ch t d (k : DbM B) Q (R : string → Prop) :
  ((has_seq_index d = false ∧ seq_clash (outbox d) = true) →
   R (sq_errmsg (UniqueConstraint "outbox.topic, outbox.call_uuid, outbox.call_seq"))) →
  (¬ (has_seq_index d = false ∧ seq_clash (outbox d) = true) →
   ∀ ch', txwp q d0 k Q R (migrated d) ch' t) →
  txwp q d0 (sq_exec create_outbox;;
    (if decide (has_table d = true ∧ has_seq d = false) then sq_exec add_call_seq else mret tt);;
    (if decide (has_table d = true ∧ has_eligible d = false) then sq_exec add_eligible
     else mret tt);;
    sql_pragma;; sq_exec create_seq_index;; sql_pragma;; sql_pragma;; sql_pragma;; sql_pragma;;
    sq_exec start_scheduler;; k) Q R d ch t.
Proof.
  intros HR HQ. set (k1 := sql_pragma;; sq_exec create_seq_index;; _).
  assert (∀ ch', txwp q d0 k1 Q R (set_schema true true true (has_seq_index d) d) ch' t) as Hrest.
  { intros ch'. unfold k1, sql_pragma. do 2 tx_step. unfold create_seq_index. simpl.
    destruct (has_seq_index d); [|destruct (seq_clash (outbox d)); [by apply HR|]];
      do 5 tx_step; rewrite started; apply HQ; naive_solver. }
  clearbody k1. tx_step. simpl.
  destruct d as [v tbl sq el ix rows ss rt sch]; simpl in *.
  destruct tbl, sq, el; simpl; repeat (tx_step; simpl); (apply Hrest || done).
Qed.

Lemma txwp_migrate q d0 ch t d :
  (has_table d = true → has_seq d = false → outbox d = []) → user_version d ≤ 5 →
  txwp q d0 (migrate (has_table d) (has_seq d) (has_eligible d))
    (λ a d' _ _, open_txn d t = inr (a, d')) (λ e, open_txn d t = inl e) d ch t.
Proof.
  intros Hleg Hver. unfold migrate, open_txn.
  rewrite (decide_False (P := _ ∧ _ ∧ outbox d ≠ [])) by (intros (?&?&?); auto).
  rewrite (decide_False (P := 5 < _)) by lia. apply txwp_schema; intros Hclash.
  - destruct Hclash as [-> ->]. done.
  - assert ((negb (has_seq_index d) && seq_clash (outbox d))%bool = false) as ->
      by (destruct (has_seq_index d), (seq_clash (outbox d)); simpl; tauto).
    intros ch'. apply txwp_checks; simpl; intros Hc.
    + by rewrite decide_True.
    + intros Hr. rewrite decide_False by tauto. by rewrite decide_True.
    + intros Hr ch2 t2. rewrite decide_False by tauto. rewrite decide_False by tauto. done.
Qed.

Lemma acwp_open q d ch t :
  (has_table d = false → has_seq d = false ∧ has_eligible d = false) →
  acwp q d (open_txn d t) open_body ch t.
Proof.
  intros Hsch. unfold open_body. do 2 ac_step.
  assert (∀ ch', (has_table d = true → has_seq d = false → outbox d = []) →
    acwp q d (open_txn d t) (prepare;; v ← query user_version;
      ensure (v ≤ 5) "unsupported outbox schema version";; sql_pragma;; sql_pragma;;
      scoped_transaction (a ← migrate (has_table d) (has_seq d) (has_eligible d);
                          commit;; mret a)) ch' t) as Hrest.
  { intros ch' Hleg. do 3 ac_step; intros Hver.
    - unfold open_txn. rewrite decide_False by (intros (?&?&?); auto). by rewrite decide_True by lia.
    - unfold sql_pragma. do 2 ac_step. apply acwp_transaction. by apply txwp_migrate. }
  assert (has_table d = true → has_seq d = false → outbox d ≠ [] → open_txn d t =
    inl "legacy nonempty outbox: reconcile/backup before upgrade; no sequence inferred") as Hrefuse.
  { intros. unfold open_txn. by rewrite decide_True. }
  destruct (has_table d) eqn:Htbl.
  - do 5 ac_step. destruct (has_column d) as [-> ->]. destruct (has_seq d) eqn:Hseq; simpl.
    + ac_step. by apply Hrest.
    + do 5 ac_step; unfold row_count; intros Hn.
      * apply Hrefuse; [done..|]. intros Hl. by rewrite Hl in Hn.
      * apply Hrest. intros _ _. apply length_zero_iff_nil. lia.
  - destruct (Hsch eq_refl) as [Hs He]. rewrite Hs, He in Hrest. simpl. do 2 ac_step. by apply Hrest.
Qed.
End open.

(** ** The whole of [open] *)

(** A file without the table has neither rows nor columns in it. *)
Definition file_ok (d : Db) : Prop :=
  has_table d = false → has_seq d = false ∧ has_eligible d = false ∧ outbox d = [].

(** A file whose schema is the current one. *)
Definition current_schema (d : Db) : Prop :=
  user_version d = 5 ∧ has_table d = true ∧ has_seq d = true ∧ has_eligible d = true ∧
  has_seq_index d = true.

Section opening.
Context `{E : Env}.

(** What [open] leaves when it returns, and when the process dies in it. *)
Definition opened (flock_ok : bool) (h : Handle) (res : string + unit) (h' : Handle) : Prop :=
  match res with
  | inr _ => flock_ok = true ∧ h_lock h' = true ∧ c_open (h_conn h') = true ∧
      c_txn (h_conn h') = None ∧
      open_txn (c_db (h_conn h)) (c_tick (h_conn h)) = inr (tt, c_db (h_conn h'))
  | inl e => h_lock h' = false ∧ c_open (h_conn h') = false ∧ c_txn (h_conn h') = None ∧
      c_db (h_conn h') = c_db (h_conn h) ∧
      (flock_ok = false → e = "outbox already owned or lock unavailable") ∧
      (flock_ok = true → quiet_from (c_io (h_conn h)) →
       open_txn (c_db (h_conn h)) (c_tick (h_conn h)) = inl e)
  end.

Lemma open_refines flock_ok h :
  c_open (h_conn h) = false → c_txn (h_conn h) = None → file_ok (c_db (h_conn h)) →
  wp (open flock_ok) (opened flock_ok h) (λ _ _, False)
    (λ h', durable (h_conn h') = c_db (h_conn h) ∨
           open_txn (c_db (h_conn h)) (c_tick (h_conn h)) = inr (tt, durable (h_conn h'))) h.
Proof.
  intros Ho Ht Hok. destruct h as [c l]; simpl in *. unfold wp, open. simpl. rewrite Ho.
  destruct flock_ok; [|by split_and!].
  assert (acwp (c_io c) (c_db c) (open_txn (c_db c) (c_tick c)) open_body (c_changes c) (c_tick c))
    as Hbody by (apply acwp_open; intros Hf; by destruct (Hok Hf) as (?&?&_)).
  set (c0 := mkConn true (c_db c) (c_txn c) (c_changes c) (c_io c) (c_tick c)).
  assert (at_state (c_io c) None (c_db c) (c_changes c) (c_tick c) c0) as Hc0 by (by repeat split).
  assert (acwp (c_io c) (c_db c) (open_txn (c_db c) (c_tick c))
    (bind_call "outbox open failed";; open_body) (c_changes c) (c_tick c)) as Hwp by (by ac_step).
  specialize (Hwp c0 Hc0). unfold wp in Hwp.
  change ((sqlite3_open;; open_body) c) with ((bind_call "outbox open failed";; open_body) c0).
  destruct ((bind_call _;; open_body) c0) as [[[]|e|] c']; simpl in *.
  - naive_solver.
  - destruct Hwp as (Ho' & Ht' & Hd' & HR). unfold close. simpl. rewrite Ho'.
    unfold close_conn, durable. rewrite Ht'. simpl. by split_and!.
  - destruct Hwp as [?|[[] ?]]; auto.
Qed.

(** *** Which files are accepted, and what becomes of them *)

Lemma wf_cursors d : wf d → Forall (λ r, ¬ cursorless d r) (outbox d).
Proof.
  intros Hwf. apply Forall_forall. intros r Hr (Hu & Hc).
  destruct (wf_rows d Hwf r Hr) as (_ & _ & Hok).
  destruct (row_call r) as [k|] eqn:Hk; [|by apply Hu, row_call_None].
  destruct Hok as (s & n & Hs & Hn & _). rewrite (stream_of_call d r k Hk) in Hc.
  destruct Hc; congruence.
Qed.

Lemma wf_retired_live d : wf d → retired_live d = [].
Proof.
  intros Hwf. apply filter_none. intros k ([k' t] & -> & Hk)%list_elem_of_fmap Hs.
  apply elem_of_map_to_list in Hk. simpl in Hs.
  rewrite (wf_retired d Hwf k') in Hs; [by destruct Hs|by exists t].
Qed.

Lemma wf_stamped d r : wf d → r ∈ outbox d → ¬ unstamped d r.
Proof.
  intros Hwf Hr [Hn Hdel]. destruct (wf_rows d Hwf r Hr) as (_ & _ & Hok).
  destruct (row_call r) as [k|] eqn:Hk.
  - destruct Hok as (s & n & Hs & Hq & _ & _ & He & _). rewrite Hn in He.
    destruct Hdel as [Hu|Hh]; [by apply row_call_None in Hu; congruence|].
    apply (is_head_call d r k s Hk Hs) in Hh. rewrite Hq in Hh. simplify_eq.
    by destruct (proj2 He eq_refl).
  - destruct Hok as [_ He]. rewrite Hn in He. by destruct He.
Qed.

(** A file that this program wrote is accepted as it is. *)
Lemma open_txn_wf d t : wf d → current_schema d → open_txn d t = inr (tt, d).
Proof.
  intros Hwf (Hv & Ht & Hs & He & Hi). unfold open_txn.
  rewrite decide_False by (intros (_ & ? & _); congruence). rewrite decide_False by lia.
  rewrite Hi. simpl. rewrite decide_False by (intros Hc; by apply Hc, wf_cursors).
  rewrite decide_False by (intros Hr; by apply Hr, wf_retired_live). do 2 f_equal.
  destruct (wf_turns d Hwf) as (turn & Hturn & _).
  assert (migrated d = d) as ->.
  { destruct d; simpl in *. subst. done. }
  rewrite set_outbox_same.
  - destruct d; simpl in *. by subst.
  - apply update_where_none. intros r Hr. by apply wf_stamped.
Qed.

(** What [open] makes of an accepted file, whichever version wrote it. *)
Lemma open_txn_inv d t u d' :
  open_txn d t = inr (u, d') →
  current_schema d' ∧ is_Some (order_scheduler d') ∧
  call_streams d' = call_streams d ∧ retired_calls d' = retired_calls d ∧
  Forall2 (λ r r', r' = r ∨ (deliverable d r ∧ r' = with_eligible (r_created_at_ms r) r))
    (outbox d) (outbox d') ∧
  (∀ r', r' ∈ outbox d' → deliverable d' r' → is_Some (r_eligible_at_ms r')) ∧
  (∀ r', r' ∈ outbox d' → ungrouped r' ∨ is_Some (r_call_seq r') ∧ is_Some (stream_of d' r')).
Proof.
  unfold open_txn. intros H. case_decide; [done|]. case_decide; [done|].
  destruct (_ && _)%bool; [done|]. case_decide as Hc; [done|].
  case_decide; [done|]. simplify_eq. simpl.
  assert (∀ r, deliverable (migrated d) r ↔ deliverable d r) as Hdel by done.
  split_and!; [done|by eexists|done|done|..].
  - apply Forall2_fmap_r, Forall_Forall2_diag, Forall_forall. intros r _.
    unfold compose. case_decide as Hu; [right|by left]. split; [apply Hu|done].
  - intros r' (r & Hr & [[Hu ->]|[Hu ->]])%elem_of_update_where Hd; [by eexists|].
    destruct (r_eligible_at_ms r) eqn:He; [by eexists|]. by destruct Hu.
  - rewrite Forall_forall in Hc. intros r' (r & Hr & Hcase)%elem_of_update_where.
    specialize (Hc r Hr). unfold cursorless in Hc.
    assert (ungrouped r ∨ is_Some (r_call_seq r) ∧ is_Some (stream_of d r)) as Hok.
    { destruct (decide (ungrouped r)); [by left|right].
      destruct (r_call_seq r), (stream_of d r); naive_solver. }
    destruct Hcase as [[_ ->]|[_ ->]]; done.
Qed.
End opening.
