(* ===== verification/System.v ===== *)
(** The process as a transition system: every committed transaction of the outbox, every message
    handed to the producer and every delivery report is one step, in any interleaving of the
    callers of [enqueue], the worker thread, the operator and process restarts. The history
    records what happened; the theorems on per-call order, at-least-once delivery and content
    rest on the invariant proved here. *)
From S2P Require Import Prelude Sqlite Tables Outbox OutboxSpec OutboxInv.

Inductive Event :=
  | Admit (r : Row)      (** the row was committed by an admission *)
  | Send (r : Row)       (** the row was handed to the producer *)
  | Ack (r : Row)        (** the row was removed on a successful delivery report *)
  | Reclaim (r : Row).   (** the row was deleted to make room *)

#[export] Instance Event_eq_dec : EqDecision Event.
Proof. solve_decision. Defined.

(** [chan]: the events whose delivery report the live producer still owes. *)
Record Sys := mkSys { db : Db; chan : list string; hist : list Event }.

#[export] Instance Sys_eq_dec : EqDecision Sys.
Proof. solve_decision. Defined.

Section system.
Context `{E : Env} (lim : Limits).

Definition reclaimed_rows (rec : OutboxRecord) (d : Db) : list Row :=
  if decide (over_capacity lim rec d) then filter reclaimable (outbox d) else [].

Inductive step (s : Sys) : Sys → Prop :=
  | step_admit rec t a d' r :
      call_seq rec ≤ int64_max → insert_txn lim rec (db s) t = inr (a, d') →
      outbox d' = outbox (reclaimed lim rec (db s)) ++ [r] →
      step s (mkSys d' (chan s)
               (hist s ++ (Reclaim <$> reclaimed_rows rec (db s)) ++ [Admit r]))
  | step_take id t d' :
      take_txn id (db s) t = inr (tt, d') → step s (mkSys d' (chan s) (hist s))
  | step_send r :
      r ∈ outbox (db s) → r_state r = "in_flight" → r_event_id r ∉ chan s →
      step s (mkSys (db s) (chan s ++ [r_event_id r]) (hist s ++ [Send r]))
  | step_ack id t r d' :
      id ∈ chan s → in_flight_row id (db s) = Some r → ack_txn id (db s) t = inr (tt, d') →
      step s (mkSys d' (filter (.≠ id) (chan s)) (hist s ++ [Ack r]))
  | step_drop ids :
      ids `sublist_of` chan s → step s (mkSys (db s) ids (hist s))
  | step_retry id next error t d' :
      id ∉ chan s → retry_txn id next error (db s) t = inr (tt, d') →
      step s (mkSys d' (chan s) (hist s))
  | step_dead id error t d' :
      id ∉ chan s → dead_txn id error (db s) t = inr (tt, d') →
      step s (mkSys d' (chan s) (hist s))
  | step_requeue t d' :
      chan s = [] → requeue_txn (db s) t = inr (tt, d') → step s (mkSys d' [] (hist s))
  | step_expire now ttl t n d' :
      expire_txn now ttl (db s) t = inr (n, d') → step s (mkSys d' (chan s) (hist s))
  | step_revive id t d' :
      revive_txn id (db s) t = inr (tt, d') → step s (mkSys d' (chan s) (hist s)).

(** A process that starts on the file [d]. *)
Definition start_state (d : Db) : Sys := mkSys d [] [].
Definition reachable (d : Db) : Sys → Prop := rtc step (start_state d).

(** *** What one step does to the rows and cursors *)

(** The content that never changes after admission. *)
Definition same_content (r r' : Row) : Prop :=
  r_event_id r' = r_event_id r ∧ r_topic r' = r_topic r ∧ r_msg_key r' = r_msg_key r ∧
  r_payload r' = r_payload r ∧ r_created_at_ms r' = r_created_at_ms r ∧
  r_call_uuid r' = r_call_uuid r ∧ r_call_seq r' = r_call_seq r.

Lemma same_slot_content r r' : same_slot r r' → same_content r r'.
Proof. intros (?&?&?&?&?&?&?&?). by repeat split. Qed.

Lemma same_content_trans r1 r2 r3 : same_content r1 r2 → same_content r2 r3 → same_content r1 r3.
Proof. intros (?&?&?&?&?&?&?) (?&?&?&?&?&?&?). split_and!; congruence. Qed.

Lemma same_content_call r r' : same_content r r' → row_call r' = row_call r.
Proof. intros (_&Ht&_&_&_&Hu&_). unfold row_call. by rewrite Hu, Ht. Qed.

(** A step of status only: rows keep their slots, cursors keep their place. *)
Record status_step (d d' : Db) : Prop := {
  status_ids : r_event_id <$> outbox d' = r_event_id <$> outbox d;
  status_rows r' : r' ∈ outbox d' → ∃ r, r ∈ outbox d ∧ same_slot r r';
  status_streams k : option_Forall2 same_cursor (call_streams d !! k) (call_streams d' !! k);
}.

Lemma status_update (P : Row → Prop) `{!∀ r, Decision (P r)} f d :
  (∀ r, same_slot r (f r)) → status_step d (set_outbox (update_where P f) d).
Proof.
  intros Hf. split; simpl.
  - apply update_where_project. intros r _. apply Hf.
  - intros r' (r & Hr & [[_ ->]|[_ ->]])%elem_of_update_where; exists r; [done|].
    split; [done|by repeat split].
  - intros k. destruct (call_streams d !! k); by constructor.
Qed.

(** The sendable sequence of a call; 0 before the call has a stream. *)
Definition cursor (d : Db) (k : CallKey) : Z := coalesce 0 (s_next_seq <$> call_streams d !! k).

Lemma status_cursor d d' k : status_step d d' → cursor d' k = cursor d k.
Proof.
  intros Hs. unfold cursor. pose proof (status_streams d d' Hs k) as Hk.
  destruct Hk as [st st' (_&_&Hn&_)|]; simpl; congruence.
Qed.

Lemma status_refl d : status_step d d.
Proof.
  split; [done|intros r Hr; exists r; split; [done|by repeat split]|].
  intros k. destruct (call_streams d !! k); by constructor.
Qed.

Lemma one_row_status P `{!∀ r, Decision (P r)} f what d u d' :
  (∀ r, same_slot r (f r)) → one_row_txn P f what d = inr (u, d') → status_step d d'.
Proof.
  intros Hf Htx. unfold one_row_txn in Htx. case_decide; simplify_eq. by apply status_update.
Qed.

(** What a committed [take_txn] did. *)
Lemma take_txn_inv id d t u d' :
  take_txn id d t = inr (u, d') →
  count_where (markable id d) (outbox d) = 1 ∧
  outbox d' = update_where (markable id d)
    (λ r, with_attempts (r_attempts r + 1) (with_state "in_flight" (clock t) r)) (outbox d) ∧
  status_step d d'.
Proof.
  intros Htx. unfold take_txn in Htx. case_decide as Hn; [|done].
  destruct (order_scheduler d) as [turn|]; [|done]. case_decide; [|done].
  set (d1 := set_outbox _ d) in Htx. split; [done|].
  assert (status_step d d1) as [Hi Hr Hs] by (by apply status_update).
  destruct (r ← row_by_id id (outbox d1); _) as [k|]; simplify_eq; (split; [done|]).
  - split; [done|done|]. intros k'. simpl. destruct (decide (k' = k)) as [->|Hne].
    + rewrite lookup_alter_eq. by destruct (call_streams d !! k); constructor.
    + rewrite lookup_alter_ne by done. apply Hs.
  - done.
Qed.

Lemma reclaimed_outbox rec d :
  outbox (reclaimed lim rec d) ++ reclaimed_rows rec d ≡ₚ outbox d.
Proof.
  unfold reclaimed, reclaimed_rows. case_decide; simpl; [|by rewrite app_nil_r].
  rewrite Permutation_app_comm. apply filter_app_complement.
Qed.

Lemma reclaimed_streams rec d : call_streams (reclaimed lim rec d) = call_streams d.
Proof. unfold reclaimed. by case_decide. Qed.

Lemma admitted_cursor rec now d a d' k :
  admitted lim rec now d a d' → cursor d' k = cursor d k.
Proof.
  intros [Hc Hs Hid|k1 s seq -> Hc Hrt -> Hk Hk' Hm Hs Hle Hcap H0 Hmx Hid Hsq]; [done|].
  unfold cursor. simpl. destruct (decide (k = (topic rec, call_uuid rec))) as [->|Hne].
  - rewrite lookup_insert_eq. simpl.
    destruct (joined_stream_cases rec d) as [Hj|[Hj ->]]; rewrite Hj; done.
  - by rewrite lookup_insert_ne by done.
Qed.

Lemma acked_cursor r k st now d k' :
  call_streams d !! k = Some st →
  cursor (acked_db r k st now d) k' = cursor d k' + if decide (k' = k) then 1 else 0.
Proof.
  intros Hst. unfold cursor. simpl. case_decide as Hk.
  - subst k'. by rewrite lookup_insert_eq, Hst.
  - rewrite lookup_insert_ne by done. lia.
Qed.

(** The steps by what they do to the rows, the cursors and the history. *)
Inductive effect (s s' : Sys) : Prop :=
  | effect_status :
      status_step (db s) (db s') → hist s' = hist s → effect s s'
  | effect_send r :
      db s' = db s → r ∈ outbox (db s) → r_state r = "in_flight" →
      hist s' = hist s ++ [Send r] → effect s s'
  | effect_ack r :
      r ∈ outbox (db s) → r_state r = "in_flight" → hist s' = hist s ++ [Ack r] →
      (∀ r', r' ∈ outbox (db s') → ∃ r0, r0 ∈ outbox (db s) ∧ same_content r0 r') →
      r_event_id <$> outbox (db s) ≡ₚ r_event_id r :: (r_event_id <$> outbox (db s')) →
      (∀ k, cursor (db s') k = cursor (db s) k + if decide (row_call r = Some k) then 1 else 0) →
      effect s s'
  | effect_admit r rs :
      hist s' = hist s ++ (Reclaim <$> rs) ++ [Admit r] →
      outbox (db s) ++ [r] ≡ₚ outbox (db s') ++ rs →
      (∀ r', r' ∈ rs → reclaimable r') →
      (∀ k, cursor (db s') k = cursor (db s) k) → effect s s'.

Lemma delete_ids (rows : list Row) id :
  NoDup (r_event_id <$> rows) → id ∈ r_event_id <$> rows →
  r_event_id <$> rows ≡ₚ id :: (r_event_id <$> delete_where (λ r, r_event_id r = id) rows).
Proof.
  intros Hnd Hid. apply NoDup_Permutation; [done|constructor|].
  - intros (r' & Hr' & [_ Hne]%elem_of_delete_where)%list_elem_of_fmap. by destruct Hne.
  - eapply sublist_NoDup; [exact Hnd|]. apply fmap_sublist, sublist_filter.
  - intros i. rewrite elem_of_cons. split.
    + intros (r' & -> & Hr')%list_elem_of_fmap.
      destruct (decide (r_event_id r' = id)); [by left|right].
      apply list_elem_of_fmap. exists r'. by rewrite elem_of_delete_where.
    + intros [->|(r' & -> & [Hr' _]%elem_of_delete_where)%list_elem_of_fmap]; [done|].
      by apply list_elem_of_fmap_2.
Qed.

(** An acknowledgement removes one row. *)
Lemma ack_ids id d t u d' :
  wf d → ack_txn id d t = inr (u, d') →
  r_event_id <$> outbox d ≡ₚ id :: (r_event_id <$> outbox d').
Proof.
  intros Hwf Htx.
  destruct (ack_txn_inv id d t u d' Hwf Htx) as (r & Hr & <- & _ & [[_ ->]|(k & st & _ & _ & _ & ->)]); simpl.
  - apply delete_ids; [by apply wf_ids|by apply list_elem_of_fmap_2].
  - set (rows := update_where _ _ _).
    assert (r_event_id <$> rows = r_event_id <$> outbox d) as Hids by (by apply update_where_project).
    rewrite <- Hids. apply delete_ids; rewrite Hids; [by apply wf_ids|by apply list_elem_of_fmap_2].
Qed.

Lemma ack_effect s id t r d' :
  wf (db s) → in_flight_row id (db s) = Some r → ack_txn id (db s) t = inr (tt, d') →
  effect s (mkSys d' (filter (.≠ id) (chan s)) (hist s ++ [Ack r])).
Proof.
  intros Hwf Hr Htx. apply in_flight_row_Some in Hr as (Hr & Hid & Hst).
  destruct (ack_txn_inv id _ t _ d' Hwf Htx) as (r' & Hr' & Hid' & _ & Hcase).
  assert (r' = r) as -> by (eapply ids_row; eauto using wf_ids; congruence). clear Hr' Hid'.
  subst id. apply (effect_ack _ _ r); try done; simpl.
  - destruct Hcase as [[_ ->]|(k & st & Hk & Hs & Hq & ->)]; intros r'.
    + intros [? _]%elem_of_delete_where. exists r'. split; [done|by repeat split].
    + intros (r0 & Hr0 & _ & [[_ ->]|[_ ->]])%elem_of_acked; exists r0;
        (split; [done|by repeat split]).
  - by apply (ack_ids _ _ t tt).
  - destruct Hcase as [[Hk ->]|(k & st & Hk & Hs & Hq & ->)]; intros k'.
    + rewrite Hk. rewrite decide_False by done. by rewrite Z.add_0_r.
    + rewrite acked_cursor by done. rewrite Hk. do 2 case_decide; simplify_eq; lia.
Qed.

Lemma admit_effect s rec t a d' r :
  insert_txn lim rec (db s) t = inr (a, d') →
  outbox d' = outbox (reclaimed lim rec (db s)) ++ [r] →
  effect s (mkSys d' (chan s) (hist s ++ (Reclaim <$> reclaimed_rows rec (db s)) ++ [Admit r])).
Proof.
  intros Htx Hout. apply insert_txn_admitted in Htx as [_ Ha].
  apply (effect_admit _ _ r (reclaimed_rows rec (db s))); simpl; [done|..].
  - rewrite Hout. rewrite <- (reclaimed_outbox rec (db s)) at 1.
    rewrite <- !app_assoc. f_equiv. apply Permutation_app_comm.
  - intros r'. unfold reclaimed_rows. case_decide; [|by intros ?%not_elem_of_nil].
    by intros [? _]%list_elem_of_filter.
  - intros k. rewrite (admitted_cursor _ _ _ _ _ k Ha). unfold cursor.
    by rewrite reclaimed_streams.
Qed.

Lemma step_effect s s' : wf (db s) → step s s' → effect s s'.
Proof.
  intros Hwf Hstep. destruct Hstep as
    [rec t a d' r Hint Htx Hout|id t d' Htx|r Hr Hst Hnc|id t r d' Hc Hr Htx|ids Hsub
    |id next error t d' Hc Htx|id error t d' Hc Htx|t d' Hc Htx|now ttl t n d' Htx|id t d' Htx].
  - by eapply admit_effect.
  - apply effect_status; [by eapply take_txn_inv|done].
  - by eapply effect_send.
  - by eapply ack_effect.
  - apply effect_status; [apply status_refl|done].
  - apply effect_status; [|done]. by eapply one_row_status; [|exact Htx].
  - apply effect_status; [|done]. by eapply one_row_status; [|exact Htx].
  - apply effect_status; [|done]. unfold requeue_txn in Htx. simplify_eq. by apply status_update.
  - apply effect_status; [|done]. unfold expire_txn in Htx.
    case_decide; simplify_eq; [apply status_refl|by apply status_update].
  - apply effect_status; [|done]. by eapply one_row_status; [|exact Htx].
Qed.

Lemma step_wf s s' : wf (db s) → step s s' → wf (db s').
Proof.
  intros Hwf Hstep. destruct Hstep; simpl; try done;
    first [by eapply insert_wf|by eapply take_wf|by eapply ack_wf|by eapply retry_wf
          |by eapply dead_wf|by eapply requeue_wf|by eapply expire_wf|by eapply revive_wf].
Qed.

(** ** The invariant of the history *)

Definition acked_seq (k : CallKey) (e : Event) : option Z :=
  match e with
  | Ack r => if decide (row_call r = Some k) then r_call_seq r else None
  | _ => None
  end.
(** The sequences of call [k] acknowledged so far, in order. *)
Definition acked_seqs (k : CallKey) (h : list Event) : list Z := omap (acked_seq k) h.

Definition admitted_rows (h : list Event) : list Row :=
  omap (λ e, match e with Admit r => Some r | _ => None end) h.
Definition acked_rows (h : list Event) : list Row :=
  omap (λ e, match e with Ack r => Some r | _ => None end) h.
Definition dropped_rows (h : list Event) : list Row :=
  omap (λ e, match e with Reclaim r => Some r | _ => None end) h.

(** Where a row comes from: the file the process started on, or an admission. *)
Definition origin (d : Db) (h : list Event) (r : Row) : Prop :=
  ∃ r0, (r0 ∈ outbox d ∨ Admit r0 ∈ h) ∧ same_content r0 r.

Record history_ok (d0 : Db) (s : Sys) : Prop := {
  h_wf : wf (db s);
  (** acknowledgements of a call: each sequence from the initial cursor on, once, in order *)
  h_acked k : cursor d0 k ≤ cursor (db s) k ∧
    acked_seqs k (hist s) = seqZ (cursor d0 k) (cursor (db s) k - cursor d0 k);
  (** a message of a call is handed over when exactly its predecessors are acknowledged *)
  h_send h1 r h2 k n : hist s = h1 ++ Send r :: h2 → row_call r = Some k →
    r_call_seq r = Some n →
    cursor d0 k ≤ n ∧ acked_seqs k h1 = seqZ (cursor d0 k) (n - cursor d0 k);
  (** every event is accounted for *)
  h_ids : (r_event_id <$> outbox d0) ++ (r_event_id <$> admitted_rows (hist s)) ≡ₚ
    (r_event_id <$> outbox (db s)) ++ (r_event_id <$> acked_rows (hist s)) ++
    (r_event_id <$> dropped_rows (hist s));
  h_dropped r : r ∈ dropped_rows (hist s) → reclaimable r;
  (** rows carry the content they were admitted with *)
  h_origin r : r ∈ outbox (db s) → origin d0 (hist s) r;
  h_sent r : Send r ∈ hist s → origin d0 (hist s) r;
  h_numbered r k : Send r ∈ hist s → row_call r = Some k → is_Some (r_call_seq r);
}.

Lemma acked_seqs_app k h1 h2 : acked_seqs k (h1 ++ h2) = acked_seqs k h1 ++ acked_seqs k h2.
Proof. apply omap_app. Qed.

Lemma origin_mono d h h' r : origin d h r → h ⊆ h' → origin d h' r.
Proof. intros (r0 & [?|?] & ?) Hsub; exists r0; eauto. Qed.

Lemma origin_content d h r r' : origin d h r → same_content r r' → origin d h r'.
Proof. intros (r0 & ? & ?) ?. exists r0. eauto using same_content_trans. Qed.

(** A history entry that is not a [Send] leaves the obligations on sends as they are. *)
Lemma send_split h (es : list Event) h1 r h2 :
  (∀ r', Send r' ∉ es) → h ++ es = h1 ++ Send r :: h2 → ∃ h2', h = h1 ++ Send r :: h2'.
Proof.
  intros Hns. revert h1. induction h as [|x h IH]; intros h1 He.
  - simpl in He. subst es. exfalso. apply (Hns r). apply elem_of_app. right. left.
  - destruct h1 as [|y h1]; injection He as -> He; [by exists h|].
    destruct (IH h1 He) as [h2' ->]. by exists h2'.
Qed.

Lemma send_last h r' h1 r h2 :
  h ++ [Send r'] = h1 ++ Send r :: h2 →
  (∃ h2', h = h1 ++ Send r :: h2') ∨ (r = r' ∧ h1 = h).
Proof.
  revert h1. induction h as [|x h IH]; intros [|y h1] He; simpl in He.
  - injection He as ->. by right.
  - injection He as _ He. by destruct h1.
  - injection He as -> _. left. by exists h.
  - injection He as -> He.
    destruct (IH h1 He) as [[h2' ->]|[-> ->]]; [left; by exists h2'|by right].
Qed.

Lemma admit_perm (A B K D R : list string) x :
  A ++ [x] ≡ₚ B ++ R → (A ++ K ++ D) ++ [x] ≡ₚ B ++ K ++ D ++ R.
Proof.
  intros Hp. transitivity ((A ++ [x]) ++ K ++ D); [solve_Permutation|].
  rewrite Hp. solve_Permutation.
Qed.

(** *** One step at a time *)

Section steps.
Context (d0 : Db) (s s' : Sys) (Hok : history_ok d0 s).

Lemma head_seq r k n :
  r ∈ outbox (db s) → r_state r = "in_flight" → row_call r = Some k →
  r_call_seq r = Some n → n = cursor (db s) k.
Proof.
  intros Hr Hst Hk Hn. destruct (wf_rows _ (h_wf _ _ Hok) r Hr) as (_ & _ & Hrow).
  rewrite Hk in Hrow. destruct Hrow as (st & n' & Hs & Hn' & _ & _ & _ & Hif).
  unfold cursor. rewrite Hs. simpl. rewrite <- (Hif Hst). congruence.
Qed.

Lemma next_acked k (e : effect s s') :
  cursor d0 k ≤ cursor (db s') k ∧
  acked_seqs k (hist s') = seqZ (cursor d0 k) (cursor (db s') k - cursor d0 k).
Proof.
  destruct (h_acked _ _ Hok k) as [Hle Hacked].
  destruct e as [Hst Hh|r Hd Hr Hst Hh|r Hr Hst Hh Hc Hids Hcur|r rs Hh Hp Hrs Hcur]; rewrite Hh.
  - by rewrite (status_cursor _ _ k Hst).
  - rewrite acked_seqs_app, Hd. simpl. by rewrite app_nil_r.
  - rewrite acked_seqs_app, Hcur, Hacked. simpl. case_decide as Hk; simpl.
    + destruct (wf_rows _ (h_wf _ _ Hok) r Hr) as (_ & _ & Hrow). rewrite Hk in Hrow.
      destruct Hrow as (st & n & _ & Hn & _). rewrite Hn. simpl. split; [lia|].
      rewrite (head_seq r k n Hr Hst Hk Hn).
      rewrite Z.add_sub_swap, seqZ_app by lia. f_equal. rewrite Zplus_minus. done.
    + rewrite app_nil_r, Z.add_0_r. done.
  - rewrite Hcur, !acked_seqs_app, Hacked. simpl. rewrite app_nil_r. split; [done|].
    assert (acked_seqs k (Reclaim <$> rs) = []) as ->; [|by rewrite app_nil_r].
    clear. induction rs; done.
Qed.

Lemma next_send (e : effect s s') h1 r h2 k n :
  hist s' = h1 ++ Send r :: h2 → row_call r = Some k → r_call_seq r = Some n →
  cursor d0 k ≤ n ∧ acked_seqs k h1 = seqZ (cursor d0 k) (n - cursor d0 k).
Proof.
  intros Hh' Hk Hn.
  assert ((∃ h2', hist s = h1 ++ Send r :: h2') → cursor d0 k ≤ n ∧
    acked_seqs k h1 = seqZ (cursor d0 k) (n - cursor d0 k)) as Hold
    by (intros [h2' ?]; by eapply (h_send _ _ Hok)).
  destruct e as [Hst Hh|r1 Hd Hr Hst Hh|r1 Hr Hst Hh Hc Hids Hcur|r1 rs Hh Hp Hrs Hcur];
    rewrite Hh in Hh'.
  - apply Hold. eauto.
  - apply send_last in Hh' as [?|[-> ->]]; [by apply Hold|].
    rewrite (head_seq r1 k n Hr Hst Hk Hn). apply (h_acked _ _ Hok).
  - apply send_split in Hh'; [by apply Hold|]. intros r' ?%list_elem_of_singleton. done.
  - apply send_split in Hh'; [by apply Hold|].
    intros r' [(? & ? & _)%list_elem_of_fmap|?%list_elem_of_singleton]%elem_of_app; done.
Qed.

Lemma next_ids (e : effect s s') :
  (r_event_id <$> outbox d0) ++ (r_event_id <$> admitted_rows (hist s')) ≡ₚ
  (r_event_id <$> outbox (db s')) ++ (r_event_id <$> acked_rows (hist s')) ++
  (r_event_id <$> dropped_rows (hist s')).
Proof.
  pose proof (h_ids _ _ Hok) as Hp.
  destruct e as [Hst Hh|r1 Hd Hr Hst Hh|r1 Hr Hst Hh Hc Hids Hcur|r1 rs Hh Hpr Hrs Hcur];
    rewrite Hh; unfold admitted_rows, acked_rows, dropped_rows in *; rewrite ?omap_app; simpl.
  - by rewrite (status_ids _ _ Hst).
  - by rewrite Hd, !app_nil_r.
  - rewrite !app_nil_r, Hp, Hids, !fmap_app. simpl. solve_Permutation.
  - assert (omap (λ e, match e with Admit r => Some r | _ => None end) (Reclaim <$> rs) = [])
      as -> by (clear; induction rs; done).
    assert (omap (λ e, match e with Ack r => Some r | _ => None end) (Reclaim <$> rs) = [])
      as -> by (clear; induction rs; done).
    assert (omap (λ e, match e with Reclaim r => Some r | _ => None end) (Reclaim <$> rs) = rs)
      as -> by (clear; induction rs as [|x rs IH]; [done|exact (f_equal (cons x) IH)]).
    apply (fmap_Permutation r_event_id) in Hpr. rewrite !fmap_app in Hpr. simpl in *.
    rewrite !app_nil_r, !fmap_app. simpl. rewrite (app_assoc (r_event_id <$> outbox d0)), Hp.
    by apply admit_perm.
Qed.

Lemma origin_next r (e : effect s s') : origin d0 (hist s) r → origin d0 (hist s') r.
Proof.
  intros Ho. apply (origin_mono _ _ _ _ Ho).
  destruct e as [_ Hh|? _ _ _ Hh|? _ _ Hh|? ? Hh]; rewrite Hh; set_solver.
Qed.

Lemma next_origin (e : effect s s') r : r ∈ outbox (db s') → origin d0 (hist s') r.
Proof.
  intros Hr. pose proof (λ r, origin_next r e) as Hnext.
  destruct e as [Hst Hh|r1 Hd _ _ Hh|r1 _ _ Hh Hc _ _|r1 rs Hh Hpr _ _].
  - apply Hnext. destruct (status_rows _ _ Hst r Hr) as (r0 & Hr0 & Hsl).
    eapply origin_content; [by apply (h_origin _ _ Hok)|by apply same_slot_content].
  - apply Hnext, (h_origin _ _ Hok). congruence.
  - apply Hnext. destruct (Hc r Hr) as (r0 & Hr0 & Hsl).
    eapply origin_content; [by apply (h_origin _ _ Hok)|done].
  - assert (r ∈ outbox (db s) ++ [r1]) as [Hin|Hin]%elem_of_app
      by (rewrite Hpr; apply elem_of_app; by left).
    + by apply Hnext, (h_origin _ _ Hok).
    + apply list_elem_of_singleton in Hin as ->. exists r1. split; [|by repeat split].
      right. rewrite Hh. set_solver.
Qed.

Lemma send_next (e : effect s s') r : Send r ∈ hist s' → Send r ∈ hist s ∨ r ∈ outbox (db s).
Proof.
  intros Hr. destruct e as [_ Hh|r1 _ Hr1 _ Hh|r1 _ _ Hh _ _ _|r1 rs Hh _ _ _]; rewrite Hh in Hr; set_solver.
Qed.

Lemma next_sent (e : effect s s') r : Send r ∈ hist s' → origin d0 (hist s') r.
Proof.
  intros Hr%(send_next e). apply (origin_next _ e).
  destruct Hr; [by apply (h_sent _ _ Hok)|by apply (h_origin _ _ Hok)].
Qed.

Lemma next_numbered (e : effect s s') r k :
  Send r ∈ hist s' → row_call r = Some k → is_Some (r_call_seq r).
Proof.
  intros [Hr|Hr]%(send_next e) Hk; [by eapply (h_numbered _ _ Hok)|].
  destruct (wf_rows _ (h_wf _ _ Hok) r Hr) as (_ & _ & Hrow). rewrite Hk in Hrow.
  destruct Hrow as (st & n & _ & -> & _). by eexists.
Qed.

Lemma next_dropped (e : effect s s') r : r ∈ dropped_rows (hist s') → reclaimable r.
Proof.
  pose proof (h_dropped _ _ Hok r) as Hd.
  unfold dropped_rows. rewrite list_elem_of_omap. intros (ev & Hev & Heq).
  destruct ev as [| | |r']; simplify_eq.
  assert (Reclaim r ∈ hist s → reclaimable r) as Hold.
  { intros Hin. apply Hd, list_elem_of_omap. by exists (Reclaim r). }
  destruct e as [_ Hh|r1 _ Hr1 _ Hh|r1 _ _ Hh _ _ _|r1 rs Hh _ Hrs _]; rewrite Hh in Hev;
    set_solver.
Qed.
End steps.

Lemma history_step d0 s s' : history_ok d0 s → step s s' → history_ok d0 s'.
Proof.
  intros Hok Hstep. pose proof (step_effect s s' (h_wf _ _ Hok) Hstep) as He. split.
  - exact (step_wf s s' (h_wf _ _ Hok) Hstep).
  - intros k. exact (next_acked d0 s s' Hok k He).
  - exact (next_send d0 s s' Hok He).
  - exact (next_ids d0 s s' Hok He).
  - exact (next_dropped d0 s s' Hok He).
  - exact (next_origin d0 s s' Hok He).
  - exact (next_sent d0 s s' Hok He).
  - exact (next_numbered d0 s s' Hok He).
Qed.

Lemma history_start d : wf d → history_ok d (start_state d).
Proof.
  intros Hwf. split; simpl; try done.
  - intros k. split; [lia|]. by rewrite Z.sub_diag.
  - intros h1 r h2 k n Hh. by destruct h1.
  - by intros r ?%not_elem_of_nil.
  - intros r Hr. exists r. split; [by left|by repeat split].
  - by intros r ?%not_elem_of_nil.
  - by intros r k ?%not_elem_of_nil.
Qed.

Lemma history_reachable d s : wf d → reachable d s → history_ok d s.
Proof.
  intros Hwf Hr. pose proof (history_start d Hwf) as Hok. unfold reachable in Hr.
  induction Hr as [|s1 s2 s3 Hstep _ IH]; [done|]. by apply IH, (history_step d s1).
Qed.

(** Rows of a call are handed over in sequence order; only the same row can come again. *)
Lemma sends_in_order d0 s h1 r1 h2 r2 h3 k n1 n2 :
  history_ok d0 s → hist s = h1 ++ Send r1 :: h2 ++ Send r2 :: h3 →
  row_call r1 = Some k → row_call r2 = Some k →
  r_call_seq r1 = Some n1 → r_call_seq r2 = Some n2 → n1 ≤ n2.
Proof.
  intros Hok Hh K1 K2 N1 N2.
  destruct (h_send _ _ Hok h1 r1 _ k n1 Hh K1 N1) as [Hc1 Ha1].
  assert (hist s = (h1 ++ Send r1 :: h2) ++ Send r2 :: h3) as Hh2
    by (rewrite Hh; by rewrite <- app_assoc).
  destruct (h_send _ _ Hok _ r2 h3 k n2 Hh2 K2 N2) as [Hc2 Ha2].
  rewrite acked_seqs_app, Ha1 in Ha2. apply (f_equal length) in Ha2.
  rewrite length_app, !length_seqZ in Ha2. lia.
Qed.

(** ** Delivery reports *)

(** Every report the live producer owes concerns a row that is in flight. *)
Definition chan_ok (s : Sys) : Prop :=
  ∀ id, id ∈ chan s → ∃ r, r ∈ outbox (db s) ∧ r_event_id r = id ∧ r_state r = "in_flight".

(** A status change of rows that are not in flight, or not awaited, keeps this. *)
Lemma chan_update P `{!∀ r, Decision (P r)} f s d' :
  chan_ok s → outbox d' = update_where P f (outbox (db s)) →
  (∀ r, r_state r = "in_flight" → r_event_id r ∈ chan s → ¬ P r) →
  ∀ h, chan_ok (mkSys d' (chan s) h).
Proof.
  intros Hc Hd HP h id Hid. destruct (Hc id Hid) as (r & Hr & <- & Hst). exists r. simpl.
  rewrite Hd. split; [|done]. apply update_where_keep; auto.
Qed.

Lemma chan_one_row P `{!∀ r, Decision (P r)} f what s u d' :
  chan_ok s → one_row_txn P f what (db s) = inr (u, d') →
  (∀ r, r_state r = "in_flight" → r_event_id r ∈ chan s → ¬ P r) →
  ∀ h, chan_ok (mkSys d' (chan s) h).
Proof.
  intros Hc Htx. unfold one_row_txn in Htx. case_decide; simplify_eq.
  by apply (chan_update P f).
Qed.

Lemma chan_ack s id t r d' h :
  wf (db s) → chan_ok s → in_flight_row id (db s) = Some r → ack_txn id (db s) t = inr (tt, d') →
  chan_ok (mkSys d' (filter (.≠ id) (chan s)) h).
Proof.
  intros Hwf Hc Hr Htx i [Hne Hi]%list_elem_of_filter. simpl.
  destruct (Hc i Hi) as (r0 & Hr0 & <- & Hst).
  destruct (ack_txn_inv id _ t _ d' Hwf Htx) as (r' & Hr' & Hid' & _ & Hcase).
  destruct Hcase as [[_ ->]|(k & st & Hk & Hs & Hq & ->)].
  - exists r0. split; [|done]. by apply elem_of_delete_where.
  - exists (if decide (successor k (s_next_seq st + 1) r0) then with_eligible (clock t) r0 else r0).
    split; [|by case_decide]. apply elem_of_acked. exists r0. rewrite Hid'.
    case_decide; auto 10.
Qed.

Lemma chan_admit s rec t a d' r h :
  chan_ok s → insert_txn lim rec (db s) t = inr (a, d') →
  outbox d' = outbox (reclaimed lim rec (db s)) ++ [r] → chan_ok (mkSys d' (chan s) h).
Proof.
  intros Hc _ Hout id Hid. destruct (Hc id Hid) as (r0 & Hr0 & Hi & Hst). exists r0. simpl.
  split; [|done]. rewrite Hout. apply elem_of_app. left. unfold reclaimed.
  case_decide; [|done]. apply elem_of_delete_where. split; [done|].
  intros (Hd & _). congruence.
Qed.

Lemma chan_step s s' : wf (db s) → chan_ok s → step s s' → chan_ok s'.
Proof.
  intros Hwf Hc Hstep. destruct Hstep as
    [rec t a d' r Hint Htx Hout|id t d' Htx|r Hr Hst Hnc|id t r d' Hch Hr Htx|ids Hsub
    |id next error t d' Hch Htx|id error t d' Hch Htx|t d' Hch Htx|now ttl t n d' Htx|id t d' Htx].
  - by eapply chan_admit.
  - apply take_txn_inv in Htx as (_ & Hout & _). eapply (chan_update (markable id (db s))); [done|exact Hout|].
    intros r Hst _ (_ & Hp & _). congruence.
  - intros id [Hid| ->%list_elem_of_singleton]%elem_of_app; [by apply Hc|]. by exists r.
  - by eapply chan_ack.
  - intros id Hid. apply Hc. by eapply elem_of_submseteq, sublist_submseteq.
  - eapply (chan_one_row (in_flight_id id)); [done|exact Htx|]. by intros r Hst Hin [<- _].
  - eapply (chan_one_row (live_id id)); [done|exact Htx|]. by intros r Hst Hin [<- _].
  - by intros id Hid%not_elem_of_nil.
  - unfold expire_txn in Htx. case_decide; simplify_eq.
    + exact Hc.
    + eapply (chan_update (overage now ttl (db s))); [done|done|]. intros r Hst _ (Hp & _). congruence.
  - eapply (chan_one_row (dead_id id)); [done|exact Htx|]. intros r Hst _ [_ Hd]. congruence.
Qed.

Lemma chan_reachable d s : wf d → reachable d s → wf (db s) ∧ chan_ok s.
Proof.
  intros Hwf Hr. assert (wf (db (start_state d)) ∧ chan_ok (start_state d)) as Hok.
  { split; [done|]. by intros id Hid%not_elem_of_nil. }
  unfold reachable in Hr. induction Hr as [|s1 s2 s3 Hstep _ IH]; [done|].
  destruct Hok. apply IH. split; [by eapply step_wf|by eapply chan_step].
Qed.

(** An in-flight row of a well-formed database accepts each of the three outcomes. *)
Lemma settle_accepted d r t :
  wf d → r ∈ outbox d → r_state r = "in_flight" →
  (∃ d', ack_txn (r_event_id r) d t = inr (tt, d')) ∧
  (∀ next e, ∃ d', retry_txn (r_event_id r) next e d t = inr (tt, d')) ∧
  (∀ e, ∃ d', dead_txn (r_event_id r) e d t = inr (tt, d')).
Proof.
  intros Hwf Hr Hst.
  assert (∀ P `{!∀ r, Decision (P r)} f what,
    (∀ r', P r' → r_event_id r' = r_event_id r) → P r →
    ∃ d', one_row_txn P f what d = inr (tt, d')) as Hone.
  { intros P ? f what HP HPr. unfold one_row_txn. rewrite decide_True; [eauto|].
    apply (count_where_one P r_event_id (r_event_id r) _ r HP); [apply Hwf|done..]. }
  split_and!; [|intros; apply Hone; [by intros r' [? _]|by split]
               |intros; apply Hone; [by intros r' [? _]|by split; [|right]]].
  unfold ack_txn. destruct (in_flight_row (r_event_id r) d) as [r'|] eqn:Hr'.
  - apply in_flight_row_Some in Hr' as (Hr' & Hid & _).
    assert (r' = r) as -> by (eapply ids_row; eauto using wf_ids). cbv zeta.
    destruct (wf_rows d Hwf r Hr) as (_ & _ & Hok).
    case_decide as Hc; [eauto|]. destruct (r_call_uuid r) as [u|] eqn:Hu; [|done]. simpl in *.
    assert (row_call r = Some (r_topic r, u)) as Hk by (by apply row_call_Some).
    rewrite Hk in Hok. destruct Hok as (st & n & Hs & Hn & _ & _ & _ & Hif).
    rewrite Hs, Hn. simpl. rewrite decide_True by (symmetry; auto). eauto.
  - exfalso. unfold in_flight_row in Hr'.
    assert (r ∈ filter (λ r0, r_event_id r0 = r_event_id r ∧ r_state r0 = "in_flight") (outbox d))
      as Hin by (by apply list_elem_of_filter).
    destruct (filter _ _); [by apply not_elem_of_nil in Hin|done].
Qed.
End system.
