(* ===== verification/Schedule.v ===== *)
(** The scheduler: which rows [fetch_due] returns and in which order, why a batch it returns can be
    taken off row by row, and how service turns move a call behind the others. *)
From S2P Require Import Prelude Sqlite Tables Outbox OutboxSpec OutboxInv System.

(** ** The order of a batch *)

Lemma served_before_trans d r1 r2 r3 :
  served_before d r1 r2 → served_before d r2 r3 → served_before d r1 r3.
Proof. unfold served_before. lia. Qed.

Lemma served_before_total d r1 r2 : served_before d r1 r2 ∨ served_before d r2 r1.
Proof. unfold served_before. lia. Qed.

Definition due_sorted (now : Z) (d : Db) : list Row :=
  sort_by (served_before d) (filter (due now d) (outbox d)).

Lemma due_sorted_perm now d : due_sorted now d ≡ₚ filter (due now d) (outbox d).
Proof. apply sort_by_perm. Qed.

Lemma due_sorted_sorted now d : StronglySorted (served_before d) (due_sorted now d).
Proof. apply sort_by_sorted; eauto using served_before_trans, served_before_total. Qed.

Lemma elem_of_due_rows now limit d r : r ∈ due_rows now limit d → r ∈ outbox d ∧ due now d r.
Proof.
  intros Hr. assert (r ∈ due_sorted now d) as Hs.
  { unfold due_rows, sql_limit in Hr. case_decide; [done|]. by eapply elem_of_take in Hr as (i & Hi & _); eapply list_elem_of_lookup_2. }
  rewrite due_sorted_perm in Hs. by apply list_elem_of_filter in Hs as [? ?].
Qed.

(** ** Heads *)

(** A deliverable row of a call is the row at the cursor. *)
Lemma deliverable_head d r k :
  wf d → r ∈ outbox d → row_call r = Some k →
  deliverable d r ↔ r_call_seq r = Some (cursor d k).
Proof.
  intros Hwf Hr Hk. destruct (wf_rows d Hwf r Hr) as (_ & _ & Hok). rewrite Hk in Hok.
  destruct Hok as (st & n & Hs & Hn & _). unfold deliverable, cursor. rewrite Hs. simpl.
  rewrite (is_head_call d r k st Hk Hs). split; [|by right].
  intros [Hu|?]; [|done]. apply row_call_None in Hu. congruence.
Qed.

Lemma deliverable_unique d r1 r2 k :
  wf d → r1 ∈ outbox d → r2 ∈ outbox d → row_call r1 = Some k → row_call r2 = Some k →
  deliverable d r1 → deliverable d r2 → r1 = r2.
Proof.
  intros Hwf H1 H2 K1 K2 D1 D2. apply (wf_row_unique d r1 r2 k); try done.
  apply (deliverable_head d r1 k Hwf H1 K1) in D1.
  apply (deliverable_head d r2 k Hwf H2 K2) in D2. congruence.
Qed.

(** Deliverability only depends on the slot of a row and on the cursors. *)
Lemma status_deliverable d d' r r' :
  status_step d d' → same_slot r r' → deliverable d r → deliverable d' r'.
Proof.
  intros Hst (_ & Ht & _ & _ & _ & Hu & Hq & _). unfold deliverable, ungrouped, is_head, stream_of.
  rewrite Ht, Hu, Hq. intros [?|Hh]; [by left|right].
  destruct (r_call_uuid r) as [u|]; simpl in *; [|done].
  destruct (status_streams d d' Hst (r_topic r, u)) as [s s' (_&_&Hn&_)|]; simpl in *; [|done].
  by rewrite Hn.
Qed.

(** ** Taking a batch off *)

Section batch.
Context `{E : Env}.

(** The turns left. *)
Definition turns_left (d : Db) : Z := int64_max - coalesce int64_max (order_scheduler d).

Lemma take_accepted id d r t :
  wf d → r ∈ outbox d → markable id d r → 0 < turns_left d →
  ∃ d', take_txn id d t = inr (tt, d') ∧ turns_left d' = turns_left d - 1.
Proof.
  intros Hwf Hr Hm Ht. unfold take_txn. destruct (wf_turns d Hwf) as (turn & Hturn & Hb & _).
  unfold turns_left in *. rewrite Hturn in *. simpl in Ht.
  rewrite decide_True by
    (apply (count_where_one _ r_event_id id _ r); [by intros ? [? _]|apply Hwf|done..]).
  rewrite decide_True by lia.
  destruct (r ← row_by_id _ _; _); eexists; (split; [done|]); simpl; lia.
Qed.
End batch.

(** ** The batch *)

Lemma due_rows_prefix now limit d : ∃ rest, due_sorted now d = due_rows now limit d ++ rest ∧
  (rest = [] ∨ (0 ≤ limit ∧ Z.of_nat (length (due_rows now limit d)) = limit)).
Proof.
  unfold due_rows, sql_limit. fold (due_sorted now d). case_decide as Hl.
  - exists []. rewrite app_nil_r. auto.
  - exists (drop (Z.to_nat limit) (due_sorted now d)). rewrite take_drop. split; [done|].
    destruct (decide (length (due_sorted now d) ≤ Z.to_nat limit)%nat) as [Hlen|Hlen].
    + left. by apply drop_ge.
    + right. rewrite length_take. lia.
Qed.

Lemma due_sorted_ids now d : wf d → NoDup (r_event_id <$> due_sorted now d).
Proof.
  intros Hwf. rewrite due_sorted_perm. eapply sublist_NoDup; [apply (wf_ids d Hwf)|].
  apply fmap_sublist, sublist_filter.
Qed.

Lemma due_rows_ids now limit d : wf d → NoDup (r_event_id <$> due_rows now limit d).
Proof.
  intros Hwf. pose proof (due_sorted_ids now d Hwf) as Hnd.
  destruct (due_rows_prefix now limit d) as (rest & Heq & _).
  rewrite Heq, fmap_app in Hnd. by apply NoDup_app in Hnd as (? & _).
Qed.

Lemma due_rows_sorted now limit d : StronglySorted (served_before d) (due_rows now limit d).
Proof.
  pose proof (due_sorted_sorted now d) as Hs.
  destruct (due_rows_prefix now limit d) as (rest & Heq & _). rewrite Heq in Hs.
  by apply StronglySorted_app in Hs as (_ & ? & _).
Qed.

(** *** The order read off the tables *)

(** Service turn of its call, creation time, place in the table. *)
Definition call_turn (d : Db) (r : Row) : Z :=
  match row_call r with Some k => coalesce 0 (s_last_served_ms <$> call_streams d !! k) | None => 0 end.
Definition fetched_before (d : Db) (r1 r2 : Row) : Prop :=
  call_turn d r1 < call_turn d r2 ∨
  (call_turn d r1 = call_turn d r2 ∧
   (r_created_at_ms r1 < r_created_at_ms r2 ∨
    (r_created_at_ms r1 = r_created_at_ms r2 ∧
     ∃ i j, (i < j)%nat ∧ outbox d !! i = Some r1 ∧ outbox d !! j = Some r2))).

Lemma rowid_lookup d r i : ids_unique d → outbox d !! i = Some r → rowid d r = i.
Proof.
  intros Hids Hi. unfold rowid.
  destruct (list_find _ (outbox d)) as [[j r']|] eqn:Hf; simpl.
  - apply list_find_Some in Hf as (Hj & Hid & _).
    eapply (NoDup_lookup (r_event_id <$> outbox d)); [exact Hids| |];
      rewrite list_lookup_fmap; [by rewrite Hj|rewrite Hi]; simpl. by rewrite Hid.
  - apply list_find_None in Hf. rewrite Forall_forall in Hf.
    by destruct (Hf r (list_elem_of_lookup_2 _ _ _ Hi)).
Qed.

Lemma last_turn_call d r k :
  row_call r = Some k → last_turn d r = coalesce 0 (s_last_served_ms <$> call_streams d !! k).
Proof. intros Hk. unfold last_turn. by rewrite (stream_of_call d r k Hk). Qed.

(** A row without a call has never been served before. *)
Lemma last_turn_free d r : wf d → row_call r = None → last_turn d r = 0.
Proof.
  intros Hwf Hk%row_call_None. unfold last_turn, stream_of, ungrouped in *.
  destruct (r_call_uuid r) as [u|]; [|done]. simpl in *. subst u.
  destruct (call_streams d !! (r_topic r, "")) as [s|] eqn:Hs; [|done].
  by destruct (wf_streams d Hwf _ _ Hs) as (_ & _ & _ & ? & _).
Qed.

Lemma last_turn_turn d r : wf d → last_turn d r = call_turn d r.
Proof.
  intros Hwf. unfold call_turn. destruct (row_call r) as [k|] eqn:Hk;
    [by apply last_turn_call|by apply last_turn_free].
Qed.

Lemma served_fetched_before d r1 r2 :
  wf d → r1 ∈ outbox d → r2 ∈ outbox d → r1 ≠ r2 → served_before d r1 r2 → fetched_before d r1 r2.
Proof.
  intros Hwf (i & Hi)%list_elem_of_lookup (j & Hj)%list_elem_of_lookup Hne Hs.
  unfold served_before in Hs. rewrite !last_turn_turn in Hs by done.
  rewrite (rowid_lookup d r1 i), (rowid_lookup d r2 j) in Hs by (done || apply Hwf).
  unfold fetched_before. destruct (decide (i = j)) as [->|]; [congruence|].
  destruct Hs as [?|(? & [?|[? ?]])]; [auto..|]. right. split; [done|]. right. split; [done|].
  exists i, j. split; [lia|done].
Qed.

Lemma due_rows_order now limit d : wf d → StronglySorted (fetched_before d) (due_rows now limit d).
Proof.
  intros Hwf. pose proof (due_rows_sorted now limit d) as Hs.
  pose proof (NoDup_fmap_1 _ _ (due_rows_ids now limit d Hwf)) as Hnd.
  assert (∀ r, r ∈ due_rows now limit d → r ∈ outbox d) as Hin by (by intros r [? _]%elem_of_due_rows).
  induction Hs as [|r rows Hs IH Hr]; [constructor|]. apply NoDup_cons in Hnd as [Hn Hnd].
  constructor; [apply IH; [done|set_solver]|]. rewrite Forall_forall in *. intros r' Hr'.
  apply served_fetched_before; [done|set_solver..|by intros ->|by apply Hr].
Qed.

(** A due row is in the batch, or the batch is full of rows that come before it. *)
Lemma due_rows_complete now limit d r :
  r ∈ outbox d → due now d r →
  r ∈ due_rows now limit d ∨
  (0 ≤ limit ∧ Z.of_nat (length (due_rows now limit d)) = limit ∧
   ∀ r', r' ∈ due_rows now limit d → served_before d r' r).
Proof.
  intros Hr Hdue. assert (r ∈ due_sorted now d) as Hin.
  { rewrite due_sorted_perm. by apply list_elem_of_filter. }
  pose proof (due_sorted_sorted now d) as Hs.
  destruct (due_rows_prefix now limit d) as (rest & Heq & Hrest). rewrite Heq in Hin, Hs.
  apply elem_of_app in Hin as [?|Hin]; [by left|right].
  destruct Hrest as [->|[? ?]]; [by apply not_elem_of_nil in Hin|]. split; [done|]. split; [done|].
  intros r' Hr'. apply StronglySorted_app in Hs as (Hs & _). eauto.
Qed.

Lemma due_rows_left_out now limit d r :
  wf d → r ∈ outbox d → due now d r →
  r ∈ due_rows now limit d ∨
  (0 ≤ limit ∧ Z.of_nat (length (due_rows now limit d)) = limit ∧
   ∀ r', r' ∈ due_rows now limit d → fetched_before d r' r).
Proof.
  intros Hwf Hr Hdue.
  destruct (decide (r ∈ due_rows now limit d)) as [?|Hn]; [by left|right].
  destruct (due_rows_complete now limit d r Hr Hdue) as [?|(? & ? & Hb)]; [done|].
  split_and!; [done..|]. intros r' Hr'. pose proof (elem_of_due_rows _ _ _ _ Hr') as [? _].
  apply served_fetched_before; [done..|by intros ->|by apply Hb].
Qed.

(** ** What the other steps leave a batch *)

(** The event [id] waits to be taken off, in a row of which [C] is known. *)
Definition ready (C : Row → Prop) (d : Db) (id : string) : Prop :=
  ∃ r, r ∈ outbox d ∧ markable id d r ∧ C r.

Lemma due_ready (C : Row → Prop) now limit d r :
  C r → r ∈ due_rows now limit d → ready C d (r_event_id r).
Proof. intros HC (? & ? & ? & ?)%elem_of_due_rows. exists r. by repeat split. Qed.

Lemma ready_status (C : Row → Prop) P `{!∀ r, Decision (P r)} f d d' id :
  status_step d d' → outbox d' = update_where P f (outbox d) →
  (∀ r, P r → r_event_id r ≠ id) → ready C d id → ready C d' id.
Proof.
  intros Hst Hout HP (r & Hr & (Hid & Hp & Hdel) & HC). exists r. split.
  - rewrite Hout. apply update_where_keep; [done|]. intros HPr. by apply (HP r).
  - split; [|done]. split; [done|]. split; [done|].
    apply (status_deliverable d d' r r Hst); [by repeat split|done].
Qed.

Lemma ready_append (C : Row → Prop) d d' r0 id :
  outbox d' = outbox d ++ [r0] → (∀ k, cursor d' k = cursor d k) →
  (∀ k, is_Some (call_streams d !! k) → is_Some (call_streams d' !! k)) →
  ready C d id → ready C d' id.
Proof.
  intros Hout Hcur Hdom (r & Hr & (Hid & Hp & Hdel) & HC). exists r. split.
  - rewrite Hout. apply elem_of_app. by left.
  - split; [|done]. split; [done|]. split; [done|]. destruct Hdel as [?|Hh]; [by left|right].
    revert Hh. unfold is_head, stream_of. destruct (r_call_uuid r) as [u|]; [|done]. simpl.
    specialize (Hcur (r_topic r, u)). specialize (Hdom (r_topic r, u)). unfold cursor in Hcur.
    destruct (call_streams d !! _) as [s|]; [|by rewrite sql_eq_Some; naive_solver].
    destruct (Hdom (mk_is_Some _ _ eq_refl)) as [s' Hs']. rewrite Hs' in *. simpl in *.
    by rewrite Hcur.
Qed.

Section ready.
Context `{E : Env}.

Lemma ready_reclaimed (C : Row → Prop) lim rec d id : ready C d id → ready C (reclaimed lim rec d) id.
Proof.
  intros (r & Hr & (Hid & Hp & Hdel) & HC). exists r. unfold reclaimed. case_decide; [|done].
  split; [|done]. apply elem_of_delete_where. split; [done|]. intros (? & _). congruence.
Qed.

Lemma ready_insert (C : Row → Prop) lim rec d t a d' id :
  insert_txn lim rec d t = inr (a, d') → ready C d id → ready C d' id.
Proof.
  intros Htx Hr. apply insert_txn_admitted in Htx as [_ Ha].
  apply (ready_reclaimed C lim rec) in Hr. set (d1 := reclaimed lim rec d) in *.
  pose proof (λ k, admitted_cursor lim rec _ _ _ _ k Ha) as Hcur.
  revert Hcur. destruct Ha as [Hc Hs Hid|k s seq -> Hc Hrt -> Hk Hk' Hm Hs Hle Hcap H0 Hmx Hid Hsq];
    intros Hcur; (eapply (ready_append C d1); [done|exact Hcur|intros k Hk0; simpl|done]); [done|].
  apply lookup_insert_is_Some'. by right.
Qed.

Lemma ready_take (C : Row → Prop) id0 d t u d' id :
  id ≠ id0 → take_txn id0 d t = inr (u, d') → ready C d id → ready C d' id.
Proof.
  intros Hne (_ & Hout & Hst)%take_txn_inv. apply (ready_status C _ _ _ _ _ Hst Hout).
  intros r (-> & _). done.
Qed.

Lemma ready_one_row (C : Row → Prop) P `{!∀ r, Decision (P r)} f what d u d' id :
  one_row_txn P f what d = inr (u, d') → (∀ r, same_slot r (f r)) →
  (∀ r, P r → r_event_id r ≠ id) → ready C d id → ready C d' id.
Proof.
  intros Htx Hf HP. pose proof (one_row_status P f what d u d' Hf Htx) as Hst.
  unfold one_row_txn in Htx. case_decide; simplify_eq.
  by apply (ready_status C P f).
Qed.
End ready.

(** ** Working a batch off while callers admit events *)

Section run.
Context `{E : Env} (lim : Limits) (C : Row → Prop).

(** What becomes of a row that was taken off before the worker comes to the next one: it was
    handed to the producer, or the hand-over failed and it was rescheduled or buried. *)
Inductive Handling := Sent | Retried (next : Z) (error : string) | Buried (error : string).

Definition handle (id : string) (h : Handling) : Spec unit := λ d t,
  match h with
  | Sent => inr (tt, d)
  | Retried next e => retry_txn id next e d t
  | Buried e => dead_txn id e d t
  end.

(** A batch in progress, interleaved with admissions of other threads. *)
Inductive Act := Work (id : string) (h : Handling) | Enqueue (rec : OutboxRecord).
Definition worked (acts : list Act) : list string :=
  omap (λ a, match a with Work id _ => Some id | Enqueue _ => None end) acts.

(** The first refusal by the outbox that the worker meets, or the contents at the end; a refused
    admission concerns its caller alone. *)
Fixpoint run_batch (acts : list Act) (d : Db) (t : nat) : string + Db :=
  match acts with
  | [] => inr d
  | Work id h :: acts' =>
      match take_txn id d t with
      | inl e => inl e
      | inr (_, d1) =>
          match handle id h d1 (S t) with
          | inl e => inl e
          | inr (_, d2) => run_batch acts' d2 (S (S t))
          end
      end
  | Enqueue rec :: acts' =>
      run_batch acts' (match insert_txn lim rec d t with inr (_, d1) => d1 | inl _ => d end) (S t)
  end.

Lemma taken_in_flight id d t u d' :
  take_txn id d t = inr (u, d') → ready C d id →
  ∃ r, r ∈ outbox d' ∧ r_event_id r = id ∧ r_state r = "in_flight".
Proof.
  intros (_ & Hout & _)%take_txn_inv (r & Hr & Hm & _). eexists. rewrite Hout. split.
  - apply elem_of_update_where. exists r. split; [done|]. by left.
  - split; [|done]. apply Hm.
Qed.

Lemma turns_left_one_row P `{!∀ r, Decision (P r)} f what d u d' :
  one_row_txn P f what d = inr (u, d') → turns_left d' = turns_left d.
Proof. unfold one_row_txn. case_decide; intros; by simplify_eq. Qed.

(** A row just taken off accepts every handling, and the rows still ahead stay ready. *)
Lemma handle_accepted id h d r t :
  wf d → r ∈ outbox d → r_event_id r = id → r_state r = "in_flight" →
  ∃ d', handle id h d t = inr (tt, d') ∧ wf d' ∧ turns_left d' = turns_left d ∧
    ∀ id', id' ≠ id → ready C d id' → ready C d' id'.
Proof.
  intros Hwf Hr <- Hst. destruct (settle_accepted d r t Hwf Hr Hst) as (_ & Hretry & Hdead).
  destruct h as [|next e|e]; simpl.
  - exists d. eauto.
  - destruct (Hretry next e) as [d' Hd']. exists d'. split; [done|].
    split; [by eapply retry_wf|]. split; [by eapply turns_left_one_row|].
    intros id' Hne. eapply ready_one_row; [exact Hd'|by repeat split|].
    intros r0 [-> _]. congruence.
  - destruct (Hdead e) as [d' Hd']. exists d'. split; [done|].
    split; [by eapply dead_wf|]. split; [by eapply turns_left_one_row|].
    intros id' Hne. eapply ready_one_row; [exact Hd'|by repeat split|].
    intros r0 [-> _]. congruence.
Qed.

Lemma turns_left_insert rec d t a d' :
  insert_txn lim rec d t = inr (a, d') → turns_left d' = turns_left d.
Proof.
  intros [_ Ha]%insert_txn_admitted.
  assert (order_scheduler (reclaimed lim rec d) = order_scheduler d) as Hs
    by (unfold reclaimed; by case_decide).
  unfold turns_left. rewrite <- Hs. by destruct Ha.
Qed.

Lemma run_batch_accepted acts d t :
  wf d → NoDup (worked acts) → (∀ id, id ∈ worked acts → ready C d id) →
  Z.of_nat (length (worked acts)) ≤ turns_left d →
  (∀ rec, Enqueue rec ∈ acts → call_seq rec ≤ int64_max) →
  ∃ d', run_batch acts d t = inr d' ∧ wf d'.
Proof.
  revert d t. induction acts as [|[id h|rec] acts IH]; intros d t Hwf Hnd Hrd Htl Hint; simpl in *.
  - eauto.
  - apply NoDup_cons in Hnd as [Hid Hnd].
    destruct (Hrd id ltac:(by left)) as (r & Hr & Hm & _).
    destruct (take_accepted id d r t Hwf Hr Hm) as (d1 & Hd1 & Htl1); [lia|]. rewrite Hd1.
    destruct (taken_in_flight _ _ _ _ _ Hd1 (Hrd id ltac:(by left))) as (r1 & Hr1 & Hid1 & Hst1).
    destruct (handle_accepted id h d1 r1 (S t) (take_wf _ _ _ _ _ Hwf Hd1) Hr1 Hid1 Hst1)
      as (d2 & -> & Hwf2 & Htl2 & Hready).
    apply IH; [done|done| |lia|set_solver]. intros id' Hid'.
    assert (id' ≠ id) by (intros ->; done). apply Hready; [done|].
    eapply ready_take; [done|exact Hd1|]. apply Hrd. by right.
  - destruct (insert_txn lim rec d t) as [e|[a d1]] eqn:Hins; [apply IH; auto; set_solver|].
    apply IH; [eapply insert_wf; [done| |exact Hins]; set_solver|done| | |set_solver].
    + intros id Hid. eapply ready_insert; eauto.
    + by rewrite (turns_left_insert _ _ _ _ _ Hins).
Qed.
End run.

(** ** Service turns *)

Section turns.
Context `{E : Env}.

Lemma last_turn_bound d r turn :
  wf d → order_scheduler d = Some turn → last_turn d r ≤ turn.
Proof.
  intros Hwf Ht. destruct (wf_turns d Hwf) as (t & Ht' & Hb & Hle & _). simplify_eq.
  unfold last_turn, stream_of. destruct (r_call_uuid r) as [u|]; simpl; [|lia].
  destruct (call_streams d !! _) as [s|] eqn:Hs; simpl; [|lia]. by apply (Hle _ _ Hs).
Qed.

(** The call that [sql_served] serves. *)
Lemma row_call_selected id d r k :
  wf d → r ∈ outbox d → r_event_id r = id → row_call r = Some k →
  (r0 ← row_by_id id (outbox d); u ← r_call_uuid r0; Some (r_topic r0, u)) = Some k.
Proof.
  intros Hwf Hr Hid (Ht & Hu & _)%row_call_Some. destruct (row_by_id id (outbox d)) as [r0|] eqn:Hr0.
  - apply head_filter_Some in Hr0 as [Hr0 Hid0].
    assert (r0 = r) as -> by (eapply ids_row; [by apply wf_ids|done..|congruence]).
    simpl. rewrite Hu. simpl. rewrite Ht. by destruct k.
  - exfalso. unfold row_by_id in Hr0.
    assert (r ∈ filter (λ r, r_event_id r = id) (outbox d)) as Hin by (by apply list_elem_of_filter).
    destruct (filter _ _); [by apply not_elem_of_nil in Hin|done].
Qed.

(** Taking a row of call [k] off gives [k] the highest turn. *)
Lemma take_turns id d t u d' r k :
  wf d → take_txn id d t = inr (u, d') → r ∈ outbox d' → r_event_id r = id →
  row_call r = Some k →
  ∃ turn, order_scheduler d = Some turn ∧ order_scheduler d' = Some (turn + 1) ∧
    (∀ r', row_call r' = Some k → last_turn d' r' = turn + 1) ∧
    (∀ r', row_call r' ≠ Some k → last_turn d' r' = last_turn d r').
Proof.
  intros Hwf Htx Hr Hid Hk. pose proof (take_wf _ _ _ _ _ Hwf Htx) as Hwf'.
  pose proof (take_txn_inv _ _ _ _ _ Htx) as (_ & Hout & _).
  unfold take_txn in Htx. case_decide; [|done].
  destruct (order_scheduler d) as [turn|]; [|done]. case_decide; [|done]. exists turn.
  split; [done|]. simpl in Htx. rewrite <- Hout, (row_call_selected _ _ _ _ Hwf' Hr Hid Hk) in Htx.
  simplify_eq.
  pose proof (wf_rows _ Hwf' r Hr) as (_ & _ & Hok). rewrite Hk in Hok. simpl in Hok.
  destruct Hok as (s & _ & Hs & _).
  split; [done|]. split; intros r' Hk'.
  - rewrite (last_turn_call _ r' k Hk'). simpl. by rewrite Hs; apply lookup_alter_Some in Hs as [(_ & s0 & _ & ->)|[]].
  - unfold last_turn. f_equal. f_equal. unfold stream_of. simpl.
    destruct (r_call_uuid r') as [u'|] eqn:Hu'; [|done]. simpl. apply lookup_alter_ne.
    intros ->. apply Hk'. apply row_call_Some. split; [done|]. split; [done|].
    by apply row_call_Some in Hk as (_ & _ & ?).
Qed.

(** [k] is the call served last. *)
Definition served_last (d : Db) (k : CallKey) : Prop :=
  ∃ s turn, call_streams d !! k = Some s ∧ order_scheduler d = Some turn ∧
    s_last_served_ms s = turn ∧ 0 < turn.

Lemma take_served_last id d t u d' r k :
  wf d → take_txn id d t = inr (u, d') → r ∈ outbox d' → r_event_id r = id →
  row_call r = Some k → served_last d' k.
Proof.
  intros Hwf Htx Hr Hid Hk. pose proof (take_wf _ _ _ _ _ Hwf Htx) as Hwf'.
  destruct (take_turns id d t u d' r k Hwf Htx Hr Hid Hk) as (turn & Ht & Ht' & Hlast & _).
  pose proof (wf_rows _ Hwf' r Hr) as (_ & _ & Hok). rewrite Hk in Hok.
  destruct Hok as (s & _ & Hs & _). specialize (Hlast r Hk).
  rewrite (last_turn_call d' r k Hk), Hs in Hlast. simpl in Hlast.
  destruct (wf_turns d Hwf) as (t0 & Ht0 & Hb & _). simplify_eq.
  exists s, (turn + 1). split_and!; [done..|lia].
Qed.

Lemma served_last_order d k r1 r2 :
  wf d → served_last d k → row_call r1 = Some k → row_call r2 ≠ Some k →
  last_turn d r2 < last_turn d r1.
Proof.
  intros Hwf (s & turn & Hs & Ht & Hl & Hpos) H1 H2. rewrite (last_turn_call d r1 k H1), Hs. simpl.
  destruct (wf_turns d Hwf) as (t0 & Ht0 & Hb & Hle & Hdist). simplify_eq.
  destruct (row_call r2) as [k2|] eqn:Hk2.
  - rewrite (last_turn_call d r2 k2 Hk2). destruct (call_streams d !! k2) as [s2|] eqn:Hs2; simpl; [|lia].
    specialize (Hle k2 s2 Hs2). destruct (decide (s_last_served_ms s2 = s_last_served_ms s)) as [He|]; [|lia].
    destruct H2. f_equal. apply (Hdist k2 k s2 s); [done..|lia].
  - rewrite (last_turn_free d r2 Hwf Hk2). lia.
Qed.

(** Only taking a row off moves the turns. *)
Definition keeps_turns (d d' : Db) : Prop :=
  order_scheduler d' = order_scheduler d ∧
  ∀ k s, call_streams d !! k = Some s →
    ∃ s', call_streams d' !! k = Some s' ∧ s_last_served_ms s' = s_last_served_ms s.

Lemma keeps_turns_refl d d' :
  order_scheduler d' = order_scheduler d → call_streams d' = call_streams d → keeps_turns d d'.
Proof. intros Ht Hs. split; [done|]. rewrite Hs. eauto. Qed.

Lemma keeps_served_last d d' k : keeps_turns d d' → served_last d k → served_last d' k.
Proof.
  intros [Ht Hs] (s & turn & Hk & Hturn & Hl & Hpos). destruct (Hs k s Hk) as (s' & Hk' & Hl').
  exists s', turn. rewrite Ht, Hl'. done.
Qed.

Lemma keeps_turns_one_row P `{!∀ r, Decision (P r)} f what d u d' :
  one_row_txn P f what d = inr (u, d') → keeps_turns d d'.
Proof. unfold one_row_txn. case_decide; intros; simplify_eq. by apply keeps_turns_refl. Qed.

Lemma keeps_turns_admitted lim rec now d a d' :
  admitted lim rec now d a d' → keeps_turns d d'.
Proof.
  intros Ha. destruct Ha as [Hc Hs Hid|k s seq -> Hc Hrt -> Hk Hk' Hm Hs Hle Hcap H0 Hmx Hid Hsq];
    [by apply keeps_turns_refl|]. split; [done|]. intros k s Hs0. simpl.
  destruct (decide (k = (topic rec, call_uuid rec))) as [->|Hne].
  - rewrite lookup_insert_eq. eexists. split; [done|].
    destruct (joined_stream_cases rec d) as [Hj|[Hj _]]; [|congruence]. simpl. congruence.
  - rewrite lookup_insert_ne by done. eauto.
Qed.

Lemma keeps_turns_ack id d t u d' :
  wf d → ack_txn id d t = inr (u, d') → keeps_turns d d'.
Proof.
  intros Hwf Htx.
  destruct (ack_txn_inv _ _ _ _ _ Hwf Htx) as (r & _ & _ & _ & [[_ ->]|(k & s & _ & Hs & _ & ->)]).
  - by apply keeps_turns_refl.
  - split; [done|]. intros k' s' Hs'. simpl. destruct (decide (k' = k)) as [->|Hne].
    + rewrite lookup_insert_eq. eexists. split; [done|]. simpl. congruence.
    + rewrite lookup_insert_ne by done. eauto.
Qed.

Lemma step_turns lim s s' :
  wf (db s) → step lim s s' →
  keeps_turns (db s) (db s') ∨
  ∃ turn, order_scheduler (db s) = Some turn ∧ order_scheduler (db s') = Some (turn + 1).
Proof.
  intros Hwf Hstep. destruct Hstep as
    [rec t a d' r Hint Htx Hout|id t d' Htx|r Hr Hst Hnc|id t r d' Hc Hr Htx|ids Hsub
    |id next error t d' Hc Htx|id error t d' Hc Htx|t d' Hc Htx|now ttl t n d' Htx|id t d' Htx];
    simpl; try (left; by apply keeps_turns_refl); try (left; by eapply keeps_turns_one_row).
  - left. apply insert_txn_admitted in Htx as [_ Ha%keeps_turns_admitted].
    revert Ha. unfold reclaimed. by case_decide.
  - right. unfold take_txn in Htx. case_decide; [|done].
    destruct (order_scheduler (db s)) as [turn|]; [|done]. case_decide; [|done]. exists turn.
    split; [done|]. destruct (r0 ← row_by_id _ _; _) in Htx; by simplify_eq.
  - left. by eapply keeps_turns_ack.
  - left. unfold requeue_txn in Htx. simplify_eq. by apply keeps_turns_refl.
  - left. unfold expire_txn in Htx. case_decide; simplify_eq; by apply keeps_turns_refl.
Qed.

Definition turn_of (d : Db) : Z := coalesce 0 (order_scheduler d).

Lemma turns_monotone lim s s' :
  wf (db s) → rtc (step lim) s s' → wf (db s') ∧ turn_of (db s) ≤ turn_of (db s') ∧
  (turn_of (db s') = turn_of (db s) → ∀ k, served_last (db s) k → served_last (db s') k).
Proof.
  intros Hwf Hsteps. induction Hsteps as [s|s1 s2 s3 Hstep _ IH].
  { split_and!; [done|lia|done]. }
  destruct IH as (Hwf3 & Hle & Hk); [by eapply step_wf|].
  destruct (step_turns lim s1 s2 Hwf Hstep) as [Hkeep|(turn & H1 & H2)].
  - assert (turn_of (db s2) = turn_of (db s1)) as Heq by (unfold turn_of; by destruct Hkeep as [-> _]).
    split_and!; [done|lia|]. intros He k Hs. apply Hk; [lia|]. by eapply keeps_served_last.
  - assert (turn_of (db s2) = turn_of (db s1) + 1) as Heq by (unfold turn_of; by rewrite H1, H2).
    split_and!; [done|lia|lia].
Qed.

Lemma batch_order now limit d r1 r2 :
  last_turn d r2 < last_turn d r1 → r1 ∈ due_rows now limit d → r2 ∈ outbox d → due now d r2 →
  ∃ l1 l2, due_rows now limit d = l1 ++ r1 :: l2 ∧ r2 ∈ l1.
Proof.
  intros Hlt H1 H2 Hdue.
  assert (¬ served_before d r1 r2) as Hnot by (unfold served_before; lia).
  destruct (due_rows_complete now limit d r2 H2 Hdue) as [Hin|(_ & _ & Hall)];
    [|by destruct Hnot; apply Hall].
  apply list_elem_of_split in H1 as (l1 & l2 & Heq). exists l1, l2. split; [done|].
  pose proof (due_rows_sorted now limit d) as Hs. rewrite Heq in Hin, Hs.
  apply StronglySorted_app in Hs as (_ & _ & Hs2). apply StronglySorted_inv in Hs2 as [_ Hs2].
  apply elem_of_app in Hin as [?|[->|Hin]%elem_of_cons]; [done|lia|].
  rewrite Forall_forall in Hs2. by destruct Hnot; apply Hs2.
Qed.
End turns.
