(* ===== verification/Queues.v ===== *)
(** The abstract view of the outbox: one FIFO queue of events per call. A database refines it by
    listing the rows of a call in rowid order; for a call in admission order that list is the
    sequence window from the delivery cursor to the admission cursor. *)
From S2P Require Import Prelude Sqlite Tables Outbox OutboxSpec OutboxInv System.

Definition call_rows (d : Db) (k : CallKey) : list Row :=
  filter (λ r, row_call r = Some k) (outbox d).

(** The queue of a call, by event id. *)
Definition queue (d : Db) (k : CallKey) : list string := r_event_id <$> call_rows d k.

(** In admission order, the rows of a call are in the table in sequence order without gaps. *)
Definition window (s : Stream) : list Z := seqZ (s_next_seq s) (s_admit_seq s - s_next_seq s).
Definition fifo (d : Db) : Prop :=
  ∀ k s, call_streams d !! k = Some s → s_mode s = "admission" →
  r_call_seq <$> call_rows d k = Some <$> window s.

(** *** The list of a call under table operations *)

Lemma call_rows_update P `{!∀ r, Decision (P r)} f d k :
  (∀ r, row_call (f r) = row_call r) →
  filter (λ r, row_call r = Some k) (update_where P f (outbox d)) =
  update_where P f (call_rows d k).
Proof.
  intros Hf. unfold call_rows. induction (outbox d) as [|r l IH]; [done|]. simpl.
  rewrite !filter_cons. rewrite IH.
  destruct (decide (P r)) as [HP|HP].
  - rewrite Hf. destruct (decide (row_call r = Some k)); [|done]. simpl. by rewrite decide_True.
  - destruct (decide (row_call r = Some k)); [|done]. simpl. by rewrite decide_False.
Qed.

Lemma call_rows_append d r k :
  call_rows (set_outbox (λ rows, rows ++ [r]) d) k =
  call_rows d k ++ (if decide (row_call r = Some k) then [r] else []).
Proof. unfold call_rows. simpl. by rewrite filter_app, filter_cons, filter_nil. Qed.

Lemma call_rows_reclaimed lim rec d k : call_rows (reclaimed lim rec d) k = call_rows d k.
Proof.
  unfold reclaimed. case_decide; [|done]. unfold call_rows. simpl. unfold delete_where.
  rewrite list_filter_filter. apply list_filter_iff. intros r. split; [tauto|].
  intros Hk. split; [done|]. intros (_ & _ & Hu). by apply (row_call_not_ungrouped r k).
Qed.

Lemma call_rows_delete d id k :
  filter (λ r, row_call r = Some k) (delete_where (λ r, r_event_id r = id) (outbox d)) =
  delete_where (λ r, r_event_id r = id) (call_rows d k).
Proof.
  unfold delete_where, call_rows. rewrite !list_filter_filter. apply list_filter_iff. tauto.
Qed.

(** *** Status steps *)

Lemma update_seqs P `{!∀ r, Decision (P r)} f (l : list Row) :
  (∀ r, same_slot r (f r)) →
  r_call_seq <$> update_where P f l = r_call_seq <$> l ∧
  r_event_id <$> update_where P f l = r_event_id <$> l.
Proof.
  intros Hf. split; apply update_where_project; intros r _; apply Hf.
Qed.

Section fifo.
Context (d d' : Db).

(** An update of the rows in place, with the cursors unchanged. *)
Lemma fifo_update P `{!∀ r, Decision (P r)} f :
  (∀ r, same_slot r (f r)) → outbox d' = update_where P f (outbox d) →
  (∀ k, option_Forall2 same_cursor (call_streams d !! k) (call_streams d' !! k)) →
  (∀ k, queue d' k = queue d k) ∧ (fifo d → fifo d').
Proof.
  intros Hf Hout Hm.
  assert (∀ k, call_rows d' k = update_where P f (call_rows d k)) as Hrows.
  { intros k. unfold call_rows at 1. rewrite Hout. apply call_rows_update. intros r.
    by apply same_slot_call. }
  split.
  - intros k. unfold queue. rewrite Hrows. by apply update_seqs.
  - intros Hfifo k s' Hs' Hmode. specialize (Hm k). rewrite Hs' in Hm.
    inversion Hm as [s ? (_ & Hmd & Hn & Ha) Hs|]; subst.
    rewrite Hrows, (proj1 (update_seqs P f _ Hf)). unfold window. rewrite Hn, Ha.
    apply Hfifo; [done|congruence].
Qed.
End fifo.

(** *** Acknowledgement *)

Lemma queue_ids d k : wf d → NoDup (queue d k).
Proof.
  intros Hwf. unfold queue, call_rows. eapply sublist_NoDup; [apply (wf_ids d Hwf)|].
  apply fmap_sublist, sublist_filter.
Qed.

Lemma elem_of_call_rows d k r : r ∈ call_rows d k ↔ r ∈ outbox d ∧ row_call r = Some k.
Proof. unfold call_rows. rewrite list_elem_of_filter. tauto. Qed.

(** The delivery cursor of a call points at the front of its queue. *)
Lemma front_of_queue d r k s :
  wf d → fifo d → r ∈ outbox d → row_call r = Some k → call_streams d !! k = Some s →
  r_call_seq r = Some (s_next_seq s) → s_mode s = "admission" →
  ∃ rest, call_rows d k = r :: rest.
Proof.
  intros Hwf Hfifo Hr Hk Hs Hq Hmode. pose proof (Hfifo k s Hs Hmode) as Hseqs.
  assert (r ∈ call_rows d k) as Hin by (by apply elem_of_call_rows).
  destruct (call_rows d k) as [|r0 rest] eqn:Hrows; [by apply not_elem_of_nil in Hin|].
  exists rest. f_equal. unfold window in Hseqs.
  destruct (decide (s_admit_seq s - s_next_seq s ≤ 0)).
  - rewrite seqZ_nil in Hseqs by lia. done.
  - rewrite seqZ_cons in Hseqs by lia. injection Hseqs as Hhead _.
    assert (r0 ∈ call_rows d k) as [Hr0 Hk0]%elem_of_call_rows by (rewrite Hrows; left).
    apply (wf_row_unique d r0 r k); try done. congruence.
Qed.

Lemma delete_others id (l : list Row) :
  id ∉ r_event_id <$> l → delete_where (λ r, r_event_id r = id) l = l.
Proof.
  unfold delete_where. induction l as [|r l IH]; [done|]. rewrite fmap_cons, not_elem_of_cons.
  intros [Hne Hid]. rewrite filter_cons_True by congruence. f_equal. by apply IH.
Qed.

Lemma delete_queue id (l : list Row) :
  r_event_id <$> delete_where (λ r, r_event_id r = id) l = filter (.≠ id) (r_event_id <$> l).
Proof.
  unfold delete_where. induction l as [|r l IH]; [done|]. simpl.
  rewrite !filter_cons. repeat case_decide; try done. simpl. by f_equal.
Qed.

Section ack.
Context (d : Db) (r : Row) (k : CallKey) (s : Stream) (now : Z) (Hwf : wf d) (Hfifo : fifo d)
  (Hr : r ∈ outbox d) (Hk : row_call r = Some k) (Hs : call_streams d !! k = Some s)
  (Hq : r_call_seq r = Some (s_next_seq s)).

Lemma acked_call_rows k' :
  call_rows (acked_db r k s now d) k' =
  delete_where (λ r', r_event_id r' = r_event_id r)
    (update_where (successor k (s_next_seq s + 1)) (with_eligible now) (call_rows d k')).
Proof using Type.
  set (d1 := set_outbox (update_where (successor k (s_next_seq s + 1)) (with_eligible now))
               (set_streams <[k := with_next_seq (s_next_seq s + 1) s]> d)).
  change (call_rows (acked_db r k s now d) k') with
    (filter (λ r0, row_call r0 = Some k') (delete_where (λ r', r_event_id r' = r_event_id r) (outbox d1))).
  rewrite call_rows_delete. f_equal. unfold call_rows. simpl. by apply call_rows_update.
Qed.

Lemma acked_queue k' : queue (acked_db r k s now d) k' = filter (.≠ r_event_id r) (queue d k').
Proof using Type.
  unfold queue at 1. rewrite acked_call_rows.
  rewrite delete_queue. f_equal. by apply update_where_project.
Qed.

Lemma acked_fifo : fifo (acked_db r k s now d).
Proof using Hwf Hfifo Hr Hk Hs Hq.
  intros k' s' Hs' Hmode. rewrite acked_call_rows. simpl in Hs'.
  set (f := update_where _ _). assert (∀ l, r_event_id <$> f l = r_event_id <$> l) as Hids
    by (intros l; by apply update_where_project).
  assert (∀ l, r_call_seq <$> f l = r_call_seq <$> l) as Hseqs
    by (intros l; by apply update_where_project).
  apply lookup_insert_Some in Hs' as [[<- <-]|[Hne Hs']].
  - destruct (front_of_queue d r k s Hwf Hfifo Hr Hk Hs Hq Hmode) as [rest Hrows].
    pose proof (Hfifo k s Hs Hmode) as Hw. pose proof (queue_ids d k Hwf) as Hnd.
    unfold queue in Hnd. rewrite Hrows in *. apply NoDup_cons in Hnd as [Hid _].
    assert (f (r :: rest) = (if decide (successor k (s_next_seq s + 1) r) then with_eligible now r else r) :: f rest)
      as -> by done.
    unfold delete_where. rewrite filter_cons_False by (case_decide; auto).
    fold (delete_where (λ r', r_event_id r' = r_event_id r) (f rest)).
    rewrite delete_others by (by rewrite Hids). rewrite Hseqs.
    revert Hw. unfold window. cbn [s_next_seq s_admit_seq with_next_seq]. rewrite fmap_cons.
    destruct (decide (s_admit_seq s - s_next_seq s ≤ 0)).
    + by rewrite seqZ_nil by lia.
    + rewrite seqZ_cons by lia. rewrite fmap_cons. intros Hw. injection Hw as _ ->.
      do 2 f_equal; lia.
  - rewrite delete_others; [rewrite Hseqs; by apply Hfifo|]. rewrite Hids.
    intros (r0 & Hid & [Hr0 Hk0]%elem_of_call_rows)%list_elem_of_fmap.
    assert (r0 = r) as -> by (eapply ids_row; eauto using wf_ids). congruence.
Qed.
End ack.

(** *** Admission *)

Lemma call_rows_empty d k : wf d → call_streams d !! k = None → call_rows d k = [].
Proof.
  intros Hwf Hs. apply filter_none. intros r Hr Hk.
  destruct (wf_rows d Hwf r Hr) as (_ & _ & Hok). rewrite Hk in Hok.
  destruct Hok as (s & _ & Hs' & _). congruence.
Qed.

Lemma window_snoc s :
  s_next_seq s ≤ s_admit_seq s →
  window (with_admit_seq (s_admit_seq s + 1) s) = window s ++ [s_admit_seq s].
Proof.
  intros Hle. unfold window. simpl.
  replace (s_admit_seq s + 1 - s_next_seq s) with (s_admit_seq s - s_next_seq s + 1) by lia.
  rewrite seqZ_app by lia. do 2 f_equal. rewrite seqZ_cons by lia. f_equal. lia.
Qed.

Section admitted.
Context (lim : Limits) (rec : OutboxRecord) (now : Z) (d : Db) (a : Z) (d' : Db)
  (Ha : admitted lim rec now d a d').

Lemma admitted_row : ∃ r, outbox d' = outbox d ++ [r] ∧ r_event_id r = event_id rec ∧
  ∀ k, call_rows d' k = call_rows d k ++ (if decide (row_call r = Some k) then [r] else []).
Proof using Ha.
  destruct Ha; eexists; (split; [done|]); (split; [done|]); intros k0;
    (etransitivity; [apply call_rows_append|done]).
Qed.

Lemma admitted_fifo : wf d → fifo d → fifo d'.
Proof using Ha.
  intros Hwf Hfifo. destruct Ha as [Hc Hs Hid|k s seq -> Hc Hrt -> Hk Hk' Hm Hs Hle Hcap H0 Hmx Hid Hsq];
    intros k s' Hs' Hmode; rewrite call_rows_append; simpl in Hs'.
  - assert (row_call (pending_row rec (call_seq rec) now true) = None) as Hn
      by (by apply row_call_None).
    rewrite Hn, decide_False by done. rewrite app_nil_r. by apply Hfifo.
  - set (r := pending_row _ _ _ _). set (k1 := (topic rec, call_uuid rec)) in *.
    assert (row_call r = Some k1) as Hrk by (by apply row_call_Some).
    apply lookup_insert_Some in Hs' as [[<- <-]|[Hne Hs']].
    + rewrite decide_True by done. simpl in Hmode. rewrite Hm in Hmode.
      apply order_mode_admission in Hmode as Hneg. rewrite decide_True in Hs by done.
      rewrite fmap_app. change (call_rows (set_streams _ d) k1) with (call_rows d k1).
      destruct (joined_stream_cases rec d) as [Hj|[Hj Hnew]].
      * destruct (wf_streams d Hwf _ _ Hj) as ((_ & Hb) & _). subst seq.
        rewrite Z.max_r by lia. rewrite window_snoc, fmap_app by done. f_equal.
        -- apply Hfifo; [done|congruence].
        -- unfold r. simpl. by rewrite decide_False.
      * rewrite (call_rows_empty d k1 Hwf Hj). unfold r. rewrite Hnew in *. simpl in *. subst seq.
        by rewrite decide_False.
    + rewrite decide_False by congruence. rewrite app_nil_r. by apply Hfifo.
Qed.
End admitted.

Lemma fifo_reclaimed lim rec d : fifo d → fifo (reclaimed lim rec d).
Proof.
  intros Hfifo k s Hs Hm. rewrite call_rows_reclaimed. rewrite reclaimed_streams in Hs. by apply Hfifo.
Qed.

(** ** Every step of the process is a queue operation *)

Section steps.
Context `{E : Env} (lim : Limits).

(** What a step does to the queues, according to what it adds to the history. *)
Inductive queue_step (s s' : Sys) : Prop :=
  | queue_same :
      acked_rows (hist s') = acked_rows (hist s) → admitted_rows (hist s') = admitted_rows (hist s) →
      (∀ k, queue (db s') k = queue (db s) k) → queue_step s s'
  | queue_enqueue r :
      admitted_rows (hist s') = admitted_rows (hist s) ++ [r] →
      (∀ k, queue (db s') k =
            queue (db s) k ++ if decide (row_call r = Some k) then [r_event_id r] else []) →
      queue_step s s'
  | queue_dequeue r :
      acked_rows (hist s') = acked_rows (hist s) ++ [r] →
      (∀ k, queue (db s') k = filter (.≠ r_event_id r) (queue (db s) k)) →
      (∀ k st, row_call r = Some k → call_streams (db s) !! k = Some st →
         s_mode st = "admission" → queue (db s) k = r_event_id r :: queue (db s') k) →
      queue_step s s'.

Lemma status_queues (s : Sys) d' P `{!∀ r, Decision (P r)} f ch :
  (∀ r, same_slot r (f r)) → outbox d' = update_where P f (outbox (db s)) →
  status_step (db s) d' → fifo (db s) →
  fifo d' ∧ queue_step s (mkSys d' ch (hist s)).
Proof.
  intros Hf Hout Hst Hfifo.
  destruct (fifo_update (db s) d' P f Hf Hout (status_streams _ _ Hst)) as [Hq Hff].
  split; [by apply Hff|]. by apply queue_same.
Qed.

Lemma one_row_queues (s : Sys) d' P `{!∀ r, Decision (P r)} f what u ch :
  (∀ r, same_slot r (f r)) → one_row_txn P f what (db s) = inr (u, d') → fifo (db s) →
  fifo d' ∧ queue_step s (mkSys d' ch (hist s)).
Proof.
  intros Hf Htx. pose proof (one_row_status _ _ _ _ _ _ Hf Htx) as Hst.
  unfold one_row_txn in Htx. case_decide; simplify_eq. by apply (status_queues s _ P f).
Qed.

Lemma omap_reclaims {B} (g : Event → option B) rs :
  (∀ r, g (Reclaim r) = None) → omap g (Reclaim <$> rs) = [].
Proof. intros Hg. induction rs as [|r rs IH]; [done|]. simpl. by rewrite Hg. Qed.

Lemma admit_queues s rec t a d' r :
  wf (db s) → fifo (db s) → insert_txn lim rec (db s) t = inr (a, d') →
  outbox d' = outbox (reclaimed lim rec (db s)) ++ [r] →
  fifo d' ∧
  queue_step s (mkSys d' (chan s)
    (hist s ++ (Reclaim <$> reclaimed_rows lim rec (db s)) ++ [Admit r])).
Proof.
  intros Hwf Hfifo Htx Hout. apply insert_txn_admitted in Htx as [_ Ha].
  split; [by eapply admitted_fifo; [exact Ha|apply reclaimed_wf|apply fifo_reclaimed]|].
  destruct (admitted_row _ _ _ _ _ _ Ha) as (r' & Hout' & _ & Hrows).
  assert (r' = r) as -> by (rewrite Hout in Hout'; by simplify_list_eq).
  apply (queue_enqueue _ _ r); simpl.
  - unfold admitted_rows. by rewrite !omap_app, omap_reclaims.
  - intros k. unfold queue. rewrite Hrows, call_rows_reclaimed, fmap_app. f_equal.
    by case_decide.
Qed.

Lemma ack_queues s id t r d' :
  wf (db s) → fifo (db s) → in_flight_row id (db s) = Some r → ack_txn id (db s) t = inr (tt, d') →
  fifo d' ∧ queue_step s (mkSys d' (filter (.≠ id) (chan s)) (hist s ++ [Ack r])).
Proof.
  intros Hwf Hfifo Hr Htx. apply in_flight_row_Some in Hr as (Hr & Hid & Hst).
  destruct (ack_txn_inv id _ t _ d' Hwf Htx) as (r' & Hr' & Hid' & _ & Hcase).
  assert (r' = r) as -> by (eapply ids_row; eauto using wf_ids; congruence). subst id. clear Hr'.
  assert (acked_rows (hist s ++ [Ack r]) = acked_rows (hist s) ++ [r]) as Hacked
    by (unfold acked_rows; rewrite omap_app; done).
  destruct Hcase as [[Hk ->]|(k & st & Hk & Hs & Hq & ->)].
  - assert (∀ k, call_rows (set_outbox (delete_where (λ r', r_event_id r' = r_event_id r)) (db s)) k
      = delete_where (λ r', r_event_id r' = r_event_id r) (call_rows (db s) k)) as Hrows
      by (intros k; apply call_rows_delete).
    assert (∀ k, r_event_id r ∉ queue (db s) k) as Hno.
    { intros k (r0 & Hid0 & [Hr0 Hk0]%elem_of_call_rows)%list_elem_of_fmap.
      assert (r0 = r) as -> by (eapply ids_row; eauto using wf_ids). congruence. }
    split.
    + intros k s' Hs' Hm. rewrite Hrows, delete_others by apply Hno. by apply Hfifo.
    + apply (queue_dequeue _ _ r); [done| |simpl; congruence].
      intros k. unfold queue. simpl. by rewrite Hrows, delete_queue.
  - split; [by apply acked_fifo|].
    apply (queue_dequeue _ _ r); [done|intros k'; apply acked_queue|].
    intros k' st' Hk' Hs' Hm. assert (k' = k) as -> by congruence. simplify_eq.
    destruct (front_of_queue _ r k st Hwf Hfifo Hr Hk Hs Hq Hm) as [rest Hrows].
    simpl. rewrite acked_queue. pose proof (queue_ids (db s) k Hwf) as Hnd. unfold queue in *.
    rewrite Hrows in *. apply NoDup_cons in Hnd as [Hid _]. simpl.
    rewrite filter_cons_False by auto. f_equal. by rewrite <- delete_queue, delete_others.
Qed.

Lemma step_queues s s' :
  wf (db s) → fifo (db s) → step lim s s' → fifo (db s') ∧ queue_step s s'.
Proof.
  intros Hwf Hfifo Hstep. destruct Hstep as
    [rec t a d' r Hint Htx Hout|id t d' Htx|r Hr Hst Hnc|id t r d' Hc Hr Htx|ids Hsub
    |id next error t d' Hc Htx|id error t d' Hc Htx|t d' Hc Htx|now ttl t n d' Htx|id t d' Htx].
  - by apply (admit_queues s rec t a d' r).
  - apply take_txn_inv in Htx as (_ & Hout & Hst). eapply (status_queues s); [|exact Hout|done|done]. by repeat split.
  - split; [done|]. apply queue_same; [|..|done]; simpl; unfold acked_rows, admitted_rows;
      rewrite omap_app; apply app_nil_r.
  - by apply (ack_queues s id t r d').
  - split; [done|]. by apply queue_same.
  - eapply one_row_queues; [|exact Htx|done]. by repeat split.
  - eapply one_row_queues; [|exact Htx|done]. by repeat split.
  - unfold requeue_txn in Htx. simplify_eq.
    eapply (status_queues s); [|done|by apply status_update|done]. by repeat split.
  - unfold expire_txn in Htx. case_decide; simplify_eq; [split; [done|by apply queue_same]|].
    eapply (status_queues s); [|done|by apply status_update|done]. by repeat split.
  - eapply one_row_queues; [|exact Htx|done]. by repeat split.
Qed.

Lemma fifo_reachable d s : wf d → fifo d → reachable lim d s → wf (db s) ∧ fifo (db s).
Proof.
  intros Hwf Hfifo Hr. unfold reachable in Hr.
  assert (wf (db (start_state d)) ∧ fifo (db (start_state d))) as Hok by done.
  induction Hr as [|s1 s2 s3 Hstep _ IH]; [done|]. destruct Hok as [Hw Hf]. apply IH.
  split; [by eapply step_wf|by eapply step_queues].
Qed.
End steps.
