(* ===== verification/Capacity.v ===== *)
(** The configured limits as an invariant of the process. *)
From S2P Require Import Prelude Sqlite Tables Outbox OutboxSpec OutboxInv System.

(** ** Sizes of row lists *)

Lemma payload_bytes_cons r rows :
  payload_bytes (r :: rows) = Z.of_nat (String.length (r_payload r)) + payload_bytes rows.
Proof. done. Qed.

Lemma payload_bytes_app l1 l2 : payload_bytes (l1 ++ l2) = payload_bytes l1 + payload_bytes l2.
Proof.
  induction l1 as [|r l1 IH]; [done|]. rewrite <- app_comm_cons, !payload_bytes_cons, IH. lia.
Qed.

Lemma payload_bytes_project l1 l2 :
  r_payload <$> l1 = r_payload <$> l2 → payload_bytes l1 = payload_bytes l2.
Proof.
  revert l2. induction l1 as [|r1 l1 IH]; intros [|r2 l2]; try done.
  rewrite !fmap_cons. intros Heq. injection Heq as H1 H2.
  by rewrite !payload_bytes_cons, H1, (IH l2).
Qed.

Lemma payload_bytes_sublist l1 l2 : l1 `sublist_of` l2 → payload_bytes l1 ≤ payload_bytes l2.
Proof. induction 1; rewrite ?payload_bytes_cons; [done|lia|lia]. Qed.

Lemma status_sizes P `{!∀ r, Decision (P r)} f rows :
  (∀ r, same_slot r (f r)) →
  length (update_where P f rows) = length rows ∧
  payload_bytes (update_where P f rows) = payload_bytes rows.
Proof.
  intros Hf. split; [apply length_fmap|]. apply payload_bytes_project, update_where_project.
  intros r _. apply Hf.
Qed.

Lemma delete_sizes P `{!∀ r, Decision (P r)} rows :
  Z.of_nat (length (delete_where P rows)) ≤ Z.of_nat (length rows) ∧
  payload_bytes (delete_where P rows) ≤ payload_bytes rows.
Proof.
  assert (delete_where P rows `sublist_of` rows) as Hsub by apply sublist_filter.
  split; [apply Nat2Z.inj_le, sublist_length, Hsub|by apply payload_bytes_sublist].
Qed.

(** ** The limits *)

Section within.
Context `{E : Env} (lim : Limits).

(** Rows and streams that do not grow stay within the limits. *)
Lemma within_smaller d d' :
  row_count d' ≤ row_count d → payload_bytes (outbox d') ≤ payload_bytes (outbox d) →
  size (call_streams d') = size (call_streams d) → within lim d → within lim d'.
Proof. unfold within. intros H1 H2 ->. lia. Qed.

Lemma size_streams d d' :
  (∀ k, is_Some (call_streams d' !! k) ↔ is_Some (call_streams d !! k)) →
  size (call_streams d') = size (call_streams d).
Proof.
  intros Hk. rewrite <- !size_dom. f_equal. apply set_eq. intros k. rewrite !elem_of_dom. apply Hk.
Qed.

Lemma size_status d d' : status_step d d' → size (call_streams d') = size (call_streams d).
Proof.
  intros Hst. apply size_streams. intros k. pose proof (status_streams _ _ Hst k) as Hk.
  destruct Hk; [by split; eexists|done].
Qed.

Lemma within_update P `{!∀ r, Decision (P r)} f d d' :
  (∀ r, same_slot r (f r)) → outbox d' = update_where P f (outbox d) → status_step d d' →
  within lim d → within lim d'.
Proof.
  intros Hf Hout Hst. destruct (status_sizes P f (outbox d) Hf) as [Hl Hb].
  apply within_smaller; [unfold row_count; by rewrite Hout, Hl|by rewrite Hout, Hb|].
  by apply size_status.
Qed.

Lemma within_one_row P `{!∀ r, Decision (P r)} f what d u d' :
  (∀ r, same_slot r (f r)) → one_row_txn P f what d = inr (u, d') → within lim d → within lim d'.
Proof.
  intros Hf Htx. pose proof (one_row_status _ _ _ _ _ _ Hf Htx) as Hst.
  unfold one_row_txn in Htx. case_decide; simplify_eq. by apply (within_update P f).
Qed.

Lemma within_acked r k s now d :
  call_streams d !! k = Some s → within lim d → within lim (acked_db r k s now d).
Proof.
  intros Hs. set (rows := update_where (successor k (s_next_seq s + 1)) (with_eligible now) (outbox d)).
  destruct (delete_sizes (λ r', r_event_id r' = r_event_id r) rows) as [Hl Hb].
  assert (length rows = length (outbox d)) as Hl0 by apply length_fmap.
  assert (payload_bytes rows = payload_bytes (outbox d)) as Hb0
    by (by apply payload_bytes_project, update_where_project).
  apply within_smaller; unfold row_count; simpl; fold rows; [lia|lia|].
  apply map_size_insert_Some. by eexists.
Qed.

Lemma within_admitted rec now d a d' :
  within lim d → ¬ over_capacity lim rec d → admitted lim rec now d a d' → within lim d'.
Proof.
  intros (Hr & Hb & Hs) Hcap Ha. unfold over_capacity in Hcap. unfold within, row_count in *.
  destruct Ha as [Hc Hq Hid|k s seq -> Hc Hrt -> Hk Hk' Hm Hsq Hle Hst H0 Hmx Hid Hfr]; simpl;
    rewrite length_app, payload_bytes_app; simpl; (split; [lia|]); (split; [lia|]); [done|].
  set (k := (topic rec, call_uuid rec)) in *.
  destruct (call_streams d !! k) as [s|] eqn:Hk0.
  - rewrite map_size_insert_Some by (by eexists). done.
  - rewrite map_size_insert_None by done. specialize (Hst eq_refl). lia.
Qed.

Lemma within_reclaimed rec d : within lim d → within lim (reclaimed lim rec d).
Proof.
  intros Hw. unfold reclaimed. case_decide; [|done].
  destruct (delete_sizes reclaimable (outbox d)) as [Hl Hb].
  apply (within_smaller d); unfold row_count; simpl; done || lia.
Qed.

Lemma insert_within rec d t a d' :
  within lim d → insert_txn lim rec d t = inr (a, d') → within lim d'.
Proof.
  intros Hw [Hcap Ha]%insert_txn_admitted.
  eapply within_admitted; [by apply within_reclaimed|exact Hcap|exact Ha].
Qed.

Lemma ack_within id d t u d' :
  wf d → within lim d → ack_txn id d t = inr (u, d') → within lim d'.
Proof.
  intros Hwf Hw Htx.
  destruct (ack_txn_inv _ _ _ _ _ Hwf Htx) as (r & _ & _ & _ & [[_ ->]|(k & s & _ & Hs & _ & ->)]).
  - destruct (delete_sizes (λ r', r_event_id r' = id) (outbox d)) as [Hl Hb].
    apply (within_smaller d); unfold row_count; simpl; done || lia.
  - by apply within_acked.
Qed.

Lemma step_within s s' : wf (db s) → within lim (db s) → step lim s s' → within lim (db s').
Proof.
  intros Hwf Hw Hstep. destruct Hstep as
    [rec t a d' r Hint Htx Hout|id t d' Htx|r Hr Hst Hnc|id t r d' Hc Hr Htx|ids Hsub
    |id next error t d' Hc Htx|id error t d' Hc Htx|t d' Hc Htx|now ttl t n d' Htx|id t d' Htx];
    simpl; try done.
  - by eapply insert_within.
  - apply take_txn_inv in Htx as (_ & Hout & Hst).
    eapply within_update; [|exact Hout|done|done]. by repeat split.
  - by eapply ack_within.
  - eapply within_one_row; [|exact Htx|done]. by repeat split.
  - eapply within_one_row; [|exact Htx|done]. by repeat split.
  - unfold requeue_txn in Htx. simplify_eq.
    eapply within_update; [|done|by apply status_update|done]. by repeat split.
  - unfold expire_txn in Htx. case_decide; simplify_eq; [done|].
    eapply within_update; [|done|by apply status_update|done]. by repeat split.
  - eapply within_one_row; [|exact Htx|done]. by repeat split.
Qed.

Lemma within_reachable d s : wf d → within lim d → reachable lim d s → within lim (db s).
Proof.
  intros Hwf Hw Hr. unfold reachable in Hr.
  assert (wf (db (start_state d)) ∧ within lim (db (start_state d))) as Hok by done.
  induction Hr as [|s1 s2 s3 Hstep _ IH]; [by destruct Hok|]. destruct Hok as [Hw1 Hf]. apply IH.
  split; [by eapply step_wf|by eapply step_within].
Qed.
End within.
