(* ===== verification/Ages.v ===== *)
(** Deliverable age and expiry, and the statistics queries. *)
From S2P Require Import Prelude Sqlite Tables Outbox OutboxSpec OutboxInv System Schedule.
From S2P Require Import Capacity.

(** ** Expiry *)

Section expiry.
Context `{E : Env}.
Implicit Types (d : Db) (r : Row).

Definition expired (now : Z) (r : Row) : Row := with_error "expired_ttl" (with_state "dead" now r).

Lemma expired_slot now r : same_slot r (expired now r).
Proof. by repeat split. Qed.

Lemma expire_txn_inv now ttl d t n d' :
  0 < ttl → expire_txn now ttl d t = inr (n, d') →
  n = count_where (overage now ttl d) (outbox d) ∧
  d' = set_outbox (update_where (overage now ttl d) (expired now)) d.
Proof. intros Httl Htx. unfold expire_txn in Htx. rewrite decide_False in Htx by lia. by simplify_eq. Qed.

Lemma deliverable_slot d d' r r' :
  call_streams d' = call_streams d → same_slot r r' → deliverable d' r' ↔ deliverable d r.
Proof.
  intros Hs (_ & Ht & _ & _ & _ & Hu & Hq & _). unfold deliverable, ungrouped, is_head, stream_of.
  by rewrite Ht, Hu, Hq, Hs.
Qed.

(** Nothing that is over age is left pending, whatever else happens to the statuses. *)
Lemma expire_complete now ttl d t n d' r :
  0 < ttl → expire_txn now ttl d t = inr (n, d') → r ∈ outbox d' → ¬ overage now ttl d' r.
Proof.
  intros Httl Htx Hr. destruct (expire_txn_inv _ _ _ _ _ _ Httl Htx) as [_ ->].
  apply elem_of_update_where in Hr as (r0 & Hr0 & [[Ho ->]|[Ho ->]]); intros (Hp & Hage & Hdel).
  - discriminate Hp.
  - by apply Ho.
Qed.

(** The condition of the statement, read off the tables. *)
Definition expires (now ttl : Z) d r : Prop :=
  0 < ttl ∧ r_state r = "pending" ∧
  (∃ since, r_eligible_at_ms r = Some since ∧ ttl < now - since) ∧
  match row_call r with Some k => r_call_seq r = Some (cursor d k) | None => True end.

Lemma overage_expires now ttl d r :
  wf d → 0 < ttl → r ∈ outbox d → overage now ttl d r ↔ expires now ttl d r.
Proof.
  intros Hwf Httl Hr. unfold overage, expires.
  assert (deliverable d r ↔
    match row_call r with Some k => r_call_seq r = Some (cursor d k) | None => True end) as ->.
  { destruct (row_call r) as [k|] eqn:Hk; [by apply deliverable_head|].
    split; [done|intros _; left; by apply row_call_None]. }
  destruct (r_eligible_at_ms r) as [since|]; naive_solver lia.
Qed.

(** All that a committed expiry does. *)
Lemma expire_txn_rows now ttl d t n d' :
  wf d → expire_txn now ttl d t = inr (n, d') →
  ∃ dead rows, dead `sublist_of` outbox d ∧ (∀ r, r ∈ outbox d → r ∈ dead ↔ expires now ttl d r) ∧
    n = Z.of_nat (length dead) ∧ d' = set_outbox (λ _, rows) d ∧
    Forall2 (λ r r', (expires now ttl d r ∧ r' = expired now r) ∨ (¬ expires now ttl d r ∧ r' = r))
      (outbox d) rows.
Proof.
  intros Hwf Htx. destruct (decide (ttl ≤ 0)) as [Httl|Httl].
  - unfold expire_txn in Htx. rewrite decide_True in Htx by done. simplify_eq.
    exists [], (outbox d'). split_and!; [apply sublist_nil_l| |done|by destruct d'|].
    + intros r _. split; [by intros ?%not_elem_of_nil|intros [? _]; lia].
    + apply Forall_Forall2_diag, Forall_forall. intros r _. right. split; [intros [? _]; lia|done].
  - destruct (expire_txn_inv now ttl d t n d') as [-> ->]; [lia|done|].
    exists (filter (overage now ttl d) (outbox d)), (update_where (overage now ttl d) (expired now) (outbox d)).
    split_and!; [apply sublist_filter| |done|done|].
    + intros r Hr. rewrite list_elem_of_filter, overage_expires by (done || lia). tauto.
    + apply Forall2_fmap_r, Forall_Forall2_diag, Forall_forall. intros r Hr. unfold compose.
      case_decide as Ho; rewrite overage_expires in Ho by (done || lia); auto.
Qed.

(** What is fetched right after an expiry is within its age. *)
Lemma fetched_within_age now ttl d t n d' limit r :
  wf d → 0 < ttl → expire_txn now ttl d t = inr (n, d') → r ∈ due_rows now limit d' →
  ∃ since, r_eligible_at_ms r = Some since ∧ now - since ≤ ttl.
Proof.
  intros Hwf Httl Htx (Hr & Hp & _ & Hdel)%elem_of_due_rows.
  pose proof (expire_complete _ _ _ _ _ _ r Httl Htx Hr) as Ho.
  pose proof (wf_rows _ (expire_wf _ _ _ _ _ _ Hwf Htx) r Hr) as (_ & _ & Hok).
  assert (is_Some (r_eligible_at_ms r)) as [since Hs].
  { destruct (row_call r) as [k|] eqn:Hk; [|apply Hok].
    destruct Hok as (s & m & Hst & Hn & _ & _ & He & _). apply He.
    destruct Hdel as [Hu|Hh]; [by apply row_call_None in Hu; congruence|].
    apply (is_head_call d' r k s Hk Hst) in Hh. congruence. }
  exists since. split; [done|]. apply Z.nlt_ge. intros Hlt. apply Ho. split; [done|].
  rewrite Hs. split; [lia|done].
Qed.

(** A waiting successor starts its age at the acknowledgement of its predecessor. *)
Lemma successor_age d id t u d' r r' k n :
  wf d → ack_txn id d t = inr (u, d') → r ∈ outbox d → r_event_id r = id →
  row_call r = Some k → r_call_seq r = Some n →
  r' ∈ outbox d' → row_call r' = Some k → r_call_seq r' = Some (n + 1) →
  r_eligible_at_ms r' = Some (clock t) ∧ deliverable d' r'.
Proof.
  intros Hwf Htx Hr Hid Hk Hn Hr' Hk' Hn'.
  destruct (ack_txn_inv _ _ _ _ _ Hwf Htx) as (r1 & Hr1 & Hid1 & _ & Hcase).
  assert (r1 = r) as -> by (eapply ids_row; eauto using wf_ids; congruence).
  destruct Hcase as [[? _]|(k1 & s & Hk1 & Hs & Hq & ->)]; [congruence|].
  assert (k1 = k) as -> by congruence. assert (s_next_seq s = n) as Hsn by congruence.
  split.
  - apply elem_of_acked in Hr' as (r0 & Hr0 & Hne & [[_ ->]|[Hns ->]]); [done|].
    destruct Hns. destruct (wf_rows d Hwf r0 Hr0) as (_ & _ & Hok). rewrite Hk' in Hok.
    destruct Hok as (s0 & n0 & Hs0 & Hn0 & _ & _ & He & _).
    apply row_call_Some in Hk' as (? & ? & _). rewrite Hsn. repeat split; try done.
    apply eq_None_not_Some. rewrite He. simplify_eq. lia.
  - right. apply (is_head_call _ r' k (with_next_seq (s_next_seq s + 1) s)); [done| |simpl; congruence].
    simpl. apply lookup_insert_eq.
Qed.

(** A dead row that is revived keeps its age. *)
Lemma revived_row d id t u d' r' :
  revive_txn id d t = inr (u, d') → r' ∈ outbox d' → r_event_id r' = id → r_state r' = "pending" →
  ids_unique d →
  ∃ r, r ∈ outbox d ∧ r_state r = "dead" ∧ same_slot r r' ∧ r_attempts r' = r_attempts r ∧
    r_last_error r' = Some "" ∧ r_next_attempt_at_ms r' = clock t.
Proof.
  intros Htx Hr' Hid Hp Hids. unfold revive_txn, one_row_txn in Htx. case_decide as Hn; simplify_eq.
  apply elem_of_update_where in Hr' as (r & Hr & [[[_ Hd] ->]|[Hnd ->]]).
  - exists r. by repeat split.
  - exfalso. destruct (count_where_pos (dead_id (r_event_id r)) (outbox d)) as (r0 & Hr0 & Hid0 & Hd0);
      [lia|]. assert (r0 = r) as -> by (by eapply ids_row). congruence.
Qed.
End expiry.

(** ** Statistics *)

Section stats.
Implicit Types (rows : list Row).

Definition in_state (st : string) rows : list Row := filter (λ r, r_state r = st) rows.
Definition group rows (st : string) : string * Z * Z :=
  (st, Z.of_nat (length (in_state st rows)), payload_bytes (in_state st rows)).
Definition group_count rows (L : list string) (st : string) (dflt : Z) : Z :=
  if decide (st ∈ L) then Z.of_nat (length (in_state st rows)) else dflt.
Definition group_bytes rows (L : list string) : Z :=
  foldr (λ st n, payload_bytes (in_state st rows) + n) 0 L.

Lemma fold_groups rows L acc :
  NoDup L → (∀ st, st ∈ L → st ∈ ["pending"; "in_flight"; "dead"]) →
  foldl add_group acc (group rows <$> L) =
  mkStats (group_count rows L "pending" (pending acc)) (group_count rows L "in_flight" (in_flight acc))
    (group_count rows L "dead" (dead acc)) (total_bytes acc + group_bytes rows L).
Proof.
  revert acc. induction L as [|st L IH]; intros acc Hnd HL.
  - unfold group_count. rewrite !decide_False by apply not_elem_of_nil. simpl.
    rewrite Z.add_0_r. by destruct acc.
  - apply NoDup_cons in Hnd as [Hst Hnd]. rewrite fmap_cons. cbn [foldl].
    rewrite IH by (done || set_solver).
    assert (st = "pending" ∨ st = "in_flight" ∨ st = "dead") as Hcase by set_solver.
    unfold add_group, group, group_count. cbn [group_bytes foldr].
    destruct Hcase as [-> | [-> | ->]]; simpl; f_equal; repeat case_decide; first [set_solver | done | symmetry; apply Z.add_assoc].
Qed.

Lemma group_bytes_cons rows st L :
  group_bytes rows (st :: L) = payload_bytes (in_state st rows) + group_bytes rows L.
Proof. done. Qed.

Lemma group_bytes_row r rows L :
  NoDup L →
  group_bytes (r :: rows) L =
  (if decide (r_state r ∈ L) then Z.of_nat (String.length (r_payload r)) else 0) +
  group_bytes rows L.
Proof.
  induction L as [|st L IH]; intros Hnd; [done|]. apply NoDup_cons in Hnd as [Hst Hnd].
  rewrite !group_bytes_cons, IH by done. unfold in_state. rewrite filter_cons.
  destruct (decide (r_state r = st)) as [<-|Hne].
  - rewrite payload_bytes_cons. rewrite decide_False by done. rewrite decide_True by set_solver. lia.
  - rewrite (decide_ext (r_state r ∈ L) (r_state r ∈ st :: L)) by set_solver. lia.
Qed.

(** Every byte is in one group. *)
Lemma group_bytes_all rows L :
  NoDup L → (∀ r, r ∈ rows → r_state r ∈ L) → group_bytes rows L = payload_bytes rows.
Proof.
  intros Hnd. induction rows as [|r rows IH]; intros HL.
  - clear. induction L as [|st L IH]; [done|]. by rewrite group_bytes_cons, IH.
  - rewrite group_bytes_row by done. rewrite decide_True by set_solver.
    rewrite payload_bytes_cons, IH by set_solver. done.
Qed.

Lemma group_count_all rows st :
  group_count rows (remove_dups (r_state <$> rows)) st 0 = Z.of_nat (length (in_state st rows)).
Proof.
  unfold group_count. case_decide as Hin; [done|]. unfold in_state.
  rewrite (proj2 (filter_none (λ r, r_state r = st) rows)); [done|].
  intros r Hr <-. apply Hin. apply elem_of_remove_dups. by apply list_elem_of_fmap_2.
Qed.

Lemma in_state_partition rows :
  (∀ r, r ∈ rows → r_state r ∈ ["pending"; "in_flight"; "dead"]) →
  Z.of_nat (length (in_state "pending" rows)) + Z.of_nat (length (in_state "in_flight" rows)) +
  Z.of_nat (length (in_state "dead" rows)) = Z.of_nat (length rows).
Proof.
  induction rows as [|r rows IH]; intros Hst; [done|].
  specialize (IH ltac:(set_solver)). unfold in_state in *. rewrite !filter_cons.
  assert (r_state r = "pending" ∨ r_state r = "in_flight" ∨ r_state r = "dead") as Hcase
    by (specialize (Hst r); set_solver).
  destruct Hcase as [-> | [-> | ->]]; simpl; lia.
Qed.

Lemma stats_of d :
  (∀ r, r ∈ outbox d → r_state r ∈ ["pending"; "in_flight"; "dead"]) →
  foldl add_group (mkStats 0 0 0 0) (state_groups d) =
  mkStats (Z.of_nat (length (in_state "pending" (outbox d))))
    (Z.of_nat (length (in_state "in_flight" (outbox d))))
    (Z.of_nat (length (in_state "dead" (outbox d)))) (payload_bytes (outbox d)).
Proof.
  intros Hst.
  assert (state_groups d = group (outbox d) <$> remove_dups (r_state <$> outbox d)) as -> by done.
  rewrite fold_groups.
  - rewrite !group_count_all. rewrite group_bytes_all; [done|apply NoDup_remove_dups|].
    intros r Hr. apply elem_of_remove_dups. by apply list_elem_of_fmap_2.
  - apply NoDup_remove_dups.
  - intros st (r & -> & Hr)%elem_of_remove_dups%list_elem_of_fmap. by apply Hst.
Qed.
End stats.

(** The largest age of a pending row. *)
Section oldest.
Lemma foldr_min x l : (∀ y, y ∈ x :: l → foldr Z.min x l ≤ y) ∧ foldr Z.min x l ∈ x :: l.
Proof.
  induction l as [|y l [IHle IHin]]; simpl.
  - split; [intros y ->%list_elem_of_singleton; lia|by left].
  - split.
    + intros z Hz. assert (z = y ∨ z ∈ x :: l) as [->|Hz'] by set_solver; [lia|].
      specialize (IHle z Hz'). lia.
    + destruct (Z.min_spec y (foldr Z.min x l)) as [[_ ->]|[_ ->]]; set_solver.
Qed.

Lemma min_list_spec l :
  match min_list l with
  | None => l = []
  | Some m => m ∈ l ∧ ∀ y, y ∈ l → m ≤ y
  end.
Proof. destruct l as [|x l]; [done|]. simpl. destruct (foldr_min x l); auto. Qed.

Lemma oldest_age_spec now d :
  let age := match min_list (r_created_at_ms <$> filter (λ r, r_state r = "pending") (outbox d)) with
             | None => 0
             | Some t => Z.max 0 (now - t)
             end in
  0 ≤ age ∧
  (∀ r, r ∈ outbox d → r_state r = "pending" → now - r_created_at_ms r ≤ age) ∧
  (age = 0 ∨ ∃ r, r ∈ outbox d ∧ r_state r = "pending" ∧ age = now - r_created_at_ms r).
Proof.
  set (l := r_created_at_ms <$> _). pose proof (min_list_spec l) as Hm.
  assert (∀ r, r ∈ outbox d → r_state r = "pending" → r_created_at_ms r ∈ l) as Hin.
  { intros r Hr Hp. apply list_elem_of_fmap_2. by apply list_elem_of_filter. }
  destruct (min_list l) as [m|]; simpl.
  - destruct Hm as [Hml Hle]. split; [lia|]. split.
    + intros r Hr Hp. specialize (Hle _ (Hin r Hr Hp)). lia.
    + destruct (decide (now - m ≤ 0)); [left; lia|right].
      apply list_elem_of_fmap in Hml as (r & -> & [Hp Hr]%list_elem_of_filter).
      exists r. split_and!; [done..|lia].
  - split; [done|]. split; [|by left]. intros r Hr Hp. specialize (Hin r Hr Hp).
    rewrite Hm in Hin. by apply not_elem_of_nil in Hin.
Qed.
End oldest.
