(* ===== verification/Samples.v ===== *)
(** Concrete inputs on which the theorems are exercised: an environment in which no call fails and
    the clock advances by one millisecond per reading, an empty database, a few events, and the
    states that a short run goes through. *)
From S2P Require Import Prelude Sqlite Tables Outbox OutboxSpec OutboxInv System.

#[export] Instance quiet_env : Env := {|
  sq_fault := λ _, None;
  sq_errmsg := λ e, match e with
                    | UniqueConstraint c => "UNIQUE constraint failed: " +:+ c
                    | NestedTransaction => "cannot start a transaction within a transaction"
                    end;
  clock := λ n, 1000 + Z.of_nat n;
|}.

(** An environment in which the call number [n] fails. *)
Definition faulty_env (n : nat) (f : Fault) : Env := {|
  sq_fault := λ m, if decide (m = n) then Some f else None;
  sq_errmsg := @sq_errmsg quiet_env;
  clock := @clock quiet_env;
|}.

Definition lim0 : Limits := mkLimits 100 1000.
Definition empty_db : Db := mkDb 5 true true true true [] ∅ ∅ (Some 0).
Definition conn_of (d : Db) : Conn Db := mkConn true d None 0 0 0.

Definition event (id call : string) : OutboxRecord :=
  mkRecord id "events" call "{}" Pending 0 0 "" 500 0 call (-1).

(** The database after a transaction that must succeed. *)
Definition commit_of {A} (r : string + (A * Db)) (d : Db) : Db :=
  match r with inr (_, d') => d' | inl _ => d end.

Definition call_a : CallKey := ("events", "call-a").
Definition db1 : Db := commit_of (insert_txn lim0 (event "e1" "call-a") empty_db 0%nat) empty_db.
Definition db2 : Db := commit_of (insert_txn lim0 (event "e2" "call-a") db1 0%nat) db1.
Definition db3 : Db := commit_of (insert_txn lim0 (event "e3" "") db2 0%nat) db2.
Definition db4 : Db := commit_of (take_txn "e1" db3 5%nat) db3.
Definition db5 : Db := commit_of (ack_txn "e1" db4 6%nat) db4.
Definition db6 : Db := commit_of (take_txn "e2" db5 7%nat) db5.

(** Closes an equation between closed terms by evaluating its decision procedure. *)
Lemma eval_eq {A} `{EqDecision A} (x y : A) : bool_decide (x = y) = true → x = y.
Proof. apply bool_decide_eq_true_1. Qed.
Lemma eval_in {A} `{EqDecision A} (x : A) (l : list A) : bool_decide (x ∈ l) = true → x ∈ l.
Proof. apply bool_decide_eq_true_1. Qed.
Lemma eval_not_in {A} `{EqDecision A} (x : A) (l : list A) : bool_decide (x ∈ l) = false → x ∉ l.
Proof. apply bool_decide_eq_false_1. Qed.
Ltac by_eval :=
  first [simple apply eval_eq | simple apply eval_in | simple apply eval_not_in];
  vm_compute; reflexivity.

Lemma wf_empty : wf empty_db.
Proof.
  split; simpl; try (intros *; rewrite lookup_empty; done).
  - apply NoDup_nil_2.
  - by intros r Hr%not_elem_of_nil.
  - by intros r1 r2 k Hr%not_elem_of_nil.
  - exists 0. split; [done|]. split; [unfold int64_max; lia|].
    by split; intros *; rewrite lookup_empty.
Qed.

Lemma wf_db1 : wf db1.
Proof. apply (insert_wf lim0 (event "e1" "call-a") empty_db 0 0); [apply wf_empty|done|by_eval]. Qed.
Lemma wf_db2 : wf db2.
Proof. apply (insert_wf lim0 (event "e2" "call-a") db1 0 1); [apply wf_db1|done|by_eval]. Qed.
Lemma wf_db3 : wf db3.
Proof. apply (insert_wf lim0 (event "e3" "") db2 0 (-1)); [apply wf_db2|done|by_eval]. Qed.
Lemma wf_db4 : wf db4.
Proof. apply (take_wf "e1" db3 5%nat tt); [apply wf_db3|by_eval]. Qed.
Lemma wf_db5 : wf db5.
Proof. apply (ack_wf "e1" db4 6%nat tt); [apply wf_db4|by_eval]. Qed.

(** A short run: two events of a call and one without a call are admitted; the head of the call is
    taken, handed over and acknowledged; its successor is taken and handed over. *)
Definition nth_row (n : nat) (d : Db) : Row :=
  default (pending_row (event "" "") 0 0 true) (outbox d !! n).
Definition run1 : Sys := mkSys db1 [] [Admit (nth_row 0 db1)].
Definition run2 : Sys := mkSys db2 [] (hist run1 ++ [Admit (nth_row 1 db2)]).
Definition run3 : Sys := mkSys db3 [] (hist run2 ++ [Admit (nth_row 2 db3)]).
Definition run4 : Sys := mkSys db4 [] (hist run3).
Definition run4' : Sys := mkSys db4 ["e1"] (hist run3 ++ [Send (nth_row 0 db4)]).
Definition run5 : Sys := mkSys db5 [] (hist run4' ++ [Ack (nth_row 0 db4)]).
Definition run6 : Sys := mkSys db6 [] (hist run5).
Definition run7 : Sys := mkSys db6 ["e2"] (hist run5 ++ [Send (nth_row 0 db6)]).


Lemma step_to lim s s1 s2 : step lim s s1 → s1 = s2 → step lim s s2.
Proof. by intros ? <-. Qed.

Lemma run_admit rec a d' r s s' :
  call_seq rec ≤ int64_max → insert_txn lim0 rec (db s) 0%nat = inr (a, d') →
  outbox d' = outbox (reclaimed lim0 rec (db s)) ++ [r] →
  mkSys d' (chan s) (hist s ++ (Reclaim <$> reclaimed_rows lim0 rec (db s)) ++ [Admit r]) = s' →
  step lim0 s s'.
Proof. intros. by eapply step_to; [eapply step_admit|]. Qed.

Lemma run1_step : step lim0 (start_state empty_db) run1.
Proof. apply (run_admit (event "e1" "call-a") 0 db1 (nth_row 0 db1)); [done|by_eval..]. Qed.
Lemma run2_step : step lim0 run1 run2.
Proof. apply (run_admit (event "e2" "call-a") 1 db2 (nth_row 1 db2)); [done|by_eval..]. Qed.
Lemma run3_step : step lim0 run2 run3.
Proof. apply (run_admit (event "e3" "") (-1) db3 (nth_row 2 db3)); [done|by_eval..]. Qed.
Lemma run_take id d' s s' t :
  take_txn id (db s) t = inr (tt, d') → mkSys d' (chan s) (hist s) = s' → step lim0 s s'.
Proof. intros. by eapply step_to; [eapply step_take|]. Qed.

Lemma run_send r s s' :
  r ∈ outbox (db s) → r_state r = "in_flight" → r_event_id r ∉ chan s →
  mkSys (db s) (chan s ++ [r_event_id r]) (hist s ++ [Send r]) = s' → step lim0 s s'.
Proof. intros. by eapply step_to; [eapply step_send|]. Qed.

Lemma run_ack id r d' s s' t :
  id ∈ chan s → in_flight_row id (db s) = Some r → ack_txn id (db s) t = inr (tt, d') →
  mkSys d' (filter (.≠ id) (chan s)) (hist s ++ [Ack r]) = s' → step lim0 s s'.
Proof. intros. by eapply step_to; [eapply step_ack|]. Qed.

Lemma run4_step : step lim0 run3 run4.
Proof. apply (run_take "e1" db4 _ _ 5%nat); by_eval. Qed.
Lemma run4'_step : step lim0 run4 run4'.
Proof. apply (run_send (nth_row 0 db4)); by_eval. Qed.
Lemma run5_step : step lim0 run4' run5.
Proof. apply (run_ack "e1" (nth_row 0 db4) db5 _ _ 6%nat); by_eval. Qed.
Lemma run6_step : step lim0 run5 run6.
Proof. apply (run_take "e2" db6 _ _ 7%nat); by_eval. Qed.
Lemma run7_step : step lim0 run6 run7.
Proof. apply (run_send (nth_row 0 db6)); by_eval. Qed.

Lemma run7_reachable : reachable lim0 empty_db run7.
Proof.
  eapply rtc_l; [exact run1_step|]. eapply rtc_l; [exact run2_step|].
  eapply rtc_l; [exact run3_step|]. eapply rtc_l; [exact run4_step|].
  eapply rtc_l; [exact run4'_step|]. eapply rtc_l; [exact run5_step|].
  eapply rtc_l; [exact run6_step|]. eapply rtc_l; [exact run7_step|]. apply rtc_refl.
Qed.
