(* ===== verification/SystemTheorems.v ===== *)
(** What the transition system of System.v guarantees on every run: per-call order, one
    acknowledgement per sequence, no lost event, settled delivery reports. *)
From S2P Require Import Prelude Sqlite Tables Outbox OutboxSpec OutboxInv System Samples.

(** [C3] Per-call order. In every run, when a message of call [k] with sequence [n] is handed to
    the Kafka producer, the acknowledgements recorded so far for [k] are exactly the sequences from
    the cursor the run started with up to [n - 1], in that order. So no message overtakes an
    unacknowledged predecessor, none is skipped, and an acknowledged sequence is never sent again. *)
Theorem send_only_after_predecessors `{E : Env} lim d0 s h1 r h2 k n :
  wf d0 → reachable lim d0 s → hist s = h1 ++ Send r :: h2 →
  row_call r = Some k → r_call_seq r = Some n →
  cursor d0 k ≤ n ∧ acked_seqs k h1 = seqZ (cursor d0 k) (n - cursor d0 k).
Proof. intros Hwf Hr. apply (h_send _ _ (history_reachable lim d0 s Hwf Hr)). Qed.

Lemma send_only_after_predecessors_witness :
  row_call (nth_row 0 db6) = Some call_a ∧ r_call_seq (nth_row 0 db6) = Some 1 ∧
  cursor empty_db call_a ≤ 1 ∧
  acked_seqs call_a (hist run5) = seqZ (cursor empty_db call_a) (1 - cursor empty_db call_a).
Proof.
  assert (row_call (nth_row 0 db6) = Some call_a) as Hk by by_eval.
  assert (r_call_seq (nth_row 0 db6) = Some 1) as Hn by by_eval.
  split; [exact Hk|]. split; [exact Hn|].
  exact (send_only_after_predecessors lim0 empty_db run7 (hist run5) (nth_row 0 db6) [] call_a 1
           wf_empty run7_reachable eq_refl Hk Hn).
Defined.

(** [C4] Each sequence of a call is acknowledged exactly once, in sequence order and without gaps,
    and the durable cursor [next_seq] is the count of them. *)
Theorem acks_once_in_order `{E : Env} lim d0 s k :
  wf d0 → reachable lim d0 s →
  cursor d0 k ≤ cursor (db s) k ∧
  acked_seqs k (hist s) = seqZ (cursor d0 k) (cursor (db s) k - cursor d0 k).
Proof. intros Hwf Hr. apply (h_acked _ _ (history_reachable lim d0 s Hwf Hr)). Qed.

Lemma acks_once_in_order_witness :
  wf empty_db ∧ reachable lim0 empty_db run7 ∧
  acked_seqs call_a (hist run7) = seqZ (cursor empty_db call_a) (cursor db6 call_a - cursor empty_db call_a).
Proof.
  split; [exact wf_empty|]. split; [exact run7_reachable|].
  exact (proj2 (acks_once_in_order lim0 empty_db run7 call_a wf_empty run7_reachable)).
Defined.

(** [C5] No event is lost: counted with multiplicity, the events in the initial file and those
    admitted since are exactly the rows still stored, the acknowledged ones and the reclaimed ones;
    and only dead rows without a call that expired by age are ever reclaimed. *)
Theorem no_event_lost `{E : Env} lim d0 s :
  wf d0 → reachable lim d0 s →
  (r_event_id <$> outbox d0) ++ (r_event_id <$> admitted_rows (hist s)) ≡ₚ
    (r_event_id <$> outbox (db s)) ++ (r_event_id <$> acked_rows (hist s)) ++
    (r_event_id <$> dropped_rows (hist s)) ∧
  (∀ r, r ∈ dropped_rows (hist s) →
     r_state r = "dead" ∧ r_last_error r = Some "expired_ttl" ∧ row_call r = None).
Proof.
  intros Hwf Hr. pose proof (history_reachable lim d0 s Hwf Hr) as Hok.
  split; [apply (h_ids _ _ Hok)|]. intros r (? & ? & ?)%(h_dropped _ _ Hok).
  split_and!; [done..|]. by apply row_call_None.
Qed.

Lemma no_event_lost_witness :
  wf empty_db ∧ reachable lim0 empty_db run7 ∧
  (r_event_id <$> admitted_rows (hist run7)) ≡ₚ
    (r_event_id <$> outbox db6) ++ (r_event_id <$> acked_rows (hist run7)) ++
    (r_event_id <$> dropped_rows (hist run7)).
Proof.
  split; [exact wf_empty|]. split; [exact run7_reachable|].
  exact (proj1 (no_event_lost lim0 empty_db run7 wf_empty run7_reachable)).
Defined.

(** [C14] A delivery report that the live producer still owes always finds its row in flight, so the
    acknowledgement, the retry and the dead-lettering of that event are each accepted by the
    database. The module stops itself on a delivery report only when SQLite fails. *)
Theorem report_always_settles `{E : Env} lim d0 s id t :
  wf d0 → reachable lim d0 s → id ∈ chan s →
  (∃ d', ack_txn id (db s) t = inr (tt, d')) ∧
  (∀ next e, ∃ d', retry_txn id next e (db s) t = inr (tt, d')) ∧
  (∀ e, ∃ d', dead_txn id e (db s) t = inr (tt, d')).
Proof.
  intros Hwf Hr Hid. destruct (chan_reachable lim d0 s Hwf Hr) as [Hwf' Hc].
  destruct (Hc id Hid) as (r & Hin & <- & Hst). by apply settle_accepted.
Qed.

Lemma report_always_settles_witness :
  "e2" ∈ chan run7 ∧ ∃ d', ack_txn "e2" db6 9%nat = inr (tt, d').
Proof.
  assert ("e2" ∈ chan run7) as Hin by by_eval. split; [exact Hin|].
  exact (proj1 (report_always_settles lim0 empty_db run7 "e2" 9%nat wf_empty run7_reachable Hin)).
Defined.

(** [C15] The database invariant holds of the file after every step of every run, and so of what a
    restart finds after the process dies at any moment between two steps. *)
Theorem invariant_reachable `{E : Env} lim d0 s : wf d0 → reachable lim d0 s → wf (db s).
Proof. intros Hwf Hr. by apply (chan_reachable lim d0). Qed.

Lemma invariant_reachable_witness : reachable lim0 empty_db run7 ∧ wf db6.
Proof.
  split; [exact run7_reachable|].
  exact (invariant_reachable lim0 empty_db run7 wf_empty run7_reachable).
Defined.
