(* ===== verification/OutboxTheorems.v ===== *)
(** What the methods of [Outbox] guarantee: atomicity under any failure of SQLite and any death of
    the process, exact admission conditions, bounded size, FIFO queues, the scheduler's batches and
    fairness, deliverable age, and the queries. *)
From S2P Require Import Prelude Sqlite Tables Outbox OutboxSpec OutboxInv System Schedule.
From S2P Require Import Queues Capacity Ages Samples.

(** [C7] [insert_pending] is atomic. Whatever SQLite call fails in it, it either returns true with
    exactly the admission that [insert_txn] describes committed and its sequence reported, or false
    with the file unchanged (and, when no call failed, with the error of [insert_txn]); no exception
    escapes; and if the process dies anywhere inside it, the file holds the old contents or the
    complete admission. *)
Theorem insert_pending_atomic `{E : Env} lim rec :
  refines (λ _, True) (insert_pending lim rec) (insert_txn lim rec).
Proof. apply insert_pending_refines. Qed.

(** [C8] The other methods that change state are atomic in the same sense: [mark_in_flight],
    [mark_acked], [requeue_in_flight] and [expire_ttl] on any file, [mark_retry], [mark_dead] and
    [retry_dead] on a file whose event ids are unique (the primary key). *)
Theorem state_changes_atomic `{E : Env} id next error now ttl :
  refines (λ _, True) (mark_in_flight id) (take_txn id) ∧
  refines (λ _, True) (mark_acked id) (ack_txn id) ∧
  refines ids_unique (mark_retry id next error) (retry_txn id next error) ∧
  refines ids_unique (mark_dead id error) (dead_txn id error) ∧
  refines ids_unique (retry_dead id) (revive_txn id) ∧
  refines (λ _, True) requeue_in_flight requeue_txn ∧
  refines (λ _, True) (expire_ttl now ttl) (expire_txn now ttl).
Proof.
  split_and!; auto using mark_in_flight_refines, mark_acked_refines, mark_retry_refines,
    mark_dead_refines, retry_dead_refines, requeue_in_flight_refines, expire_ttl_refines.
Qed.

(** [C16] A crash or a failure inside any of these methods leaves a file that satisfies the database
    invariant, if the file satisfied it before. *)
Theorem crash_safe `{E : Env} lim rec id next error now ttl c :
  c_open c = true → c_txn c = None → wf (c_db c) → call_seq rec ≤ int64_max →
  wf (durable (snd (insert_pending lim rec c))) ∧
  wf (durable (snd (mark_in_flight id c))) ∧
  wf (durable (snd (mark_acked id c))) ∧
  wf (durable (snd (mark_retry id next error c))) ∧
  wf (durable (snd (mark_dead id error c))) ∧
  wf (durable (snd (retry_dead id c))) ∧
  wf (durable (snd (requeue_in_flight c))) ∧
  wf (durable (snd (expire_ttl now ttl c))).
Proof.
  intros Ho Ht Hwf Hint. pose proof (wf_ids _ Hwf) as Hids.
  split_and!; (eapply refines_invariant; [|exact Ho|exact Ht| |exact Hwf|]);
    [apply insert_pending_refines|done|intros; by eapply insert_wf
    |apply mark_in_flight_refines|done|intros; by eapply take_wf
    |apply mark_acked_refines|done|intros; by eapply ack_wf
    |apply mark_retry_refines|done|intros; by eapply retry_wf
    |apply mark_dead_refines|done|intros; by eapply dead_wf
    |apply retry_dead_refines|done|intros; by eapply revive_wf
    |apply requeue_in_flight_refines|done|intros; by eapply requeue_wf
    |apply expire_ttl_refines|done|intros; by eapply expire_wf].
Qed.

Lemma crash_safe_witness :
  c_open (conn_of db4) = true ∧
  wf (durable (snd (@mark_acked (faulty_env 5 (FaultKill true)) "e1" (conn_of db4)))).
Proof.
  split; [reflexivity|].
  apply (@crash_safe (faulty_env 5 (FaultKill true)) lim0 (event "x" "") "e1" 0 "" 0 0 (conn_of db4));
    [reflexivity|reflexivity|exact wf_db4|vm_compute; discriminate].
Defined.

(** [C9] An event is admitted exactly when there is room for it (after expired events without a
    call were reclaimed) and, if it has a call: the call is not retired, its key is not empty and is
    the key of the stream, the ordering mode is the stream's, the sequence is the stream's next
    admission number or a source sequence that is not acknowledged and not stored already, and a
    stream exists or there is room for one; if it has none, no source sequence is given. The
    sequence assigned, the row stored and the cursor raised are those of [admitted]. *)
Theorem insert_accepts_iff `{E : Env} lim rec d t a d' :
  insert_txn lim rec d t = inr (a, d') ↔
  ¬ over_capacity lim rec (reclaimed lim rec d) ∧
  admitted lim rec (admission_time rec t) (reclaimed lim rec d) a d'.
Proof. apply insert_txn_admitted. Qed.

(** [C13] What was admitted reads back: after an admission, [get] of the event finds the record that
    was admitted, pending, with no attempts and no error, the assigned sequence and the time of the
    admission (its creation time when it had one) as creation, update and, unless it was given one,
    first due time; and it finds every other event as before, except for what was reclaimed. *)
Theorem admitted_event_reads_back `{E : Env} lim rec d t a d' :
  insert_txn lim rec d t = inr (a, d') →
  let now := admission_time rec t in
  reads (get (event_id rec)) (λ d _, record <$> row_by_id (event_id rec) (outbox d)) ∧
  record <$> row_by_id (event_id rec) (outbox d') =
    Some (mkRecord (event_id rec) (topic rec) (msg_key rec) (payload rec) Pending 0
            (if decide (next_attempt_at_ms rec = 0) then now else next_attempt_at_ms rec) ""
            now now (call_uuid rec) a) ∧
  ∀ id, id ≠ event_id rec → row_by_id id (outbox d') = row_by_id id (outbox (reclaimed lim rec d)).
Proof.
  intros Htx now. split; [apply get_reads|]. apply insert_txn_admitted in Htx as [_ Ha].
  fold now in Ha. set (d1 := reclaimed lim rec d) in *. clearbody d1.
  destruct Ha as [Hc Hs Hid|k s seq -> Hc Hrt -> Hk Hk' Hm -> Hle Hcap H0 Hmx Hid Hsq]; simpl.
  - destruct (row_by_id_append (outbox d1) (pending_row rec (call_seq rec) now true) Hid) as [Hget Hrest].
    split; [|exact Hrest]. simpl in Hget. rewrite Hget. simpl. unfold record. simpl. by rewrite Hc.
  - set (seq := if decide _ then _ else _) in *.
    destruct (row_by_id_append (outbox d1)
      (pending_row rec seq now (bool_decide (seq = s_next_seq (joined_stream rec d1)))) Hid) as [Hget Hrest].
    split; [|exact Hrest]. simpl in Hget. rewrite Hget. simpl in *. unfold record. simpl.
    by rewrite (decide_False (P := call_uuid rec = "")).
Qed.

Lemma admitted_event_reads_back_witness :
  insert_txn lim0 (event "e9" "call-a") db3 0%nat = inr (2, commit_of (insert_txn lim0 (event "e9" "call-a") db3 0%nat) db3) ∧
  row_by_id "e1" (outbox (commit_of (insert_txn lim0 (event "e9" "call-a") db3 0%nat) db3)) =
  row_by_id "e1" (outbox (reclaimed lim0 (event "e9" "call-a") db3)).
Proof.
  assert (insert_txn lim0 (event "e9" "call-a") db3 0%nat =
    inr (2, commit_of (insert_txn lim0 (event "e9" "call-a") db3 0%nat) db3)) as Htx by by_eval.
  split; [exact Htx|].
  apply (admitted_event_reads_back lim0 (event "e9" "call-a") db3 0%nat 2 _ Htx).
  vm_compute. discriminate.
Defined.

(** [C18] The limits hold throughout every run that starts within them: rows, payload bytes and call
    streams never exceed [max_rows], [max_bytes] and [max_rows]. *)
Theorem limits_never_exceeded `{E : Env} lim d0 s :
  wf d0 → within lim d0 → reachable lim d0 s → within lim (db s).
Proof. apply within_reachable. Qed.

Lemma limits_never_exceeded_witness : within lim0 empty_db ∧ within lim0 db6.
Proof.
  assert (within lim0 empty_db) as Hw by (split; [vm_compute; discriminate|split; vm_compute; discriminate]).
  split; [exact Hw|]. exact (limits_never_exceeded lim0 empty_db run7 wf_empty Hw run7_reachable).
Defined.

(** [C19] The outbox refines one FIFO queue per call. Every step of the process leaves all queues as
    they are, or appends one admitted event to the queue of its call, or removes one acknowledged
    event; and in a call ordered by admission the event removed is the front of the queue. *)
Theorem steps_are_queue_operations `{E : Env} lim d0 s s' :
  wf d0 → fifo d0 → reachable lim d0 s → step lim s s' → fifo (db s') ∧ queue_step s s'.
Proof.
  intros Hwf Hfifo Hr Hstep. destruct (fifo_reachable lim d0 s Hwf Hfifo Hr).
  by apply (step_queues lim).
Qed.

Lemma steps_are_queue_operations_witness : reachable lim0 empty_db run4' ∧ queue_step run4' run5.
Proof.
  assert (reachable lim0 empty_db run4') as Hr.
  { eapply rtc_l; [exact run1_step|]. eapply rtc_l; [exact run2_step|].
    eapply rtc_l; [exact run3_step|]. eapply rtc_l; [exact run4_step|].
    eapply rtc_l; [exact run4'_step|]. apply rtc_refl. }
  split; [exact Hr|].
  refine (proj2 (steps_are_queue_operations lim0 empty_db run4' run5 wf_empty _ Hr run5_step)).
  intros k s Hs. simpl in Hs. rewrite lookup_empty in Hs. discriminate Hs.
Defined.
