(* ===== verification/Drain.v ===== *)
(** What one undisturbed turn of the worker does to the database when everything it sends is
    acknowledged: expiry, taking a batch off, acknowledging all of it. *)
From S2P Require Import Prelude Sqlite Tables Outbox OutboxSpec OutboxInv System Schedule Ages.

(** No event can be sent. *)
Definition drained (d : Db) : Prop :=
  ∀ r, r ∈ outbox d → r_state r = "pending" → ¬ deliverable d r.

(** No event is in flight. *)
Definition calm (d : Db) : Prop := ∀ r, r ∈ outbox d → r_state r ≠ "in_flight".

(** The streams of [d'] are streams of [d] in the same ordering mode. *)
Definition same_modes (d d' : Db) : Prop :=
  ∀ k s', call_streams d' !! k = Some s' → ∃ s, call_streams d !! k = Some s ∧ s_mode s' = s_mode s.

Lemma same_modes_trans d1 d2 d3 : same_modes d1 d2 → same_modes d2 d3 → same_modes d1 d3.
Proof.
  intros H12 H23 k s3 H3. destruct (H23 k s3 H3) as (s2 & H2 & ->).
  destruct (H12 k s2 H2) as (s1 & H1 & ->). eauto.
Qed.

Lemma status_modes d d' : status_step d d' → same_modes d d'.
Proof.
  intros Hst k s' Hs'. pose proof (status_streams d d' Hst k) as Hk. rewrite Hs' in Hk.
  inversion Hk as [s ? (_ & Hm & _)|]; simplify_eq. eauto.
Qed.

Section drain.
Context `{E : Env}.

(** ** Sending a batch *)

(** The events [ids] were taken off, and nothing else happened. *)
Record shipped (ids : list string) (d d' : Db) : Prop := {
  shipped_wf : wf d';
  shipped_turns : turns_left d' = turns_left d - Z.of_nat (length ids);
  shipped_status : status_step d d';
  shipped_rows r' : r' ∈ outbox d' →
    (r_event_id r' ∈ ids ∧ r_state r' = "in_flight") ∨ (r_event_id r' ∉ ids ∧ r' ∈ outbox d);
  shipped_ids id : id ∈ ids → ∃ r', r' ∈ outbox d' ∧ r_event_id r' = id ∧ r_state r' = "in_flight";
}.

Lemma shipped_nil d : wf d → shipped [] d d.
Proof.
  intros Hwf. split; [done|simpl; lia|apply status_refl| |by intros id ?%not_elem_of_nil].
  intros r' Hr'. right. split; [apply not_elem_of_nil|done].
Qed.

Lemma status_trans d1 d2 d3 : status_step d1 d2 → status_step d2 d3 → status_step d1 d3.
Proof.
  intros [I12 R12 S12] [I23 R23 S23]. split; [by rewrite I23| |].
  - intros r3 (r2 & H2 & Hs2)%R23. destruct (R12 r2 H2) as (r1 & H1 & Hs1). exists r1. split; [done|].
    destruct Hs1 as (?&?&?&?&?&?&?&?), Hs2 as (?&?&?&?&?&?&?&?). split_and!; congruence.
  - intros k. specialize (S12 k). specialize (S23 k).
    destruct S12 as [s1 s2 (?&?&?&?)|]; inversion S23 as [? s3 (?&?&?&?)|]; simplify_eq; constructor.
    split_and!; congruence.
Qed.

Lemma shipped_cons id ids d t d1 d2 :
  wf d → id ∉ ids → ready (λ _, True) d id → take_txn id d t = inr (tt, d1) → shipped ids d1 d2 →
  0 < turns_left d → shipped (id :: ids) d d2.
Proof.
  intros Hwf Hid (r & Hr & Hm & _) Htx [Hwf2 Ht2 Hst2 Hrows2 Hids2] Hturns.
  destruct (take_accepted id d r t Hwf Hr Hm Hturns) as (d1' & Htx' & Ht1). rewrite Htx in Htx'.
  injection Htx' as <-. destruct (take_txn_inv _ _ _ _ _ Htx) as (_ & Hout & Hst1).
  split; [done|simpl; lia|by eapply status_trans|..].
  - intros r' [[Hin Hfl]|[Hin Hr']]%Hrows2; [left; split; [by right|done]|].
    rewrite Hout in Hr'. apply elem_of_update_where in Hr' as (r0 & Hr0 & [[[Hid0 _] ->]|[Hno ->]]).
    + left. split; [|done]. apply elem_of_cons. by left.
    + right. split; [|done]. rewrite not_elem_of_cons. split; [|done]. intros Heq. apply Hno.
      assert (r0 = r) as ->; [|done]. apply (ids_row d); [by apply wf_ids|done..|].
      exact (eq_trans Heq (eq_sym (proj1 Hm))).
  - intros id' [->|Hin]%elem_of_cons; [|by apply Hids2].
    destruct (taken_in_flight (λ _, True) id d t tt d1 Htx) as (r1 & Hr1 & Hid1 & Hfl); [by exists r|].
    assert (r_event_id r1 ∈ (r_event_id <$> outbox d2)) as Hin
      by (rewrite (status_ids _ _ Hst2); by apply list_elem_of_fmap_2).
    apply list_elem_of_fmap in Hin as (r2 & Heq & Hr2). exists r2. split; [done|].
    destruct (Hrows2 r2 Hr2) as [[Hin _]|[_ Hin]]; [congruence|].
    assert (r2 = r1) as ->; [|done]. apply (ids_row d1); [|done..].
    by apply wf_ids, (take_wf id d t tt d1).
Qed.

(** ** Acknowledging it *)

Record cleared (ids : list string) (d d' : Db) : Prop := {
  cleared_wf : wf d';
  cleared_turns : turns_left d' = turns_left d;
  cleared_ids : r_event_id <$> outbox d ≡ₚ ids ++ (r_event_id <$> outbox d');
  cleared_rows r' : r' ∈ outbox d' → ∃ r, r ∈ outbox d ∧ r_event_id r' = r_event_id r ∧
    r_state r' = r_state r ∧ r_next_attempt_at_ms r' = r_next_attempt_at_ms r;
  cleared_modes : same_modes d d';
}.

Lemma cleared_nil d : wf d → cleared [] d d.
Proof. intros Hwf. split; [done..|eauto|by intros k s; eauto]. Qed.

(** One acknowledgement. *)
Lemma ack_cleared id d t u d' : wf d → ack_txn id d t = inr (u, d') → cleared [id] d d'.
Proof.
  intros Hwf Htx. pose proof (ack_wf id d t u d' Hwf Htx) as Hwf'.
  destruct (ack_txn_inv id d t u d' Hwf Htx) as (r & Hr & Hid & _ & Hcase).
  assert (∀ r', r' ∈ outbox d' → ∃ r0, r0 ∈ outbox d ∧ r_event_id r' = r_event_id r0 ∧
    r_state r' = r_state r0 ∧ r_next_attempt_at_ms r' = r_next_attempt_at_ms r0) as Hrows.
  { destruct Hcase as [[_ ->]|(k & s & _ & _ & _ & ->)]; intros r'.
    - intros [? _]%elem_of_delete_where. eauto.
    - intros (r0 & Hr0 & _ & [[_ ->]|[_ ->]])%elem_of_acked; eauto. }
  split; [done| |by apply (ack_ids id d t u)|done|];
    destruct Hcase as [[_ ->]|(k & s & _ & Hs & _ & ->)]; try done; [by intros k s; eauto|].
  intros k' s' Hk'. simpl in Hk'. destruct (decide (k' = k)) as [->|Hne].
  - rewrite lookup_insert_eq in Hk'. simplify_eq. eauto.
  - rewrite lookup_insert_ne in Hk' by done. eauto.
Qed.

Lemma cleared_trans ids1 ids2 d1 d2 d3 :
  cleared ids1 d1 d2 → cleared ids2 d2 d3 → cleared (ids1 ++ ids2) d1 d3.
Proof.
  intros [_ T12 I12 R12 M12] [W3 T23 I23 R23 M23].
  split; [done|congruence|by rewrite I12, I23, app_assoc| |by eapply same_modes_trans].
  intros r3 (r2 & Hr2 & ? & ? & ?)%R23. destruct (R12 r2 Hr2) as (r1 & Hr1 & ? & ? & ?).
  exists r1. split_and!; congruence.
Qed.

(** ** A whole turn *)

(** [ids]: the batch, now acknowledged. *)
Record turned (now ttl : Z) (ids : list string) (d d' : Db) : Prop := {
  turned_wf : wf d';
  turned_turns : turns_left d' = turns_left d - Z.of_nat (length ids);
  turned_ids : r_event_id <$> outbox d ≡ₚ ids ++ (r_event_id <$> outbox d');
  turned_rows r' : r' ∈ outbox d' → ∃ r, r ∈ outbox d ∧ r_event_id r' = r_event_id r ∧
    r_next_attempt_at_ms r' = r_next_attempt_at_ms r ∧
    (r_state r' = r_state r ∨ (0 < ttl ∧ r_state r' = "dead"));
  turned_modes : same_modes d d';
  turned_drained : drained d → d' = d;
  turned_progress : (∀ r, r ∈ outbox d → r_next_attempt_at_ms r ≤ now) → drained d' ∨ ids ≠ [];
}.

(** Expiry leaves a drained database alone. *)
Lemma expire_drained now ttl d t n d' :
  drained d → expire_txn now ttl d t = inr (n, d') → d' = d.
Proof.
  intros Hdr. unfold expire_txn. case_decide; intros [= _ <-]; [done|].
  unfold set_outbox. rewrite update_where_none; [by destruct d|].
  intros r Hr (Hp & _ & Hdel). by apply (Hdr r).
Qed.

Lemma expire_rows now ttl d t n d' r' :
  expire_txn now ttl d t = inr (n, d') → r' ∈ outbox d' →
  ∃ r, r ∈ outbox d ∧ r_event_id r' = r_event_id r ∧
    r_next_attempt_at_ms r' = r_next_attempt_at_ms r ∧
    (r_state r' = r_state r ∨ (0 < ttl ∧ r_state r' = "dead")).
Proof.
  unfold expire_txn. case_decide; intros [= _ <-]; [by eauto 10|]. simpl.
  intros (r & Hr & [[_ ->]|[_ ->]])%elem_of_update_where; exists r; [|by eauto 10].
  split_and!; try done. right. split; [lia|done].
Qed.

Lemma expire_status now ttl d t n d' : expire_txn now ttl d t = inr (n, d') → status_step d d'.
Proof.
  unfold expire_txn. case_decide; intros [= _ <-]; [apply status_refl|]. by apply status_update.
Qed.

Lemma expire_turns now ttl d t n d' :
  expire_txn now ttl d t = inr (n, d') → turns_left d' = turns_left d.
Proof. unfold expire_txn. case_decide; by intros [= _ <-]. Qed.

(** An empty batch means that nothing is due. *)
Lemma empty_batch_drained now d :
  due_rows now 32 d = [] → (∀ r, r ∈ outbox d → r_next_attempt_at_ms r ≤ now) → drained d.
Proof.
  intros Hnil Hnext r Hr Hp Hdel.
  destruct (due_rows_complete now 32 d r Hr) as [Hin|(_ & Hlen & _)]; [by repeat split; auto|..].
  - rewrite Hnil in Hin. by apply not_elem_of_nil in Hin.
  - rewrite Hnil in Hlen. done.
Qed.

Lemma drained_batch now d : drained d → due_rows now 32 d = [].
Proof.
  intros Hdr.
  destruct (due_rows now 32 d) as [|r l] eqn:Hl; [done|].
  assert (r ∈ due_rows now 32 d) as (Hr & Hp & _ & Hdel)%elem_of_due_rows by (rewrite Hl; left).
  by destruct (Hdr r Hr Hp).
Qed.

Lemma turn_of_steps now ttl d t n d1 d2 d3 :
  wf d → expire_txn now ttl d t = inr (n, d1) →
  let ids := r_event_id <$> due_rows now 32 d1 in
  shipped ids d1 d2 → cleared ids d2 d3 → (ids = [] → d3 = d1) →
  turned now ttl ids d d3.
Proof.
  intros Hwf Hexp ids Hship Hclear Hnil. pose proof (expire_status _ _ _ _ _ _ Hexp) as Hst1.
  split.
  - apply Hclear.
  - rewrite (cleared_turns _ _ _ Hclear), (shipped_turns _ _ _ Hship), (expire_turns _ _ _ _ _ _ Hexp). done.
  - rewrite <- (status_ids _ _ Hst1), <- (status_ids _ _ (shipped_status _ _ _ Hship)).
    apply (cleared_ids _ _ _ Hclear).
  - intros r3 Hr3. pose proof Hr3 as (r2 & Hr2 & Hid3 & Hs3 & Hn3)%(cleared_rows _ _ _ Hclear).
    destruct (shipped_rows _ _ _ Hship r2 Hr2) as [[Hin _]|[_ Hr1]].
    + (* an acknowledged event is gone *)
      exfalso. pose proof (cleared_ids _ _ _ Hclear) as Hperm.
      pose proof (wf_ids _ (shipped_wf _ _ _ Hship)) as Hnd. unfold ids_unique in Hnd.
      rewrite Hperm in Hnd. apply NoDup_app in Hnd as (_ & Hdis & _). apply (Hdis (r_event_id r2) Hin).
      rewrite <- Hid3. by apply list_elem_of_fmap_2.
    + destruct (expire_rows _ _ _ _ _ _ r2 Hexp Hr1) as (r & Hr & ? & ? & ?).
      exists r. split_and!; try congruence.
  - eapply same_modes_trans; [apply status_modes, Hst1|].
    eapply same_modes_trans; [apply status_modes, (shipped_status _ _ _ Hship)|].
    apply (cleared_modes _ _ _ Hclear).
  - intros Hdr. pose proof (expire_drained _ _ _ _ _ _ Hdr Hexp) as ->. apply Hnil.
    unfold ids. by rewrite drained_batch.
  - intros Hnext. destruct (decide (ids = [])) as [He|]; [left|by right]. rewrite (Hnil He).
    apply (empty_batch_drained now); [by apply fmap_nil_inv in He|].
    intros r1 Hr1. destruct (expire_rows _ _ _ _ _ _ r1 Hexp Hr1) as (r & Hr & _ & -> & _). by apply Hnext.
Qed.

(** ** What is left at the end *)

Lemma drained_rows d r :
  wf d → drained d → calm d → r ∈ outbox d →
  r_state r = "dead" ∨ (r_state r = "pending" ∧ ∃ k n, row_call r = Some k ∧ r_call_seq r = Some n ∧ cursor d k < n).
Proof.
  intros Hwf Hdr Hcalm Hr. destruct (wf_rows d Hwf r Hr) as (Hst & _ & Hok).
  assert (r_state r = "pending" ∨ r_state r = "in_flight" ∨ r_state r = "dead") as Hcases
    by (rewrite !elem_of_cons, elem_of_nil in Hst; naive_solver).
  destruct Hcases as [Hp|[Hf|?]]; [|by destruct (Hcalm r Hr)|by left].
  right. split; [done|]. pose proof (Hdr r Hr Hp) as Hno.
  destruct (row_call r) as [k|] eqn:Hk; [|by destruct Hno; left; apply row_call_None].
  destruct Hok as (s & n & Hs & Hn & Hb & _). exists k, n. split_and!; [done..|].
  unfold cursor. rewrite Hs. simpl. assert (n ≠ s_next_seq s); [|lia]. intros ->.
  apply Hno. apply (deliverable_head d r k); [done..|]. unfold cursor. by rewrite Hs.
Qed.

(** Without dead events and source sequences nothing is left. *)
Lemma drained_empty d :
  wf d → drained d → calm d → (∀ r, r ∈ outbox d → r_state r ≠ "dead") →
  (∀ k s, call_streams d !! k = Some s → s_mode s = "admission") → outbox d = [].
Proof.
  intros Hwf Hdr Hcalm Hdead Hmode. destruct (outbox d) as [|r l] eqn:Hout; [done|]. exfalso.
  assert (r ∈ outbox d) as Hr by (rewrite Hout; left). rewrite <- Hout in Hdead.
  destruct (drained_rows d r Hwf Hdr Hcalm Hr) as [Hd|(_ & k & n & Hk & Hn & Hlt)]; [by apply (Hdead r)|].
  destruct (wf_rows d Hwf r Hr) as (_ & _ & Hok). rewrite Hk in Hok.
  destruct Hok as (s & n' & Hs & Hn' & Hb & _). simplify_eq.
  assert (cursor d k = s_next_seq s) as Hcur by (unfold cursor; by rewrite Hs).
  destruct (wf_contiguous d Hwf k s Hs (Hmode k s Hs) (s_next_seq s)) as (r0 & Hr0 & Hk0 & Hn0); [lia|].
  destruct (drained_rows d r0 Hwf Hdr Hcalm Hr0) as [Hd|(_ & k' & n0 & ? & ? & ?)]; [by apply (Hdead r0)|].
  simplify_eq. lia.
Qed.
End drain.
