(* ===== verification/ScheduleTheorems.v ===== *)
(** What the scheduler guarantees: the batches of [fetch_due], their handling by the worker while
    callers admit events, the rotation of service between calls, deliverable ages, the queries, and
    the opening of the file. *)
From S2P Require Import Prelude Sqlite Tables Outbox OutboxSpec OutboxInv System Schedule.
From S2P Require Import Queues Capacity Ages Open Samples.

(** [C21] [fetch_due] returns, as records, a batch of the rows that may be sent: pending, due, and at
    the cursor of their call or without a call. It holds at most one row per call. The order is that
    of the last service turn of the call, then of creation, then of admission (the place in the
    table); a row that may be sent is left out only when the batch is full, and then it comes after
    every row of the batch. [fetch_due] changes nothing. *)
Theorem fetch_due_batch `{E : Env} now limit d :
  wf d →
  let rows := due_rows now limit d in
  let sendable r := r ∈ outbox d ∧ r_state r = "pending" ∧ r_next_attempt_at_ms r ≤ now ∧
    match row_call r with Some k => r_call_seq r = Some (cursor d k) | None => True end in
  let turn r := match row_call r with
    | Some k => default 0 (s_last_served_ms <$> call_streams d !! k)
    | None => 0
    end in
  let before r1 r2 := turn r1 < turn r2 ∨ (turn r1 = turn r2 ∧
    (r_created_at_ms r1 < r_created_at_ms r2 ∨ (r_created_at_ms r1 = r_created_at_ms r2 ∧
     ∃ i j, (i < j)%nat ∧ outbox d !! i = Some r1 ∧ outbox d !! j = Some r2))) in
  reads (fetch_due now limit) (λ d _, record <$> due_rows now limit d) ∧
  (∀ r, r ∈ rows → sendable r) ∧
  (∀ r1 r2 k, r1 ∈ rows → r2 ∈ rows → row_call r1 = Some k → row_call r2 = Some k → r1 = r2) ∧
  NoDup (r_event_id <$> rows) ∧ StronglySorted before rows ∧
  (∀ r, sendable r → r ∈ rows ∨
     (0 ≤ limit ∧ Z.of_nat (length rows) = limit ∧ ∀ r', r' ∈ rows → before r' r)).
Proof.
  intros Hwf rows sendable turn before.
  assert (∀ r, r ∈ outbox d → due now d r ↔ sendable r) as Hdue.
  { intros r Hr. unfold due, sendable. destruct (row_call r) as [k|] eqn:Hk.
    - rewrite (deliverable_head d r k) by done. tauto.
    - split; [tauto|]. intros (? & ? & ? & _). split_and!; try done. left. by apply row_call_None in Hk. }
  split; [apply fetch_due_reads|]. split_and!.
  - intros r [Hr Hd]%elem_of_due_rows. by apply Hdue.
  - intros r1 r2 k (H1 & _ & _ & D1)%elem_of_due_rows (H2 & _ & _ & D2)%elem_of_due_rows K1 K2.
    by apply (deliverable_unique d r1 r2 k).
  - by apply due_rows_ids.
  - by apply due_rows_order.
  - intros r Hr. apply (due_rows_left_out now limit d r Hwf); [apply Hr|]. apply Hdue; [apply Hr|exact Hr].
Qed.

Lemma fetch_due_batch_witness :
  r_event_id <$> due_rows 2000 32 db3 = ["e1"; "e3"] ∧
  NoDup (r_event_id <$> due_rows 2000 32 db3).
Proof.
  split; [by_eval|]. exact (proj1 (proj2 (proj2 (proj2 (fetch_due_batch 2000 32 db3 wf_db3))))).
Defined.

(** [C20] A batch can always be worked off. Take the rows of a batch off in order, with any handling
    of each (handed to the producer, rescheduled, dead-lettered), while other threads admit any
    events in between: the outbox accepts every operation, so the worker never stops on a row that
    somebody else moved; the only bound is the number of service turns left. *)
Theorem batch_always_accepted `{E : Env} lim now limit d acts t :
  wf d → worked acts = r_event_id <$> due_rows now limit d →
  Z.of_nat (length (due_rows now limit d)) ≤ turns_left d →
  (∀ rec, Enqueue rec ∈ acts → call_seq rec ≤ int64_max) →
  ∃ d', run_batch lim acts d t = inr d' ∧ wf d'.
Proof.
  intros Hwf Hw Ht Hint. apply (run_batch_accepted lim (λ _, True)); try done.
  - rewrite Hw. by apply due_rows_ids.
  - rewrite Hw. intros id (r & -> & Hr)%list_elem_of_fmap. by eapply due_ready.
  - by rewrite Hw, length_fmap.
Qed.

Definition sample_batch : list Act :=
  [Work "e1" (Retried 9000 "timed out"); Enqueue (event "e4" "call-b"); Work "e3" (Buried "too large")].

Lemma batch_always_accepted_witness :
  worked sample_batch = r_event_id <$> due_rows 2000 32 db3 ∧
  ∃ d', run_batch lim0 sample_batch db3 7%nat = inr d' ∧ wf d'.
Proof.
  assert (worked sample_batch = r_event_id <$> due_rows 2000 32 db3) as Hw by by_eval.
  split; [exact Hw|]. apply (batch_always_accepted lim0 2000 32 db3 sample_batch 7%nat wf_db3 Hw).
  - vm_compute; discriminate.
  - intros rec Hrec. unfold sample_batch in Hrec. set_unfold.
    destruct Hrec as [Hrec|[Hrec|[Hrec|[]]]]; inversion Hrec. vm_compute; discriminate.
Defined.

(** [C22] Service rotates between calls. After a row of call [k] was taken off and until the next
    row is taken off, whatever other steps the process makes, every due row of another call and every
    due row without a call is fetched in the same batch as a row of [k], and before it. *)
Theorem served_call_goes_last `{E : Env} lim id d t u d' ch h r k s now limit r1 r2 :
  wf d → take_txn id d t = inr (u, d') → r ∈ outbox d' → r_event_id r = id → row_call r = Some k →
  rtc (step lim) (mkSys d' ch h) s → turn_of (db s) = turn_of d' →
  r1 ∈ due_rows now limit (db s) → row_call r1 = Some k →
  r2 ∈ outbox (db s) → due now (db s) r2 → row_call r2 ≠ Some k →
  ∃ l1 l2, due_rows now limit (db s) = l1 ++ r1 :: l2 ∧ r2 ∈ l1.
Proof.
  intros Hwf Htx Hr Hid Hk Hsteps Hturn H1 Hk1 H2 Hdue Hk2.
  destruct (turns_monotone lim _ _ (take_wf _ _ _ _ _ Hwf Htx : wf (db (mkSys d' ch h))) Hsteps)
    as (Hwf' & _ & Hlast).
  apply batch_order; [|done..].
  apply (served_last_order _ k); [done| |done..]. apply Hlast; [done|].
  by apply (take_served_last id d t u d' r k).
Qed.

Lemma served_call_goes_last_witness :
  ∃ l1 l2, due_rows 2000 32 db5 = l1 ++ nth_row 0 db5 :: l2 ∧ nth_row 1 db5 ∈ l1.
Proof.
  apply (served_call_goes_last lim0 "e1" db3 5%nat tt db4 [] (hist run3) (nth_row 0 db4) call_a run5
           2000 32 (nth_row 0 db5) (nth_row 1 db5) wf_db3); try by_eval.
  - eapply rtc_l; [exact run4'_step|]. eapply rtc_l; [exact run5_step|]. apply rtc_refl.
  - split; [by_eval|]. split; [vm_compute; discriminate|]. left. vm_compute; reflexivity.
  - intros Heq. vm_compute in Heq. discriminate Heq.
Defined.

(** [C24] Expiry by age is exact. On a well-formed file, [expire_ttl] with a positive limit marks dead,
    with the error "expired_ttl" and the time given, exactly the pending rows that have been
    deliverable (at the cursor of their call, or without a call) for more than the limit; it returns
    their number and changes nothing else of any row. So a row that waits behind an unacknowledged
    predecessor never expires. With a limit of zero or less nothing expires. When SQLite fails,
    nothing has changed; a death of the process leaves the old file or the complete expiry. *)
Theorem expiry_exact `{E : Env} now ttl c :
  c_open c = true → c_txn c = None → wf (c_db c) →
  let d := c_db c in
  let expires r := 0 < ttl ∧ r_state r = "pending" ∧
    (∃ since, r_eligible_at_ms r = Some since ∧ ttl < now - since) ∧
    match row_call r with Some k => r_call_seq r = Some (cursor d k) | None => True end in
  let buried r := mkRow (r_event_id r) (r_topic r) (r_msg_key r) (r_payload r) "dead" (r_attempts r)
    (r_next_attempt_at_ms r) (Some "expired_ttl") (r_created_at_ms r) now (r_call_uuid r)
    (r_call_seq r) (r_eligible_at_ms r) in
  let expiry n d' := ∃ dead rows,
    dead `sublist_of` outbox d ∧ (∀ r, r ∈ outbox d → r ∈ dead ↔ expires r) ∧
    n = Z.of_nat (length dead) ∧ d' = set_outbox (λ _, rows) d ∧
    Forall2 (λ r r', (expires r ∧ r' = buried r) ∨ (¬ expires r ∧ r' = r)) (outbox d) rows in
  wp (expire_ttl now ttl)
    (λ res c', match res with
       | inr n => expiry n (c_db c')
       | inl _ => c_db c' = d ∧ ¬ quiet_from (c_io c)
       end)
    (λ _ _, False) (λ c', durable c' = d ∨ ∃ n, expiry n (durable c')) c.
Proof.
  intros Ho Ht Hwf d expires buried expiry.
  assert (∀ t n d', expire_txn now ttl d t = inr (n, d') → expiry n d') as Hexp.
  { intros t n d' Htx. destruct (expire_txn_rows now ttl d t n d' Hwf Htx)
      as (dead & rows & Hsub & Hdead & Hn & Hd & Hrows).
    exists dead, rows. split_and!; [done|exact Hdead|done|done|exact Hrows]. }
  eapply wp_mono; [exact (expire_ttl_refines now ttl c Ho Ht I)|..].
  - intros [e|n] c' (_ & _ & Hres); [|by eapply Hexp]. destruct Hres as [Hd Hq]. split; [done|].
    intros Hquiet. specialize (Hq Hquiet). unfold expire_txn in Hq. by case_decide.
  - done.
  - intros c' [?|[n Hn]]; [by left|right]. eauto.
Qed.

Lemma expiry_exact_witness :
  ∃ dead, dead `sublist_of` outbox db3 ∧ 2 = Z.of_nat (length dead) ∧ nth_row 1 db3 ∉ dead.
Proof.
  destruct (wp_returns _ _ _ _ _ (inr 2)
    (expiry_exact (E := quiet_env) 2000 600 (conn_of db3) eq_refl eq_refl wf_db3) ltac:(vm_compute; reflexivity))
    as (dead & rows & Hsub & Hdead & Hn & _).
  exists dead. split; [exact Hsub|]. split; [exact Hn|]. intros Hin.
  destruct (proj1 (Hdead (nth_row 1 db3) ltac:(by_eval)) Hin) as (_ & _ & _ & Hhead).
  vm_compute in Hhead. discriminate Hhead.
Defined.

(** [C25] A batch fetched right after an expiry contains no row whose deliverable age is over the
    limit: every row of it carries the time since when it was deliverable. *)
Theorem fetch_after_expiry `{E : Env} now ttl d t n d' limit r :
  wf d → 0 < ttl → expire_txn now ttl d t = inr (n, d') → r ∈ due_rows now limit d' →
  ∃ since, r_eligible_at_ms r = Some since ∧ now - since ≤ ttl.
Proof. apply fetched_within_age. Qed.

Definition db_aged : Db := commit_of (expire_txn 2000 1600 db3 0%nat) db3.
Lemma fetch_after_expiry_witness :
  ∃ since, r_eligible_at_ms (nth_row 0 db_aged) = Some since ∧ 2000 - since ≤ 1600.
Proof.
  apply (fetch_after_expiry 2000 1600 db3 0%nat 0 db_aged 32); [exact wf_db3|reflexivity|by_eval..].
Defined.

(** [C26] Waiting does not count: when the acknowledgement of the event with sequence [n] makes its
    successor the head of the call, the successor's age starts at the time of that acknowledgement,
    so it cannot expire before [ttl] has passed from then. *)
Theorem successor_age_starts_at_ack `{E : Env} d id t u d' r r' k n now ttl :
  wf d → ack_txn id d t = inr (u, d') → r ∈ outbox d → r_event_id r = id →
  row_call r = Some k → r_call_seq r = Some n →
  r' ∈ outbox d' → row_call r' = Some k → r_call_seq r' = Some (n + 1) →
  r_eligible_at_ms r' = Some (clock t) ∧ deliverable d' r' ∧
  (now ≤ clock t + ttl → ¬ overage now ttl d' r').
Proof.
  intros Hwf Htx Hr Hid Hk Hn Hr' Hk' Hn'.
  destruct (successor_age d id t u d' r r' k n) as [He Hd]; [done..|].
  split_and!; [done..|]. intros Hnow (_ & Hage & _). rewrite He in Hage. lia.
Qed.

Lemma successor_age_starts_at_ack_witness : ¬ overage 121000 120000 db5 (nth_row 0 db5).
Proof.
  apply (successor_age_starts_at_ack db4 "e1" 6%nat tt db5 (nth_row 0 db4) (nth_row 0 db5) call_a 0
           121000 120000 wf_db4); try by_eval.
  vm_compute; discriminate.
Defined.



(** [C38] [stats] partitions the table: on a well-formed file its three counts are the numbers of
    rows in each state and add up to all rows, and [total_bytes] is the size of all payloads. *)
Theorem stats_partition `{E : Env} d :
  wf d →
  reads stats (λ d _, foldl add_group (mkStats 0 0 0 0) (state_groups d)) ∧
  let st := foldl add_group (mkStats 0 0 0 0) (state_groups d) in
  st = mkStats (Z.of_nat (length (in_state "pending" (outbox d))))
         (Z.of_nat (length (in_state "in_flight" (outbox d))))
         (Z.of_nat (length (in_state "dead" (outbox d)))) (payload_bytes (outbox d)) ∧
  pending st + in_flight st + dead st = row_count d.
Proof.
  intros Hwf. assert (∀ r, r ∈ outbox d → r_state r ∈ ["pending"; "in_flight"; "dead"]) as Hst
    by (intros r Hr; apply (wf_rows d Hwf r Hr)).
  split; [apply stats_reads|]. cbv zeta. rewrite stats_of by done. split; [done|].
  by apply in_state_partition.
Qed.

Lemma stats_partition_witness :
  foldl add_group (mkStats 0 0 0 0) (state_groups db4) = mkStats 2 1 0 6.
Proof.
  pose proof (proj1 (proj2 (stats_partition db4 wf_db4))) as Hst. cbv zeta in Hst. rewrite Hst.
  vm_compute; reflexivity.
Defined.

(** [C39] The queries [get] and [oldest_pending_age_ms] answer from the rows and change nothing; the
    age is the largest age of a pending row, at least 0. *)
Theorem queries_read_only `{E : Env} id now d :
  reads (get id) (λ d _, record <$> row_by_id id (outbox d)) ∧
  ∃ age : Db → Z,
    reads (oldest_pending_age_ms now) (λ d _, age d) ∧ 0 ≤ age d ∧
    (∀ r, r ∈ outbox d → r_state r = "pending" → now - r_created_at_ms r ≤ age d) ∧
    (age d = 0 ∨ ∃ r, r ∈ outbox d ∧ r_state r = "pending" ∧ age d = now - r_created_at_ms r).
Proof.
  split; [apply get_reads|]. eexists. split; [apply oldest_pending_age_ms_reads|].
  apply oldest_age_spec.
Qed.

(** On a connection that is not open, every method that changes state refuses with "db closed"
    and touches nothing ([expire_ttl] only when its limit is positive); the queries answer empty. *)
Theorem closed_outbox_refuses `{E : Env} lim rec id next error now ttl c :
  c_open c = false → 0 < ttl →
  insert_pending lim rec c = (Ok (inl "db closed"), c) ∧
  mark_in_flight id c = (Ok (inl "db closed"), c) ∧ mark_acked id c = (Ok (inl "db closed"), c) ∧
  mark_retry id next error c = (Ok (inl "db closed"), c) ∧
  mark_dead id error c = (Ok (inl "db closed"), c) ∧ retry_dead id c = (Ok (inl "db closed"), c) ∧
  requeue_in_flight c = (Ok (inl "db closed"), c) ∧ expire_ttl now ttl c = (Ok (inl "db closed"), c) ∧
  fetch_due now 32 c = (Ok [], c) ∧ get id c = (Ok None, c) ∧
  stats c = (Ok (mkStats 0 0 0 0), c) ∧ oldest_pending_age_ms now c = (Ok 0, c).
Proof.
  intros Ho Httl. unfold expire_ttl. rewrite decide_False by lia.
  split_and!; try (by apply closed_transaction); try (by apply closed_statement);
    unfold fetch_due, get, stats, oldest_pending_age_ms; by rewrite Ho.
Qed.

Lemma closed_outbox_refuses_witness :
  mark_acked "e1" (mkConn false db4 None 0 0 0) = (Ok (inl "db closed"), mkConn false db4 None 0 0 0).
Proof.
  apply (closed_outbox_refuses lim0 (event "x" "") "e1" 0 "" 0 1 (mkConn false db4 None 0 0 0));
    reflexivity.
Defined.

(** [C28] [open] is atomic. Called on a closed outbox, it either returns true with the lock held, the
    connection open and exactly the migration that [open_txn] describes committed; or false with the
    file as it was, the connection closed and the lock released (without the lock it never touches
    the file); no exception escapes; and if the process dies in it, the file is the old one or the
    completely migrated one. *)
Theorem open_atomic `{E : Env} flock_ok h :
  c_open (h_conn h) = false → c_txn (h_conn h) = None → file_ok (c_db (h_conn h)) →
  wp (open flock_ok) (opened flock_ok h) (λ _ _, False)
    (λ h', durable (h_conn h') = c_db (h_conn h) ∨
           open_txn (c_db (h_conn h)) (c_tick (h_conn h)) = inr (tt, durable (h_conn h'))) h.
Proof. apply open_refines. Qed.

Definition closed_handle (d : Db) : Handle := mkHandle (mkConn false d None 0 0 0) false.
Lemma open_atomic_witness :
  wp (@open quiet_env true) (@opened quiet_env true (closed_handle db4)) (λ _ _, False)
    (λ h', durable (h_conn h') = db4 ∨ @open_txn quiet_env db4 0%nat = inr (tt, durable (h_conn h')))
    (closed_handle db4).
Proof.
  apply (@open_atomic quiet_env true (closed_handle db4)); [reflexivity|reflexivity|].
  intros Hno. vm_compute in Hno. discriminate Hno.
Defined.

(** [C30] A file this version wrote is opened unchanged: nothing is re-stamped, no sequence or turn is
    invented, and opening it again and again leaves it as it is. *)
Theorem reopen_unchanged `{E : Env} d t : wf d → current_schema d → open_txn d t = inr (tt, d).
Proof. apply open_txn_wf. Qed.

Lemma reopen_unchanged_witness : current_schema db4 ∧ open_txn db4 0%nat = inr (tt, db4).
Proof.
  assert (current_schema db4) as Hs by (split; [reflexivity|repeat split]).
  split; [exact Hs|]. exact (reopen_unchanged db4 0%nat wf_db4 Hs).
Defined.

(** [C29] What [open] accepts it makes schedulable, and invents nothing: the schema is current, the
    scheduler row exists, streams and retired calls are kept, every row keeps its place and all its
    columns except that a deliverable row without an age gets its creation time, every deliverable
    row has an age, and every row of a call has a sequence and a stream. *)
Theorem open_migrates `{E : Env} d t u d' :
  open_txn d t = inr (u, d') →
  current_schema d' ∧ is_Some (order_scheduler d') ∧
  call_streams d' = call_streams d ∧ retired_calls d' = retired_calls d ∧
  Forall2 (λ r r', r' = r ∨ (deliverable d r ∧ r' = with_eligible (r_created_at_ms r) r))
    (outbox d) (outbox d') ∧
  (∀ r', r' ∈ outbox d' → deliverable d' r' → is_Some (r_eligible_at_ms r')) ∧
  (∀ r', r' ∈ outbox d' → ungrouped r' ∨ is_Some (r_call_seq r') ∧ is_Some (stream_of d' r')).
Proof. apply open_txn_inv. Qed.

(** A file of the previous schema: no ages, no scheduler row. *)
Definition old_db : Db :=
  mkDb 4 true true false true (update_where (λ _, True) (λ r,
    mkRow (r_event_id r) (r_topic r) (r_msg_key r) (r_payload r) (r_state r) (r_attempts r)
      (r_next_attempt_at_ms r) (r_last_error r) (r_created_at_ms r) (r_updated_at_ms r)
      (r_call_uuid r) (r_call_seq r) None) (outbox db3)) (call_streams db3) ∅ None.
Lemma open_migrates_witness :
  is_Some (order_scheduler (commit_of (open_txn old_db 0%nat) old_db)) ∧
  r_eligible_at_ms <$> outbox (commit_of (open_txn old_db 0%nat) old_db) = [Some 500; None; Some 500].
Proof.
  split; [|by_eval].
  exact (proj1 (proj2 (open_migrates old_db 0%nat tt (commit_of (open_txn old_db 0%nat) old_db) ltac:(by_eval)))).
Defined.
