(* ===== verification/EventId.v ===== *)
(** [make_event_id] (src/kafka_outbox.cpp): a version-4 UUID printed from two 64-bit random words. *)
From Stdlib Require Import Ascii.
From S2P Require Import Prelude.

(** ** Hexadecimal fields *)

Definition hex_digit (n : Z) : Ascii.ascii :=
  Ascii.ascii_of_nat (Z.to_nat (if decide (n < 10) then 48 + n else 87 + n)).

(** The conversion [%0wx] of an argument below [16^w]: exactly [w] lower-case digits. *)
Fixpoint hex (w : nat) (n : Z) : string :=
  match w with
  | O => ""
  | S w' => hex w' (n / 16) +:+ String (hex_digit (n mod 16)) ""
  end.

(** The five fields of the format ["%08x-%04x-4%03x-%04x-%012llx"]. *)
Definition field1 (a : Z) : Z := Z.shiftr a 32.
Definition field2 (a : Z) : Z := Z.land (Z.shiftr a 16) 65535.
Definition field3 (a : Z) : Z := Z.land a 4095.
Definition field4 (b : Z) : Z := Z.lor 32768 (Z.land (Z.shiftr b 48) 16383).
Definition field5 (b : Z) : Z := Z.land b 281474976710655.

Definition make_event_id (a b : Z) : string :=
  hex 8 (field1 a) +:+ "-" +:+ hex 4 (field2 a) +:+ "-4" +:+ hex 3 (field3 a) +:+ "-" +:+
  hex 4 (field4 b) +:+ "-" +:+ hex 12 (field5 b).

Definition in_uint64 (n : Z) : Prop := 0 ≤ n < 18446744073709551616.

(** ** Digits determine the number *)

Lemma append_length s1 s2 : String.length (s1 +:+ s2) = (String.length s1 + String.length s2)%nat.
Proof. induction s1 as [|c s1 IH]; [done|]. simpl. by rewrite IH. Qed.

Lemma hex_length w n : String.length (hex w n) = w.
Proof.
  revert n. induction w as [|w IH]; intros n; [done|]. cbn [hex].
  rewrite append_length, IH. simpl. lia.
Qed.

Lemma hex_digit_inj n m : 0 ≤ n < 16 → 0 ≤ m < 16 → hex_digit n = hex_digit m → n = m.
Proof.
  intros Hn Hm Heq. apply (f_equal Ascii.nat_of_ascii) in Heq. unfold hex_digit in Heq.
  destruct (decide (n < 10)), (decide (m < 10)); rewrite !Ascii.nat_ascii_embedding in Heq; lia.
Qed.

Lemma append_split s1 s2 t1 t2 :
  String.length s1 = String.length t1 → s1 +:+ s2 = t1 +:+ t2 → s1 = t1 ∧ s2 = t2.
Proof.
  revert t1. induction s1 as [|c s1 IH]; intros [|c' t1] Hl; try done; simpl in *.
  intros [= -> Heq]. destruct (IH t1) as [-> ->]; auto.
Qed.

Lemma hex_inj w n m :
  0 ≤ n < 16 ^ Z.of_nat w → 0 ≤ m < 16 ^ Z.of_nat w → hex w n = hex w m → n = m.
Proof.
  revert n m. induction w as [|w IH]; intros n m Hn Hm Heq; [simpl in *; lia|].
  rewrite Nat2Z.inj_succ, Z.pow_succ_r in Hn, Hm by lia. cbn [hex] in Heq.
  apply append_split in Heq as [Hhi Hlo]; [|by rewrite !hex_length].
  apply IH in Hhi; [|split; [apply Z.div_pos|apply Z.div_lt_upper_bound]; lia..].
  assert (n mod 16 = m mod 16) as Hmod.
  { injection Hlo as Hlo. apply hex_digit_inj; [apply Z.mod_pos_bound; lia..|done]. }
  rewrite (Z.div_mod n 16), (Z.div_mod m 16) by lia. congruence.
Qed.

(** ** The fields fit their widths *)

Lemma land_ones_bound x n : 0 ≤ n → 0 ≤ Z.land x (Z.ones n) < 2 ^ n.
Proof. intros Hn. rewrite Z.land_ones by done. apply Z.mod_pos_bound. lia. Qed.

Lemma field1_bound a : in_uint64 a → 0 ≤ field1 a < 16 ^ 8.
Proof.
  intros [H0 H1]. unfold field1. rewrite Z.shiftr_div_pow2 by lia.
  split; [apply Z.div_pos; lia|apply Z.div_lt_upper_bound; lia].
Qed.
Lemma field2_bound a : 0 ≤ field2 a < 16 ^ 4.
Proof. apply (land_ones_bound _ 16). lia. Qed.
Lemma field3_bound a : 0 ≤ field3 a < 16 ^ 3.
Proof. apply (land_ones_bound _ 12). lia. Qed.
Lemma field5_bound b : 0 ≤ field5 b < 16 ^ 12.
Proof. apply (land_ones_bound _ 48). lia. Qed.

(** The variant bits: the fourth field is 8000 plus 14 random bits. *)
Lemma field4_value b : field4 b = 32768 + Z.land (Z.shiftr b 48) 16383.
Proof.
  unfold field4. set (x := Z.land _ 16383) in *. rewrite <- Z.add_nocarry_lor; [done|].
  apply Z.bits_inj'. intros n Hn. rewrite Z.land_spec, Z.bits_0. change 32768 with (2 ^ 15).
  rewrite Z.pow2_bits_eqb by lia. destruct (Z.eqb_spec 15 n) as [<-|]; [|reflexivity].
  unfold x. rewrite Z.land_spec. change 16383 with (Z.ones 14).
  rewrite (Z.ones_spec_high 14 15) by lia.
  rewrite andb_false_r. reflexivity.
Qed.
Lemma field4_bound b : 32768 ≤ field4 b < 49152.
Proof.
  rewrite field4_value. pose proof (land_ones_bound (Z.shiftr b 48) 14 ltac:(lia)) as Hb.
  change (Z.ones 14) with 16383 in Hb. lia.
Qed.

(** An id determines the 122 random bits that it is made from. *)
Lemma make_event_id_fields a b a' b' :
  in_uint64 a → in_uint64 a' → make_event_id a b = make_event_id a' b' →
  field1 a = field1 a' ∧ field2 a = field2 a' ∧ field3 a = field3 a' ∧ field4 b = field4 b' ∧
  field5 b = field5 b'.
Proof.
  intros Ha Ha' Heq. unfold make_event_id in Heq.
  apply append_split in Heq as [H1 Heq]; [|by rewrite !hex_length];
    apply append_split in Heq as [_ Heq]; [|done].
  apply append_split in Heq as [H2 Heq]; [|by rewrite !hex_length];
    apply append_split in Heq as [_ Heq]; [|done].
  apply append_split in Heq as [H3 Heq]; [|by rewrite !hex_length];
    apply append_split in Heq as [_ Heq]; [|done].
  apply append_split in Heq as [H4 Heq]; [|by rewrite !hex_length];
    apply append_split in Heq as [_ H5]; [|done].
  pose proof (field4_bound b). pose proof (field4_bound b').
  split_and!; [apply (hex_inj 8)|apply (hex_inj 4)|apply (hex_inj 3)|apply (hex_inj 4)
              |apply (hex_inj 12)]; auto using field1_bound, field2_bound, field3_bound, field5_bound;
    simpl; lia.
Qed.

Lemma make_event_id_length a b : String.length (make_event_id a b) = 36%nat.
Proof. unfold make_event_id. by rewrite !append_length, !hex_length. Qed.

(** The version digit. *)
Lemma get_append s1 s2 n k :
  String.length s1 = k → String.get (n + k) (s1 +:+ s2) = String.get n s2.
Proof. intros <-. symmetry. apply String.append_correct2. Qed.

Lemma make_event_id_version a b : String.get 14 (make_event_id a b) = Some "4"%char.
Proof.
  unfold make_event_id. rewrite (get_append _ _ 6 8) by apply hex_length.
  rewrite (get_append _ _ 5 1) by done. rewrite (get_append _ _ 1 4) by apply hex_length. done.
Qed.

(** *** The bits in the fields *)

Lemma testbit_land_ones x n i : 0 ≤ i < n → Z.testbit (Z.land x (Z.ones n)) i = Z.testbit x i.
Proof. intros Hi. by rewrite Z.land_spec, Z.ones_spec_low, andb_true_r. Qed.

Lemma land_ones_ext x y n :
  0 ≤ n → (∀ i, 0 ≤ i < n → Z.testbit x i = Z.testbit y i) → Z.land x (Z.ones n) = Z.land y (Z.ones n).
Proof.
  intros Hn Hxy. apply Z.bits_inj'. intros i Hi. rewrite !Z.land_spec.
  destruct (decide (i < n)); [by rewrite Hxy by lia|].
  rewrite Z.ones_spec_high by lia. by rewrite !andb_false_r.
Qed.

Lemma uint64_high a i : in_uint64 a → 64 ≤ i → Z.testbit a i = false.
Proof.
  intros [H0 H1] Hi. destruct (decide (a = 0)) as [->|]; [apply Z.bits_0|].
  apply Z.bits_above_log2; [done|]. enough (Z.log2 a < 64) by lia. apply Z.log2_lt_pow2; lia.
Qed.

Lemma make_event_id_bits a b a' b' :
  in_uint64 a → in_uint64 a' → make_event_id a b = make_event_id a' b' →
  (∀ i, 0 ≤ i < 64 → (i < 12 ∨ 16 ≤ i) → Z.testbit a i = Z.testbit a' i) ∧
  (∀ i, 0 ≤ i < 62 → Z.testbit b i = Z.testbit b' i).
Proof.
  intros Ha Ha' Heq. destruct (make_event_id_fields a b a' b' Ha Ha' Heq) as (H1 & H2 & H3 & H4 & H5).
  rewrite !field4_value in H4. apply Z.add_cancel_l in H4.
  assert (∀ x y n i, Z.land x (Z.ones n) = Z.land y (Z.ones n) → 0 ≤ i < n →
    Z.testbit x i = Z.testbit y i) as Hland.
  { intros x y n i He Hi. rewrite <- (testbit_land_ones x n i), He by done. by apply testbit_land_ones. }
  split.
  - intros i Hi Hc. destruct (decide (i < 12)); [apply (Hland a a' 12 i H3); lia|].
    destruct (decide (i < 32)).
    + pose proof (Hland _ _ 16 (i - 16) H2 ltac:(lia)) as Hb. rewrite !Z.shiftr_spec in Hb by lia.
      by replace (i - 16 + 16) with i in Hb by lia.
    + apply (f_equal (λ z, Z.testbit z (i - 32))) in H1. unfold field1 in H1.
      rewrite !Z.shiftr_spec in H1 by lia. by replace (i - 32 + 32) with i in H1 by lia.
  - intros i Hi. destruct (decide (i < 48)); [apply (Hland b b' 48 i H5); lia|].
    pose proof (Hland _ _ 14 (i - 48) H4 ltac:(lia)) as Hb. rewrite !Z.shiftr_spec in Hb by lia.
    by replace (i - 48 + 48) with i in Hb by lia.
Qed.

Lemma make_event_id_same a b a' b' :
  in_uint64 a → in_uint64 a' →
  (∀ i, 0 ≤ i < 64 → (i < 12 ∨ 16 ≤ i) → Z.testbit a i = Z.testbit a' i) →
  (∀ i, 0 ≤ i < 62 → Z.testbit b i = Z.testbit b' i) → make_event_id a b = make_event_id a' b'.
Proof.
  intros Ha Ha' Hab Hbb. unfold make_event_id.
  assert (field1 a = field1 a') as ->.
  { apply Z.bits_inj'. intros i Hi. unfold field1. rewrite !Z.shiftr_spec by done.
    destruct (decide (i < 32)); [apply Hab; lia|]. by rewrite !uint64_high by (done || lia). }
  assert (field2 a = field2 a') as ->.
  { apply (land_ones_ext _ _ 16); [lia|]. intros i Hi. rewrite !Z.shiftr_spec by lia. apply Hab; lia. }
  assert (field3 a = field3 a') as -> by (apply (land_ones_ext _ _ 12); [lia|]; intros i Hi; apply Hab; lia).
  assert (field4 b = field4 b') as ->.
  { unfold field4. f_equal. apply (land_ones_ext _ _ 14); [lia|]. intros i Hi.
    rewrite !Z.shiftr_spec by lia. apply Hbb; lia. }
  assert (field5 b = field5 b') as ->; [|done].
  apply (land_ones_ext _ _ 48); [lia|]. intros i Hi. apply Hbb; lia.
Qed.
