(* ===== verification/BoundedQueue.v ===== *)
(** [BoundedQueue] (src/include/bounded_queue.hpp): the bounded FIFO of captured events. Its mutex
    makes each operation one step, so an execution is a sequence of operations of any threads. *)
From S2P Require Import Prelude.

Record QueuedEvent := mkQueued {
  qe_event_id : string;
  qe_topic : string;
  qe_msg_key : string;
  qe_payload : string;
  qe_call_uuid : string;
  qe_enqueued_at_ms : Z;
}.
#[export] Instance QueuedEvent_eq_dec : EqDecision QueuedEvent.
Proof. solve_decision. Defined.

(** [max_], [q_] and [rejected_]. *)
Record BQueue := mkBQueue { bq_max : Z; bq_events : list QueuedEvent; bq_rejected : Z }.

Definition uint64_modulus : Z := 18446744073709551616.

Definition new_queue (max_depth : Z) : BQueue := mkBQueue max_depth [] 0.

Definition size (b : BQueue) : Z := Z.of_nat (length (bq_events b)).
Definition rejected (b : BQueue) : Z := bq_rejected b.

Definition try_push (ev : QueuedEvent) (b : BQueue) : bool * BQueue :=
  if decide (bq_max b ≤ size b) then
    (false, mkBQueue (bq_max b) (bq_events b) ((bq_rejected b + 1) mod uint64_modulus))
  else (true, mkBQueue (bq_max b) (bq_events b ++ [ev]) (bq_rejected b)).

(** [pop_wait_for_ms], from the moment the wait ends: [wait_for] returns the value of its predicate
    under the lock, by notification or by timeout. *)
Definition pop_wait_for_ms (stopping : bool) (b : BQueue) : option QueuedEvent * BQueue :=
  if (negb (stopping || negb (bool_decide (bq_events b = []))))%bool then (None, b)
  else match bq_events b with
       | [] => (None, b)
       | ev :: rest => (Some ev, mkBQueue (bq_max b) rest (bq_rejected b))
       end.

(** ** Executions *)

Inductive QOp := Push (ev : QueuedEvent) | Pop (stopping : bool).

(** What happened so far: the accepted events, the refused ones, the popped ones. *)
Record Trace := mkTrace {
  accepted : list QueuedEvent; refused : list QueuedEvent; popped : list QueuedEvent }.

Definition run_op (op : QOp) (s : BQueue * Trace) : BQueue * Trace :=
  let '(b, t) := s in
  match op with
  | Push ev =>
      match try_push ev b with
      | (true, b') => (b', mkTrace (accepted t ++ [ev]) (refused t) (popped t))
      | (false, b') => (b', mkTrace (accepted t) (refused t ++ [ev]) (popped t))
      end
  | Pop stopping =>
      match pop_wait_for_ms stopping b with
      | (Some ev, b') => (b', mkTrace (accepted t) (refused t) (popped t ++ [ev]))
      | (None, b') => (b', t)
      end
  end.

Definition run_ops (max_depth : Z) (ops : list QOp) : BQueue * Trace :=
  foldl (λ s op, run_op op s) (new_queue max_depth, mkTrace [] [] []) ops.

(** ** Invariant *)

Definition queue_ok (max_depth : Z) (s : BQueue * Trace) : Prop :=
  let '(b, t) := s in
  bq_max b = max_depth ∧ popped t ++ bq_events b = accepted t ∧ size b ≤ Z.max 0 max_depth ∧
  rejected b = Z.of_nat (length (refused t)) mod uint64_modulus.

Lemma run_op_ok max_depth op s : queue_ok max_depth s → queue_ok max_depth (run_op op s).
Proof.
  destruct s as [b t]. intros (Hm & Hf & Hs & Hr). destruct op as [ev|stopping]; simpl.
  - unfold try_push. case_decide as Hfull; simpl; (split; [done|]).
    + split; [done|]. split; [done|]. unfold rejected in *. simpl.
      rewrite length_app, Nat2Z.inj_add, Hr. simpl. by rewrite Zplus_mod_idemp_l.
    + split; [by rewrite app_assoc, Hf|]. unfold size in *. simpl. rewrite length_app. simpl.
      split; [lia|done].
  - unfold pop_wait_for_ms. destruct (negb _); [done|].
    destruct (bq_events b) as [|ev rest] eqn:Hev; [simpl; rewrite Hev; done|].
    split; [done|]. simpl. split; [by rewrite <- app_assoc|]. unfold size in *. rewrite Hev in Hs.
    simpl in *. split; [lia|done].
Qed.

Lemma run_ops_ok max_depth ops : queue_ok max_depth (run_ops max_depth ops).
Proof.
  unfold run_ops. assert (queue_ok max_depth (new_queue max_depth, mkTrace [] [] [])) as Hok.
  { repeat split. unfold size. simpl. lia. }
  revert Hok. generalize (new_queue max_depth, mkTrace [] [] []). induction ops as [|op ops IH];
    intros s Hok; [done|]. simpl. by apply IH, run_op_ok.
Qed.
