(* ===== verification/Pipeline.v ===== *)
(** [KafkaPipeline] (src/kafka_pipeline.cpp, src/include/kafka_pipeline.hpp): admission, the worker
    that expires, fetches, sends and polls, delivery reports, and the life cycle of the producer.

    librdkafka is a parameter: the class [Kafka] answers its calls. The threads are modelled by
    their interleaving: before every call that the worker makes to the outbox, the environment
    [World] may run calls of other threads. *)
From stdpp Require Import pretty.
From S2P Require Import Prelude Sqlite Tables Outbox Open EventId.

(** ** Configuration and metrics *)

Record PipelineConfig := mkConfig {
  brokers : string;
  cfg_topic : string;
  username : string;
  password : string;
  security_protocol : string;
  ssl_ca_location : string;
  compression : string;
  outbox_path : string;
  buffer_size : Z;
  mem_queue_max : Z;
  outbox_max_rows : Z;
  outbox_max_bytes : Z;
  message_timeout_ms : Z;
  enable_idempotence : bool;
  require_source_sequence : bool;
  worker_idle_ms : Z;
  poll_ms : Z;
  max_attempts_before_dead : Z;
  outbox_ttl_ms : Z;
}.

(** The default member initialisers. *)
Definition default_config : PipelineConfig := {|
  brokers := ""; cfg_topic := ""; username := ""; password := ""; security_protocol := "";
  ssl_ca_location := ""; compression := "snappy"; outbox_path := "/tmp/event_kafka_outbox.db";
  buffer_size := 100000; mem_queue_max := 10000; outbox_max_rows := 100000;
  outbox_max_bytes := 512 * 1024 * 1024; message_timeout_ms := 30000; enable_idempotence := true;
  require_source_sequence := false; worker_idle_ms := 50; poll_ms := 100;
  max_attempts_before_dead := 50; outbox_ttl_ms := 120000 |}.

(** The limits that the constructor hands to [Outbox]. *)
Definition limits (cfg : PipelineConfig) : Limits :=
  mkLimits (outbox_max_rows cfg) (outbox_max_bytes cfg).

(** [PipelineMetrics]: each counter is a 64-bit atomic. *)
Inductive Counter :=
  | enqueued | rejected_mem_full | rejected_disk_full | state_errors | produce_ok | produce_fail
  | delivery_fail | acked | producer_rebuilds | permanent_errors | outbox_expired.
#[export] Instance Counter_eq_dec : EqDecision Counter.
Proof. solve_decision. Defined.

Definition Metrics : Type := Counter → Z.
Definition zero_metrics : Metrics := λ _, 0.
Definition fetch_add (c : Counter) (n : Z) (m : Metrics) : Metrics := λ c',
  if decide (c' = c) then (m c + n) mod 18446744073709551616 else m c'.

(** ** librdkafka *)

(** A message as handed to [rd_kafka_producev]: a null key is [None]; the opaque is the
    [DrOpaque] with the event id. *)
Record Message := mkMessage {
  m_topic : string;
  m_key : option string;
  m_value : string;
  m_headers : list (string * string);
  m_opaque : string;
}.
#[export] Instance Message_eq_dec : EqDecision Message.
Proof. solve_decision. Defined.

(** The answers of the library to the n-th call made to it. Error codes are integers, 0 is none. *)
Class Kafka := {
  ERR__FATAL : Z;
  ERR_TOPIC_AUTHORIZATION_FAILED : Z;
  ERR_CLUSTER_AUTHORIZATION_FAILED : Z;
  ERR_INVALID_MSG : Z;
  ERR_MSG_SIZE_TOO_LARGE : Z;
  ERR_INVALID_RECORD : Z;
  rd_kafka_err2str : Z → string;
  rd_kafka_conf_set : nat → string → string → option string;   (** [None]: accepted *)
  rd_kafka_new : nat → option string;                          (** [None]: created *)
  rd_kafka_topic_conf_set : nat → string → string → option string;
  rd_kafka_topic_new : nat → bool;
  rd_kafka_last_error : nat → Z;
  rd_kafka_producev : nat → Message → Z;
  (** the delivery reports that a poll or a flush serves, given the messages still outstanding *)
  rd_kafka_serve : nat → list string → list (string * Z);
}.

(** What the documentation promises of delivery reports: a report is served for a message that is
    outstanding, and once. *)
Class KafkaLaws (K : Kafka) : Prop :=
  served_outstanding n l : NoDup l → NoDup (rd_kafka_serve n l).*1 ∧ (rd_kafka_serve n l).*1 ⊆ l.

(** [std::mt19937_64] seeded from [std::random_device]: the n-th word. *)
Class Random := random_word : nat → Z.

(** What other threads do between two outbox calls of the worker. *)
Inductive Other :=
  | CallEnqueue (payload msg_key call_uuid : string) (source_sequence : Z)
  | CallStop                         (** the part of [stop] before it joins the worker *)
  | CallRequestRebuild.
Class World := others : nat → list Other.

(** ** State *)

(** [worker_]: not joinable, running, or returned and not yet joined. *)
Inductive Worker := NoWorker | Working | Returned.
#[export] Instance Worker_eq_dec : EqDecision Worker.
Proof. solve_decision. Defined.

Record Pipe := mkPipe {
  p_outbox : Handle;
  p_rk : bool;                       (** [rk_] and [rkt_] are not null *)
  p_rkt : bool;
  p_running : bool;
  p_accept : bool;
  p_rebuild : bool;                  (** [rebuild_requested_] *)
  p_worker : Worker;
  p_metrics : Metrics;
  p_chan : list string;              (** messages whose report the producer still owes *)
  p_sent : list Message;             (** every message the producer accepted, in order *)
  p_kafka : nat;                     (** calls made to librdkafka *)
  p_random : nat;                    (** random words drawn *)
  p_point : nat;                     (** interleaving points passed *)
  (** History, which no code reads: the records of the messages in [p_sent], and the events that
      [enqueue] had admitted, with the sequences assigned. *)
  p_produced : list OutboxRecord;
  p_admitted : list (OutboxRecord * Z);
}.

Definition set_outbox_handle (h : Handle) (p : Pipe) : Pipe :=
  mkPipe h (p_rk p) (p_rkt p) (p_running p) (p_accept p) (p_rebuild p) (p_worker p) (p_metrics p)
    (p_chan p) (p_sent p) (p_kafka p) (p_random p) (p_point p)
    (p_produced p) (p_admitted p).
Definition set_producer (rk rkt : bool) (p : Pipe) : Pipe :=
  mkPipe (p_outbox p) rk rkt (p_running p) (p_accept p) (p_rebuild p) (p_worker p) (p_metrics p)
    (p_chan p) (p_sent p) (p_kafka p) (p_random p) (p_point p)
    (p_produced p) (p_admitted p).
Definition set_flags (running accept rebuild : bool) (p : Pipe) : Pipe :=
  mkPipe (p_outbox p) (p_rk p) (p_rkt p) running accept rebuild (p_worker p) (p_metrics p)
    (p_chan p) (p_sent p) (p_kafka p) (p_random p) (p_point p)
    (p_produced p) (p_admitted p).
Definition set_worker (w : Worker) (p : Pipe) : Pipe :=
  mkPipe (p_outbox p) (p_rk p) (p_rkt p) (p_running p) (p_accept p) (p_rebuild p) w (p_metrics p)
    (p_chan p) (p_sent p) (p_kafka p) (p_random p) (p_point p)
    (p_produced p) (p_admitted p).
Definition set_metrics (m : Metrics) (p : Pipe) : Pipe :=
  mkPipe (p_outbox p) (p_rk p) (p_rkt p) (p_running p) (p_accept p) (p_rebuild p) (p_worker p) m
    (p_chan p) (p_sent p) (p_kafka p) (p_random p) (p_point p)
    (p_produced p) (p_admitted p).
Definition set_chan (chan : list string) (sent : list Message) (p : Pipe) : Pipe :=
  mkPipe (p_outbox p) (p_rk p) (p_rkt p) (p_running p) (p_accept p) (p_rebuild p) (p_worker p)
    (p_metrics p) chan sent (p_kafka p) (p_random p) (p_point p)
    (p_produced p) (p_admitted p).
Definition set_counters (kafka random point : nat) (p : Pipe) : Pipe :=
  mkPipe (p_outbox p) (p_rk p) (p_rkt p) (p_running p) (p_accept p) (p_rebuild p) (p_worker p)
    (p_metrics p) (p_chan p) (p_sent p) kafka random point (p_produced p) (p_admitted p).
Definition set_history (produced : list OutboxRecord) (admitted : list (OutboxRecord * Z)) (p : Pipe)
    : Pipe :=
  mkPipe (p_outbox p) (p_rk p) (p_rkt p) (p_running p) (p_accept p) (p_rebuild p) (p_worker p)
    (p_metrics p) (p_chan p) (p_sent p) (p_kafka p) (p_random p) (p_point p) produced admitted.

(** A constructed pipeline on the file [d]. *)
Definition new_pipe (d : Db) : Pipe :=
  mkPipe (mkHandle (mkConn false d None 0 0 0) false) false false false false false NoWorker
    zero_metrics [] [] 0 0 0 [] [].

(** [fetch_add] on a metric, and the flags. *)
Definition modify (f : Pipe → Pipe) : M Pipe unit := λ p, (Ok tt, f p).
Definition gets {A} (f : Pipe → A) : M Pipe A := λ p, (Ok (f p), p).
Definition count_by (c : Counter) (n : Z) : M Pipe unit :=
  modify (λ p, set_metrics (fetch_add c n (p_metrics p)) p).
Definition count (c : Counter) : M Pipe unit := count_by c 1.
Definition request_rebuild : M Pipe unit :=
  modify (λ p, set_flags (p_running p) (p_accept p) true p).
(** [accept_ = false; running_ = false]. *)
Definition halt : M Pipe unit := modify (λ p, set_flags false false (p_rebuild p) p).
(** The number of the next call to librdkafka. *)
Definition next_call : M Pipe nat := λ p,
  (Ok (p_kafka p), set_counters (S (p_kafka p)) (p_random p) (p_point p) p).
Definition next_word `{Random} : M Pipe Z := λ p,
  (Ok (random_word (p_random p)), set_counters (p_kafka p) (S (p_random p)) (p_point p) p).

(** Calls into the outbox. *)
Definition with_handle {A} (m : M Handle A) : M Pipe A := λ p,
  match m (p_outbox p) with (o, h) => (o, set_outbox_handle h p) end.
Definition with_db {A} (m : M (Conn Db) A) : M Pipe A := λ p,
  match m (h_conn (p_outbox p)) with
  | (o, c) => (o, set_outbox_handle (mkHandle c (h_lock (p_outbox p))) p)
  end.

(** ** Settling a failed send *)

Inductive SendFailureResult := Retry | Buried | Failed (err : string).

(** [attempt_backoff_ms]: the loop doubles [base] while [i < attempts && i < 8]. *)
Fixpoint backoff_loop (fuel : nat) (attempts i base : Z) : Z :=
  match fuel with
  | O => base
  | S fuel' =>
      if decide (i < attempts ∧ i < 8) then backoff_loop fuel' attempts (i + 1) (base * 2) else base
  end.
Definition backoff_base (attempts : Z) : Z :=
  let base := backoff_loop 8 attempts 1 200 in
  if decide (30000 < base) then 30000 else base.
Definition attempt_backoff_ms `{Env} (attempts : Z) : M (Conn Db) Z :=
  now ← wall_now_ms; mret (backoff_base attempts + Z.rem now 97).

(** ** The methods *)

Section pipeline.
Context `{E : Env} `{K : Kafka} `{R : Random} (cfg : PipelineConfig).

(** [is_permanent_error]. *)
Definition is_permanent_error (err : Z) : bool :=
  bool_decide (err ∈ [ERR_TOPIC_AUTHORIZATION_FAILED; ERR_CLUSTER_AUTHORIZATION_FAILED;
                      ERR_INVALID_MSG; ERR_MSG_SIZE_TOO_LARGE; ERR_INVALID_RECORD]).

(** The call of [insert_pending], entered in the history when it returns true. *)
Definition insert_event (rec : OutboxRecord) : M Pipe (string + Z) :=
  r ← with_db (insert_pending (limits cfg) rec);
  match r with
  | inl err => mret (inl err)
  | inr seq =>
      modify (λ p, set_history (p_produced p) (p_admitted p ++ [(rec, seq)]) p);; mret (inr seq)
  end.

(** [enqueue]: the event id and either the error or the assigned sequence. *)
Definition enqueue (payload msg_key call_uuid : string) (source_sequence : Z)
    : M Pipe (string * (string + Z)) :=
  accept ← gets p_accept;
  if negb accept then mret ("", inl "pipeline not accepting")
  else if decide (source_sequence < -1 ∨
      (require_source_sequence cfg = true ∧ call_uuid ≠ "" ∧ source_sequence < 0)) then
    mret ("", inl "contiguous per-call source sequence required (starts at zero)")
  else
    a ← next_word; b ← next_word;
    let id := make_event_id a b in
    now ← with_db wall_now_ms;
    let rec := mkRecord id (cfg_topic cfg) msg_key payload Pending 0 0 "" now 0 call_uuid
                 source_sequence in
    r ← insert_event rec;
    match r with
    | inl err => count rejected_disk_full;; mret (id, inl err)
    | inr seq => count enqueued;; mret (id, inr seq)
    end.

(** *** The producer *)

(** [create_producer_unlocked]: the settings in the order of the [||] chain, stopping at the
    first that is refused. *)
Definition producer_settings : list (string * string) :=
  let proto := if decide (security_protocol cfg = "") then
                 if decide (username cfg = "") then "PLAINTEXT" else "SASL_PLAINTEXT"
               else security_protocol cfg in
  [("bootstrap.servers", brokers cfg);
   ("queue.buffering.max.messages", pretty (buffer_size cfg));
   ("compression.codec", compression cfg); ("acks", "all");
   ("enable.idempotence", if enable_idempotence cfg then "true" else "false");
   ("security.protocol", proto)] ++
  (if decide (username cfg = "") then []
   else [("sasl.mechanisms", "PLAIN"); ("sasl.username", username cfg);
         ("sasl.password", password cfg)]) ++
  (if decide (ssl_ca_location cfg = "") then []
   else [("ssl.ca.location", ssl_ca_location cfg)]).

Fixpoint set_all (settings : list (string * string)) : M Pipe (string + unit) :=
  match settings with
  | [] => mret (inr tt)
  | (key, value) :: settings' =>
      n ← next_call;
      match rd_kafka_conf_set n key value with
      | None => set_all settings'
      | Some errstr => mret (inl (key +:+ ": " +:+ errstr))
      end
  end.

Definition create_producer_unlocked : M Pipe (string + unit) :=
  r ← set_all producer_settings;
  match r with
  | inl err => mret (inl err)
  | inr _ =>
      n ← next_call;
      match rd_kafka_new n with
      | Some errstr => mret (inl errstr)
      | None =>
          n ← next_call;
          match rd_kafka_topic_conf_set n "message.timeout.ms" (pretty (message_timeout_ms cfg)) with
          | Some errstr => mret (inl errstr)
          | None =>
              n ← next_call;
              if rd_kafka_topic_new n then modify (set_producer true true);; mret (inr tt)
              else mret (inl (rd_kafka_err2str (rd_kafka_last_error n)))
          end
      end
  end.

(** [destroy_producer_unlocked]: the messages still outstanding go with the producer. *)
Definition destroy_producer_unlocked : M Pipe unit :=
  modify (λ p, set_chan (if p_rk p then [] else p_chan p) (p_sent p) (set_producer false false p)).

(** [produce_record]: [inl err] is false with [err] set. *)
Definition message_of (rec : OutboxRecord) : Message :=
  mkMessage (cfg_topic cfg) (if decide (msg_key rec = "") then None else Some (msg_key rec))
    (payload rec)
    ((if decide (0 ≤ call_seq rec) then [("x-fs-call-sequence", pretty (call_seq rec))] else []) ++
     [("x-fs-event-id", event_id rec)])
    (event_id rec).
Definition produce_record (rec : OutboxRecord) : M Pipe (string + unit) :=
  ready ← gets (λ p, p_rk p && p_rkt p)%bool;
  if negb ready then mret (inl "producer not ready")
  else
    n ← next_call;
    let perr := rd_kafka_producev n (message_of rec) in
    if decide (perr ≠ 0) then
      let err := rd_kafka_err2str perr in
      mret (inl (if decide (perr = ERR__FATAL) then "FATAL:" +:+ err
                 else if is_permanent_error perr then "PERMANENT:" +:+ err else err))
    else
      modify (λ p, set_history (p_produced p ++ [rec]) (p_admitted p)
                (set_chan (p_chan p ++ [event_id rec]) (p_sent p ++ [message_of rec]) p));;
      mret (inr tt).
End pipeline.

(** ** The worker and the life cycle *)

(** [std::terminate] on an exception that leaves a thread function. *)
Definition noexcept {S A} (m : M S A) : M S A := λ s,
  match m s with (Throw _, s') => (Killed, s') | r => r end.
(** [try { m; } catch (const std::exception& e) { handler(e.what()); }]. *)
Definition catch {S} (m : M S unit) (handler : string → M S unit) : M S unit := λ s,
  match m s with (Throw e, s') => handler e s' | r => r end.

Section worker.
Context `{E : Env} `{K : Kafka} `{R : Random} `{W : World} (cfg : PipelineConfig).

(** *** Interleaving *)

Definition run_other (o : Other) : M Pipe unit :=
  match o with
  | CallEnqueue payload key call seq => enqueue cfg payload key call seq;; mret tt
  | CallStop => halt
  | CallRequestRebuild => request_rebuild
  end.
Fixpoint run_others (os : list Other) : M Pipe unit :=
  match os with [] => mret tt | o :: os' => run_other o;; run_others os' end.
Definition next_point : M Pipe nat := λ p,
  (Ok (p_point p), set_counters (p_kafka p) (p_random p) (S (p_point p)) p).
Definition yield : M Pipe unit := n ← next_point; run_others (others n).

(** An outbox call of the worker. *)
Definition worker_db {A} (m : M (Conn Db) A) : M Pipe A := yield;; with_db m.

(** *** Failed sends and delivery reports *)

(** [settle_send_failure]: two calls into the outbox. *)
Definition settle_send_failure (max_attempts : Z) (id error : string) (permanent : bool)
    : M Pipe SendFailureResult :=
  cur ← worker_db (get id);
  match cur with
  | None => mret (Failed "send failure for non-in-flight event")
  | Some cur =>
      match state cur with
      | InFlight =>
          if decide (permanent = true ∨ max_attempts ≤ attempts cur) then
            r ← worker_db (mark_dead id error);
            mret match r with inl err => Failed err | inr _ => Buried end
          else
            now ← with_db wall_now_ms;
            backoff ← with_db (attempt_backoff_ms (attempts cur));
            r ← worker_db (mark_retry id (now + backoff) error);
            mret match r with inl err => Failed err | inr _ => Retry end
      | _ => mret (Failed "send failure for non-in-flight event")
      end
  end.

(** The report on a message has been served: the producer owes it no longer. *)
Definition consume (id : string) : M Pipe unit :=
  modify (λ p, set_chan (filter (.≠ id) (p_chan p)) (p_sent p) p).

(** [on_delivery], for the report [err] on the message of the event [id]. The report is consumed
    whatever follows: a failure before it is settled, a success with the acknowledgement. *)
Definition on_delivery (id : string) (err : Z) : M Pipe unit :=
  failure ←
    (if decide (err ≠ 0) then
       consume id;;
       count delivery_fail;;
       (if decide (err = ERR__FATAL) then request_rebuild else mret tt);;
       settled ← settle_send_failure (max_attempts_before_dead cfg) id (rd_kafka_err2str err)
                   (is_permanent_error err);
       match settled with
       | Failed e => mret (Some e)
       | Buried => count permanent_errors;; mret None
       | Retry => mret None
       end
     else
       r ← worker_db (mark_acked id); consume id;;
       match r with
       | inl e => mret (Some e)
       | inr _ => count acked;; mret None
       end);
  match failure with
  | Some _ => count state_errors;; halt
  | None => mret tt
  end.

(** [rd_kafka_poll] and [rd_kafka_flush] serve reports one after the other, on the worker. *)
Fixpoint deliver (reports : list (string * Z)) : M Pipe unit :=
  match reports with
  | [] => mret tt
  | (id, err) :: reports' => on_delivery id err;; deliver reports'
  end.
Definition serve_reports : M Pipe unit :=
  n ← next_call; chan ← gets p_chan; deliver (rd_kafka_serve n chan).

(** *** [rebuild_producer]: the flush reports the purged messages. *)
Definition rebuild_producer : M Pipe unit :=
  rk ← gets p_rk;
  (if rk : bool then serve_reports else mret tt);;
  destroy_producer_unlocked;;
  r ← worker_db requeue_in_flight;
  r ← match r with
      | inl err => mret (inl err)
      | inr _ => create_producer_unlocked cfg
      end;
  match r with
  | inl err => throw ("producer rebuild: " +:+ err)
  | inr _ => count producer_rebuilds
  end.

(** *** [worker_loop] *)

(** The loop over the batch. *)
Fixpoint send_batch (due : list OutboxRecord) : M Pipe unit :=
  match due with
  | [] => mret tt
  | rec :: due' =>
      go ← gets (λ p, p_running p && negb (p_rebuild p))%bool;
      if negb go then mret tt
      else
        r ← worker_db (mark_in_flight (event_id rec));
        match r with
        | inl err => throw err
        | inr _ =>
            r ← produce_record cfg rec;
            match r with
            | inr _ => count produce_ok
            | inl why =>
                count produce_fail;;
                (if String.prefix "FATAL:" why then request_rebuild else mret tt);;
                settled ← settle_send_failure (max_attempts_before_dead cfg) (event_id rec) why
                             (String.prefix "PERMANENT:" why);
                match settled with
                | Failed err => throw err
                | Buried => count permanent_errors
                | Retry => mret tt
                end
            end;;
            send_batch due'
        end
  end.

(** The body of the [while] loop. *)
Definition worker_turn : M Pipe unit :=
  rebuild ← gets p_rebuild;
  modify (λ p, set_flags (p_running p) (p_accept p) false p);;
  (if rebuild : bool then rebuild_producer else mret tt);;
  running ← gets p_running;
  if negb running then mret tt
  else
    now ← with_db wall_now_ms;
    r ← worker_db (expire_ttl now (outbox_ttl_ms cfg));
    match r with
    | inl err => throw err
    | inr expired =>
        count_by outbox_expired expired;;
        due ← worker_db (fetch_due now 32);
        send_batch due;;
        rk ← gets p_rk;
        if rk : bool then serve_reports else mret tt
    end.

(** At most [turns] turns of [while (running_)]. *)
Fixpoint turns_of_loop (turns : nat) : M Pipe unit :=
  running ← gets p_running;
  if negb running then mret tt
  else match turns with
       | O => mret tt
       | S turns' => worker_turn;; turns_of_loop turns'
       end.

(** What follows the [try] block: flush, purge, flush; then the thread returns. *)
Definition worker_exit : M Pipe unit :=
  rk ← gets p_rk;
  (if rk : bool then serve_reports;; serve_reports else mret tt);;
  modify (set_worker Returned).

(** The thread function, run for at most [turns] turns: it returns once [running_] is false. *)
Definition worker_loop (turns : nat) : M Pipe unit :=
  noexcept (
    catch (turns_of_loop turns) (λ _, count state_errors;; halt);;
    running ← gets p_running;
    if negb running then worker_exit else mret tt).

(** *** [start] and [stop] *)

Definition close_outbox : M Pipe unit :=
  modify (λ p, set_outbox_handle (close (p_outbox p)) p).

Definition start (flock_ok : bool) : M Pipe (string + unit) :=
  w ← gets p_worker; running ← gets p_running;
  if decide (w ≠ NoWorker ∨ running = true) then mret (inl "pipeline already started")
  else
    r ← with_handle (open flock_ok);
    match r with
    | inl err => mret (inl err)
    | inr _ =>
        r ← with_db requeue_in_flight;
        r ← match r with
            | inl err => mret (inl err)
            | inr _ => create_producer_unlocked cfg
            end;
        match r with
        | inl err => close_outbox;; mret (inl err)
        | inr _ =>
            modify (λ p, set_worker Working (set_flags true true false p));; mret (inr tt)
        end
    end.

(** Joining a worker that is between two turns runs the rest of its thread function. *)
Definition stop : M Pipe unit :=
  halt;;
  w ← gets p_worker;
  (if decide (w = Working) then noexcept worker_exit else mret tt);;
  modify (set_worker NoWorker);;
  destroy_producer_unlocked;;
  close_outbox.

(** [outbox_stats]. *)
Definition outbox_stats : M Pipe OutboxStats := with_db stats.

(** The calls a client makes, and the turns the worker gets. *)
Inductive Call :=
  | DoStart (flock_ok : bool)
  | DoEnqueue (payload msg_key call_uuid : string) (source_sequence : Z)
  | DoTurns (turns : nat)
  | DoRequestRebuild
  | DoStop.
Definition run_call (c : Call) : M Pipe unit :=
  match c with
  | DoStart flock_ok => start flock_ok;; mret tt
  | DoEnqueue payload key call seq => enqueue cfg payload key call seq;; mret tt
  | DoTurns turns => w ← gets p_worker; if decide (w = Working) then worker_loop turns else mret tt
  | DoRequestRebuild => request_rebuild
  | DoStop => stop
  end.
Fixpoint run_calls (cs : list Call) : M Pipe unit :=
  match cs with [] => mret tt | c :: cs' => run_call c;; run_calls cs' end.
End worker.
