(* ===== verification/Backoff.v ===== *)
(** The back-off of [KafkaPipeline] (src/kafka_pipeline.cpp, 269-274): the loop in closed form, its
    bounds and its growth. *)
From stdpp Require Import pretty.
From S2P Require Import Prelude Sqlite Tables Outbox OutboxSpec OutboxInv Open System Schedule.
From S2P Require Import EventId Pipeline.

(** ** The back-off *)

(** The number of doublings for an attempt count. *)
Definition doublings (attempts : Z) : Z := Z.max 0 (Z.min 7 (attempts - 1)).

Lemma backoff_loop_value fuel attempts i base :
  0 ≤ i → (Z.to_nat (8 - i) ≤ fuel)%nat →
  backoff_loop fuel attempts i base = base * 2 ^ Z.max 0 (Z.min (attempts - i) (8 - i)).
Proof.
  revert i base. induction fuel as [|fuel IH]; intros i base Hi Hfuel; simpl.
  - replace (Z.max 0 (Z.min (attempts - i) (8 - i))) with 0 by lia. lia.
  - case_decide as Hc.
    + rewrite IH by lia.
      replace (Z.max 0 (Z.min (attempts - i) (8 - i)))
        with (Z.succ (Z.max 0 (Z.min (attempts - (i + 1)) (8 - (i + 1))))) by lia.
      rewrite Z.pow_succ_r by lia. lia.
    + replace (Z.max 0 (Z.min (attempts - i) (8 - i))) with 0 by lia. lia.
Qed.

(** More fuel than the eight rounds of the loop changes nothing. *)
Lemma backoff_fuel fuel attempts :
  (8 ≤ fuel)%nat → backoff_loop fuel attempts 1 200 = backoff_loop 8 attempts 1 200.
Proof. intros Hf. rewrite !backoff_loop_value by lia. done. Qed.

Lemma doublings_bounds attempts : 0 ≤ doublings attempts ≤ 7.
Proof. unfold doublings. lia. Qed.

Lemma backoff_base_value attempts : backoff_base attempts = 200 * 2 ^ doublings attempts.
Proof.
  unfold backoff_base. rewrite backoff_loop_value by lia.
  replace (Z.max 0 (Z.min (attempts - 1) (8 - 1))) with (doublings attempts)
    by (unfold doublings; lia).
  pose proof (doublings_bounds attempts). rewrite decide_False; [done|].
  assert (2 ^ doublings attempts ≤ 2 ^ 7) by (apply Z.pow_le_mono_r; lia). lia.
Qed.

Lemma backoff_base_bounds attempts : 200 ≤ backoff_base attempts ≤ 25600.
Proof.
  rewrite backoff_base_value. pose proof (doublings_bounds attempts).
  assert (2 ^ 0 ≤ 2 ^ doublings attempts ≤ 2 ^ 7) by (split; apply Z.pow_le_mono_r; lia). lia.
Qed.

Lemma backoff_base_mono a b : a ≤ b → backoff_base a ≤ backoff_base b.
Proof.
  intros Hab. rewrite !backoff_base_value.
  assert (2 ^ doublings a ≤ 2 ^ doublings b); [|lia].
  apply Z.pow_le_mono_r; unfold doublings; lia.
Qed.
