(* ===== verification/PipelineSim.v ===== *)
(** The code of [KafkaPipeline] refines the transition system of System.v: whatever SQLite and
    librdkafka answer, whatever other threads interleave, and wherever the process dies, what a
    sequence of calls does to the file, to the messages handed over and to the reports owed is a run
    of the system. *)
From stdpp Require Import pretty.
From S2P Require Import Prelude Sqlite Tables Outbox OutboxSpec OutboxInv Open System Schedule.
From S2P Require Import Queues EventId Pipeline.

(** ** The schema is never touched after [open] *)

Definition schema (d : Db) : Z * bool * bool * bool * bool :=
  (user_version d, has_table d, has_seq d, has_eligible d, has_seq_index d).

Lemma current_schema_iff d : current_schema d ↔ schema d = (5, true, true, true, true).
Proof.
  unfold current_schema, schema. split; [intros (?&?&?&?&?); congruence|].
  intros H. injection H. by repeat split.
Qed.

Section schema.
Context `{E : Env} (lim : Limits).

Lemma schema_one_row P `{!∀ r, Decision (P r)} f what d u d' :
  one_row_txn P f what d = inr (u, d') → schema d' = schema d.
Proof. unfold one_row_txn. case_decide; intros; by simplify_eq. Qed.

Lemma schema_insert rec d t a d' : insert_txn lim rec d t = inr (a, d') → schema d' = schema d.
Proof.
  intros [_ Ha]%insert_txn_admitted.
  assert (schema (reclaimed lim rec d) = schema d) as <- by (unfold reclaimed; by case_decide).
  by destruct Ha.
Qed.

Lemma schema_take id d t u d' : take_txn id d t = inr (u, d') → schema d' = schema d.
Proof.
  unfold take_txn. case_decide; [|done]. destruct (order_scheduler d); [|done].
  case_decide; [|done]. destruct (r ← row_by_id _ _; _); intros; by simplify_eq.
Qed.

Lemma schema_ack id d t u d' : ack_txn id d t = inr (u, d') → schema d' = schema d.
Proof.
  unfold ack_txn. destruct (in_flight_row id d); [|done]. cbv zeta. case_decide.
  - intros; by simplify_eq.
  - destruct (call_streams d !! _); [|done]. case_decide; [|done]. intros; by simplify_eq.
Qed.

Lemma step_schema s s' : step lim s s' → schema (db s') = schema (db s).
Proof.
  intros Hstep. destruct Hstep; simpl; try done;
    try (by eapply schema_one_row); eauto using schema_insert, schema_take, schema_ack.
  - unfold requeue_txn in *. by simplify_eq.
  - unfold expire_txn in *. case_decide; by simplify_eq.
Qed.
End schema.

(** ** The states of the system that a pipeline stands for *)

Definition pdb (p : Pipe) : Db := c_db (h_conn (p_outbox p)).
Definition sys (p : Pipe) (h : list Event) : Sys := mkSys (pdb p) (p_chan p) h.

(** The rows handed over, from the history. *)
Definition sent_rows (h : list Event) : list Row :=
  omap (λ e, match e with Send r => Some r | _ => None end) h.

(** The content of an event, which no operation changes. *)
Definition same_event (rec rec' : OutboxRecord) : Prop :=
  event_id rec = event_id rec' ∧ topic rec = topic rec' ∧ msg_key rec = msg_key rec' ∧
  payload rec = payload rec' ∧ call_uuid rec = call_uuid rec' ∧
  call_seq rec = call_seq rec'.

Lemma same_event_trans r1 r2 r3 : same_event r1 r2 → same_event r2 r3 → same_event r1 r3.
Proof. intros (?&?&?&?&?&?) (?&?&?&?&?&?). split_and!; congruence. Qed.

Lemma same_event_sym r1 r2 : same_event r1 r2 → same_event r2 r1.
Proof. intros (?&?&?&?&?&?). by split_and!. Qed.

Lemma same_content_event r r' : same_content r r' → same_event (record r) (record r').
Proof. intros (?&?&?&?&?&?&?). unfold same_event. simpl. split_and!; congruence. Qed.

(** An admitted event under the sequence assigned to it. *)
Definition numbered (rec : OutboxRecord) (seq : Z) : OutboxRecord :=
  mkRecord (event_id rec) (topic rec) (msg_key rec) (payload rec) (state rec) (attempts rec)
    (next_attempt_at_ms rec) (last_error rec) (created_at_ms rec) (updated_at_ms rec)
    (call_uuid rec) seq.

Definition sent_as (rec : OutboxRecord) (r : Row) : Prop := same_event rec (record r).
Definition admitted_as (a : OutboxRecord * Z) (r : Row) : Prop :=
  same_event (numbered a.1 a.2) (record r).

Record pipe_ok (p : Pipe) : Prop := {
  ok_wf : wf (pdb p);
  ok_chan : chan_ok (sys p []);
  ok_once : NoDup (p_chan p);
  ok_schema : current_schema (pdb p);
  ok_txn : c_txn (h_conn (p_outbox p)) = None;
  ok_rk : p_rk p = false → p_chan p = [];
}.

(** The fields that carry no state of the system. *)
Lemma pipe_ok_same p p' :
  pdb p' = pdb p → p_chan p' = p_chan p → c_txn (h_conn (p_outbox p')) = None → p_rk p' = p_rk p →
  pipe_ok p → pipe_ok p'.
Proof.
  intros Hd Hc Ht Hr [Hw Hch Ho Hs _ Hrk]. split; rewrite ?Hd, ?Hc, ?Hr; try done.
  unfold sys in *. by rewrite Hd, Hc.
Qed.

Section sim.
Context `{E : Env} `{K : Kafka} `{R : Random} (cfg : PipelineConfig).
Abbreviation lim := (limits cfg).

(** The pipeline and the history agree on what was handed over and on what was admitted. *)
Definition same_messages (p : Pipe) (h : list Event) : Prop :=
  p_sent p = message_of cfg <$> p_produced p ∧ Forall2 sent_as (p_produced p) (sent_rows h) ∧
  Forall2 admitted_as (p_admitted p) (admitted_rows h).

Lemma message_of_event rec rec' : same_event rec rec' → message_of cfg rec = message_of cfg rec'.
Proof. intros (Hi & _ & Hk & Hp & _ & Hq). unfold message_of. by rewrite Hi, Hk, Hp, Hq. Qed.

Lemma sm_messages p h : same_messages p h → p_sent p = message_of cfg ∘ record <$> sent_rows h.
Proof.
  intros (-> & Hp & _). rewrite list_fmap_compose. induction Hp as [|rec r l l' Hr _ IH]; [done|].
  rewrite !fmap_cons, IH. f_equal. by apply message_of_event.
Qed.

(** From [p] the system can move to [p']. *)
Definition moves (p p' : Pipe) : Prop := ∀ h, same_messages p h →
  ∃ h', rtc (step lim) (sys p h) (sys p' h') ∧ same_messages p' h'.

(** The process died after moves that end in the state of the file; the last of them hands nothing
    over, and may be missing in the history of the pipeline. *)
Definition died (p p' : Pipe) : Prop := ∀ h, same_messages p h →
  ∃ s0 s, rtc (step lim) (sys p h) s0 ∧ same_messages p' (hist s0) ∧ rtc (step lim) s0 s ∧
       db s = durable (h_conn (p_outbox p')) ∧ sent_rows (hist s) = sent_rows (hist s0).

Definition View : Type := Db → list string → Prop.
Definition on (P : View) (p : Pipe) : Prop := P (pdb p) (p_chan p).

(** [m], started where [P] holds, moves along runs of the system and ends where [Q] holds; it may
    throw only if [x]. It does not touch [worker_]. *)
Definition sim {A} (x : Prop) (P : View) (m : M Pipe A) (Q : A → View) : Prop :=
  ∀ p, pipe_ok p → on P p →
  wp m (λ a p', moves p p' ∧ pipe_ok p' ∧ p_worker p' = p_worker p ∧ on (Q a) p')
       (λ _ p', x ∧ moves p p' ∧ pipe_ok p' ∧ p_worker p' = p_worker p)
       (λ p', died p p') p.

(** The fields that enter the history of the system. *)
Definition same_history (p p' : Pipe) : Prop :=
  p_sent p' = p_sent p ∧ p_produced p' = p_produced p ∧ p_admitted p' = p_admitted p.

Lemma same_history_messages p p' h h' :
  same_history p p' → sent_rows h' = sent_rows h → admitted_rows h' = admitted_rows h →
  same_messages p h → same_messages p' h'.
Proof. intros (Hs & Hp & Ha) Hr Hadm. unfold same_messages. by rewrite Hs, Hp, Ha, Hr, Hadm. Qed.

Lemma moves_refl p p' :
  pdb p' = pdb p → p_chan p' = p_chan p → same_history p p' → moves p p'.
Proof.
  intros Hd Hc Hs h Hm. exists h. unfold sys. rewrite Hd, Hc. split; [done|].
  by apply (same_history_messages p p' h h).
Qed.

Lemma moves_trans p1 p2 p3 : moves p1 p2 → moves p2 p3 → moves p1 p3.
Proof.
  intros H12 H23 h1 Hm1. destruct (H12 h1 Hm1) as (h2 & Hr12 & Hm2).
  destruct (H23 h2 Hm2) as (h3 & Hr23 & Hm3). exists h3. split; [by etransitivity|done].
Qed.

Lemma moves_died p1 p2 p3 : moves p1 p2 → died p2 p3 → died p1 p3.
Proof.
  intros H12 H23 h1 Hm1. destruct (H12 h1 Hm1) as (h2 & Hr12 & Hm2).
  destruct (H23 h2 Hm2) as (s0 & s & Hr23 & Hs). exists s0, s. split; [by etransitivity|done].
Qed.

Lemma moved_died p p' : moves p p' → pipe_ok p' → died p p'.
Proof.
  intros Hm Hok h Hh. destruct (Hm h Hh) as (h' & Hr & Hs). exists (sys p' h'), (sys p' h').
  split_and!; try done. simpl. unfold durable. by rewrite (ok_txn _ Hok).
Qed.

(** *** Rules *)

Lemma sim_bind {A B} x P (m : M Pipe A) (k : A → M Pipe B) Q Q' :
  sim x P m Q → (∀ a, sim x (Q a) (k a) Q') → sim x P (m ≫= k) Q'.
Proof.
  intros Hm Hk p Hok HP. apply wp_bind. eapply wp_mono; [exact (Hm p Hok HP)|..].
  - intros a p1 (Hmv & Hok1 & Hw & HQ). eapply wp_mono; [exact (Hk a p1 Hok1 HQ)|..].
    + intros b p2 (Hmv2 & Hok2 & Hw2 & HQ2). split; [by eapply moves_trans|]. by rewrite Hw2.
    + intros e p2 (Hx & Hmv2 & Hok2 & Hw2). split; [done|]. split; [by eapply moves_trans|].
      by rewrite Hw2.
    + intros p2 Hd. by eapply moves_died.
  - intros e p1 H1. exact H1.
  - done.
Qed.

Lemma sim_ret {A} x (P : View) (a : A) (Q : A → View) :
  (∀ d ch, P d ch → Q a d ch) → sim x P (mret a) Q.
Proof.
  intros HQ p Hok HP. unfold wp. simpl. split; [by apply moves_refl|]. split; [done|].
  split; [done|]. by apply HQ.
Qed.

Lemma sim_throw {A} (P : View) what (Q : A → View) : sim True P (throw what) Q.
Proof. intros p Hok HP. unfold wp. simpl. split; [done|]. split; [by apply moves_refl|done]. Qed.

Lemma sim_conseq {A} (x x' : Prop) (P P' : View) (m : M Pipe A) (Q Q' : A → View) :
  sim x' P' m Q' → (x' → x) → (∀ d ch, P d ch → P' d ch) → (∀ a d ch, Q' a d ch → Q a d ch) →
  sim x P m Q.
Proof.
  intros Hm Hx HP HQ p Hok Hp. eapply wp_mono; [apply (Hm p Hok); by apply HP|..].
  - intros a p' (?&?&?&?). split_and!; try done. by apply HQ.
  - intros e p' (?&?&?&?). split_and!; auto.
  - done.
Qed.

(** Computations that touch nothing the system sees. *)
Lemma sim_modify x P f :
  (∀ p, p_outbox (f p) = p_outbox p ∧ p_rk (f p) = p_rk p ∧ p_chan (f p) = p_chan p ∧
        same_history p (f p) ∧ p_worker (f p) = p_worker p) →
  sim x P (modify f) (λ _, P).
Proof.
  intros Hf p Hok HP. destruct (Hf p) as (Ho & Hr & Hc & Hs & Hw). unfold wp. simpl.
  assert (pdb (f p) = pdb p) as Hd by (unfold pdb; by rewrite Ho).
  split; [by apply moves_refl|]. split; [|split; [done|unfold on; by rewrite Hd, Hc]].
  apply (pipe_ok_same p); try done. rewrite Ho. apply Hok.
Qed.

Lemma sim_gets {A} x P (f : Pipe → A) : sim x P (gets f) (λ _, P).
Proof. intros p Hok HP. unfold wp. simpl. split; [by apply moves_refl|done]. Qed.

Lemma sim_next_call x P : sim x P next_call (λ _, P).
Proof.
  intros p Hok HP. unfold wp. simpl. split; [by apply moves_refl|].
  split; [by apply (pipe_ok_same p); try apply Hok|done].
Qed.

Lemma sim_next_word x P : sim x P next_word (λ _, P).
Proof.
  intros p Hok HP. unfold wp. simpl. split; [by apply moves_refl|].
  split; [by apply (pipe_ok_same p); try apply Hok|done].
Qed.

(** *** Calls into the outbox *)

Lemma steps_ok p h s :
  pipe_ok p → rtc (step lim) (sys p h) s → wf (db s) ∧ chan_ok s ∧ current_schema (db s).
Proof.
  intros Hok Hr. remember (sys p h) as s0 eqn:H0.
  assert (wf (db s0) ∧ chan_ok s0 ∧ current_schema (db s0)) as Hs0
    by (subst s0; split_and!; [apply Hok|apply (ok_chan _ Hok)|apply Hok]).
  clear H0. induction Hr as [|s1 s2 s3 Hstep _ IH]; [done|]. destruct Hs0 as (Hw & Hc & Hs).
  apply IH. split_and!; [by eapply step_wf|by eapply chan_step|].
  apply current_schema_iff. rewrite (step_schema lim _ _ Hstep). by apply current_schema_iff.
Qed.

Lemma pipe_ok_steps p p' h h' :
  pipe_ok p → rtc (step lim) (sys p h) (sys p' h') → c_txn (h_conn (p_outbox p')) = None →
  NoDup (p_chan p') → (p_rk p' = false → p_chan p' = []) → pipe_ok p'.
Proof.
  intros Hok Hr Ht Hnd Hrk. destruct (steps_ok p h _ Hok Hr) as (Hw & Hc & Hs). by split.
Qed.

Definition conn (p : Pipe) : Conn Db := h_conn (p_outbox p).
Definition on_conn (p : Pipe) (c : Conn Db) : Pipe :=
  set_outbox_handle (mkHandle c (h_lock (p_outbox p))) p.

Lemma with_db_wp {A} (m : M (Conn Db) A) (QO : A → Pipe → Prop) (QT : string → Pipe → Prop)
    (QK : Pipe → Prop) p :
  wp m (λ a c, QO a (on_conn p c)) (λ e c, QT e (on_conn p c)) (λ c, QK (on_conn p c)) (conn p) →
  wp (with_db m) QO QT QK p.
Proof. unfold wp, with_db, conn. by destruct (m _) as [[] ?]. Qed.

(** A call that leaves the contents as they are. *)
Lemma moves_same p c :
  pipe_ok p → c_txn c = None → c_db c = pdb p →
  moves p (on_conn p c) ∧ pipe_ok (on_conn p c) ∧ p_worker (on_conn p c) = p_worker p.
Proof.
  intros Hok Ht Hd. split; [by apply moves_refl|]. split; [|done]. by apply (pipe_ok_same p).
Qed.

Lemma died_same p c : durable c = pdb p → died p (on_conn p c).
Proof.
  intros Hd h Hm. exists (sys p h), (sys p h). split; [done|]. split; [|done].
  by apply (same_history_messages p _ h h).
Qed.

(** A call that commits what a run of the system commits. *)
Definition runs (d : Db) (ch : list string) (d' : Db) : Prop := ∀ h,
  ∃ h', rtc (step lim) (mkSys d ch h) (mkSys d' ch h') ∧
    sent_rows h' = sent_rows h ∧ admitted_rows h' = admitted_rows h.

Lemma moves_runs p c :
  pipe_ok p → c_txn c = None → runs (pdb p) (p_chan p) (c_db c) →
  moves p (on_conn p c) ∧ pipe_ok (on_conn p c) ∧ p_worker (on_conn p c) = p_worker p.
Proof.
  intros Hok Ht Hr. split; [|split; [|done]].
  - intros h Hm. destruct (Hr h) as (h' & Hsteps & Hs & Ha). exists h'. split; [exact Hsteps|].
    by apply (same_history_messages p _ h h').
  - destruct (Hr []) as (h' & Hsteps & _). apply (pipe_ok_steps p _ [] h'); try done; apply Hok.
Qed.

Lemma died_runs p c : runs (pdb p) (p_chan p) (durable c) → died p (on_conn p c).
Proof.
  intros Hr h Hm. destruct (Hr h) as (h' & Hsteps & Hs & _). eexists (sys p h), _.
  split; [done|]. split; [by apply (same_history_messages p _ h h)|]. split; [exact Hsteps|done].
Qed.

Lemma sim_method {A} x (P : View) (m : M (Conn Db) (string + A)) spec (Q : string + A → View) :
  refines ids_unique m spec →
  (∀ c, c_open c = false → m c = (Ok (inl "db closed"), c)) →
  (∀ d ch t a d', wf d → chan_ok (mkSys d ch []) → P d ch → spec d t = inr (a, d') →
     runs d ch d' ∧ Q (inr a) d' ch) →
  (∀ d ch e, P d ch → Q (inl e) d ch) →
  sim x P (with_db m) Q.
Proof.
  intros Href Hclosed Hrun Herr p Hok HP. apply with_db_wp.
  pose proof (ok_txn _ Hok) as Htx. fold (conn p) in Htx.
  destruct (c_open (conn p)) eqn:Ho.
  - eapply wp_mono; [exact (Href (conn p) Ho Htx (wf_ids _ (ok_wf _ Hok)))|..].
    + intros [e|a] c (_ & Ht & Hres).
      * destruct Hres as [Hd _]. destruct (moves_same p c Hok Ht Hd) as (?&?&?).
        split_and!; try done. unfold on, pdb. simpl. rewrite Hd. by apply Herr.
      * destruct (Hrun _ (p_chan p) _ _ _ (ok_wf _ Hok) (ok_chan _ Hok) HP Hres) as [Hr HQ].
        by destruct (moves_runs p c Hok Ht Hr) as (?&?&?).
    + done.
    + intros c [Hd|[a Hspec]]; [by apply died_same|]. apply died_runs.
      by apply (Hrun _ _ _ _ _ (ok_wf _ Hok) (ok_chan _ Hok) HP Hspec).
  - unfold wp. rewrite (Hclosed _ Ho).
    destruct (moves_same p (conn p) Hok Htx eq_refl) as (?&?&?). split_and!; try done.
    by apply Herr.
Qed.

(** A query. *)
Lemma sim_reads {A} (P : View) (m : M (Conn Db) A) val (Q : A → View) :
  reads m val → (∃ a, ∀ c, c_open c = false → m c = (Ok a, c) ∧ ∀ d ch, P d ch → Q a d ch) →
  (∀ d ch t, wf d → P d ch → Q (val d t) d ch) →
  sim True P (with_db m) Q.
Proof.
  intros Hread (a0 & Hclosed) HQ p Hok HP. apply with_db_wp.
  pose proof (ok_txn _ Hok) as Htx. fold (conn p) in Htx.
  destruct (c_open (conn p)) eqn:Ho.
  - eapply wp_mono; [exact (Hread (conn p) Ho Htx)|..].
    + intros a c (-> & _ & Ht & Hd). destruct (moves_same p c Hok Ht Hd) as (?&?&?).
      split_and!; try done. unfold on, pdb. simpl. rewrite Hd. apply HQ; [apply Hok|done].
    + intros e c (_ & _ & Ht & Hd). destruct (moves_same p c Hok Ht Hd) as (?&?&?). done.
    + intros c Hd. by apply died_same.
  - unfold wp. destruct (Hclosed _ Ho) as [-> Ha].
    destruct (moves_same p (conn p) Hok Htx eq_refl) as (?&?&?). split_and!; try done.
    by apply Ha.
Qed.

#[local] Transparent wall_now_ms.
Lemma sim_now x P : sim x P (with_db wall_now_ms) (λ _, P).
Proof.
  intros p Hok HP. unfold wp, with_db, wall_now_ms. simpl.
  set (c := mkConn _ _ _ _ _ _).
  destruct (moves_same p c Hok (ok_txn _ Hok) eq_refl) as (?&?&?). done.
Qed.
#[local] Opaque wall_now_ms.

Lemma with_db_bind {A B} x P (m : M (Conn Db) A) (k : A → M (Conn Db) B) Q :
  sim x P (with_db m ≫= λ a, with_db (k a)) Q → sim x P (with_db (m ≫= k)) Q.
Proof.
  intros H p Hok HP. specialize (H p Hok HP). revert H. unfold wp, mbind, M_bind, with_db.
  by destruct (m _) as [[a| |] c].
Qed.

Lemma with_db_ret {A} x P (a : A) Q : sim x P (mret a) Q → sim x P (with_db (mret a)) Q.
Proof.
  intros H p Hok HP. specialize (H p Hok HP). revert H. unfold wp, with_db, mret, M_ret. simpl.
  by destruct p as [[]].
Qed.

(** ** The outbox operations as runs *)

Lemma runs_step d ch d' :
  (∀ h, step lim (mkSys d ch h) (mkSys d' ch h)) → runs d ch d'.
Proof. intros Hs h. exists h. split; [|done]. eapply rtc_once, Hs. Qed.

Lemma runs_refl d ch : runs d ch d.
Proof. intros h. by exists h. Qed.

Lemma refines_any {A} (m : M (Conn Db) (string + A)) spec :
  refines (λ _, True) m spec → refines ids_unique m spec.
Proof. intros H c Ho Ht _. by apply H. Qed.

(** What admissions by other threads leave true. *)
Definition stable (P : View) : Prop := ∀ d ch t rec a d',
  insert_txn lim rec d t = inr (a, d') → P d ch → P d' ch.

Lemma insert_step rec d ch h t a d' :
  call_seq rec ≤ int64_max → insert_txn lim rec d t = inr (a, d') →
  ∃ h', step lim (mkSys d ch h) (mkSys d' ch h') ∧ sent_rows h' = sent_rows h ∧
    ∃ r, admitted_rows h' = admitted_rows h ++ [r] ∧ admitted_as (rec, a) r.
Proof.
  intros Hint Htx. pose proof Htx as [_ Ha]%insert_txn_admitted.
  assert (∃ r, outbox d' = outbox (reclaimed lim rec d) ++ [r] ∧ admitted_as (rec, a) r) as (r & Hout & Hr).
  { destruct Ha as [Hc|k st sq -> Hc]; eexists; (split; [done|]);
      unfold admitted_as, same_event, pending_row; simpl in *;
      [rewrite decide_True by done|rewrite decide_False by done]; by rewrite ?Hc. }
  eexists. split; [by apply (step_admit lim (mkSys d ch h) rec t a d' r)|]. simpl.
  unfold sent_rows, admitted_rows. rewrite !omap_app, !omap_reclaims by done. simpl.
  rewrite app_nil_r. split; [done|]. by exists r.
Qed.

(** What the pipeline is after an admission. *)
Lemma admission_moves rec p c t a :
  call_seq rec ≤ int64_max → pipe_ok p → c_txn c = None →
  insert_txn lim rec (pdb p) t = inr (a, c_db c) →
  let p' := set_history (p_produced p) (p_admitted p ++ [(rec, a)]) (on_conn p c) in
  moves p p' ∧ pipe_ok p'.
Proof.
  intros Hint Hok Ht Htx p'. split.
  - intros h Hm. destruct (insert_step rec _ (p_chan p) h _ _ _ Hint Htx)
      as (h' & Hstep & Hs & r & Ha & Hr).
    exists h'. split; [by apply rtc_once|]. destruct Hm as (? & ? & ?). unfold same_messages. simpl. rewrite Hs, Ha.
    split_and!; [done..|]. by apply Forall2_app; [|constructor].
  - destruct (insert_step rec _ (p_chan p) [] _ _ _ Hint Htx) as (h' & Hstep & _).
    apply (pipe_ok_steps p p' [] h'); try done; [by apply rtc_once|apply Hok..].
Qed.

Lemma sim_insert x P rec :
  call_seq rec ≤ int64_max → stable P → sim x P (insert_event cfg rec) (λ _, P).
Proof.
  intros Hint Hst p Hok HP. unfold insert_event. apply wp_bind, with_db_wp.
  pose proof (ok_txn _ Hok) as Htx. fold (conn p) in Htx.
  destruct (c_open (conn p)) eqn:Ho.
  - eapply wp_mono; [exact (insert_pending_refines lim rec (conn p) Ho Htx I)|..].
    + intros [e|a] c (_ & Ht & Hres); unfold wp; simpl.
      * destruct Hres as [Hd _]. destruct (moves_same p c Hok Ht Hd) as (?&?&?).
        split_and!; try done. unfold on, pdb. simpl. by rewrite Hd.
      * destruct (admission_moves rec p c _ a Hint Hok Ht Hres). split_and!; try done.
        by eapply Hst.
    + done.
    + intros c [Hd|[a Hres]]; [by apply died_same|]. intros h Hm.
      destruct (insert_step rec _ (p_chan p) h _ _ _ Hint Hres) as (h' & Hstep & Hs & _).
      exists (sys p h), (mkSys (durable c) (p_chan p) h'). split; [done|].
      split; [by apply (same_history_messages p _ h h)|]. split; [by apply rtc_once|done].
  - unfold wp at 1, insert_pending. rewrite closed_transaction by done. unfold wp. simpl.
    destruct (moves_same p (conn p) Hok Htx eq_refl) as (?&?&?). by split_and!.
Qed.

(** *** The batch *)

(** The row holds the event of the record. *)
Abbreviation holds := sent_as.

Definition batch (due : list OutboxRecord) (d : Db) : Prop :=
  NoDup (event_id <$> due) ∧ ∀ rec, rec ∈ due → ready (holds rec) d (event_id rec).

Definition taken_off (rec : OutboxRecord) (d : Db) : Prop :=
  ∃ r, r ∈ outbox d ∧ r_event_id r = event_id rec ∧ r_state r = "in_flight" ∧ holds rec r.

Lemma batch_stable due : stable (λ d _, batch due d).
Proof.
  intros d ch t rec a d' Htx [Hnd Hr]. split; [done|]. intros rec' Hrec.
  eapply ready_insert; eauto.
Qed.

Lemma batch_tail rec due d : batch (rec :: due) d →
  batch due d ∧ ready (holds rec) d (event_id rec) ∧ event_id rec ∉ event_id <$> due.
Proof.
  intros [[Hn Hnd]%NoDup_cons Hr]. split; [split; [done|]; intros rec' Hin; apply Hr; by right|].
  split; [apply Hr; by left|done].
Qed.

Lemma batch_take rec due d t u d' :
  batch (rec :: due) d → take_txn (event_id rec) d t = inr (u, d') →
  batch due d' ∧ taken_off rec d'.
Proof.
  intros ([Hnd Hr] & Hrec & Hn)%batch_tail Htx. split.
  - split; [done|]. intros rec' Hin. eapply ready_take; [|exact Htx|by apply Hr].
    intros Heq. apply Hn. rewrite <- Heq. by apply list_elem_of_fmap_2.
  - apply take_txn_inv in Htx as (_ & Hout & _). destruct Hrec as (r & Hin & Hm & Hh).
    eexists. rewrite Hout. split; [apply elem_of_update_where; exists r; split; [done|by left]|].
    split; [apply Hm|]. by split.
Qed.

Lemma batch_one_row id P `{!∀ r, Decision (P r)} f what due d u d' :
  one_row_txn P f what d = inr (u, d') → (∀ r, same_slot r (f r)) →
  (∀ r, P r → r_event_id r = id) → id ∉ event_id <$> due → batch due d → batch due d'.
Proof.
  intros Htx Hf HP Hn [Hnd Hr]. split; [done|]. intros rec' Hin.
  eapply ready_one_row; [exact Htx|done| |by apply Hr]. intros r Hr' Heq. apply Hn.
  rewrite <- (HP r Hr'), Heq. by apply list_elem_of_fmap_2.
Qed.

(** A pending event owes no report. *)
Lemma ready_not_owed C d ch id :
  wf d → chan_ok (mkSys d ch []) → ready C d id → id ∉ ch.
Proof.
  intros Hwf Hch (r & Hr & (Hid & Hp & _) & _) Hin. destruct (Hch id Hin) as (r' & Hr' & Hid' & Hst).
  assert (r' = r) as -> by (eapply ids_row; eauto using wf_ids; congruence). congruence.
Qed.

Lemma sim_take x rec due :
  sim x (λ d _, batch (rec :: due) d) (with_db (mark_in_flight (event_id rec)))
    (λ r d ch, match r with
               | inl _ => True
               | inr _ => batch due d ∧ taken_off rec d ∧ event_id rec ∉ ch ∧
                          event_id rec ∉ event_id <$> due
               end).
Proof.
  apply (sim_method _ _ _ (take_txn (event_id rec))).
  - apply refines_any, mark_in_flight_refines.
  - intros c Hc. by apply closed_transaction.
  - intros d ch t [] d' Hwf Hch HP Htx. split.
    + apply runs_step. intros h. by eapply (step_take lim (mkSys d ch h)).
    + destruct (batch_take _ _ _ _ _ _ HP Htx). split_and!; try done.
      * eapply ready_not_owed; [done..|]. by apply (batch_tail _ _ _ HP).
      * by apply (batch_tail _ _ _ HP).
  - done.
Qed.

Lemma sim_produce x rec due :
  sim x (λ d ch, batch due d ∧ taken_off rec d ∧ event_id rec ∉ ch ∧ event_id rec ∉ event_id <$> due)
    (produce_record cfg rec)
    (λ r d ch, match r with
               | inl _ => batch due d ∧ event_id rec ∉ ch ∧ event_id rec ∉ event_id <$> due
               | inr _ => batch due d
               end).
Proof.
  unfold produce_record.
  intros p Hok (Hb & (r & Hr & Hid & Hst & Hh) & Hn & Hnd). unfold gets, wp, mbind, M_bind. simpl.
  destruct (p_rk p && p_rkt p)%bool eqn:Hready; simpl.
  - destruct (decide (rd_kafka_producev _ _ ≠ 0)); simpl.
    + split; [by apply moves_refl|]. split; [by apply (pipe_ok_same p); try apply Hok|]. done.
    + apply andb_prop in Hready as [Hrk _].
      assert (step lim (sys p []) (mkSys (pdb p) (p_chan p ++ [event_id rec]) [Send r])) as Hstep
        by (rewrite <- Hid; apply (step_send lim (sys p [])); simpl; by rewrite ?Hid).
      split; [|split; [|done]].
      * intros h Hm. exists (h ++ [Send r]). split.
        -- apply rtc_once. unfold sys. simpl. rewrite <- Hid.
           apply (step_send lim (sys p h)); simpl; by rewrite ?Hid.
        -- destruct Hm as (Hs & Hp & Ha).
           split_and!; simpl; unfold sent_rows, admitted_rows in *; rewrite ?omap_app; simpl; rewrite ?app_nil_r; [by rewrite Hs, fmap_app| |done].
           by apply Forall2_app; [|constructor].
      * eapply (pipe_ok_steps p _ [] [Send r] Hok); simpl.
        -- by apply rtc_once.
        -- apply Hok.
        -- apply NoDup_app. split_and!; [apply Hok| |apply NoDup_singleton].
           intros i Hi ->%list_elem_of_singleton. done.
        -- rewrite Hrk. done.
  - split; [by apply moves_refl|]. done.
Qed.

(** *** Settling *)

Section settle.
Context (id : string) (due : list OutboxRecord) (F : list string → Prop).

(** The event owes no report, and the rest of the batch waits. *)
Definition unowed : View := λ d ch,
  batch due d ∧ id ∉ ch ∧ id ∉ event_id <$> due ∧ F ch.
Definition settled : View := λ d ch, batch due d ∧ F ch.

Lemma sim_retry x next error :
  sim x unowed (with_db (mark_retry id next error)) (λ _, settled).
Proof.
  apply (sim_method _ _ _ (retry_txn id next error)).
  - apply mark_retry_refines.
  - intros c Hc. by apply closed_statement.
  - intros d ch t [] d' Hwf Hch (Hb & Hn & Hnd & HF) Htx. split.
    + apply runs_step. intros h. by eapply (step_retry lim (mkSys d ch h)).
    + split; [|done].
      eapply batch_one_row; [exact Htx|by repeat split|by intros r [? _]|done|done].
  - by intros d ch e (? & _ & _ & ?).
Qed.

Lemma sim_dead x error :
  sim x unowed (with_db (mark_dead id error)) (λ _, settled).
Proof.
  apply (sim_method _ _ _ (dead_txn id error)).
  - apply mark_dead_refines.
  - intros c Hc. by apply closed_statement.
  - intros d ch t [] d' Hwf Hch (Hb & Hn & Hnd & HF) Htx. split.
    + apply runs_step. intros h. by eapply (step_dead lim (mkSys d ch h)).
    + split; [|done].
      eapply batch_one_row; [exact Htx|by repeat split|by intros r [? _]|done|done].
  - by intros d ch e (? & _ & _ & ?).
Qed.

Lemma closed_get c : c_open c = false → get id c = (Ok None, c).
Proof. intros Hc. unfold get. by rewrite Hc. Qed.

End settle.

(** *** Delivery reports *)

Definition owing (ids : list string) : View := λ _ ch, NoDup ids ∧ ids ⊆ ch.

Lemma owing_tail id ids d ch :
  owing (id :: ids) d ch → id ∈ ch ∧ ∀ d', owing ids d' (filter (.≠ id) ch).
Proof.
  intros [[Hn Hnd]%NoDup_cons Hsub]. split; [set_solver|]. intros d'. split; [done|].
  intros i Hi. apply list_elem_of_filter. split; [by intros ->|set_solver].
Qed.

Lemma consumed_ok p id : pipe_ok p → NoDup (filter (.≠ id) (p_chan p)).
Proof. intros Hok. apply NoDup_filter, Hok. Qed.

Lemma sim_consume x id ids :
  sim x (owing (id :: ids)) (consume id)
    (λ _, unowed id [] (λ ch, NoDup ids ∧ ids ⊆ ch)).
Proof.
  intros p Hok HP. destruct (owing_tail id ids (pdb p) _ HP) as [Hid Hrest]. unfold wp, consume. simpl.
  set (p' := set_chan _ _ p).
  assert (∀ h, step lim (sys p h) (sys p' h)) as Hstep.
  { intros h. apply (step_drop lim (sys p h)). apply sublist_filter. }
  split; [|split; [|split; [done|]]].
  - intros h Hm. exists h. split; [by apply rtc_once|]. by apply (same_history_messages p _ h h).
  - eapply (pipe_ok_steps p p' [] [] Hok); [by apply rtc_once|apply Hok|by apply consumed_ok|].
    simpl. intros Hrk. by rewrite (ok_rk _ Hok Hrk).
  - split; [split; [by apply NoDup_nil|by intros ? ?%not_elem_of_nil]|].
    split; [by intros [Hne _]%list_elem_of_filter|].
    split; [by apply not_elem_of_nil|apply (Hrest (pdb p))].
Qed.

(** A report whose acknowledgement was refused is consumed all the same. *)
Lemma ack_refused (x : Prop) id ids p :
  pipe_ok p → on (owing (id :: ids)) p → ∀ c e, c_txn c = None → c_db c = pdb p →
  wp (consume id;; mret (inl e : string + unit))
    (λ _ p', moves p p' ∧ pipe_ok p' ∧ p_worker p' = p_worker p ∧ on (owing ids) p')
    (λ _ p', x ∧ moves p p' ∧ pipe_ok p' ∧ p_worker p' = p_worker p) (died p) (on_conn p c).
Proof.
  intros Hok HP c e Ht Hd. destruct (moves_same p c Hok Ht Hd) as (Hmv & Hok' & _).
  assert (on (owing (id :: ids)) (on_conn p c)) as HP' by exact HP.
  apply wp_bind. eapply wp_mono; [exact (sim_consume x id ids _ Hok' HP')|..].
  - intros [] p' (Hmv' & Hok2 & Hw & (_ & _ & _ & Ho)). unfold wp. simpl.
    split; [by eapply moves_trans|]. done.
  - intros ? p' (? & Hmv' & ? & ?). split; [done|]. split; [by eapply moves_trans|]. done.
  - intros p' Hd'. by eapply moves_died.
Qed.

Lemma acked_history h r :
  sent_rows (h ++ [Ack r]) = sent_rows h ∧ admitted_rows (h ++ [Ack r]) = admitted_rows h.
Proof. unfold sent_rows, admitted_rows. rewrite !omap_app. simpl. by rewrite !app_nil_r. Qed.

(** An acknowledgement together with the consumption of its report. *)
Lemma sim_ack x id ids :
  sim x (owing (id :: ids)) (r ← with_db (mark_acked id); consume id;; mret r)
    (λ _ d ch, owing ids d ch).
Proof.
  intros p Hok HP. destruct (owing_tail id ids (pdb p) _ HP) as [Hid Hrest]. apply wp_bind, with_db_wp.
  pose proof (ok_txn _ Hok) as Htx. fold (conn p) in Htx.
  pose proof (ack_refused x id ids p Hok HP) as Hfail.
  destruct (c_open (conn p)) eqn:Ho.
  - eapply wp_mono; [exact (mark_acked_refines id (conn p) Ho Htx I)|..].
    + intros [e|[]] c (_ & Ht & Hres); [by apply (Hfail c e Ht); destruct Hres|]. unfold wp. simpl.
      set (p' := set_chan _ _ _).
      assert (∃ r, ∀ h, step lim (sys p h) (sys p' (h ++ [Ack r]))) as [r Hstep].
      { unfold ack_txn in Hres. destruct (in_flight_row id (c_db (conn p))) as [r|] eqn:Hr; [|done].
        exists r. intros h. apply (step_ack lim (sys p h) id (c_tick (conn p)) r); [done|exact Hr|].
        unfold ack_txn. simpl. unfold pdb. unfold conn in Hr, Hres. by rewrite Hr. }
      split; [|split; [|split; [done|apply Hrest]]].
      * intros h Hm. eexists. split; [apply rtc_once, Hstep|].
        by apply (same_history_messages p _ h); [|apply acked_history..|].
      * eapply (pipe_ok_steps p p' [] _ Hok); [apply rtc_once, Hstep|done|by apply consumed_ok|].
        simpl. intros Hrk. by rewrite (ok_rk _ Hok Hrk).
    + done.
    + intros c [Hd|[[] Hres]]; [by apply died_same|]. intros h Hm.
      unfold ack_txn in Hres. destruct (in_flight_row id (c_db (conn p))) as [r|] eqn:Hr; [|done].
      eexists (sys p h), _. split; [done|]. split; [by apply (same_history_messages p _ h h)|]. split.
      * eapply rtc_once, (step_ack lim (sys p h) id (c_tick (conn p)) r); [done|exact Hr|].
        unfold ack_txn. simpl. unfold pdb. unfold conn in Hr, Hres. rewrite Hr. exact Hres.
      * split; [done|]. apply acked_history.
  - unfold wp at 1. unfold mark_acked. rewrite closed_transaction by done.
    by apply (Hfail (conn p)).
Qed.

(** *** The other methods *)

Lemma sim_skip {A} x (P : View) (a : A) : sim x P (mret a) (λ _, P).
Proof. by apply sim_ret. Qed.

Lemma sim_count x P c n : sim x P (count_by c n) (λ _, P).
Proof. by apply sim_modify. Qed.

Lemma sim_halt x P : sim x P halt (λ _, P).
Proof. by apply sim_modify. Qed.

Lemma sim_request_rebuild x P : sim x P request_rebuild (λ _, P).
Proof. by apply sim_modify. Qed.

Lemma sim_if {A} x P (b : bool) (m1 m2 : M Pipe A) Q :
  sim x P m1 Q → sim x P m2 Q → sim x P (if b then m1 else m2) Q.
Proof. by destruct b. Qed.

Lemma sim_decide {A} x P (C : Prop) `{!Decision C} (m1 m2 : M Pipe A) Q :
  sim x P m1 Q → sim x P m2 Q → sim x P (if decide C then m1 else m2) Q.
Proof. by case_decide. Qed.

Lemma sim_requeue x :
  sim x (λ _ ch, ch = []) (with_db requeue_in_flight) (λ _ _ ch, ch = []).
Proof.
  apply (sim_method _ _ _ requeue_txn).
  - apply refines_any, requeue_in_flight_refines.
  - intros c Hc. by apply closed_statement.
  - intros d ch t [] d' Hwf Hch -> Htx. split; [|done]. apply runs_step. intros h.
    by eapply (step_requeue lim (mkSys d [] h)).
  - done.
Qed.

Lemma sim_expire x now ttl :
  sim x (λ _ _, True) (with_db (expire_ttl now ttl)) (λ _ _ _, True).
Proof.
  destruct (decide (ttl ≤ 0)) as [Httl|Httl].
  { unfold expire_ttl. rewrite decide_True by done. by apply with_db_ret, sim_ret. }
  apply (sim_method _ _ _ (expire_txn now ttl)).
  - apply refines_any, expire_ttl_refines.
  - intros c Hc. unfold expire_ttl. rewrite decide_False by done. by apply closed_statement.
  - intros d ch t n d' Hwf Hch _ Htx. split; [|done]. apply runs_step. intros h.
    by eapply (step_expire lim (mkSys d ch h)).
  - done.
Qed.

(** What [fetch_due] returns is a batch. *)
Lemma sim_fetch now limit :
  sim True (λ _ _, True) (with_db (fetch_due now limit)) (λ due d _, batch due d).
Proof.
  eapply sim_reads; [apply fetch_due_reads|..].
  - exists []. intros c Hc. split; [unfold fetch_due; by rewrite Hc|]. intros d ch _.
    split; [by apply NoDup_nil|by intros ? ?%not_elem_of_nil].
  - intros d ch t Hwf _. split.
    + rewrite <- list_fmap_compose. by apply due_rows_ids.
    + intros rec (r & -> & Hr)%list_elem_of_fmap. by eapply due_ready.
Qed.

Lemma sim_destroy x P : sim x P destroy_producer_unlocked (λ _ _ ch, ch = []).
Proof.
  intros p Hok _. unfold wp, destroy_producer_unlocked. simpl. set (p' := set_chan _ _ _).
  assert (p_chan p' = []) as Hch by (simpl; destruct (p_rk p) eqn:Hrk; [done|by apply ok_rk]).
  assert (∀ h, step lim (sys p h) (sys p' h)) as Hstep.
  { intros h. unfold sys. rewrite Hch. apply (step_drop lim (sys p h)). apply sublist_nil_l. }
  split; [|split; [|by split]].
  - intros h Hm. exists h. split; [apply rtc_once, Hstep|]. by apply (same_history_messages p _ h h).
  - eapply (pipe_ok_steps p p' [] []); [done|apply rtc_once, Hstep|apply Hok|..]; rewrite Hch;
      [by apply NoDup_nil|done].
Qed.

(** Creating a producer concerns the library only. *)
Lemma sim_set_producer x P : sim x P (modify (set_producer true true)) (λ _, P).
Proof.
  intros p Hok HP. unfold wp. simpl. split; [by apply moves_refl|]. split; [|done].
  destruct Hok. by split.
Qed.

Lemma sim_set_all x P settings : sim x P (set_all settings) (λ _, P).
Proof.
  induction settings as [|[key value] settings IH]; simpl; [apply sim_skip|].
  eapply sim_bind; [apply sim_next_call|]. intros n.
  destruct (rd_kafka_conf_set n key value); [apply sim_skip|exact IH].
Qed.

Lemma sim_create x P : sim x P (create_producer_unlocked cfg) (λ _, P).
Proof.
  unfold create_producer_unlocked. eapply sim_bind; [apply sim_set_all|]. intros [e|[]];
    [apply sim_skip|].
  eapply sim_bind; [apply sim_next_call|]. intros n. destruct (rd_kafka_new n); [apply sim_skip|].
  eapply sim_bind; [apply sim_next_call|]. intros n'.
  destruct (rd_kafka_topic_conf_set _ _ _); [apply sim_skip|].
  eapply sim_bind; [apply sim_next_call|]. intros n''. apply sim_if; [|apply sim_skip].
  eapply sim_bind; [apply sim_set_producer|]. intros []. apply sim_skip.
Qed.

Lemma sim_enqueue x P payload key call seq :
  seq ≤ int64_max → stable P → sim x P (enqueue cfg payload key call seq) (λ _, P).
Proof.
  intros Hseq Hst. unfold enqueue. eapply sim_bind; [apply sim_gets|]. intros acc.
  apply sim_if; [apply sim_skip|]. apply sim_decide; [apply sim_skip|].
  eapply sim_bind; [apply sim_next_word|]. intros a.
  eapply sim_bind; [apply sim_next_word|]. intros b.
  eapply sim_bind; [apply sim_now|]. intros now.
  eapply sim_bind; [by apply sim_insert|]. intros [e|n];
    (eapply sim_bind; [apply sim_count|]; intros []; apply sim_skip).
Qed.

End sim.

(** ** The worker and its environment *)

Section worker.
Context `{E : Env} `{K : Kafka} `{R : Random} `{W : World} (cfg : PipelineConfig).

(** Source sequences are 64-bit integers. *)
Definition int64_other (o : Other) : Prop :=
  match o with CallEnqueue _ _ _ seq => seq ≤ int64_max | _ => True end.
Context (Hworld : ∀ n o, o ∈ others n → int64_other o).

Lemma sim_other x P o :
  int64_other o → stable cfg P → sim cfg x P (run_other cfg o) (λ _, P).
Proof.
  intros Ho Hst. destruct o as [payload key call seq| |]; simpl.
  - eapply sim_bind; [by apply sim_enqueue|]. intros r. apply sim_skip.
  - apply sim_halt.
  - apply sim_request_rebuild.
Qed.

Lemma sim_yield x P : stable cfg P → sim cfg x P (yield cfg) (λ _, P).
Proof using Hworld.
  intros Hst. unfold yield. apply (sim_bind _ _ _ _ _ (λ _, P)).
  - intros p Hok HP. unfold wp. simpl. split; [by apply moves_refl|].
    split; [by apply (pipe_ok_same p); try apply Hok|done].
  - intros n. pose proof (Hworld n) as Hos. induction (others n) as [|o os IH]; simpl;
      [apply sim_skip|].
    eapply sim_bind; [apply sim_other; [apply Hos; left|done]|]. intros []. apply IH. set_solver.
Qed.

Lemma sim_worker_db {A} x P (m : M (Conn Db) A) Q :
  stable cfg P → sim cfg x P (with_db m) Q → sim cfg x P (worker_db cfg m) Q.
Proof using Hworld.
  intros Hst Hm. unfold worker_db. eapply sim_bind; [by apply sim_yield|]. by intros [].
Qed.

Lemma stable_chan (F : list string → Prop) : stable cfg (λ _ ch, F ch).
Proof. by intros d ch t rec a d' _. Qed.

(** *** Failed sends and delivery reports *)

Lemma unowed_stable id due F : stable cfg (unowed id due F).
Proof. intros d ch t rec a d' Htx (Hb & H). split; [by eapply batch_stable|exact H]. Qed.

Lemma sim_settle id due F max_attempts error permanent :
  sim cfg True (unowed id due F) (settle_send_failure cfg max_attempts id error permanent)
    (λ _, settled due F).
Proof using Hworld.
  assert (∀ res : SendFailureResult, sim cfg True (unowed id due F) (mret res) (λ _, settled due F))
    as Hret by (intros res; by apply sim_ret; intros d ch (? & _ & _ & ?)).
  unfold settle_send_failure. apply (sim_bind _ _ _ _ _ (λ _, unowed id due F)).
  { apply sim_worker_db; [apply unowed_stable|]. eapply sim_reads; [apply get_reads| |done].
    exists None. intros c Hc. split; [by apply closed_get|done]. }
  intros [cur|]; [|apply Hret]. destruct (state cur); [apply Hret| |apply Hret]. case_decide.
  - eapply sim_bind; [apply sim_worker_db; [apply unowed_stable|apply sim_dead]|]. intros r.
    by apply sim_ret.
  - eapply sim_bind; [apply sim_now|]. intros now. eapply sim_bind.
    + unfold attempt_backoff_ms. apply with_db_bind. eapply sim_bind; [apply sim_now|]. intros n.
      apply with_db_ret. by apply (sim_ret _ _ _ _ (λ _, unowed id due F)).
    + intros b. eapply sim_bind; [apply sim_worker_db; [apply unowed_stable|apply sim_retry]|].
      intros r. by apply sim_ret.
Qed.

(** An acknowledgement, counted, or the error. *)
Lemma sim_acked id ids :
  sim cfg True (owing (id :: ids))
    (r ← worker_db cfg (mark_acked id); consume id;;
     match r with inl e => mret (Some e) | inr _ => count acked;; mret None end) (λ _, owing ids).
Proof using Hworld.
  unfold worker_db.
  assert (sim cfg True (owing (id :: ids)) (yield cfg;;
    ((r ← with_db (mark_acked id); consume id;; mret r) ≫= λ r,
     match r with inl e => mret (Some e) | inr _ => count acked;; mret None end)) (λ _, owing ids)) as Hs.
  { eapply sim_bind; [apply sim_yield, (stable_chan (λ ch, NoDup (id :: ids) ∧ id :: ids ⊆ ch))|].
    intros []. eapply sim_bind; [apply sim_ack|]. intros [e|[]]; [apply sim_skip|].
    eapply sim_bind; [apply sim_count|]. intros []. apply sim_skip. }
  intros p Hok HP. specialize (Hs p Hok HP). revert Hs. unfold wp, mbind, M_bind.
  destruct (yield cfg p) as [[[]|e|] p1]; [|done..]. by destruct (with_db (mark_acked id) p1) as [[] ?].
Qed.

Lemma sim_on_delivery id err ids :
  sim cfg True (owing (id :: ids)) (on_delivery cfg id err) (λ _, owing ids).
Proof using Hworld.
  assert (∀ (o : option string) (P : View), sim cfg True P
    (match o with Some _ => count state_errors;; halt | None => mret tt end) (λ _, P)) as Hend.
  { intros [e|] P; [|apply sim_skip]. eapply sim_bind; [apply sim_count|]. intros []. apply sim_halt. }
  unfold on_delivery. apply (sim_bind _ _ _ _ _ (λ _, owing ids)); [|intros o; apply Hend].
  apply sim_decide; [|apply sim_acked].
  eapply sim_bind; [apply (sim_consume _ _ id ids)|]. intros [].
  eapply sim_bind; [apply sim_count|]. intros [].
  eapply sim_bind; [apply sim_decide; [apply sim_request_rebuild|apply sim_skip]|]. intros [].
  eapply sim_bind; [apply sim_settle|]. intros [| |e].
  - by apply sim_ret; intros d ch [_ ?].
  - eapply sim_bind; [apply sim_count|]. intros []. by apply sim_ret; intros d ch [_ ?].
  - by apply sim_ret; intros d ch [_ ?].
Qed.

Lemma sim_deliver reports :
  sim cfg True (owing reports.*1) (deliver cfg reports) (λ _ _ _, True).
Proof using Hworld.
  induction reports as [|[id err] reports IH]; simpl; [by apply sim_ret|].
  eapply sim_bind; [apply sim_on_delivery|]. intros []. exact IH.
Qed.

Context `{!KafkaLaws K}.

Lemma sim_serve P : sim cfg True P (serve_reports cfg) (λ _ _ _, True).
Proof using Hworld KafkaLaws0.
  unfold serve_reports. eapply sim_bind; [apply sim_next_call|]. intros n.
  intros p Hok HP. apply (sim_deliver (rd_kafka_serve n (p_chan p)) p Hok).
  by apply served_outstanding, Hok.
Qed.

Lemma sim_send_batch due :
  sim cfg True (λ d _, batch due d) (send_batch cfg due) (λ _ _ _, True).
Proof using Hworld.
  induction due as [|rec due IH]; simpl; [by apply sim_ret|].
  eapply sim_bind; [apply sim_gets|]. intros go. apply sim_if; [by apply sim_ret|].
  eapply sim_bind; [apply sim_worker_db; [apply batch_stable|apply sim_take]|].
  intros [e|[]]; [apply sim_throw|].
  eapply sim_bind; [apply sim_produce|]. intros r.
  apply (sim_bind _ _ _ _ _ (λ _ d _, batch due d)); [|intros []; exact IH].
  destruct r as [why|[]]; [|apply sim_count].
  eapply sim_bind; [apply sim_count|]. intros [].
  eapply sim_bind; [apply sim_if; [apply sim_request_rebuild|apply sim_skip]|]. intros [].
  apply (sim_bind _ _ _ _ _ (λ _, settled due (λ _, True))).
  - eapply sim_conseq; [exact (sim_settle (event_id rec) due (λ _, True) _ _ _)|done| |done].
    by intros d ch (? & ? & ?).
  - intros [| |e]; [|apply (sim_conseq cfg True True _ (λ d _, batch due d) _ _ (λ _ d _, batch due d)
                       (sim_count _ _ _ _ _)); try done|apply sim_throw].
    + by apply sim_ret; intros d ch [? _].
    + by intros d ch [? _].
Qed.

Lemma sim_rebuild P : sim cfg True P (rebuild_producer cfg) (λ _ _ _, True).
Proof using Hworld KafkaLaws0.
  unfold rebuild_producer. eapply sim_bind; [apply sim_gets|]. intros rk.
  apply (sim_bind _ _ _ _ _ (λ _ _ _, True)).
  { apply sim_if; [apply sim_serve|by apply sim_ret]. }
  intros []. eapply sim_bind; [apply sim_destroy|]. intros [].
  eapply sim_bind; [apply sim_worker_db; [apply (stable_chan (λ ch, ch = []))|apply sim_requeue]|].
  intros r. apply (sim_bind _ _ _ _ _ (λ _ _ _, True)).
  - destruct r as [e|[]]; [by apply sim_ret|].
    eapply sim_conseq; [apply (sim_create cfg True (λ _ _, True))|done..].
  - intros [e|[]]; [apply sim_throw|apply sim_count].
Qed.

Lemma stable_true : stable cfg (λ _ _, True).
Proof. by intros d ch t rec a d' _. Qed.

Lemma sim_turn P : sim cfg True P (worker_turn cfg) (λ _ _ _, True).
Proof using Hworld KafkaLaws0.
  unfold worker_turn. eapply sim_bind; [apply sim_gets|]. intros rebuild.
  eapply sim_bind; [by apply sim_modify|]. intros [].
  apply (sim_bind _ _ _ _ _ (λ _ _ _, True)).
  { apply sim_if; [apply sim_rebuild|by apply sim_ret]. }
  intros []. eapply sim_bind; [apply sim_gets|]. intros running. apply sim_if; [apply sim_skip|].
  eapply sim_bind; [apply sim_now|]. intros now.
  eapply sim_bind; [apply sim_worker_db; [apply stable_true|apply sim_expire]|].
  intros [e|n]; [apply sim_throw|]. eapply sim_bind; [apply sim_count|]. intros [].
  eapply sim_bind; [apply sim_worker_db; [apply stable_true|apply sim_fetch]|]. intros due.
  eapply sim_bind; [apply sim_send_batch|]. intros [].
  eapply sim_bind; [apply sim_gets|]. intros rk. apply sim_if; [apply sim_serve|apply sim_skip].
Qed.

Lemma sim_turns n : sim cfg True (λ _ _, True) (turns_of_loop cfg n) (λ _ _ _, True).
Proof using Hworld KafkaLaws0.
  induction n as [|n IH]; simpl; (eapply sim_bind; [apply sim_gets|]; intros running;
    apply sim_if; [apply sim_skip|]); [apply sim_skip|].
  eapply sim_bind; [apply sim_turn|]. intros []. exact IH.
Qed.

(** The worker never lets an exception escape from its loop. *)
Lemma sim_caught n :
  sim cfg False (λ _ _, True) (catch (turns_of_loop cfg n) (λ _, count state_errors;; halt))
    (λ _ _ _, True).
Proof using Hworld KafkaLaws0.
  intros p Hok HP. pose proof (sim_turns n p Hok HP) as Hs. unfold wp, catch in *.
  destruct (turns_of_loop cfg n p) as [[[]|e|] p1]; [exact Hs| |exact Hs].
  destruct Hs as (_ & Hmv & Hok1 & Hw). simpl.
  split; [exact Hmv|]. split; [by apply (pipe_ok_same p1); try apply Hok1|done].
Qed.

(** ** Whole calls *)

(** While no worker exists, no report is owed. *)
Definition idle (p : Pipe) : Prop := p_worker p = NoWorker → p_chan p = [].

(** What every call guarantees: it never throws, and moves along runs of the system. *)
Definition call_ok {A} (m : M Pipe A) : Prop := ∀ p, pipe_ok p → idle p →
  wp m (λ _ p', moves cfg p p' ∧ pipe_ok p' ∧ idle p') (λ _ _, False) (died cfg p) p.

(** The end of the thread function: an exception terminates the process. *)
Lemma worker_exit_moves p :
  pipe_ok p →
  wp (noexcept (worker_exit cfg)) (λ _ p', moves cfg p p' ∧ pipe_ok p' ∧ p_worker p' = Returned)
    (λ _ _, False) (died cfg p) p.
Proof using Hworld KafkaLaws0.
  intros Hok. set (flushes := rk ← gets p_rk;
    (if rk : bool then serve_reports cfg;; serve_reports cfg else mret tt)).
  assert (sim cfg True (λ _ _, True) flushes (λ _ _ _, True)) as Hs.
  { eapply sim_bind; [apply sim_gets|]. intros rk. apply sim_if; [|apply sim_skip].
    eapply sim_bind; [apply sim_serve|]. intros []. apply sim_serve. }
  specialize (Hs p Hok I). unfold wp, noexcept, worker_exit in *.
  assert ((rk ← gets p_rk; (if rk : bool then serve_reports cfg;; serve_reports cfg else mret tt);;
    modify (set_worker Returned)) p = (flushes;; modify (set_worker Returned)) p) as ->.
  { unfold flushes, mbind, M_bind, gets. done. }
  unfold mbind at 1, M_bind at 1. destruct (flushes p) as [[[]|e|] p1]; simpl.
  - destruct Hs as (Hmv & Hok1 & _). split; [exact Hmv|].
    split; [by apply (pipe_ok_same p1); try apply Hok1|done].
  - destruct Hs as (_ & Hmv & Hok1 & _). by apply moved_died.
  - exact Hs.
Qed.

Lemma worker_loop_ok n : call_ok (w ← gets p_worker;
  if decide (w = Working) then worker_loop cfg n else mret tt).
Proof using Hworld KafkaLaws0.
  intros p Hok Hidle. unfold gets, wp, mbind at 1, M_bind at 1.
  case_decide as Hwk; [|split; [by apply moves_refl|done]].
  pose proof (sim_caught n p Hok I) as Hs. unfold worker_loop, noexcept, wp, mbind, M_bind in *.
  destruct (catch _ _ p) as [[[]|e|] p1]; [|by destruct Hs|exact Hs].
  destruct Hs as (Hmv & Hok1 & Hw1 & _). unfold gets at 1. destruct (negb (p_running p1)).
  - pose proof (worker_exit_moves p1 Hok1) as He. unfold wp, noexcept in He.
    destruct (worker_exit cfg p1) as [[[]|e|] p2]; simpl in *.
    + destruct He as (Hmv2 & Hok2 & Hw2). split; [by eapply moves_trans|]. split; [done|].
      intros Hno. congruence.
    + by eapply moves_died.
    + by eapply moves_died.
  - split; [done|]. split; [done|]. intros Hno. simpl in Hno. congruence.
Qed.

(** *** [start] *)

Lemma sim_open x P flock_ok : sim cfg x P (with_handle (open flock_ok)) (λ _, P).
Proof.
  intros p Hok HP. destruct (c_open (h_conn (p_outbox p))) eqn:Ho.
  - unfold wp, with_handle, open. rewrite Ho. split; [by apply moves_refl|].
    split; [|done]. by apply (pipe_ok_same p); try apply Hok.
  - assert (file_ok (c_db (h_conn (p_outbox p)))) as Hfile.
    { intros Hno. destruct (ok_schema _ Hok) as (_ & Ht & _). unfold pdb in Ht. congruence. }
    pose proof (open_refines flock_ok (p_outbox p) Ho (ok_txn _ Hok) Hfile) as Hr.
    rewrite (open_txn_wf _ _ (ok_wf _ Hok) (ok_schema _ Hok)) in Hr.
    unfold wp, with_handle in *. unfold opened in Hr.
    rewrite (open_txn_wf _ _ (ok_wf _ Hok) (ok_schema _ Hok)) in Hr.
    destruct (open flock_ok (p_outbox p)) as [[[e|[]]|e|] h].
    + destruct Hr as (_ & _ & Ht & Hd & _). fold (pdb p) in Hd.
      split; [by apply moves_refl|]. split; [by apply (pipe_ok_same p)|].
      split; [done|]. unfold on, pdb. simpl. by rewrite Hd.
    + destruct Hr as (_ & _ & _ & Ht & Hd). injection Hd as Hd. fold (pdb p) in Hd.
      split; [by apply moves_refl|]. split; [by apply (pipe_ok_same p)|].
      split; [done|]. unfold on, pdb. simpl. by rewrite <- Hd.
    + done.
    + assert (durable (h_conn h) = pdb p) as Hd by (destruct Hr as [?|Hr]; [done|by injection Hr]).
      intros hs Hm. exists (sys p hs), (sys p hs). by split_and!.
Qed.

Lemma sim_close x P : sim cfg x P close_outbox (λ _, P).
Proof.
  intros p Hok HP. unfold wp, close_outbox. simpl. pose proof (ok_txn _ Hok) as Ht.
  assert (pdb (set_outbox_handle (close (p_outbox p)) p) = pdb p ∧
          c_txn (h_conn (close (p_outbox p))) = None) as [Hd Ht'].
  { unfold pdb, close. simpl. destruct (c_open _); simpl; [|done]. unfold durable. by rewrite Ht. }
  split; [by apply moves_refl|]. split; [by apply (pipe_ok_same p)|]. split; [done|].
  unfold on. by rewrite Hd.
Qed.

(** What [start] does on an idle pipeline up to the launch of the worker. *)
Definition start_body (flock_ok : bool) : M Pipe (string + unit) :=
  r ← with_handle (open flock_ok);
  match r with
  | inl err => mret (inl err)
  | inr _ =>
      r ← with_db requeue_in_flight;
      r ← match r with
          | inl err => mret (inl err)
          | inr _ => create_producer_unlocked cfg
          end;
      match r with
      | inl err => close_outbox;; mret (inl err)
      | inr _ => mret (inr tt)
      end
  end.

Lemma sim_start flock_ok :
  sim cfg False (λ _ ch, ch = []) (start_body flock_ok) (λ _ _ ch, ch = []).
Proof.
  unfold start_body. eapply sim_bind; [apply sim_open|]. intros [e|[]]; [by apply sim_ret|].
  eapply sim_bind; [apply sim_requeue|]. intros r.
  apply (sim_bind _ _ _ _ _ (λ _ _ ch, ch = [])).
  - destruct r as [e|[]]; [by apply sim_ret|apply sim_create].
  - intros [e|[]]; [|by apply sim_ret]. eapply sim_bind; [apply sim_close|]. intros [].
    by apply sim_ret.
Qed.

Lemma start_launches flock_ok p :
  p_worker p = NoWorker → p_running p = false →
  start cfg flock_ok p = (r ← start_body flock_ok;
    match r with
    | inl err => mret (inl err)
    | inr _ => modify (λ p, set_worker Working (set_flags true true false p));; mret (inr tt)
    end) p.
Proof.
  intros Hw Hr. unfold start, start_body, gets, mbind, M_bind. rewrite Hw, Hr.
  rewrite decide_False by (intros [?|?]; done).
  destruct (with_handle (open flock_ok) p) as [[[e|[]]|e|] p1]; try done.
  destruct (with_db requeue_in_flight p1) as [[[e|[]]|e|] p2]; try done.
  destruct (create_producer_unlocked cfg p2) as [[[e|[]]|e|] p3]; done.
Qed.

Lemma start_ok flock_ok : call_ok (start cfg flock_ok;; mret tt).
Proof.
  intros p Hok Hidle. unfold wp, mbind at 1, M_bind at 1.
  destruct (decide (p_worker p ≠ NoWorker ∨ p_running p = true)) as [Hno|Hyes].
  { unfold start, gets, mbind, M_bind. rewrite decide_True by done. simpl.
    split; [by apply moves_refl|done]. }
  assert (p_worker p = NoWorker ∧ p_running p = false) as [Hw Hr].
  { destruct (p_worker p), (p_running p); naive_solver. }
  rewrite (start_launches _ _ Hw Hr). pose proof (sim_start flock_ok p Hok (Hidle Hw)) as Hs.
  unfold wp, mbind, M_bind in *. destruct (start_body flock_ok p) as [[[e|[]]|e|] p1]; simpl;
    [..|by destruct Hs|exact Hs]; destruct Hs as (Hmv & Hok1 & Hw1 & Hch).
  - split; [done|]. split; [done|]. intros _. exact Hch.
  - split; [exact Hmv|]. split; [by apply (pipe_ok_same p1); try apply Hok1|done].
Qed.

(** *** [stop], [enqueue] and the rest *)

Lemma stop_ok : call_ok (stop cfg).
Proof using Hworld KafkaLaws0.
  assert (∀ p p0, moves cfg p0 p → pipe_ok p →
    wp (modify (set_worker NoWorker);; destroy_producer_unlocked;; close_outbox)
      (λ _ p', moves cfg p0 p' ∧ pipe_ok p' ∧ idle p') (λ _ _, False) (died cfg p0) p) as Hend.
  { intros p p0 Hmv Hok. set (p1 := set_worker NoWorker p).
    assert (moves cfg p0 p1 ∧ pipe_ok p1) as [Hmv1 Hok1].
    { split; [exact Hmv|by apply (pipe_ok_same p); try apply Hok]. }
    assert (sim cfg False (λ _ _, True) (destroy_producer_unlocked;; close_outbox) (λ _ _ ch, ch = []))
      as Hs by (eapply sim_bind; [apply sim_destroy|intros []; apply sim_close]).
    specialize (Hs p1 Hok1 I). unfold wp in *.
    change ((modify (set_worker NoWorker);; destroy_producer_unlocked;; close_outbox) p)
      with ((destroy_producer_unlocked;; close_outbox) p1).
    destruct ((destroy_producer_unlocked;; close_outbox) p1) as [[[]|e|] p2]; [|by destruct Hs|].
    - destruct Hs as (Hmv2 & Hok2 & _ & Hch). split; [by eapply moves_trans|]. split; [done|].
      intros _. exact Hch.
    - by eapply moves_died. }
  intros p Hok Hidle. unfold stop. set (ph := set_flags false false (p_rebuild p) p).
  assert (moves cfg p ph ∧ pipe_ok ph) as [Hmvh Hokh].
  { split; [by apply moves_refl|by apply (pipe_ok_same p); try apply Hok]. }
  change (wp (w ← gets p_worker; (if decide (w = Working) then noexcept (worker_exit cfg) else mret tt);;
    modify (set_worker NoWorker);; destroy_producer_unlocked;; close_outbox)
    (λ _ p', moves cfg p p' ∧ pipe_ok p' ∧ idle p') (λ _ _, False) (died cfg p) ph).
  apply wp_bind. unfold gets, wp at 1. apply wp_bind. case_decide.
  - eapply wp_mono; [exact (worker_exit_moves ph Hokh)|..]; simpl.
    + intros [] p1 (Hmv & Hok1 & _). apply Hend; [exact (moves_trans cfg _ _ _ Hmvh Hmv)|done].
    + done.
    + intros p1 Hd. exact (moves_died cfg _ _ _ Hmvh Hd).
  - unfold wp at 1. simpl. by apply Hend.
Qed.

Definition int64_call (c : Call) : Prop :=
  match c with DoEnqueue _ _ _ seq => seq ≤ int64_max | _ => True end.

Lemma enqueue_ok payload key call seq :
  seq ≤ int64_max → call_ok (enqueue cfg payload key call seq;; mret tt).
Proof.
  intros Hseq p Hok Hidle. set (P := λ (_ : Db) ch, ch = p_chan p).
  assert (sim cfg False P (enqueue cfg payload key call seq;; mret tt) (λ _, P)) as Hs.
  { eapply sim_bind; [apply (sim_enqueue cfg _ P); [done|exact (stable_chan (λ ch, ch = p_chan p))]|]. intros r. apply sim_skip. }
  specialize (Hs p Hok eq_refl). unfold wp in *.
  destruct ((enqueue cfg payload key call seq;; mret tt) p) as [[a|e|] p']; [|by destruct Hs|exact Hs].
  destruct Hs as (Hmv & Hok' & Hw & Hch). split; [done|]. split; [done|].
  intros Hno. rewrite Hw in Hno. unfold on, P in Hch. rewrite Hch. by apply Hidle.
Qed.

Lemma run_call_ok c : int64_call c → call_ok (run_call cfg c).
Proof using Hworld KafkaLaws0.
  intros Hc. destruct c as [flock_ok|payload key call seq|n| |]; simpl.
  - apply start_ok.
  - by apply enqueue_ok.
  - apply worker_loop_ok.
  - intros p Hok Hidle. unfold wp. simpl. split; [by apply moves_refl|].
    split; [by apply (pipe_ok_same p); try apply Hok|done].
  - apply stop_ok.
Qed.

Lemma run_calls_ok cs : (∀ c, c ∈ cs → int64_call c) → call_ok (run_calls cfg cs).
Proof using Hworld KafkaLaws0.
  induction cs as [|c cs IH]; intros Hcs p Hok Hidle; simpl.
  - unfold wp. simpl. split; [by apply moves_refl|done].
  - apply wp_bind. eapply wp_mono; [apply (run_call_ok c); [apply Hcs; left|done|done]|..].
    + intros [] p1 (Hmv & Hok1 & Hidle1).
      eapply wp_mono; [apply IH; [set_solver|done|done]|..].
      * intros [] p2 (Hmv2 & ? & ?). split; [by eapply moves_trans|done].
      * done.
      * intros p2 Hd. by eapply moves_died.
    + done.
    + done.
Qed.

(** A whole run from a file, and what the system was when it ended or died. *)
Lemma run_calls_history d0 cs :
  wf d0 → current_schema d0 → (∀ c, c ∈ cs → int64_call c) →
  wp (run_calls cfg cs)
    (λ _ p, ∃ h, reachable (limits cfg) d0 (sys p h) ∧ same_messages cfg p h) (λ _ _, False)
    (λ p, ∃ s0 s, reachable (limits cfg) d0 s0 ∧ same_messages cfg p (hist s0) ∧ rtc (step (limits cfg)) s0 s ∧
       db s = durable (conn p) ∧ sent_rows (hist s) = sent_rows (hist s0)) (new_pipe d0).
Proof using Hworld KafkaLaws0.
  intros Hwf Hsch Hcs.
  assert (pipe_ok (new_pipe d0)) as Hok.
  { split; try done; [by intros id Hid%not_elem_of_nil|by apply NoDup_nil]. }
  assert (same_messages cfg (new_pipe d0) []) as H0 by (by split_and!).
  eapply wp_mono; [exact (run_calls_ok cs Hcs (new_pipe d0) Hok (λ _, eq_refl))|..].
  - intros [] p (Hmv & _). exact (Hmv [] H0).
  - done.
  - intros p Hd. exact (Hd [] H0).
Qed.
End worker.

(** ** What the history says of the messages *)

Section origin.
Context `{E : Env} (cfg : PipelineConfig).

(** A record handed over holds an event of the first file, or one that [enqueue] had admitted. *)
Lemma produced_origin d0 p s rec :
  wf d0 → reachable (limits cfg) d0 s → same_messages cfg p (hist s) → rec ∈ p_produced p →
  (∃ r, r ∈ outbox d0 ∧ same_event (record r) rec) ∨
  (∃ rec0 n, (rec0, n) ∈ p_admitted p ∧ same_event (numbered rec0 n) rec).
Proof.
  intros Hwf Hr (_ & Hp & Ha) Hrec.
  apply list_elem_of_lookup in Hrec as [i Hi].
  destruct (Forall2_lookup_l _ _ _ _ _ Hp Hi) as (r & Hin%list_elem_of_lookup_2 & Hsame).
  apply list_elem_of_omap in Hin as (ev & Hev & He). destruct ev as [|r'| |]; simplify_eq.
  destruct (h_sent _ _ (history_reachable _ d0 s Hwf Hr) r Hev) as (r0 & [Hr0|Hr0] & Hc);
    apply same_content_event in Hc; apply same_event_sym in Hsame.
  - left. exists r0. split; [done|]. by eapply same_event_trans.
  - right. assert (r0 ∈ admitted_rows (hist s)) as Hadm by (apply list_elem_of_omap; by exists (Admit r0)).
    apply list_elem_of_lookup in Hadm as [j Hj].
    destruct (Forall2_lookup_r _ _ _ _ _ Ha Hj) as ([rec0 n] & Hin%list_elem_of_lookup_2 & Has).
    exists rec0, n. split; [done|]. eapply same_event_trans; [exact Has|]. by eapply same_event_trans.
Qed.

(** Two sends of a history, in order. *)
Lemma sent_split h i j r1 r2 :
  (i < j)%nat → sent_rows h !! i = Some r1 → sent_rows h !! j = Some r2 →
  ∃ h1 h2 h3, h = h1 ++ Send r1 :: h2 ++ Send r2 :: h3.
Proof.
  intros Hij (l1 & l2 & Heq & Hl1)%list_elem_of_split_length Hj. rewrite Heq in Hj.
  assert (r2 ∈ l2) as (l3 & l4 & ->)%list_elem_of_split.
  { rewrite lookup_app_r in Hj by lia.
    replace (j - length l1)%nat with (S (j - length l1 - 1)) in Hj by lia. by eapply list_elem_of_lookup_2. }
  apply omap_split in Heq as (h1 & e1 & h' & -> & He1 & _ & H2).
  apply omap_split in H2 as (h2 & e2 & h3 & -> & He2 & _).
  destruct e1, e2; simplify_eq. by exists h1, h2, h3.
Qed.

(** The row behind the record at place [i]. *)
Lemma produced_row p h i rec :
  same_messages cfg p h → p_produced p !! i = Some rec →
  ∃ r, sent_rows h !! i = Some r ∧ Send r ∈ h ∧ topic rec = r_topic r ∧
    call_uuid rec = coalesce "" (r_call_uuid r) ∧ call_seq rec = coalesce (-1) (r_call_seq r).
Proof.
  intros (_ & Hp & _) Hi. destruct (Forall2_lookup_l _ _ _ _ _ Hp Hi) as (r & Hr & (_ & Ht & _ & _ & Hu & Hq)).
  exists r. split_and!; try done. apply list_elem_of_lookup_2, list_elem_of_omap in Hr as ([] & Hin & ?).
  all: by simplify_eq.
Qed.

Lemma produced_in_order d0 p s i j rec1 rec2 :
  wf d0 → reachable (limits cfg) d0 s → same_messages cfg p (hist s) → (i < j)%nat →
  p_produced p !! i = Some rec1 → p_produced p !! j = Some rec2 →
  topic rec1 = topic rec2 → call_uuid rec1 = call_uuid rec2 → call_uuid rec1 ≠ "" →
  call_seq rec1 ≤ call_seq rec2.
Proof.
  intros Hwf Hr Hm Hij Hi Hj Ht Hu Hne. pose proof (history_reachable _ d0 s Hwf Hr) as Hok.
  destruct (produced_row p _ i rec1 Hm Hi) as (r1 & L1 & S1 & T1 & U1 & ->).
  destruct (produced_row p _ j rec2 Hm Hj) as (r2 & L2 & S2 & T2 & U2 & ->).
  assert (∀ r, coalesce "" (r_call_uuid r) = call_uuid rec1 →
    row_call r = Some (r_topic r, call_uuid rec1)) as Hcall.
  { intros r Hru. apply row_call_Some. destruct (r_call_uuid r); simpl in *; by subst. }
  pose proof (Hcall r1 (eq_sym U1)) as K1.
  pose proof (Hcall r2 ltac:(congruence)) as K2.
  assert (r_topic r2 = r_topic r1) as Htop by congruence. rewrite Htop in K2.
  destruct (h_numbered _ _ Hok r1 _ S1 K1) as [n1 N1]. destruct (h_numbered _ _ Hok r2 _ S2 K2) as [n2 N2].
  rewrite N1, N2. simpl.
  destruct (sent_split (hist s) i j r1 r2 Hij L1 L2) as (h1 & h2 & h3 & Hh).
  by eapply (sends_in_order d0 s h1 r1 h2 r2 h3 _ n1 n2 Hok Hh).
Qed.
End origin.
