(* ===== verification/Liveness.v ===== *)
(** An undisturbed pipeline delivers its backlog: SQLite does not fail, librdkafka accepts every
    message and reports success for each at the next poll, nobody else calls. *)
From S2P Require Import Prelude Sqlite Tables Outbox OutboxSpec OutboxInv Open System Schedule Ages.
From S2P Require Import Drain EventId Pipeline Backoff PipelineSim.

(** ** Without faults nothing dies *)

(** [m] is never cut off by the death of the process. *)
Class Survives {S A} (m : M S A) : Prop := survives s : fst (m s) ≠ Killed.

Section survives.
Context `{E : Env} (Hquiet : ∀ n, sq_fault n = None).
#[local] Transparent sq_call sq_exec sq_read query prepare bind_call sqlite3_changes wall_now_ms.

#[local] Instance survives_bind {S A B} (m : M S A) (k : A → M S B) :
  Survives m → (∀ a, Survives (k a)) → Survives (m ≫= k).
Proof.
  intros Hm Hk s. unfold mbind, M_bind. pose proof (Hm s) as H.
  destruct (m s) as [[a|e|] s']; [apply Hk|done|done].
Qed.
#[local] Instance survives_ret {S A} (a : A) : Survives (mret a : M S A).
Proof. by intros s. Qed.
#[local] Instance survives_throw {S A} e : Survives (throw e : M S A).
Proof. by intros s. Qed.
#[local] Instance survives_ensure {S} (P : Prop) `{!Decision P} e : Survives (ensure P e : M S unit).
Proof. unfold ensure. case_decide; apply _. Qed.
#[local] Instance survives_try {S A} (m : M S A) : Survives m → Survives (try_err m).
Proof. intros Hm s. unfold try_err. pose proof (Hm s) as H. by destruct (m s) as [[] ?]. Qed.
#[local] Instance survives_decide {S A} (P : Prop) `{!Decision P} (m1 m2 : M S A) :
  Survives m1 → Survives m2 → Survives (if decide P then m1 else m2).
Proof. by case_decide. Qed.
#[local] Instance survives_io {D A} (eff : Conn D → Outcome A * Conn D) :
  (∀ c, fst (eff c) ≠ Killed) → Survives (sq_io eff).
Proof. intros He c. unfold sq_io. rewrite Hquiet. apply He. Qed.
#[local] Instance survives_call {D} : Survives (sq_call : M (Conn D) unit).
Proof. intros c. cbv [sq_call commit sq_io]. by rewrite Hquiet. Qed.
#[local] Instance survives_exec {D} (f : D → SqError + (D * Z)) : Survives (sq_exec f).
Proof. intros c. cbv [sq_exec sq_io]. rewrite Hquiet. simpl. by destruct (f (c_db c)) as [|[]]. Qed.
#[local] Instance survives_read {D A} (f : D → A) : Survives (sq_read f).
Proof. by intros c. Qed.
#[local] Instance survives_changes {D} : Survives (sqlite3_changes : M (Conn D) Z).
Proof. by intros c. Qed.
#[local] Instance survives_now {D} : Survives (wall_now_ms : M (Conn D) Z).
Proof. by intros c. Qed.
#[local] Instance survives_prepare {D} : Survives (prepare : M (Conn D) unit).
Proof. intros c. unfold prepare. destruct (c_open c); [apply survives_call|done]. Qed.
#[local] Instance survives_bind_call {D} what : Survives (bind_call what : M (Conn D) unit).
Proof.
  intros c. unfold bind_call. pose proof (survives_call c) as H. by destruct (sq_call c) as [[] ?].
Qed.
#[local] Instance survives_query {D A} (f : D → A) : Survives (query f).
Proof. unfold query. apply _. Qed.
#[local] Instance survives_rows {D A} (rows : list A) : Survives (step_rows rows : M (Conn D) (list A)).
Proof. induction rows; simpl; apply _. Qed.
#[local] Instance survives_transaction {D A} (m : M (Conn D) A) :
  Survives m → Survives (scoped_transaction m).
Proof.
  intros Hm. apply survives_bind.
  - intros c. unfold begin_immediate. destruct (c_open c); [|done]. apply survives_io.
    intros c'. by destruct (c_txn c').
  - intros _ c. unfold with_destructor. pose proof (Hm c) as H. by destruct (m c) as [[] ?].
Qed.
#[local] Instance survives_commit {D} : Survives (commit : M (Conn D) unit).
Proof. intros c. cbv [sq_call commit sq_io]. by rewrite Hquiet. Qed.

#[local] Opaque sq_call sq_exec sq_read query prepare bind_call sqlite3_changes wall_now_ms.

Lemma mark_in_flight_survives id : Survives (mark_in_flight id).
Proof. unfold mark_in_flight, mark_in_flight_body, bind_text, bind_int. apply _. Qed.
Lemma mark_acked_survives id : Survives (mark_acked id).
Proof.
  unfold mark_acked, mark_acked_body, bind_text, bind_int.
  apply survives_try, survives_transaction, survives_bind; [|apply _].
  repeat (apply survives_bind; [apply _|intros ?]). case_match; apply _.
Qed.
Lemma expire_ttl_survives now ttl : Survives (expire_ttl now ttl).
Proof. unfold expire_ttl, bind_int. apply _. Qed.
Lemma fetch_due_survives now limit : Survives (fetch_due now limit).
Proof.
  intros c. unfold fetch_due. destruct (c_open c); [|done]. revert c.
  change (Survives (prepare;; bind_int;; bind_int;; rows ← sq_read (due_rows now limit);
    rows' ← step_rows rows; mret (record <$> rows') : M (Conn Db) (list OutboxRecord))).
  unfold bind_int. apply _.
Qed.
End survives.

(** ** An undisturbed pipeline *)

Section liveness.
Context `{E : Env, K : Kafka, R : Random, W : World} (cfg : PipelineConfig).
Context (Hquiet : ∀ n, sq_fault n = None) (Halone : ∀ n, others n = []).
Context (Haccept : ∀ n m, rd_kafka_producev n m = 0).
Context (Hreport : ∀ n ids, rd_kafka_serve n ids = (λ id, (id, 0)) <$> ids).

(** A running pipeline on the contents [d], with the reports [ch] outstanding and [sent] sent. *)
Record running_on (d : Db) (ch : list string) (sent : list Message) (p : Pipe) : Prop := {
  ro_open : c_open (conn p) = true;
  ro_txn : c_txn (conn p) = None;
  ro_db : pdb p = d;
  ro_running : p_running p = true;
  ro_rebuild : p_rebuild p = false;
  ro_producer : p_rk p = true ∧ p_rkt p = true;
  ro_chan : p_chan p = ch;
  ro_sent : p_sent p = sent;
}.

Abbreviation never := (λ _ : Pipe, False).
Abbreviation never_throws := (λ (_ : string) (_ : Pipe), False).

Lemma running_conn d ch sent p c :
  running_on d ch sent p → c_open c = true → c_txn c = None →
  running_on (c_db c) ch sent (on_conn p c).
Proof. by intros []. Qed.

(** A method whose transaction is accepted. *)
Lemma live_method {A} (m : M (Conn Db) (string + A)) spec d ch sent p :
  running_on d ch sent p → ids_unique d → refines ids_unique m spec → Survives m →
  (∀ t, ∃ a d', spec d t = inr (a, d')) →
  wp (worker_db cfg m) (λ r p', ∃ t a d', r = inr a ∧ spec d t = inr (a, d') ∧ running_on d' ch sent p')
    never_throws never p.
Proof.
  intros Hp Hids Href Hsv Hacc. unfold worker_db, yield. apply wp_bind, wp_bind.
  unfold next_point at 1, wp at 1. rewrite Halone. unfold run_others, wp at 1. simpl.
  apply with_db_wp. set (p1 := set_counters _ _ _ p). change (conn p1) with (conn p).
  destruct Hp as [Ho Ht <- Hr Hrb Hpr Hc Hs]. pose proof (Href (conn p) Ho Ht Hids) as Hw.
  pose proof (Hsv (conn p)) as Hk. unfold wp in *.
  destruct (m (conn p)) as [[[e|a]|e|] c]; simpl in *; [|..|done|done].
  - destruct Hw as (_ & _ & _ & He). destruct (Hacc (c_tick (conn p))) as (a & d' & Hspec).
    assert (inr (a, d') = inl e) by (rewrite <- Hspec; apply He; intros n _; apply Hquiet). done.
  - destruct Hw as (Ho' & Ht' & Hspec). exists (c_tick (conn p)), a, (c_db c).
    split; [done|]. split; [done|]. by split.
Qed.

#[local] Transparent wall_now_ms.
Lemma live_now d ch sent p :
  running_on d ch sent p →
  wp (with_db wall_now_ms) (λ now p', ∃ t, now = clock t ∧ running_on d ch sent p') never_throws never p.
Proof. intros []. unfold wp, with_db, wall_now_ms. simpl. eexists. split; [done|]. by split. Qed.

#[local] Opaque wall_now_ms.

Lemma live_fetch now limit d ch sent p :
  running_on d ch sent p →
  wp (worker_db cfg (fetch_due now limit))
    (λ due p', due = record <$> due_rows now limit d ∧ running_on d ch sent p') never_throws never p.
Proof.
  intros Hp. unfold worker_db, yield. apply wp_bind, wp_bind.
  unfold next_point at 1, wp at 1. rewrite Halone. unfold run_others, wp at 1. simpl.
  apply with_db_wp. set (p1 := set_counters _ _ _ p). change (conn p1) with (conn p).
  destruct Hp as [Ho Ht <- Hr Hrb Hpr Hc Hs]. pose proof (fetch_due_reads now limit (conn p) Ho Ht) as Hw.
  pose proof (fetch_due_survives Hquiet now limit (conn p)) as Hk. unfold wp in *.
  destruct (fetch_due now limit (conn p)) as [[due|e|] c]; simpl in *; [|..|done].
  - destruct Hw as (-> & Ho' & Ht' & Hd). split; [done|]. by split.
  - destruct Hw as (Hn & _). destruct Hn. intros n _. apply Hquiet.
Qed.

(** ** The batch *)

Lemma live_produce rec d ch sent p :
  running_on d ch sent p →
  wp (produce_record cfg rec)
    (λ r p', r = inr tt ∧ running_on d (ch ++ [event_id rec]) (sent ++ [message_of cfg rec]) p')
    never_throws never p.
Proof.
  intros [Ho Ht Hd Hr Hrb [Hrk Hrkt] <- <-]. unfold produce_record. apply wp_bind.
  unfold gets, wp at 1. rewrite Hrk, Hrkt. simpl. apply wp_bind. unfold next_call, wp at 1.
  rewrite Haccept, (decide_False (P := 0 ≠ 0)) by tauto. unfold wp. simpl. split; [done|]. by split.
Qed.

Lemma live_count c n d ch sent p Q :
  running_on d ch sent p → (∀ p', running_on d ch sent p' → Q tt p') →
  wp (count_by c n) Q never_throws never p.
Proof. intros [] HQ. unfold wp. simpl. apply HQ. by split. Qed.

Lemma live_batch rows d ch sent p :
  let ids := r_event_id <$> rows in
  wf d → running_on d ch sent p → NoDup ids → (∀ id, id ∈ ids → ready (λ _, True) d id) →
  Z.of_nat (length ids) ≤ turns_left d →
  wp (send_batch cfg (record <$> rows))
    (λ _ p', ∃ d', shipped ids d d' ∧ (rows = [] → d' = d) ∧
       running_on d' (ch ++ ids) (sent ++ (message_of cfg ∘ record <$> rows)) p')
    never_throws never p.
Proof.
  revert d ch sent p. induction rows as [|r rows IH]; intros d ch sent p ids Hwf Hp Hnd Hrd Htl.
  - unfold wp. simpl. exists d. rewrite !app_nil_r. split; [by apply shipped_nil|done].
  - subst ids. rewrite fmap_cons in Hnd, Hrd, Htl. rewrite length_cons in Htl.
    rewrite fmap_cons. cbn [send_batch]. apply NoDup_cons in Hnd as [Hid Hnd]. apply wp_bind.
    unfold gets, wp at 1. rewrite (ro_running _ _ _ _ Hp), (ro_rebuild _ _ _ _ Hp). simpl.
    pose proof (Hrd (r_event_id r) ltac:(by left)) as Hready. pose proof Hready as (r0 & Hr0 & Hm & _).
    apply wp_bind. eapply wp_mono; [apply (live_method _ (take_txn (r_event_id r)) d ch sent p Hp)|..];
      [by apply wf_ids|apply refines_any, mark_in_flight_refines|by apply mark_in_flight_survives| | |done|done].
    { intros t. destruct (take_accepted _ d r0 t Hwf Hr0 Hm) as (d1 & ? & _); [lia|]. by exists tt, d1. }
    intros res p1 (t & [] & d1 & -> & Htx & Hp1). apply wp_bind.
    eapply wp_mono; [apply (live_produce (record r) d1 ch sent p1 Hp1)|..]; [|done|done].
    intros res2 p2 [-> Hp2]. apply wp_bind. eapply live_count; [exact Hp2|]. intros p3 Hp3.
    destruct (take_accepted _ d r0 t Hwf Hr0 Hm) as (d1' & Htx' & Htl1); [lia|].
    rewrite Htx in Htx'. injection Htx' as <-.
    eapply wp_mono; [apply (IH d1 (ch ++ [r_event_id r]) (sent ++ [message_of cfg (record r)]) p3)|..];
      [by eapply take_wf|exact Hp3|done| |lia| |done|done].
    + intros id Hin. eapply ready_take; [|exact Htx|apply Hrd; by right]. by intros ->.
    + intros [] p4 (d2 & Hship & _ & Hp4). exists d2.
      split; [|split; [done|by rewrite <- !app_assoc in Hp4]]. eapply shipped_cons; eauto. lia.
Qed.

(** ** The reports *)

Lemma live_report id ch d sent p :
  wf d → id ∉ ch → running_on d (id :: ch) sent p →
  (∃ r, r ∈ outbox d ∧ r_event_id r = id ∧ r_state r = "in_flight") →
  wp (on_delivery cfg id 0)
    (λ _ p', ∃ t d', ack_txn id d t = inr (tt, d') ∧ running_on d' ch sent p') never_throws never p.
Proof.
  intros Hwf Hid Hp (r & Hr & Hrid & Hfl). unfold on_delivery. apply wp_bind.
  rewrite decide_False by tauto. apply wp_bind. subst id.
  eapply wp_mono; [apply (live_method _ (ack_txn (r_event_id r)) d (r_event_id r :: ch) sent p Hp)|..];
    [by apply wf_ids|apply refines_any, mark_acked_refines|by apply mark_acked_survives| | |done|done].
  { intros t. destruct (settle_accepted d r t Hwf Hr Hfl) as ([d1 Hack] & _). by exists tt, d1. }
  intros res p1 (t & [] & d' & -> & Htx & Hp1). exists t, d'. split; [done|].
  destruct Hp1 as [????? [??] Hc ?]. split; simpl; try done. rewrite Hc, filter_cons_False by tauto.
  apply filter_everything. by intros id Hin ->.
Qed.

Lemma live_deliver ids d sent p :
  wf d → NoDup ids → running_on d ids sent p →
  (∀ id, id ∈ ids → ∃ r, r ∈ outbox d ∧ r_event_id r = id ∧ r_state r = "in_flight") →
  wp (deliver cfg ((λ id, (id, 0)) <$> ids))
    (λ _ p', ∃ d', cleared ids d d' ∧ running_on d' [] sent p' ∧ (ids = [] → d' = d)) never_throws never p.
Proof.
  revert d p. induction ids as [|id ids IH]; intros d p Hwf Hnd Hp Hfl.
  - unfold wp. simpl. exists d. split; [by apply cleared_nil|done].
  - apply NoDup_cons in Hnd as [Hid Hnd]. simpl. apply wp_bind.
    eapply wp_mono; [apply (live_report id ids d sent p Hwf Hid Hp); apply Hfl; by left|..];
      [|done|done].
    intros [] p2 (t & d1 & Hack & Hp2). pose proof (ack_cleared id d t tt d1 Hwf Hack) as Hcl.
    eapply wp_mono; [apply (IH d1 p2)|..]; [apply Hcl|done|done| | |done|done].
    + intros id' Hin. destruct (Hfl id') as (r & Hr & Hrid & Hst); [by right|].
      destruct (ack_txn_inv id d t tt d1 Hwf Hack) as (r0 & Hr0 & Hid0 & _ & Hcase).
      assert (r_event_id r ≠ id) as Hne by congruence.
      destruct Hcase as [[_ ->]|(k & s & _ & _ & _ & ->)].
      * exists r. split; [by apply elem_of_delete_where|done].
      * destruct (decide (successor k (s_next_seq s + 1) r)) as [Hsucc|Hno].
        -- exists (with_eligible (clock t) r). split; [apply elem_of_acked; exists r; split_and!; [done|congruence|by left]|done].
        -- exists r. split; [apply elem_of_acked; exists r; split_and!; [done|congruence|by right]|done].
    + intros [] p3 (d2 & Hcl2 & Hp3 & _). exists d2. split; [by apply (cleared_trans [id] ids d d1 d2)|].
      by split.
Qed.

(** ** A turn *)

Lemma due_rows_length now limit d : (length (due_rows now limit d) ≤ length (outbox d))%nat.
Proof.
  destruct (due_rows_prefix now limit d) as (rest & Heq & _).
  pose proof (f_equal length Heq) as Hlen. rewrite length_app in Hlen.
  rewrite (Permutation_length (due_sorted_perm now d)) in Hlen.
  pose proof (length_filter (due now d) (outbox d)). lia.
Qed.

(** The turn ends on [d'] with the messages [ms] sent and acknowledged. *)
Definition turn_done (d : Db) (sent : list Message) (p' : Pipe) : Prop :=
  ∃ t ms d', turned (clock t) (outbox_ttl_ms cfg) (m_opaque <$> ms) d d' ∧
    running_on d' [] (sent ++ ms) p'.

Lemma live_serve d ids sent p :
  wf d → NoDup ids → running_on d ids sent p →
  (∀ id, id ∈ ids → ∃ r, r ∈ outbox d ∧ r_event_id r = id ∧ r_state r = "in_flight") →
  wp (serve_reports cfg)
    (λ _ p', ∃ d', cleared ids d d' ∧ running_on d' [] sent p' ∧ (ids = [] → d' = d)) never_throws never p.
Proof.
  intros Hwf Hnd Hp Hfl. unfold serve_reports. apply wp_bind. unfold next_call, wp at 1.
  apply wp_bind. unfold gets, wp at 1. rewrite Hreport.
  set (p1 := set_counters _ _ _ p). assert (running_on d ids sent p1) as Hp1 by (by destruct Hp).
  rewrite (ro_chan _ _ _ _ Hp1). by apply live_deliver.
Qed.

(** What follows the expiry. *)
Definition rest_of_turn (now : Z) : M Pipe unit :=
  due ← worker_db cfg (fetch_due now 32);
  send_batch cfg due;;
  rk ← gets p_rk;
  if rk : bool then serve_reports cfg else mret tt.

Lemma live_rest d d1 t0 n t sent p :
  wf d → expire_txn (clock t) (outbox_ttl_ms cfg) d t0 = inr (n, d1) →
  running_on d1 [] sent p → Z.of_nat (length (outbox d)) ≤ turns_left d →
  wp (rest_of_turn (clock t)) (λ _, turn_done d sent) never_throws never p.
Proof.
  intros Hwf Hexp Hp Htl. pose proof (expire_wf _ _ _ _ _ _ Hwf Hexp) as Hwf1.
  pose proof (status_ids _ _ (expire_status _ _ _ _ _ _ Hexp)) as Hids.
  apply (f_equal length) in Hids. rewrite !length_fmap in Hids.
  set (rows := due_rows (clock t) 32 d1). set (ids := r_event_id <$> rows).
  assert (NoDup ids) as Hnd by (by apply due_rows_ids). unfold rest_of_turn. apply wp_bind.
  eapply wp_mono; [exact (live_fetch (clock t) 32 d1 [] sent p Hp)|..]; [|done|done].
  intros due p1 [-> Hp1]. apply wp_bind.
  eapply wp_mono; [apply (live_batch rows d1 [] sent p1 Hwf1 Hp1 Hnd)|..]; [| | |done|done].
  - intros id (r & -> & Hr)%list_elem_of_fmap. by apply (due_ready _ (clock t) 32 d1).
  - unfold ids. rewrite length_fmap. pose proof (due_rows_length (clock t) 32 d1) as Hlen. fold rows in Hlen.
    rewrite (expire_turns _ _ _ _ _ _ Hexp). lia.
  - intros [] p2 (d2 & Hship & Hsame & Hp2). simpl in Hp2. apply wp_bind. unfold gets, wp at 1.
    rewrite (proj1 (ro_producer _ _ _ _ Hp2)).
    eapply wp_mono; [apply (live_serve d2 ids _ p2 (shipped_wf _ _ _ Hship) Hnd Hp2)|..]; [|  |done|done].
    + apply (shipped_ids _ _ _ Hship).
    + intros [] p3 (d3 & Hclear & Hp3 & Hnil). eexists t, _, d3. split; [|exact Hp3].
      rewrite <- list_fmap_compose.
      apply (turn_of_steps _ _ d t0 n d1 d2 d3 Hwf Hexp Hship Hclear). intros He.
      rewrite (Hnil He). by apply Hsame, (fmap_nil_inv r_event_id).
Qed.

Lemma live_turn d sent p :
  wf d → running_on d [] sent p → Z.of_nat (length (outbox d)) ≤ turns_left d →
  wp (worker_turn cfg) (λ _, turn_done d sent) never_throws never p.
Proof.
  intros Hwf Hp Htl. unfold worker_turn. apply wp_bind. unfold gets at 1, wp at 1.
  rewrite (ro_rebuild _ _ _ _ Hp). apply wp_bind. unfold modify, wp at 1.
  set (p0 := set_flags _ _ _ p). assert (running_on d [] sent p0) as Hp0 by (by destruct Hp).
  apply wp_bind. unfold mret at 1, M_ret at 1, wp at 1. apply wp_bind. unfold gets at 1, wp at 1.
  rewrite (ro_running _ _ _ _ Hp0). simpl. apply wp_bind.
  eapply wp_mono; [exact (live_now d [] sent p0 Hp0)|..]; [|done|done]. intros now p1 (t & -> & Hp1).
  apply wp_bind. eapply wp_mono;
    [apply (live_method _ (expire_txn (clock t) (outbox_ttl_ms cfg)) d [] sent p1 Hp1)|..];
    [by apply wf_ids|apply refines_any, expire_ttl_refines|by apply expire_ttl_survives| | |done|done].
  { intros t0. unfold expire_txn. case_decide; eauto. }
  intros r p2 (t0 & n & d1 & -> & Hexp & Hp2). apply wp_bind. eapply live_count; [exact Hp2|].
  intros p3 Hp3. fold (rest_of_turn (clock t)). by apply (live_rest d d1 t0 n).
Qed.

(** ** The loop *)

(** What stays true from turn to turn: [d0] is the file at the beginning. *)
Record delivering (d0 d : Db) (ids : list string) : Prop := {
  dl_wf : wf d;
  dl_turns : Z.of_nat (length (outbox d)) ≤ turns_left d;
  dl_ids : r_event_id <$> outbox d0 ≡ₚ ids ++ (r_event_id <$> outbox d);
  dl_rows r' : r' ∈ outbox d → ∃ r, r ∈ outbox d0 ∧ r_event_id r' = r_event_id r ∧
    r_next_attempt_at_ms r' = r_next_attempt_at_ms r ∧
    (r_state r' = r_state r ∨ (0 < outbox_ttl_ms cfg ∧ r_state r' = "dead"));
  dl_modes : same_modes d0 d;
}.

Lemma delivering_turn d0 d now ids ids' d' :
  delivering d0 d ids → turned now (outbox_ttl_ms cfg) ids' d d' → delivering d0 d' (ids ++ ids').
Proof.
  intros [Hwf Htl Hids Hrows Hm] [Hwf' Htl' Hids' Hrows' Hm' _ _].
  pose proof (Permutation_length Hids') as Hlen. rewrite length_app, !length_fmap in Hlen.
  split; [done|lia|by rewrite Hids, Hids', app_assoc| |by eapply same_modes_trans].
  intros r2 (r1 & Hr1 & ? & ? & Hs1)%Hrows'. destruct (Hrows r1 Hr1) as (r & Hr & ? & ? & Hs).
  exists r. split_and!; [done|congruence..|]. destruct Hs1 as [->|?]; auto.
Qed.

Lemma live_loop n d0 d ids sent p :
  (∀ r t, r ∈ outbox d0 → r_next_attempt_at_ms r ≤ clock t) →
  delivering d0 d ids → running_on d [] sent p → drained d ∨ (length (outbox d) ≤ n)%nat →
  wp (turns_of_loop cfg n)
    (λ _ p', ∃ ms d', delivering d0 d' (ids ++ (m_opaque <$> ms)) ∧ drained d' ∧
       running_on d' [] (sent ++ ms) p') never_throws never p.
Proof.
  intros Hnext. revert d ids sent p. induction n as [|n IH]; intros d ids sent p Hdel Hp Hn;
    simpl; apply wp_bind; unfold gets at 1, wp at 1; rewrite (ro_running _ _ _ _ Hp); simpl.
  - unfold wp. simpl. exists [], d. rewrite !app_nil_r. split_and!; [done| |done].
    destruct Hn as [?|Hn]; [done|]. intros r Hr. destruct (outbox d); [|simpl in Hn; lia].
    by apply not_elem_of_nil in Hr.
  - apply wp_bind. eapply wp_mono; [apply (live_turn d sent p); [apply Hdel|done|apply Hdel]|..];
      [|done|done].
    intros [] p1 (t & ms & d1 & Hturn & Hp1).
    pose proof (delivering_turn _ _ _ _ _ _ Hdel Hturn) as Hdel1.
    eapply wp_mono; [apply (IH d1 _ (sent ++ ms) p1 Hdel1 Hp1)|..]; [| |done|done].
    + destruct Hn as [Hdr|Hn]; [by left; rewrite (turned_drained _ _ _ _ _ Hturn)|].
      destruct (turned_progress _ _ _ _ _ Hturn) as [?|Hne]; [|by left|right].
      * intros r Hr. destruct (dl_rows _ _ _ Hdel r Hr) as (r0 & Hr0 & _ & -> & _). by apply Hnext.
      * pose proof (Permutation_length (turned_ids _ _ _ _ _ Hturn)) as Hlen.
        rewrite length_app, !length_fmap in Hlen. destruct ms; [done|]. simpl in Hlen. lia.
    + intros [] p2 (ms' & d2 & H1 & H2 & H3). exists (ms ++ ms'), d2.
      rewrite fmap_app, !app_assoc. rewrite <- !app_assoc in *. by split_and!.
Qed.
End liveness.
