(* ===== verification/PipelineCalls.v ===== *)
(** The calls of [KafkaPipeline] one by one: what [enqueue] has committed when it returns, what
    [start] recovers, and that a halted pipeline does nothing more. *)
From stdpp Require Import pretty.
From S2P Require Import Prelude Sqlite Tables Outbox Counters OutboxSpec OutboxInv Open System Schedule.
From S2P Require Import Queues EventId Pipeline Backoff PipelineSim.

Section calls.
Context `{E : Env} `{K : Kafka} `{R : Random} (cfg : PipelineConfig).

(** ** [enqueue] *)

(** The record that [enqueue] builds. *)
Definition event_of (id payload key call : string) (seq now : Z) : OutboxRecord :=
  mkRecord id (cfg_topic cfg) key payload Pending 0 0 "" now 0 call seq.

(** A clock reading and nothing else. *)
Definition ticked (p p' : Pipe) : Prop :=
  pdb p' = pdb p ∧ c_txn (conn p') = c_txn (conn p) ∧ later (conn p) (conn p') ∧
  p_admitted p' = p_admitted p ∧ p_accept p' = p_accept p ∧ p_running p' = p_running p ∧ p_worker p' = p_worker p.

#[local] Transparent wall_now_ms.
Lemma with_now (Q : Z → Pipe → Prop) (X : string → Pipe → Prop) (Y : Pipe → Prop) p :
  (∀ p', ticked p p' → p_metrics p' = p_metrics p → Q (clock (c_tick (conn p))) p') →
  wp (with_db wall_now_ms) Q X Y p.
Proof. intros HQ. unfold wp, with_db, wall_now_ms. simpl. by apply HQ. Qed.
#[local] Opaque wall_now_ms.

(** The event [rec] was entered in the history under the sequence [a]. *)
Definition noted (rec : OutboxRecord) (a : Z) (p : Pipe) : Pipe :=
  set_history (p_produced p) (p_admitted p ++ [(rec, a)]) p.

Lemma insert_wp rec p (Q : string + Z → Pipe → Prop) (X : string → Pipe → Prop) (Y : Pipe → Prop) :
  c_txn (conn p) = None →
  (∀ e c, c_txn c = None → later (conn p) c → c_db c = pdb p → Q (inl e) (on_conn p c)) →
  (∀ a c t, c_txn c = None → later (conn p) c →
     insert_txn (limits cfg) rec (pdb p) t = inr (a, c_db c) → Q (inr a) (noted rec a (on_conn p c))) →
  (∀ c, durable c = pdb p ∨ (∃ a t, insert_txn (limits cfg) rec (pdb p) t = inr (a, durable c)) →
     Y (on_conn p c)) →
  wp (insert_event cfg rec) Q X Y p.
Proof.
  intros Ht Hno Hyes Hdie. unfold insert_event. apply wp_bind, with_db_wp.
  pose proof (progress_insert (limits cfg) rec (conn p)) as Hl. destruct (c_open (conn p)) eqn:Ho.
  - pose proof (insert_pending_refines (limits cfg) rec (conn p) Ho Ht I) as Hr. unfold wp in *.
    destruct (insert_pending _ rec (conn p)) as [[[e|a]|e|] c]; simpl in *.
    + destruct Hr as (_ & Ht' & Hd & _). by apply Hno.
    + destruct Hr as (_ & Ht' & Htx). by eapply Hyes.
    + done.
    + apply Hdie. destruct Hr as [?|[a ?]]; eauto.
  - unfold wp, insert_pending. rewrite closed_transaction by done. by apply Hno; [|apply later_refl|].
Qed.

(** What [enqueue] answers: an error with nothing changed, or an event id and a sequence with the
    admission of the event committed. *)
Definition enqueued_as (payload key call : string) (seq : Z) (p : Pipe)
    (res : string * (string + Z)) (p' : Pipe) : Prop :=
  match res with
  | (_, inl _) => pdb p' = pdb p ∧ p_admitted p' = p_admitted p
  | (id, inr n) => p_accept p = true ∧
      ∃ now t, insert_txn (limits cfg) (event_of id payload key call seq now) (pdb p) t
               = inr (n, pdb p') ∧
        p_admitted p' = p_admitted p ++ [(event_of id payload key call seq now, n)]
  end.

(** [p'] has no transaction open and a later connection. *)
Definition settled_conn (p p' : Pipe) : Prop := c_txn (conn p') = None ∧ later (conn p) (conn p').

Lemma enqueue_wp payload key call seq p :
  c_txn (conn p) = None →
  wp (enqueue cfg payload key call seq)
    (λ res p', enqueued_as payload key call seq p res p' ∧ settled_conn p p') (λ _ _, False)
    (λ p', durable (conn p') = pdb p ∨
       ∃ id n now t, insert_txn (limits cfg) (event_of id payload key call seq now) (pdb p) t
                     = inr (n, durable (conn p'))) p.
Proof.
  intros Ht. unfold enqueue. apply wp_bind. unfold gets, wp at 1. simpl.
  assert (settled_conn p p) as Hself by (by split; [|apply later_refl]).
  destruct (p_accept p) eqn:Hacc; [|by split]. simpl. case_decide; [by split|].
  apply wp_bind. unfold next_word at 1, wp at 1. apply wp_bind. unfold next_word, wp at 1.
  apply wp_bind. set (p2 := set_counters _ _ _ _). apply with_now. intros p3 (Hd & Ht3 & Hl & Hadm & _) _.
  set (id := make_event_id _ _). set (now := clock _). apply wp_bind.
  change (mkRecord id _ _ _ _ _ _ _ _ _ _ _) with (event_of id payload key call seq now).
  change (pdb p2) with (pdb p) in Hd. change (p_admitted p2) with (p_admitted p) in Hadm.
  apply insert_wp; rewrite ?Hd.
  - rewrite Ht3. exact Ht.
  - intros e c Htc Hlc Hc. unfold wp. simpl.
    split; [by split|]. split; [done|exact (later_trans _ _ _ Hl Hlc)].
  - intros n c t Htc Hlc Hc. unfold wp. simpl. split; [split; [done|]; exists now, t; by rewrite Hadm|].
    split; [done|exact (later_trans _ _ _ Hl Hlc)].
  - intros c [Hc|(n & t & Hc)]; [by left|right]. by exists id, n, now, t.
Qed.
End calls.

(** ** The worker once halted, and [start] *)

Section life.
Context `{E : Env} `{K : Kafka} `{R : Random} `{W : World} (cfg : PipelineConfig).

Lemma halted_loop n p : p_running p = false → turns_of_loop cfg n p = (Ok tt, p).
Proof. intros Hr. destruct n; unfold turns_of_loop, gets, mbind, M_bind; by rewrite Hr. Qed.

Lemma halted_batch due p : p_running p = false → send_batch cfg due p = (Ok tt, p).
Proof. intros Hr. destruct due; simpl; [done|]. unfold gets, mbind, M_bind. by rewrite Hr. Qed.

Lemma halted_enqueue payload key call seq p :
  p_accept p = false →
  enqueue cfg payload key call seq p = (Ok ("", inl "pipeline not accepting"), p).
Proof. intros Ha. unfold enqueue, gets, mbind, M_bind. by rewrite Ha. Qed.

(** Creating the producer concerns the library only. *)
Definition same_life (p p' : Pipe) : Prop :=
  p_outbox p' = p_outbox p ∧ p_running p' = p_running p ∧ p_accept p' = p_accept p ∧
  p_worker p' = p_worker p.

Lemma set_all_wp settings p X Y :
  wp (set_all settings) (λ _, same_life p) X Y p.
Proof.
  assert (∀ p0, same_life p p0 → wp (set_all settings) (λ _, same_life p) X Y p0) as H;
    [|by apply H].
  induction settings as [|[key value] settings IH]; intros p0 H0; simpl; [done|].
  apply wp_bind. unfold next_call, wp at 1. destruct (rd_kafka_conf_set _ key value); [done|].
  by apply IH.
Qed.

Lemma create_wp p X Y :
  wp (create_producer_unlocked cfg)
    (λ r p', same_life p p' ∧ (r = inr tt → p_rk p' = true ∧ p_rkt p' = true)) X Y p.
Proof.
  unfold create_producer_unlocked. apply wp_bind.
  eapply wp_mono; [apply (set_all_wp _ p X Y)|..]; [|auto..].
  intros [e|[]] p1 H1; [by split|]. apply wp_bind. unfold next_call at 1, wp at 1.
  destruct (rd_kafka_new _); [by split|]. apply wp_bind. unfold next_call at 1, wp at 1.
  destruct (rd_kafka_topic_conf_set _ _ _); [by split|]. apply wp_bind.
  unfold next_call at 1, wp at 1. destruct (rd_kafka_topic_new _); by split.
Qed.

(** What [start] leaves behind. *)
Definition started_as (flock_ok : bool) (p : Pipe) (res : string + unit) (p' : Pipe) : Prop :=
  match res with
  | inr _ => flock_ok = true ∧ p_running p' = true ∧ p_accept p' = true ∧ p_worker p' = Working ∧
      h_lock (p_outbox p') = true ∧ c_open (conn p') = true ∧ p_rk p' = true ∧ p_rkt p' = true ∧
      ∃ t, requeue_txn (pdb p) t = inr (tt, pdb p')
  | inl _ => p_running p' = false ∧ p_accept p' = p_accept p ∧ p_worker p' = NoWorker ∧
      h_lock (p_outbox p') = false ∧ c_open (conn p') = false ∧
      (pdb p' = pdb p ∨ ∃ t, requeue_txn (pdb p) t = inr (tt, pdb p'))
  end.

Definition close_in (p : Pipe) : Pipe := set_outbox_handle (close (p_outbox p)) p.

Lemma close_in_spec p :
  c_txn (conn p) = None → c_open (conn (close_in p)) = false ∧ h_lock (p_outbox (close_in p)) = false ∧
  pdb (close_in p) = pdb p.
Proof.
  intros Ht. unfold close_in, conn, pdb, close. simpl. unfold conn in Ht.
  destruct (c_open (h_conn (p_outbox p))) eqn:Ho; simpl; [|done]. unfold durable. by rewrite Ht.
Qed.

(** [start] after the producer was created or refused, and after the file was opened. *)
Definition launch (r : string + unit) : M Pipe (string + unit) :=
  match r with
  | inl err => close_outbox;; mret (inl err)
  | inr _ => modify (λ p, set_worker Working (set_flags true true false p));; mret (inr tt)
  end.

Definition start_opened : M Pipe (string + unit) :=
  r ← with_db requeue_in_flight;
  r ← match r with
      | inl err => mret (inl err)
      | inr _ => create_producer_unlocked cfg
      end;
  launch r.

(** [p]: before the call. [p1]: the file is open. *)
Definition opened_from (p p1 : Pipe) : Prop :=
  pdb p1 = pdb p ∧ p_accept p1 = p_accept p ∧ p_running p1 = false ∧ p_worker p1 = NoWorker ∧
  h_lock (p_outbox p1) = true ∧ c_open (conn p1) = true ∧ c_txn (conn p1) = None.

Lemma launch_refused e p p1 d X Y :
  opened_from p p1 → pdb p1 = d → d = pdb p ∨ (∃ t, requeue_txn (pdb p) t = inr (tt, d)) →
  wp (launch (inl e)) (started_as true p) X Y p1.
Proof.
  intros (_ & Ha & Hr & Hw & _ & _ & Ht) <- Hd. unfold launch. apply wp_bind.
  unfold close_outbox, modify, wp at 1.
  change (set_outbox_handle (close (p_outbox p1)) p1) with (close_in p1).
  destruct (close_in_spec p1 Ht) as (Ho & Hl & Hdb). unfold wp, mret, M_ret, started_as.
  rewrite Hdb. by split_and!.
Qed.

Lemma start_opened_wp p p1 :
  opened_from p p1 →
  wp start_opened (started_as true p) (λ _ _, False)
    (λ p', durable (conn p') = pdb p ∨ ∃ t, requeue_txn (pdb p) t = inr (tt, durable (conn p'))) p1.
Proof.
  intros H1. pose proof H1 as (Hd1 & Ha & Hr & Hw & Hl & Ho & Ht). unfold start_opened.
  apply wp_bind, with_db_wp.
  eapply wp_mono; [exact (requeue_in_flight_refines (conn p1) Ho Ht I)|..]; [|done|].
  - change (c_db (conn p1)) with (pdb p1). rewrite Hd1. intros [e|[]] c (Ho2 & Ht2 & Hres).
    + apply wp_bind. unfold wp at 1. simpl. destruct Hres as [Hd _].
      apply (launch_refused e p (on_conn p1 c) (pdb p)); [|exact Hd|by left]. by split_and!.
    + apply wp_bind.
      eapply wp_mono; [exact (create_wp (on_conn p1 c) (λ _ _, False) (λ _, False))|..]; [|done..].
      intros r3 p3 [(Hbox & Hr3 & Ha3 & Hw3) Hrk]. simpl in Hbox, Hr3, Ha3, Hw3.
      assert (pdb p3 = c_db c ∧ c_txn (conn p3) = None ∧ c_open (conn p3) = true ∧
              h_lock (p_outbox p3) = true) as (Hd3 & Ht3 & Ho3 & Hl3)
        by (unfold pdb, conn; by rewrite Hbox).
      destruct r3 as [e|[]].
      * (* the requeue is committed and the producer refused *)
        unfold launch. apply wp_bind. unfold close_outbox, modify, wp at 1.
        change (set_outbox_handle (close (p_outbox p3)) p3) with (close_in p3).
        destruct (close_in_spec p3 Ht3) as (? & ? & Hd4). unfold wp, mret, M_ret, started_as.
        rewrite Hd4, Hd3. split_and!; try done; [exact (eq_trans Hr3 Hr)|exact (eq_trans Ha3 Ha)|exact (eq_trans Hw3 Hw)|].
        right. eauto.
      * destruct (Hrk eq_refl). unfold launch, wp, started_as. simpl. split_and!; try done.
        exists (c_tick (conn p1)). change (pdb _) with (pdb p3) at 2. by rewrite Hd3.
  - intros c [Hc|[[] Hc]]; change (c_db (conn p1)) with (pdb p1) in Hc; rewrite Hd1 in Hc;
      [by left|right]. by exists (c_tick (conn p1)).
Qed.

Lemma start_wp flock_ok p :
  p_worker p = NoWorker → p_running p = false → c_open (conn p) = false →
  c_txn (conn p) = None → wf (pdb p) → current_schema (pdb p) →
  wp (start cfg flock_ok) (started_as flock_ok p) (λ _ _, False)
    (λ p', durable (conn p') = pdb p ∨ ∃ t, requeue_txn (pdb p) t = inr (tt, durable (conn p'))) p.
Proof.
  intros Hw Hr Ho Ht Hwf Hsch. unfold start. apply wp_bind. unfold gets at 1, wp at 1.
  apply wp_bind. unfold gets, wp at 1. rewrite Hw, Hr. rewrite decide_False by (intros [?|?]; done).
  assert (file_ok (pdb p)) as Hfile by (intros Hno; destruct Hsch as (_ & ? & _); congruence).
  pose proof (open_refines flock_ok (p_outbox p) Ho Ht Hfile) as Hopen.
  unfold opened in Hopen. change (c_db (h_conn (p_outbox p))) with (pdb p) in Hopen.
  rewrite (open_txn_wf _ _ Hwf Hsch) in Hopen.
  apply wp_bind. unfold wp at 1 in Hopen. unfold wp at 1, with_handle.
  destruct (open flock_ok (p_outbox p)) as [[[e|[]]|e|] h]; [| |done|].
  - destruct Hopen as (Hl & Ho' & _ & Hd & _). unfold wp, mret, M_ret, started_as.
    split_and!; try done. by left.
  - destruct Hopen as (-> & Hl & Ho' & Ht' & Hd). injection Hd as Hd.
    apply (start_opened_wp p (set_outbox_handle h p)). by split_and!.
  - destruct Hopen as [Hc|Hc]; left; [done|by injection Hc].
Qed.
End life.
