(* ===== verification/Settling.v ===== *)
(** Failed sends and delivery reports, while other threads admit events between any two calls that
    the worker makes to the outbox: what is committed, what is answered, and when the pipeline
    halts. *)
From stdpp Require Import pretty.
From S2P Require Import Prelude Sqlite Tables Outbox Counters OutboxSpec OutboxInv Open System Schedule.
From S2P Require Import Queues EventId Pipeline Backoff PipelineSim PipelineCalls.

(** ** Other threads *)

Section others.
Context `{E : Env} `{K : Kafka} `{R : Random} `{W : World} (cfg : PipelineConfig).

(** An admission by a thread of the environment. *)
Definition meddles (d d' : Db) : Prop := ∃ n payload key call seq id now t a,
  CallEnqueue payload key call seq ∈ others n ∧
  insert_txn (limits cfg) (event_of cfg id payload key call seq now) d t = inr (a, d').
Definition interference : Db → Db → Prop := rtc meddles.

Lemma interference_alone d d' : (∀ n, others n = []) → interference d d' → d' = d.
Proof.
  intros Halone Hi. destruct Hi as [|d1 d2 d3 (n & ? & ? & ? & ? & ? & ? & ? & ? & Hin & _) _]; [done|].
  rewrite Halone in Hin. by apply not_elem_of_nil in Hin.
Qed.

(** Admissions leave rows in flight alone, and ids unique. *)
Lemma meddles_keeps d d' r :
  meddles d d' → r ∈ outbox d → r_state r = "in_flight" → r ∈ outbox d'.
Proof.
  intros (n & payload & key & call & seq & id & now & t & a & _ & [_ Ha]%insert_txn_admitted) Hr Hst.
  destruct (admitted_row _ _ _ _ _ _ Ha) as (r' & -> & _). apply elem_of_app. left.
  unfold reclaimed. case_decide; [|done]. apply elem_of_delete_where. split; [done|].
  intros (Hd & _). congruence.
Qed.

Lemma meddles_ids d d' : meddles d d' → ids_unique d → ids_unique d'.
Proof.
  intros (n & payload & key & call & seq & id & now & t & a & _ & [_ Ha]%insert_txn_admitted) Hids.
  set (rec := event_of _ _ _ _ _ _ _) in *.
  assert (ids_unique (reclaimed (limits cfg) rec d)) as Hrec.
  { unfold reclaimed. case_decide; [|done]. eapply sublist_NoDup; [exact Hids|].
    apply fmap_sublist, sublist_filter. }
  assert (∀ r, r ∈ outbox (reclaimed (limits cfg) rec d) → r_event_id r ≠ event_id rec) as Hfresh
    by (by destruct Ha).
  destruct (admitted_row _ _ _ _ _ _ Ha) as (r & Hout & Hid & _).
  unfold ids_unique. rewrite Hout, fmap_app. apply NoDup_app. split_and!; [exact Hrec| |apply NoDup_singleton].
  intros i (r0 & -> & Hr0)%list_elem_of_fmap Hi%list_elem_of_singleton. by apply (Hfresh r0 Hr0); rewrite Hi.
Qed.

Lemma interference_keeps d d' r :
  interference d d' → r ∈ outbox d → r_state r = "in_flight" → r ∈ outbox d'.
Proof. induction 1; eauto using meddles_keeps. Qed.
Lemma interference_ids d d' : interference d d' → ids_unique d → ids_unique d'.
Proof. induction 1; eauto using meddles_ids. Qed.

(** From [p] to [p'] other threads may have admitted events. *)
Definition meanwhile (p p' : Pipe) : Prop := interference (pdb p) (pdb p') ∧ settled_conn p p'.

Lemma meanwhile_trans p1 p2 p3 : meanwhile p1 p2 → meanwhile p2 p3 → meanwhile p1 p3.
Proof.
  intros (? & _ & ?) (? & ? & ?). split; [by etransitivity|]. split; [done|]. by eapply later_trans.
Qed.

(** The process died after admissions. *)
Definition died_meanwhile (p p' : Pipe) : Prop := interference (pdb p) (durable (conn p')).

Lemma others_wp os p p0 (Q : unit → Pipe → Prop) X (Y : Pipe → Prop) :
  (∃ n, os ⊆ others n) → meanwhile p0 p →
  (∀ p', meanwhile p0 p' → Q tt p') → (∀ p', died_meanwhile p0 p' → Y p') →
  wp (run_others cfg os) Q X Y p.
Proof.
  intros (n & Hos) Hp HQ HY. revert p Hp. induction os as [|o os IH]; intros p Hp; simpl.
  - by apply HQ.
  - assert (∀ p1, meanwhile p p1 → wp (run_others cfg os) Q X Y p1) as Hrest
      by (intros p1 Hp1; apply IH; [set_solver|by eapply meanwhile_trans]).
    assert (settled_conn p p) as Hself by (split; [apply Hp|apply later_refl]).
    apply wp_bind. destruct o as [payload key call seq| |]; simpl.
    + apply wp_bind. eapply wp_mono; [exact (enqueue_wp cfg payload key call seq p (proj1 (proj2 Hp)))|..].
      * intros [id [e|a]] p1 (Hres & Hc); unfold wp; simpl; apply Hrest; (split; [|exact Hc]).
        -- destruct Hres as [-> _]. apply rtc_refl.
        -- destruct Hres as (_ & now & t & Htx & _). apply rtc_once.
           exists n, payload, key, call, seq, id, now, t, a. split; [set_solver|done].
      * done.
      * intros p1 Hd. apply HY. unfold died_meanwhile. destruct Hd as [->|(id & a & now & t & Htx)]; [apply Hp|].
        eapply rtc_r; [apply Hp|]. exists n, payload, key, call, seq, id, now, t, a. split; [set_solver|done].
    + unfold wp. simpl. apply Hrest. split; [apply rtc_refl|exact Hself].
    + unfold wp. simpl. apply Hrest. split; [apply rtc_refl|exact Hself].
Qed.

Lemma yield_wp p (Q : unit → Pipe → Prop) X (Y : Pipe → Prop) :
  c_txn (conn p) = None →
  (∀ p', meanwhile p p' → Q tt p') → (∀ p', died_meanwhile p p' → Y p') →
  wp (yield cfg) Q X Y p.
Proof.
  intros Ht HQ HY. unfold yield. apply wp_bind. unfold next_point, wp at 1.
  apply (others_wp _ _ p); [by eexists|split; [apply rtc_refl|by split; [|apply later_refl]]|done..].
Qed.

(** A call of the worker, made after some interference. *)
Lemma worker_db_wp {A} (m : M (Conn Db) A) p (Q : A → Pipe → Prop) (X : string → Pipe → Prop)
    (Y : Pipe → Prop) :
  c_txn (conn p) = None → (∀ p', died_meanwhile p p' → Y p') →
  (∀ p1, meanwhile p p1 → wp (with_db m) Q X Y p1) → wp (worker_db cfg m) Q X Y p.
Proof. intros Ht HY Hm. apply wp_bind, yield_wp; [done|exact Hm|done]. Qed.

(** ** Settling a failed send *)

(** What [settle_send_failure] does to the contents [d]: [t1] and [t2] are the clock readings for the
    due time and its jitter, [t3] the one of the update. *)
Definition settle_txn (max_attempts : Z) (id error : string) (permanent : bool) (d : Db)
    (t1 t2 t3 : nat) : SendFailureResult * Db :=
  match row_by_id id (outbox d) with
  | None => (Failed "send failure for non-in-flight event", d)
  | Some r =>
      if decide (r_state r = "in_flight") then
        if decide (permanent = true ∨ max_attempts ≤ to_int32 (r_attempts r)) then
          match dead_txn id error d t3 with
          | inl e => (Failed e, d)
          | inr (_, d') => (Buried, d')
          end
        else
          let next := clock t1 + (backoff_base (to_int32 (r_attempts r)) + Z.rem (clock t2) 97) in
          match retry_txn id next error d t3 with
          | inl e => (Failed e, d)
          | inr (_, d') => (Retry, d')
          end
      else (Failed "send failure for non-in-flight event", d)
  end.

(** The outcomes of a computation that ends in [spec] applied to what other threads left: its
    effect; or, when a call to SQLite failed, [Failed] or an exception with nothing changed. *)
Definition decided (spec : Db → SendFailureResult * Db → Prop) (p : Pipe) (res : SendFailureResult)
    (p' : Pipe) : Prop :=
  settled_conn p p' ∧ ∃ d, interference (pdb p) d ∧
    (spec d (res, pdb p') ∨
     ((∃ e, res = Failed e) ∧ pdb p' = d ∧ ¬ quiet_from (c_io (conn p)))).
Definition undecided (p : Pipe) (_ : string) (p' : Pipe) : Prop :=
  settled_conn p p' ∧ interference (pdb p) (pdb p') ∧ ¬ quiet_from (c_io (conn p)).
Definition cut_off (spec : Db → SendFailureResult * Db → Prop) (p p' : Pipe) : Prop :=
  ∃ d, interference (pdb p) d ∧
    (durable (conn p') = d ∨ ∃ res, spec d (res, durable (conn p'))).

Definition settles (m : M Pipe SendFailureResult) (spec : Db → SendFailureResult * Db → Prop)
    (p : Pipe) : Prop := wp m (decided spec p) (undecided p) (cut_off spec p) p.

Lemma meanwhile_quiet p p1 :
  meanwhile p p1 → ¬ quiet_from (c_io (conn p1)) → ¬ quiet_from (c_io (conn p)).
Proof. intros (_ & _ & _ & Hio) Hn Hq. apply Hn. by eapply quiet_later. Qed.

(** What [p1] decides after [p] is decided for [p]. *)
Lemma settles_later m spec p p1 :
  meanwhile p p1 → settles m spec p1 → wp m (decided spec p) (undecided p) (cut_off spec p) p1.
Proof.
  intros Hp Hm. pose proof Hp as (Hi & Ht & Hl). eapply wp_mono; [exact Hm|..].
  - intros res p' ((? & ?) & d & Hd & Hres). split; [split; [done|by eapply later_trans]|].
    exists d. split; [by etransitivity|]. destruct Hres as [?|(? & ? & Hn)]; [by left|right].
    split_and!; [done..|]. by eapply meanwhile_quiet.
  - intros e p' ((? & ?) & Hd & Hn). split; [split; [done|by eapply later_trans]|].
    split; [by etransitivity|]. by eapply meanwhile_quiet.
  - intros p' (d & Hd & Hres). exists d. split; [by etransitivity|done].
Qed.

(** The update that ends it. *)
Definition ending (txn : Spec unit) (good : SendFailureResult) (d : Db)
    (res : SendFailureResult * Db) : Prop := ∃ t,
  res = match txn d t with inl e => (Failed e, d) | inr (_, d') => (good, d') end.

Lemma settles_ending (m : M (Conn Db) (string + unit)) txn good p :
  refines ids_unique m txn → Progress m →
  c_open (conn p) = true → c_txn (conn p) = None → ids_unique (pdb p) →
  settles (r ← worker_db cfg m; mret match r with inl e => Failed e | inr _ => good end)
    (ending txn good) p.
Proof.
  intros Href Hprog Ho Ht Hids. apply wp_bind, worker_db_wp; [done| |].
  { intros p' Hd. exists (durable (conn p')). split; [exact Hd|by left]. }
  intros p1 Hp1. pose proof Hp1 as (Hi & Ht1 & Hl1). apply with_db_wp.
  assert (c_open (conn p1) = true) as Ho1 by (destruct Hl1; congruence).
  pose proof (Href (conn p1) Ho1 Ht1 (interference_ids _ _ Hi Hids)) as Hr.
  pose proof (Hprog (conn p1)) as Hl. change (c_db (conn p1)) with (pdb p1) in Hr.
  unfold wp in *. destruct (m (conn p1)) as [[[e|[]]|e|] c]; simpl in *; [..|done|].
  - destruct Hr as (_ & Ht2 & Hd & Hq). split; [split; [done|exact (later_trans _ _ _ Hl1 Hl)]|].
    exists (pdb p1). split; [done|]. change (pdb (on_conn p1 c)) with (c_db c). rewrite Hd.
    destruct (txn (pdb p1) (c_tick (conn p1))) as [e'|[[] d']] eqn:Hx.
    + destruct (decide (e = e')) as [->|Hne].
      * left. exists (c_tick (conn p1)). by rewrite Hx.
      * right. split_and!; [by eexists|done|]. eapply meanwhile_quiet; [exact Hp1|].
        intros Hquiet. specialize (Hq Hquiet). congruence.
    + right. split_and!; [by eexists|done|]. eapply meanwhile_quiet; [exact Hp1|].
      intros Hquiet. specialize (Hq Hquiet). congruence.
  - destruct Hr as (_ & Ht2 & Hx). split; [split; [done|exact (later_trans _ _ _ Hl1 Hl)]|].
    exists (pdb p1). split; [done|]. left. exists (c_tick (conn p1)). by rewrite Hx.
  - exists (pdb p1). split; [done|]. destruct Hr as [?|[[] Hx]]; [by left|right].
    exists good, (c_tick (conn p1)). change (durable (conn (on_conn p1 c))) with (durable c). by rewrite Hx.
Qed.

#[export] Instance progress_dead id error : Progress (mark_dead id error).
Proof. unfold mark_dead, bind_text, bind_int. apply _. Qed.
#[export] Instance progress_retry id next error : Progress (mark_retry id next error).
Proof. unfold mark_retry, bind_text, bind_int. apply _. Qed.

Definition settle_spec (max_attempts : Z) (id error : string) (permanent : bool) (d : Db)
    (x : SendFailureResult * Db) : Prop :=
  ∃ t1 t2 t3, x = settle_txn max_attempts id error permanent d t1 t2 t3.

Lemma settles_conseq m (spec spec' : Db → SendFailureResult * Db → Prop) p :
  settles m spec p → (∀ d x, interference (pdb p) d → spec d x → spec' d x) → settles m spec' p.
Proof.
  intros Hm Hs. eapply wp_mono; [exact Hm|..].
  - intros res p' (? & d & Hd & [?|?]); (split; [done|]); exists d; (split; [done|]); auto.
  - done.
  - intros p' (d & Hd & [?|[res ?]]); exists d; (split; [done|]); [by left|right; eauto].
Qed.

Lemma settles_ret (spec : Db → SendFailureResult * Db → Prop) res p :
  c_txn (conn p) = None → spec (pdb p) (res, pdb p) → settles (mret res) spec p.
Proof.
  intros Ht Hs. split; [by split; [|apply later_refl]|]. exists (pdb p). split; [apply rtc_refl|auto].
Qed.

(** A clock reading on the way. *)
Lemma settles_clock (m : M (Conn Db) Z) (k : Z → M Pipe SendFailureResult) spec p :
  (∃ v c, m (conn p) = (Ok v, c) ∧ c_txn c = c_txn (conn p) ∧ later (conn p) c ∧ c_db c = pdb p ∧
     settles (k v) spec (on_conn p c)) →
  c_txn (conn p) = None → settles (with_db m ≫= k) spec p.
Proof.
  intros (v & c & Hm & Hct & Hl & Hd & Hk) Ht. apply wp_bind, with_db_wp. unfold wp at 1. rewrite Hm.
  apply settles_later; [|exact Hk]. split; [|split; [by rewrite <- Ht|exact Hl]].
  change (pdb (on_conn p c)) with (c_db c). rewrite Hd. apply rtc_refl.
Qed.

(** The last call, when the row [r] is in flight. *)
Lemma settles_row max_attempts id error permanent r p (t1 t2 : nat) :
  c_open (conn p) = true → c_txn (conn p) = None → ids_unique (pdb p) →
  r ∈ outbox (pdb p) → r_event_id r = id → r_state r = "in_flight" →
  settles
    (if decide (permanent = true ∨ max_attempts ≤ to_int32 (r_attempts r)) then
       r ← worker_db cfg (mark_dead id error);
       mret match r with inl err => Failed err | inr _ => Buried end
     else
       r ← worker_db cfg (mark_retry id (clock t1 + (backoff_base (to_int32 (r_attempts r)) +
                                                     Z.rem (clock t2) 97)) error);
       mret match r with inl err => Failed err | inr _ => Retry end)
    (settle_spec max_attempts id error permanent) p.
Proof.
  intros Ho Ht Hids Hr Hid Hst.
  assert (∀ d, interference (pdb p) d → row_by_id id (outbox d) = Some r) as Hrow.
  { intros d Hd. apply row_by_id_unique; [by eapply interference_ids|by eapply interference_keeps|done]. }
  case_decide as Hc.
  - eapply settles_conseq; [by apply (settles_ending _ (dead_txn id error)); [apply mark_dead_refines|apply _|..]|].
    intros d x Hd [t ->]. exists t1, t2, t. unfold settle_txn.
    rewrite Hrow, (decide_True (P := r_state r = "in_flight")), decide_True by done. done.
  - set (next := clock t1 + _).
    eapply settles_conseq; [by apply (settles_ending _ (retry_txn id next error)); [apply mark_retry_refines|apply _|..]|].
    intros d x Hd [t ->]. exists t1, t2, t. unfold settle_txn.
    rewrite Hrow, (decide_True (P := r_state r = "in_flight")), decide_False by done. done.
Qed.

(** What follows the query. *)
#[local] Transparent wall_now_ms.
Lemma settles_found max_attempts id error permanent p :
  c_open (conn p) = true → c_txn (conn p) = None → ids_unique (pdb p) →
  settles
    (match record <$> row_by_id id (outbox (pdb p)) with
     | None => mret (Failed "send failure for non-in-flight event")
     | Some cur =>
         match state cur with
         | InFlight =>
             if decide (permanent = true ∨ max_attempts ≤ attempts cur) then
               r ← worker_db cfg (mark_dead id error);
               mret match r with inl err => Failed err | inr _ => Buried end
             else
               now ← with_db wall_now_ms;
               backoff ← with_db (attempt_backoff_ms (attempts cur));
               r ← worker_db cfg (mark_retry id (now + backoff) error);
               mret match r with inl err => Failed err | inr _ => Retry end
         | _ => mret (Failed "send failure for non-in-flight event")
         end
     end) (settle_spec max_attempts id error permanent) p.
Proof.
  intros Ho Ht Hids. destruct (row_by_id id (outbox (pdb p))) as [r|] eqn:Hrow; simpl;
    [|apply settles_ret; [done|]; exists 0%nat, 0%nat, 0%nat; unfold settle_txn; by rewrite Hrow].
  assert (r_state r ≠ "in_flight" → settles (mret (Failed "send failure for non-in-flight event"))
    (settle_spec max_attempts id error permanent) p) as Hno.
  { intros Hst. apply settles_ret; [done|]. exists 0%nat, 0%nat, 0%nat. unfold settle_txn.
    by rewrite Hrow, decide_False. }
  destruct (decide (r_state r = "in_flight")) as [Hst|Hst]; [|case_decide; by apply Hno].
  apply head_filter_Some in Hrow as [Hr Hid].
  pose proof (λ t1 t2 p3, settles_row max_attempts id error permanent r p3 t1 t2) as Hlast.
  case_decide as Hc; [by apply (Hlast 0%nat 0%nat)|].
  apply settles_clock; [|done]. do 2 eexists. split; [reflexivity|]. split_and!; try done.
  unfold attempt_backoff_ms. apply settles_clock; [|done]. do 2 eexists. split; [reflexivity|].
  split_and!; try done. by apply Hlast.
Qed.
#[local] Opaque wall_now_ms.

Lemma settle_settles max_attempts id error permanent p :
  c_open (conn p) = true → c_txn (conn p) = None → ids_unique (pdb p) →
  settles (settle_send_failure cfg max_attempts id error permanent)
    (settle_spec max_attempts id error permanent) p.
Proof.
  intros Ho Ht Hids. apply wp_bind, worker_db_wp; [done| |].
  { intros p' Hd. exists (durable (conn p')). split; [exact Hd|by left]. }
  intros p1 Hp1. pose proof Hp1 as (Hi & Ht1 & Hl1). apply with_db_wp.
  assert (c_open (conn p1) = true) as Ho1 by (destruct Hl1; congruence).
  pose proof (get_reads id (conn p1) Ho1 Ht1) as Hg. pose proof (progress_get id (conn p1)) as Hl.
  change (c_db (conn p1)) with (pdb p1) in Hg. unfold wp at 1 in Hg. unfold wp at 1.
  destruct (get id (conn p1)) as [[cur|e|] c]; simpl in Hl.
  - destruct Hg as (-> & Ho2 & Ht2 & Hd2).
    assert (meanwhile p (on_conn p1 c)) as Hp2.
    { eapply meanwhile_trans; [exact Hp1|]. split; [|by split].
      change (pdb (on_conn p1 c)) with (c_db c). rewrite Hd2. apply rtc_refl. }
    apply settles_later; [exact Hp2|]. rewrite <- Hd2. change (c_db c) with (pdb (on_conn p1 c)).
    apply settles_found; [done..|]. eapply interference_ids; [apply Hp2|done].
  - destruct Hg as (Hn & Ho2 & Ht2 & Hd2). split; [split; [done|exact (later_trans _ _ _ Hl1 Hl)]|].
    change (pdb (on_conn p1 c)) with (c_db c). rewrite Hd2. split; [done|by eapply meanwhile_quiet].
  - exists (pdb p1). split; [done|by left].
Qed.

(** ** Delivery reports *)

(** Accepting and running are both off. *)
Definition halted (p : Pipe) : Prop := p_running p = false ∧ p_accept p = false.

(** The durable transition that a report calls for. *)
Definition report_txn (id : string) (err : Z) (d d' : Db) : Prop :=
  if decide (err ≠ 0) then
    ∃ res t1 t2 t3, (res = Retry ∨ res = Buried) ∧
      settle_txn (max_attempts_before_dead cfg) id (rd_kafka_err2str err) (is_permanent_error err)
        d t1 t2 t3 = (res, d')
  else ∃ t, ack_txn id d t = inr (tt, d').

(** It is committed, after what other threads admitted; or the pipeline is halted without it. *)
Definition settled_or_halted (id : string) (err : Z) (p p' : Pipe) : Prop :=
  ∃ d, interference (pdb p) d ∧ (report_txn id err d (pdb p') ∨ (halted p' ∧ pdb p' = d)).
Definition report_cut_off (id : string) (err : Z) (p p' : Pipe) : Prop :=
  ∃ d, interference (pdb p) d ∧ (durable (conn p') = d ∨ report_txn id err d (durable (conn p'))).

(** What is left to do once the transition is known to be done or not. *)
Lemma finish_wp (failure : option string) (Q : Pipe → Prop) (X : string → Pipe → Prop)
    (Y : Pipe → Prop) p :
  match failure with
  | Some _ => ∀ p', pdb p' = pdb p → halted p' → Q p'
  | None => Q p
  end →
  wp (match failure with Some _ => count state_errors;; halt | None => mret tt end)
    (λ _, Q) X Y p.
Proof. intros H. destruct failure as [e|]; unfold wp; simpl; [|done]. by apply H. Qed.

Lemma ack_report_wp id p :
  c_open (conn p) = true → c_txn (conn p) = None →
  wp (on_delivery cfg id 0) (λ _, settled_or_halted id 0 p) (λ _ _, False) (report_cut_off id 0 p) p.
Proof.
  intros Ho Ht. unfold on_delivery. apply wp_bind. rewrite decide_False by tauto.
  assert (∀ d d' t, ack_txn id d t = inr (tt, d') → report_txn id 0 d d') as Hack
    by (intros d d' t Hx; unfold report_txn; rewrite decide_False by tauto; by exists t).
  apply wp_bind, worker_db_wp; [done| |].
  { intros p' Hd. exists (durable (conn p')). split; [exact Hd|by left]. }
  intros p1 (Hi & Ht1 & Hop & _). apply with_db_wp. rewrite Ho in Hop.
  eapply wp_mono; [exact (mark_acked_refines id (conn p1) Hop Ht1 I)|..].
  - intros [e|[]] c (_ & _ & Hres); unfold wp; simpl; exists (pdb p1); (split; [done|]).
    + right. split; [done|]. apply Hres.
    + left. by apply Hack in Hres.
  - done.
  - intros c [Hd|[[] Hres]]; exists (pdb p1); (split; [done|]); [by left|right]. by apply Hack in Hres.
Qed.

(** A failed report: the settlement and its verdict. *)
Definition settle_report (id : string) (err : Z) : M Pipe (option string) :=
  settled ← settle_send_failure cfg (max_attempts_before_dead cfg) id (rd_kafka_err2str err)
              (is_permanent_error err);
  match settled with
  | Failed e => mret (Some e)
  | Buried => count permanent_errors;; mret None
  | Retry => mret None
  end.

Lemma settle_failed max_attempts id error permanent d t1 t2 t3 e d' :
  settle_txn max_attempts id error permanent d t1 t2 t3 = (Failed e, d') → d' = d.
Proof.
  unfold settle_txn. destruct (row_by_id id _) as [r|]; [|by intros [= _ <-]].
  case_decide; [|by intros [= _ <-]].
  case_decide; [destruct (dead_txn _ _ _ _) as [?|[? ?]]|destruct (retry_txn _ _ _ _ _) as [?|[? ?]]];
    naive_solver.
Qed.

Lemma settle_report_wp id err p :
  err ≠ 0 → c_open (conn p) = true → c_txn (conn p) = None → ids_unique (pdb p) →
  wp (settle_report id err)
    (λ failure p', ∃ d, interference (pdb p) d ∧
       match failure with None => report_txn id err d (pdb p') | Some _ => pdb p' = d end)
    (λ _ p', interference (pdb p) (pdb p') ∧ ¬ quiet_from (c_io (conn p)))
    (report_cut_off id err p) p.
Proof.
  intros Herr Ho Ht Hids. apply wp_bind.
  assert (∀ d res d' t1 t2 t3, res = Retry ∨ res = Buried →
    settle_txn (max_attempts_before_dead cfg) id (rd_kafka_err2str err) (is_permanent_error err) d t1 t2 t3
    = (res, d') → report_txn id err d d') as Hdone.
  { intros d res d' t1 t2 t3 Hres Hx. unfold report_txn. rewrite decide_True by done.
    by exists res, t1, t2, t3. }
  eapply wp_mono; [exact (settle_settles _ id _ _ p Ho Ht Hids)|..].
  - intros res p' (_ & d & Hd & [(t1 & t2 & t3 & Hs)|((e & ->) & Hp' & _)]); [|by exists d].
    symmetry in Hs. destruct res as [| |e]; unfold wp; simpl; exists d; (split; [done|]).
    + eapply Hdone; [by left|exact Hs].
    + eapply Hdone; [by right|exact Hs].
    + by eapply settle_failed.
  - by intros e p' (_ & ? & ?).
  - intros p' (d & Hd & [?|[res (t1 & t2 & t3 & Hs)]]); exists d; (split; [done|]); [by left|].
    symmetry in Hs. destruct res as [| |e]; [right|right|left; by eapply settle_failed];
      (eapply Hdone; [|exact Hs]); auto.
Qed.

Lemma failure_report_wp id err p :
  err ≠ 0 → c_open (conn p) = true → c_txn (conn p) = None → ids_unique (pdb p) →
  wp (on_delivery cfg id err) (λ _, settled_or_halted id err p)
    (λ _ p', interference (pdb p) (pdb p') ∧ ¬ quiet_from (c_io (conn p))) (report_cut_off id err p) p.
Proof.
  intros Herr Ho Ht Hids. unfold on_delivery. rewrite decide_True by done. apply wp_bind.
  fold (settle_report id err).
  assert (∀ p1, conn p1 = conn p → wp (settle_report id err)
    (λ failure, wp (match failure with Some _ => count state_errors;; halt | None => mret tt end)
       (λ _, settled_or_halted id err p)
       (λ _ p', interference (pdb p) (pdb p') ∧ ¬ quiet_from (c_io (conn p))) (report_cut_off id err p))
    (λ _ p', interference (pdb p) (pdb p') ∧ ¬ quiet_from (c_io (conn p)))
    (report_cut_off id err p) p1) as Hrest.
  { intros p1 Hc. assert (pdb p1 = pdb p) as Hd by (unfold pdb; unfold conn in Hc; by rewrite Hc).
    pose proof (settle_report_wp id err p1 Herr) as Hs. unfold report_cut_off in *. rewrite Hc, Hd in Hs.
    eapply wp_mono; [exact (Hs Ho Ht Hids)|..]; [|done|done].
    intros failure p2 (d & Hi & Hres). apply finish_wp. destruct failure as [e|];
      [|exists d; by split; [|left]].
    intros p3 Hp3 Hh. exists d. split; [done|]. right. split; [done|]. by rewrite Hp3. }
  apply wp_bind. unfold consume, modify, wp at 1. apply wp_bind. unfold count, count_by, modify, wp at 1.
  apply wp_bind. case_decide; unfold wp at 1; simpl; by apply Hrest.
Qed.
End others.
