(* ===== verification/PipelineSamples.v ===== *)
(** A concrete librdkafka that accepts every message and reports success, a random source, a
    configuration, and runs of the pipeline on them. *)
From S2P Require Import Prelude Sqlite Tables Outbox OutboxSpec OutboxInv Open System Schedule.
From S2P Require Import BoundedQueue Pipeline Backoff PipelineSim PipelineCalls Samples.

(** Error codes as in rdkafka.h. *)
Definition kafka_with (producev : nat → Message → Z) (report : Z) : Kafka := {|
  ERR__FATAL := -150;
  ERR_TOPIC_AUTHORIZATION_FAILED := 29;
  ERR_CLUSTER_AUTHORIZATION_FAILED := 31;
  ERR_INVALID_MSG := 2;
  ERR_MSG_SIZE_TOO_LARGE := 10;
  ERR_INVALID_RECORD := 87;
  rd_kafka_err2str := λ e, if decide (e = 10) then "Broker: Message size too large" else "error";
  rd_kafka_conf_set := λ _ _ _, None;
  rd_kafka_new := λ _, None;
  rd_kafka_topic_conf_set := λ _ _ _, None;
  rd_kafka_topic_new := λ _, true;
  rd_kafka_last_error := λ _, 0;
  rd_kafka_producev := producev;
  rd_kafka_serve := λ _ l, (λ id, (id, report)) <$> l;
|}.

#[export] Instance good_kafka : Kafka := kafka_with (λ _ _, 0) 0.

Lemma kafka_with_laws producev report : KafkaLaws (kafka_with producev report).
Proof.
  intros n l Hnd. simpl. rewrite <- list_fmap_compose.
  assert ((fst ∘ λ id : string, (id, report)) <$> l = l) as -> by apply list_fmap_id. done.
Qed.
#[export] Instance good_kafka_laws : KafkaLaws good_kafka := kafka_with_laws _ _.

#[export] Instance sample_random : Random := λ n, 1000000007 * Z.of_nat n.

(** Another thread admits an event when the worker is about to take its first row off. *)
#[export] Instance sample_world : World := λ n,
  if decide (n = 2%nat) then [CallEnqueue "{late}" "call-b" "call-b" (-1)] else [].

Lemma sample_world_int64 n o : o ∈ others n → int64_other o.
Proof.
  unfold others, sample_world. case_decide; intros Ho; [|by apply not_elem_of_nil in Ho].
  apply list_elem_of_singleton in Ho as ->. vm_compute. discriminate.
Qed.

Definition cfg0 : PipelineConfig :=
  mkConfig "localhost:9092" "events" "" "" "" "" "snappy" "/tmp/o.db" 1000 1000 100 1000 30000 true
    false 50 100 3 120000.

Definition sample_calls : list Call :=
  [DoStart true; DoEnqueue "{1}" "call-a" "call-a" (-1); DoEnqueue "{2}" "call-a" "call-a" (-1);
   DoEnqueue "{3}" "" "" (-1); DoTurns 3; DoStop].

Definition final_pipe : Pipe := snd (run_calls cfg0 sample_calls (new_pipe empty_db)).

(** All four events reach the broker, the two of [call-a] in order. *)
Example sample_messages :
  m_value <$> p_sent final_pipe = ["{1}"; "{3}"; "{late}"; "{2}"].
Proof. vm_compute. reflexivity. Qed.

Lemma empty_current : current_schema empty_db.
Proof. by repeat split. Qed.

Lemma calls_int64 cs : Forall int64_call cs → ∀ c, c ∈ cs → int64_call c.
Proof. by rewrite Forall_forall. Qed.
Lemma sample_calls_int64 : Forall int64_call sample_calls.
Proof. repeat constructor; vm_compute; discriminate. Qed.

Definition started_pipe : Pipe := snd (run_calls cfg0 [DoStart true] (new_pipe empty_db)).
Definition ev (id : string) : QueuedEvent := mkQueued id "events" "" "{}" "" 0.

(** Nobody else calls; and a pipeline started on a backlog of three events. *)
Definition quiet_world : World := λ _, [].
Definition backlog_pipe : Pipe := snd (@run_calls _ _ _ quiet_world cfg0 [DoStart true] (new_pipe db3)).
