(* ===== verification/PipelineTheorems.v ===== *)
(** What [KafkaPipeline] guarantees: it is a refinement of the transition system, so the order and
    at-least-once theorems hold of the messages it hands to librdkafka; and the contracts of its
    methods. *)
From Stdlib Require Import Ascii.
From stdpp Require Import pretty.
From S2P Require Import Prelude Sqlite Tables Outbox OutboxSpec OutboxInv Open System Schedule.
From S2P Require Import Queues EventId BoundedQueue Pipeline Backoff PipelineSim.
From S2P Require Import Ages Drain Liveness PipelineCalls Settling Samples PipelineSamples.

(** [C2] The pipeline refines the transition system. Take any sequence of calls ([start], [enqueue],
    turns of the worker, [request_rebuild], [stop]) on a well-formed file, with any answers of SQLite
    and librdkafka, any clock, and any calls of other threads before each outbox call of the worker.
    No exception escapes; and at the end, or when the process dies, the file, the reports owed and
    the messages handed to librdkafka so far are those of a reachable state of the system. *)
Theorem pipeline_refines_system `{E : Env, K : Kafka, !KafkaLaws K, R : Random, W : World}
    cfg d0 cs :
  wf d0 → current_schema d0 → (∀ n o, o ∈ others n → int64_other o) →
  (∀ c, c ∈ cs → int64_call c) →
  wp (run_calls cfg cs)
    (λ _ p, ∃ s, reachable (limits cfg) d0 s ∧ db s = pdb p ∧ chan s = p_chan p ∧
       p_sent p = message_of cfg ∘ record <$> sent_rows (hist s))
    (λ _ _, False)
    (λ p, ∃ s, reachable (limits cfg) d0 s ∧ db s = durable (conn p) ∧
       p_sent p = message_of cfg ∘ record <$> sent_rows (hist s))
    (new_pipe d0).
Proof.
  intros Hwf Hsch Hworld Hcs. eapply wp_mono; [by apply (run_calls_history cfg Hworld d0 cs)|..].
  - intros [] p (h & Hr & Hm). exists (sys p h). split_and!; try done. by apply sm_messages.
  - done.
  - intros p (s0 & s & Hr0 & Hm & Hr & Hdb & Hs). exists s. split; [unfold reachable in *; by etransitivity|]. split; [done|].
    rewrite Hs. by apply sm_messages.
Qed.

Lemma pipeline_refines_system_witness :
  ∃ s, reachable (limits cfg0) empty_db s ∧ db s = pdb final_pipe ∧ chan s = p_chan final_pipe ∧
    p_sent final_pipe = message_of cfg0 ∘ record <$> sent_rows (hist s).
Proof.
  refine (wp_returns _ _ _ _ _ tt (pipeline_refines_system cfg0 empty_db sample_calls wf_empty
    empty_current sample_world_int64 (calls_int64 _ sample_calls_int64)) _).
  vm_compute; reflexivity.
Defined.

(** [C1] Messages never overtake each other. Every message a run hands to librdkafka is that of a
    record which holds an event of the initial file, or an event whose admission [enqueue] reported,
    under the sequence assigned to it. Of two messages of the same call, the earlier one never has the
    larger sequence (a row may come again, as a retry). This holds when the run ends and when the
    process dies. *)
Theorem messages_in_call_order `{E : Env, K : Kafka, !KafkaLaws K, R : Random, W : World}
    cfg d0 cs :
  wf d0 → current_schema d0 → (∀ n o, o ∈ others n → int64_other o) →
  (∀ c, c ∈ cs → int64_call c) →
  let ordered p :=
    p_sent p = message_of cfg <$> p_produced p ∧
    (∀ rec, rec ∈ p_produced p →
       (∃ r, r ∈ outbox d0 ∧ r_event_id r = event_id rec ∧ r_topic r = topic rec ∧
          default "" (r_call_uuid r) = call_uuid rec ∧ default (-1) (r_call_seq r) = call_seq rec) ∨
       (∃ rec0 n, (rec0, n) ∈ p_admitted p ∧ event_id rec0 = event_id rec ∧ topic rec0 = topic rec ∧
          call_uuid rec0 = call_uuid rec ∧ n = call_seq rec)) ∧
    (∀ i j rec1 rec2, (i < j)%nat → p_produced p !! i = Some rec1 → p_produced p !! j = Some rec2 →
       topic rec1 = topic rec2 → call_uuid rec1 = call_uuid rec2 → call_uuid rec1 ≠ "" →
       call_seq rec1 ≤ call_seq rec2) in
  wp (run_calls cfg cs) (λ _, ordered) (λ _ _, False) ordered (new_pipe d0).
Proof.
  intros Hwf Hsch Hworld Hcs ordered.
  assert (∀ p s, reachable (limits cfg) d0 s → same_messages cfg p (hist s) → ordered p) as Hord.
  { intros p s Hr Hm. split; [apply Hm|]. split.
    - intros rec Hrec. destruct (produced_origin cfg d0 p s rec Hwf Hr Hm Hrec) as
        [(r & Hin & Hi & Ht & _ & _ & Hu & Hq)|(rec0 & n & Hin & Hi & Ht & _ & _ & Hu & Hq)];
        [left; exists r|right; exists rec0, n]; by split_and!.
    - intros i j rec1 rec2. by apply (produced_in_order cfg d0 p s). }
  eapply wp_mono; [by apply (run_calls_history cfg Hworld d0 cs)|..].
  - intros [] p (h & Hr & Hm). by apply (Hord p (sys p h)).
  - done.
  - intros p (s0 & s & Hr0 & Hm & _). by apply (Hord p s0).
Qed.

(** The two events of [call-a] are messages 0 and 3. *)
Lemma messages_in_call_order_witness :
  length (p_sent final_pipe) = 4%nat ∧
  ∃ rec1 rec2, p_produced final_pipe !! 0%nat = Some rec1 ∧ p_produced final_pipe !! 3%nat = Some rec2 ∧
    payload rec1 = "{1}" ∧ payload rec2 = "{2}" ∧ call_seq rec1 ≤ call_seq rec2.
Proof.
  assert (fst (run_calls cfg0 sample_calls (new_pipe empty_db)) = Ok tt) as Hrun
    by (vm_compute; reflexivity).
  destruct (wp_returns _ _ _ _ _ tt (messages_in_call_order cfg0 empty_db sample_calls wf_empty
    empty_current sample_world_int64 (calls_int64 _ sample_calls_int64)) Hrun) as (_ & _ & Hord).
  split; [vm_compute; reflexivity|]. do 2 eexists.
  split; [vm_compute; reflexivity|]. split; [vm_compute; reflexivity|].
  split; [vm_compute; reflexivity|]. split; [vm_compute; reflexivity|].
  apply (Hord 0%nat 3%nat); try (vm_compute; reflexivity); [lia|vm_compute; discriminate].
Defined.

(** [C12] A message carries the event as it was admitted. Every message handed to librdkafka belongs to
    an event of the initial file or to one whose admission [enqueue] reported. It has that event's
    payload, its key (none when empty), its id as opaque and in the header x-fs-event-id, and its
    sequence in the header x-fs-call-sequence when it has one. Its topic is the one configured, not
    the one stored. *)
Theorem messages_carry_admitted_event `{E : Env, K : Kafka, !KafkaLaws K, R : Random, W : World}
    cfg d0 cs :
  wf d0 → current_schema d0 → (∀ n o, o ∈ others n → int64_other o) →
  (∀ c, c ∈ cs → int64_call c) →
  let carries m id key text seq :=
    m_topic m = cfg_topic cfg ∧ m_key m = (if decide (key = "") then None else Some key) ∧
    m_value m = text ∧ m_opaque m = id ∧
    m_headers m = (if decide (0 ≤ seq) then [("x-fs-call-sequence", pretty seq)] else []) ++
                  [("x-fs-event-id", id)] in
  let faithful p := ∀ m, m ∈ p_sent p →
    (∃ r, r ∈ outbox d0 ∧
       carries m (r_event_id r) (default "" (r_msg_key r)) (r_payload r) (default (-1) (r_call_seq r))) ∨
    (∃ rec n, (rec, n) ∈ p_admitted p ∧ carries m (event_id rec) (msg_key rec) (payload rec) n) in
  wp (run_calls cfg cs) (λ _, faithful) (λ _ _, False) faithful (new_pipe d0).
Proof.
  intros Hwf Hsch Hworld Hcs carries faithful.
  assert (∀ p s, reachable (limits cfg) d0 s → same_messages cfg p (hist s) → faithful p) as Hf.
  { intros p s Hr Hm m Hin. rewrite (proj1 Hm) in Hin.
    apply list_elem_of_fmap in Hin as (rec & -> & Hrec).
    destruct (produced_origin cfg d0 p s rec Hwf Hr Hm Hrec) as
      [(r & Hin & Hi & _ & Hk & Hp & _ & Hq)|(rec0 & n & Hin & Hi & _ & Hk & Hp & _ & Hq)];
      [left; exists r|right; exists rec0, n]; (split; [done|]); unfold carries, message_of; simpl in *;
      by rewrite Hi, Hk, Hp, Hq. }
  eapply wp_mono; [by apply (run_calls_history cfg Hworld d0 cs)|..].
  - intros [] p (h & Hr & Hm). by apply (Hf p (sys p h)).
  - done.
  - intros p (s0 & s & Hr0 & Hm & _). by apply (Hf p s0).
Qed.

Lemma messages_carry_admitted_event_witness :
  ∃ m rec n, p_sent final_pipe !! 3%nat = Some m ∧ (rec, n) ∈ p_admitted final_pipe ∧
    m_opaque m = event_id rec ∧ m_value m = payload rec.
Proof.
  assert (fst (run_calls cfg0 sample_calls (new_pipe empty_db)) = Ok tt) as Hrun
    by (vm_compute; reflexivity).
  pose proof (wp_returns _ _ _ _ _ tt (messages_carry_admitted_event cfg0 empty_db sample_calls wf_empty
    empty_current sample_world_int64 (calls_int64 _ sample_calls_int64)) Hrun) as Hf.
  cbv beta zeta in Hf. fold final_pipe in Hf. revert Hf.
  assert (is_Some (p_sent final_pipe !! 3%nat)) as [m Hm] by (vm_compute; eexists; reflexivity).
  revert Hm. clear Hrun. generalize final_pipe. intros p Hm Hf.
  destruct (Hf m (list_elem_of_lookup_2 _ _ _ Hm)) as
    [(r & Hr & _)|(rec & n & Hin & _ & _ & Hv & Ho & _)]; [by apply not_elem_of_nil in Hr|].
  exists m, rec, n. by split_and!.
Defined.

(** [C6] [enqueue] answers truthfully. If it returns true, the pipeline was accepting and the event,
    with its payload, key, call and sequence, has been committed as a pending row when it returns; if
    it returns false the file is unchanged; it never throws; if the process dies in it the event is
    committed entirely or not at all. *)
Theorem enqueue_commits `{E : Env, K : Kafka, R : Random} cfg payload key call seq p :
  c_txn (conn p) = None →
  wp (enqueue cfg payload key call seq)
    (λ res p', enqueued_as cfg payload key call seq p res p' ∧
       ∀ id n, res = (id, inr n) → ∃ r, r ∈ outbox (pdb p') ∧ r_event_id r = id ∧
         r_payload r = payload ∧ r_state r = "pending" ∧ r_call_uuid r = Some call ∧
         (call ≠ "" → r_call_seq r = Some n))
    (λ _ _, False)
    (λ p', durable (conn p') = pdb p ∨
       ∃ id n now t, insert_txn (limits cfg) (event_of cfg id payload key call seq now) (pdb p) t
                     = inr (n, durable (conn p'))) p.
Proof.
  intros Ht. eapply wp_mono; [exact (enqueue_wp cfg payload key call seq p Ht)|..]; [|done..].
  intros [id res] p' [Hres _]. split; [done|]. intros id' n [= <- ->].
  destruct Hres as (_ & now & t & [_ Ha]%insert_txn_admitted & _).
  inversion Ha as [Hc Hs Hid Hn Hd|k s sq Hk Hne Hrt Hst Hky Hks Hm Hsq Hle Hcap H0 Hmx Hid Hfr Hn Hd].
  - eexists. split; [apply elem_of_app; right; by apply list_elem_of_singleton|].
    simpl in *. by split_and!.
  - eexists. split; [apply elem_of_app; right; by apply list_elem_of_singleton|].
    subst k. simpl in *. split_and!; try done. intros _. by rewrite decide_False.
Qed.

Lemma enqueue_commits_witness :
  c_txn (conn started_pipe) = None ∧
  wp (enqueue cfg0 "{1}" "call-a" "call-a" (-1))
    (enqueued_as cfg0 "{1}" "call-a" "call-a" (-1) started_pipe) (λ _ _, False) (λ _, True) started_pipe.
Proof.
  assert (c_txn (conn started_pipe) = None) as Ht by (vm_compute; reflexivity).
  split; [exact Ht|].
  eapply wp_mono; [exact (enqueue_commits cfg0 "{1}" "call-a" "call-a" (-1) started_pipe Ht)|..].
  - intros a p' (H & _). exact H.
  - intros e p' Hf. exact Hf.
  - intros p' _. exact I.
Defined.

(** [C23] A failed send is settled by one rule, whatever events other threads admit between the
    query and the update. For a row in flight: it is dead-lettered with the error if the error is
    permanent or its durable attempt count has reached the limit, and otherwise becomes pending again,
    due after the back-off of its attempt count; for any other event nothing changes and the result is
    [Failed]. When a call to SQLite fails, the result is [Failed] (or the query throws) and nothing
    has changed; if the process dies, the file is the old one or the settled one. *)
Theorem failed_send_settled `{E : Env, K : Kafka, R : Random, W : World} cfg max_attempts id error
    permanent p :
  c_open (conn p) = true → c_txn (conn p) = None → ids_unique (pdb p) →
  settles cfg (settle_send_failure cfg max_attempts id error permanent)
    (λ d x, ∃ t1 t2 t3, x = settle_txn max_attempts id error permanent d t1 t2 t3) p ∧
  (∀ r d t1 t2 t3, r ∈ outbox (pdb p) → r_event_id r = id → r_state r = "in_flight" →
     interference cfg (pdb p) d →
     settle_txn max_attempts id error permanent d t1 t2 t3 =
     if decide (permanent = true ∨ max_attempts ≤ to_int32 (r_attempts r)) then
       (Buried, set_outbox (update_where (live_id id)
          (λ r, with_error error (with_state "dead" (clock t3) r))) d)
     else
       (Retry, set_outbox (update_where (in_flight_id id) (λ r', with_error error
          (with_next_attempt (clock t1 + (backoff_base (to_int32 (r_attempts r)) +
                                          Z.rem (clock t2) 97))
             (with_state "pending" (clock t3) r')))) d)) ∧
  ((∀ n, others n = []) → ∀ d, interference cfg (pdb p) d → d = pdb p).
Proof.
  intros Ho Ht Hids. split; [by apply settle_settles|].
  split; [|intros Halone d; by apply interference_alone].
  intros r d t1 t2 t3 Hr Hid Hst Hd.
  apply (interference_keeps _ _ _ _ Hd) in Hr; [|done]. apply (interference_ids _ _ _ Hd) in Hids.
  unfold settle_txn. rewrite (row_by_id_unique _ _ _ Hids Hr Hid). rewrite decide_True by done.
  unfold dead_txn, retry_txn, one_row_txn. case_decide.
  - rewrite decide_True; [done|].
    apply (count_where_one (live_id id) r_event_id id _ r);
      [by intros ? [? _]|exact Hids|done|split; [done|by right]].
  - rewrite decide_True; [done|].
    apply (count_where_one (in_flight_id id) r_event_id id _ r);
      [by intros ? [? _]|exact Hids|done|by split].
Qed.

(** A started pipeline on a file with the row "e1" in flight. *)
Definition in_flight_pipe : Pipe :=
  set_outbox_handle (mkHandle (conn_of db4) true) started_pipe.

Lemma failed_send_settled_witness :
  settles cfg0 (settle_send_failure cfg0 3 "e1" "timed out" false)
    (λ d x, ∃ t1 t2 t3, x = settle_txn 3 "e1" "timed out" false d t1 t2 t3) in_flight_pipe ∧
  settle_txn 3 "e1" "timed out" true (pdb in_flight_pipe) 0 0 0 =
    (Buried, set_outbox (update_where (live_id "e1")
       (λ r, with_error "timed out" (with_state "dead" 1000 r))) (pdb in_flight_pipe)).
Proof.
  split.
  - exact (proj1 (failed_send_settled cfg0 3 "e1" "timed out" false in_flight_pipe eq_refl eq_refl
                    (wf_ids _ wf_db4))).
  - rewrite (proj1 (proj2 (failed_send_settled cfg0 3 "e1" "timed out" true in_flight_pipe eq_refl eq_refl
       (wf_ids _ wf_db4))) (nth_row 0 db4) (pdb in_flight_pipe) 0%nat 0%nat 0%nat);
      [vm_compute; reflexivity|by_eval|reflexivity|reflexivity|apply rtc_refl].
Defined.

(** [C36] The back-off is 200 ms doubled per attempt after the first, at most seven times: it grows
    with the attempt count, lies between 200 and 25600 ms before a jitter of 0 to 96 ms, and the loop
    needs no more than its eight rounds. The cap of 30000 ms in the code is never reached. *)
Theorem backoff_bounds attempts fuel later :
  (8 ≤ fuel)%nat → attempts ≤ later →
  backoff_base attempts = 200 * 2 ^ Z.max 0 (Z.min 7 (attempts - 1)) ∧
  200 ≤ backoff_base attempts ≤ 25600 ∧ backoff_base attempts ≤ backoff_base later ∧
  backoff_loop fuel attempts 1 200 = backoff_loop 8 attempts 1 200 ∧
  backoff_loop 8 attempts 1 200 < 30000 ∧
  (∀ now, 0 ≤ now → 0 ≤ Z.rem now 97 ≤ 96).
Proof.
  intros Hf Hl. split; [apply backoff_base_value|]. split; [apply backoff_base_bounds|].
  split; [by apply backoff_base_mono|]. split; [by apply backoff_fuel|]. split.
  - pose proof (backoff_base_bounds attempts) as Hb. unfold backoff_base in Hb. case_decide; lia.
  - intros now Hnow. pose proof (Z.rem_bound_pos now 97 Hnow). lia.
Qed.

Lemma backoff_bounds_witness : backoff_base 4 = 1600 ∧ 200 ≤ backoff_base 4 ≤ 25600.
Proof.
  split; [vm_compute; reflexivity|].
  exact (proj1 (proj2 (backoff_bounds 4 8 9 ltac:(lia) ltac:(lia)))).
Defined.

(** [C10] A delivery report either has its durable transition committed or halts the pipeline with
    nothing changed but what other threads admitted in between. A success acknowledges the event and
    never throws. A failure settles the row; an exception can escape only when a call to SQLite
    failed, and then nothing else has changed. If the process dies, the file has the complete
    transition or none of it. When no other thread calls, nothing changes in between. *)
Theorem report_settled_or_pipeline_halts `{E : Env, K : Kafka, R : Random, W : World} cfg id err p :
  c_open (conn p) = true → c_txn (conn p) = None → ids_unique (pdb p) →
  wp (on_delivery cfg id err)
    (λ _ p', ∃ d, interference cfg (pdb p) d ∧
       (report_txn cfg id err d (pdb p') ∨ (halted p' ∧ pdb p' = d)))
    (λ _ p', err ≠ 0 ∧ interference cfg (pdb p) (pdb p') ∧ ¬ quiet_from (c_io (conn p)))
    (λ p', ∃ d, interference cfg (pdb p) d ∧
       (durable (conn p') = d ∨ report_txn cfg id err d (durable (conn p')))) p ∧
  ((∀ n, others n = []) → ∀ d, interference cfg (pdb p) d → d = pdb p).
Proof.
  intros Ho Ht Hids. split; [|intros Halone d; by apply interference_alone].
  destruct (decide (err = 0)) as [->|Herr].
  - eapply wp_mono; [exact (ack_report_wp cfg id p Ho Ht)|done..].
  - eapply wp_mono; [exact (failure_report_wp cfg id err p Herr Ho Ht Hids)|done|by intros e p'|done].
Qed.

Lemma report_settled_or_pipeline_halts_witness :
  wp (on_delivery cfg0 "e1" 10)
    (λ _ p', ∃ d, interference cfg0 db4 d ∧
       (report_txn cfg0 "e1" 10 d (pdb p') ∨ (halted p' ∧ pdb p' = d)))
    (λ _ _, True) (λ _, True) in_flight_pipe.
Proof.
  eapply wp_mono.
  - exact (proj1 (report_settled_or_pipeline_halts cfg0 "e1" 10 in_flight_pipe eq_refl eq_refl
                    (wf_ids _ wf_db4))).
  - intros a p' H. exact H.
  - intros e p' _. exact I.
  - intros p' _. exact I.
Defined.

(** [C35] A halted pipeline does nothing more: the worker takes no further turn and sends no further
    row of its batch, and [enqueue] refuses. *)
Theorem halted_pipeline_is_inert `{E : Env, K : Kafka, R : Random, W : World} cfg p n due payload
    key call seq :
  halted p →
  turns_of_loop cfg n p = (Ok tt, p) ∧ send_batch cfg due p = (Ok tt, p) ∧
  enqueue cfg payload key call seq p = (Ok ("", inl "pipeline not accepting"), p).
Proof.
  intros [Hr Ha]. split; [by apply halted_loop|]. split; [by apply halted_batch|].
  by apply halted_enqueue.
Qed.

Lemma halted_pipeline_is_inert_witness :
  halted final_pipe ∧ turns_of_loop cfg0 5 final_pipe = (Ok tt, final_pipe).
Proof.
  assert (halted final_pipe) as Hh by (split; vm_compute; reflexivity). split; [exact Hh|].
  exact (proj1 (halted_pipeline_is_inert cfg0 final_pipe 5 [] "" "" "" 0 Hh)).
Defined.

(** [C17] [start] recovers after a crash. On a stopped pipeline it either returns true with the file
    owned and open, the producer created, the worker running and every row that was in flight pending
    again and due, or false with the file closed and released and no worker; it never throws. *)
Theorem start_recovers `{E : Env, K : Kafka, R : Random, W : World} cfg flock_ok p :
  p_worker p = NoWorker → p_running p = false → c_open (conn p) = false →
  c_txn (conn p) = None → wf (pdb p) → current_schema (pdb p) →
  wp (start cfg flock_ok)
    (λ res p', started_as flock_ok p res p' ∧
       (res = inr tt → ∀ r, r ∈ outbox (pdb p') → r_state r ≠ "in_flight"))
    (λ _ _, False)
    (λ p', durable (conn p') = pdb p ∨ ∃ t, requeue_txn (pdb p) t = inr (tt, durable (conn p'))) p.
Proof.
  intros Hw Hr Ho Ht Hwf Hsch.
  eapply wp_mono; [exact (start_wp cfg flock_ok p Hw Hr Ho Ht Hwf Hsch)|..]; [|done..].
  intros res p' Hres. split; [done|]. intros ->.
  destruct Hres as (_&_&_&_&_&_&_&_& t & Hq). unfold requeue_txn in Hq. simplify_eq.
  intros r Hin. rewrite <- Hq in Hin.
  apply elem_of_update_where in Hin as (r0 & _ & [[_ ->]|[Hn ->]]); [done|exact Hn].
Qed.

Lemma start_recovers_witness :
  wp (start cfg0 true) (λ res p', res = inr tt → ∀ r, r ∈ outbox (pdb p') → r_state r ≠ "in_flight")
    (λ _ _, False) (λ _, True) (new_pipe db4).
Proof.
  assert (current_schema db4) as Hs by (split; [reflexivity|repeat split]).
  eapply wp_mono.
  - exact (start_recovers cfg0 true (new_pipe db4) eq_refl eq_refl eq_refl eq_refl wf_db4 Hs).
  - intros res p' [_ H]. exact H.
  - intros e p' H. exact H.
  - intros p' _. exact I.
Defined.

(** [C37] [make_event_id] prints a version-4 UUID of 36 characters, and two ids are equal only if the
    random words they are made from agree in all 122 bits that the format keeps: all of [a] but bits
    12 to 15, and all of [b] but bits 62 and 63. *)
Theorem event_id_determines_bits a b a' b' :
  in_uint64 a → in_uint64 a' →
  String.length (make_event_id a b) = 36%nat ∧
  String.get 14 (make_event_id a b) = Some "4"%char ∧
  (make_event_id a b = make_event_id a' b' ↔
   (∀ i, 0 ≤ i < 64 → (i < 12 ∨ 16 ≤ i) → Z.testbit a i = Z.testbit a' i) ∧
   (∀ i, 0 ≤ i < 62 → Z.testbit b i = Z.testbit b' i)).
Proof.
  intros Ha Ha'. split; [apply make_event_id_length|]. split; [apply make_event_id_version|].
  split; [by apply make_event_id_bits|by intros [? ?]; apply make_event_id_same].
Qed.

Lemma event_id_determines_bits_witness :
  String.get 14 (make_event_id 81985529216486895 18364758544493064720) = Some "4"%char ∧
  make_event_id 81985529216486895 18364758544493064720 = "01234567-89ab-4def-bedc-ba9876543210".
Proof.
  split; [|vm_compute; reflexivity].
  apply (event_id_determines_bits 81985529216486895 18364758544493064720 0 0);
    split; vm_compute; first [discriminate|reflexivity].
Defined.

(** [C40] [BoundedQueue] is a bounded FIFO: after any sequence of operations of any threads, the
    events popped followed by the events still queued are the accepted events in order, the queue is
    never longer than its bound, and [rejected] counts the refused events (modulo 2^64). *)
Theorem bounded_queue_is_fifo max_depth ops b t :
  run_ops max_depth ops = (b, t) →
  popped t ++ bq_events b = accepted t ∧ BoundedQueue.size b ≤ Z.max 0 max_depth ∧
  rejected b = Z.of_nat (length (refused t)) mod uint64_modulus.
Proof. intros Hrun. pose proof (run_ops_ok max_depth ops) as Hok. rewrite Hrun in Hok. apply Hok. Qed.

Lemma bounded_queue_is_fifo_witness :
  let s := run_ops 2 [Push (ev "1"); Push (ev "2"); Push (ev "3"); Pop false] in
  rejected s.1 = 1 ∧ popped s.2 ++ bq_events s.1 = accepted s.2.
Proof.
  intros s. split; [vm_compute; reflexivity|].
  exact (proj1 (bounded_queue_is_fifo 2 [Push (ev "1"); Push (ev "2"); Push (ev "3"); Pop false] s.1 s.2
                  eq_refl)).
Defined.

(** [C11] Eventual delivery. A running pipeline whose SQLite and librdkafka work (every message is
    accepted and its report, a success, is served at the next poll) and that nobody else calls
    delivers its backlog: when the back-offs have run out, as many turns of the worker as there are
    rows end with the worker still running, every message sent acknowledged and its row removed, each
    event sent once, and what is left is dead or waits behind a dead or missing predecessor. With
    expiry by age off, no dead row and no source sequences, nothing is left. *)
Theorem backlog_is_delivered `{E : Env, K : Kafka, R : Random, W : World} cfg n p :
  (∀ n, sq_fault n = None) → (∀ n, others n = []) → (∀ n m, rd_kafka_producev n m = 0) →
  (∀ n ids, rd_kafka_serve n ids = (λ id, (id, 0)) <$> ids) →
  running_on (pdb p) [] (p_sent p) p → wf (pdb p) → calm (pdb p) →
  Z.of_nat (length (outbox (pdb p))) ≤ turns_left (pdb p) →
  (∀ r t, r ∈ outbox (pdb p) → r_next_attempt_at_ms r ≤ clock t) →
  (length (outbox (pdb p)) ≤ n)%nat →
  wp (turns_of_loop cfg n)
    (λ _ p', p_running p' = true ∧ p_chan p' = [] ∧
       (∃ ms, p_sent p' = p_sent p ++ ms ∧
          r_event_id <$> outbox (pdb p) ≡ₚ (m_opaque <$> ms) ++ (r_event_id <$> outbox (pdb p'))) ∧
       (∀ r, r ∈ outbox (pdb p') → r_state r = "dead" ∨
          ∃ k n, row_call r = Some k ∧ r_call_seq r = Some n ∧ cursor (pdb p') k < n) ∧
       (outbox_ttl_ms cfg ≤ 0 → (∀ r, r ∈ outbox (pdb p) → r_state r ≠ "dead") →
        (∀ k s, call_streams (pdb p) !! k = Some s → s_mode s = "admission") →
        outbox (pdb p') = []))
    (λ _ _, False) (λ _, False) p.
Proof.
  intros Hquiet Halone Hacc Hrep Hp Hwf Hcalm Htl Hnext Hn.
  assert (delivering cfg (pdb p) (pdb p) []) as Hdel by (split; [done..|eauto 10|by intros k s; eauto]).
  eapply wp_mono; [exact (live_loop cfg Hquiet Halone Hacc Hrep n _ _ [] _ p Hnext Hdel Hp (or_intror Hn))|..];
    [|done|done].
  intros [] p' (ms & d' & [Hwf' _ Hids Hrows Hmodes] & Hdr & [_ _ <- Hr _ _ Hc Hs]).
  assert (calm (pdb p')) as Hcalm'.
  { intros r' (r & Hr0 & _ & _ & [->|[_ ->]])%Hrows; [by apply Hcalm|done]. }
  split; [done|]. split; [done|]. split; [by exists ms|]. split.
  - intros r Hin. destruct (drained_rows _ r Hwf' Hdr Hcalm' Hin) as [?|[_ ?]]; auto.
  - intros Httl Hdead Hmode. apply drained_empty; [done..| |].
    + intros r' (r & Hr0 & _ & _ & [->|[? _]])%Hrows; [by apply Hdead|lia].
    + intros k s' (s & Hk & ->)%Hmodes. by apply (Hmode k).
Qed.

Lemma backlog_is_delivered_witness :
  length (outbox (pdb backlog_pipe)) = 3%nat ∧
  wp (@turns_of_loop _ _ _ quiet_world cfg0 3) (λ _ p', p_running p' = true ∧ p_chan p' = [])
    (λ _ _, False) (λ _, False) backlog_pipe.
Proof.
  split; [vm_compute; reflexivity|]. eapply wp_mono.
  - apply (@backlog_is_delivered _ _ _ quiet_world cfg0 3 backlog_pipe);
      [intros n; reflexivity|intros n; reflexivity|intros n m; reflexivity|intros n ids; reflexivity|..].
    + split; try (vm_compute; reflexivity). split; vm_compute; reflexivity.
    + assert (pdb backlog_pipe = db3) as -> by (vm_compute; reflexivity). exact wf_db3.
    + assert (pdb backlog_pipe = db3) as -> by (vm_compute; reflexivity).
      assert (Forall (λ r, r_state r ≠ "in_flight") (outbox db3)) as Hf
        by (vm_compute; repeat constructor; discriminate).
      intros r Hr. exact (proj1 (Forall_forall _ _) Hf r Hr).
    + vm_compute. discriminate.
    + assert (pdb backlog_pipe = db3) as -> by (vm_compute; reflexivity).
      assert (Forall (λ r, r_next_attempt_at_ms r = 500) (outbox db3)) as Hf
        by (vm_compute; repeat constructor).
      intros r t Hr. rewrite (proj1 (Forall_forall _ _) Hf r Hr). simpl. lia.
    + vm_compute. repeat constructor.
  - intros a p' (H1 & H2 & _). exact (conj H1 H2).
  - intros e p' H. exact H.
  - intros p' H. exact H.
Defined.
