(* ===== verification/PipelineStop.v ===== *)
(** [KafkaPipeline::stop]: whatever the worker still does on its way out, the pipeline ends stopped,
    with the file closed and its lock released. *)
From S2P Require Import Prelude Sqlite Tables Outbox OutboxSpec OutboxInv Open System Schedule.
From S2P Require Import EventId Pipeline Backoff PipelineSim PipelineCalls Settling.

(** A pipeline that was never started, or was stopped. *)
Record stopped (p : Pipe) : Prop := {
  stopped_halted : halted p;
  stopped_worker : p_worker p = NoWorker;
  stopped_open : c_open (conn p) = false;
  stopped_lock : h_lock (p_outbox p) = false;
  stopped_producer : p_rk p = false ∧ p_rkt p = false;
}.

(** [m] leaves a halted pipeline halted, however it ends. *)
Class KeepsHalted {A} (m : M Pipe A) : Prop :=
  keeps_halted p : halted p → halted (snd (m p)).

Section keeps.
Context `{E : Env} `{K : Kafka} `{R : Random} `{W : World} (cfg : PipelineConfig).

#[export] Instance keeps_bind {A B} (m : M Pipe A) (k : A → M Pipe B) :
  KeepsHalted m → (∀ a, KeepsHalted (k a)) → KeepsHalted (m ≫= k).
Proof.
  intros Hm Hk p Hp. unfold mbind, M_bind. pose proof (Hm p Hp) as H.
  destruct (m p) as [[a|e|] p']; simpl in *; [by apply Hk|done|done].
Qed.
#[export] Instance keeps_ret {A} (a : A) : KeepsHalted (mret a).
Proof. by intros p Hp. Qed.
#[export] Instance keeps_gets {A} (f : Pipe → A) : KeepsHalted (gets f).
Proof. by intros p Hp. Qed.
#[export] Instance keeps_next_call : KeepsHalted next_call.
Proof. by intros p Hp. Qed.
#[export] Instance keeps_next_word : KeepsHalted next_word.
Proof. by intros p Hp. Qed.
#[export] Instance keeps_next_point : KeepsHalted next_point.
Proof. by intros p Hp. Qed.
#[export] Instance keeps_count c n : KeepsHalted (count_by c n).
Proof. by intros p Hp. Qed.
#[export] Instance keeps_consume id : KeepsHalted (consume id).
Proof. by intros p Hp. Qed.
#[export] Instance keeps_rebuild : KeepsHalted request_rebuild.
Proof. by intros p Hp. Qed.
#[export] Instance keeps_halt : KeepsHalted halt.
Proof. by intros p Hp. Qed.
#[export] Instance keeps_worker w : KeepsHalted (modify (set_worker w)).
Proof. by intros p Hp. Qed.
#[export] Instance keeps_with_db {A} (m : M (Conn Db) A) : KeepsHalted (with_db m).
Proof. intros p Hp. unfold with_db. by destruct (m _). Qed.
#[export] Instance keeps_if {A} (b : bool) (m1 m2 : M Pipe A) :
  KeepsHalted m1 → KeepsHalted m2 → KeepsHalted (if b then m1 else m2).
Proof. by destruct b. Qed.
#[export] Instance keeps_decide {A} (P : Prop) `{!Decision P} (m1 m2 : M Pipe A) :
  KeepsHalted m1 → KeepsHalted m2 → KeepsHalted (if decide P then m1 else m2).
Proof. by case_decide. Qed.

#[export] Instance keeps_insert rec : KeepsHalted (insert_event cfg rec).
Proof.
  unfold insert_event. apply keeps_bind; [apply _|]. intros [e|n]; [apply _|].
  apply keeps_bind; [|intros []; apply _]. by intros p Hp.
Qed.
#[export] Instance keeps_enqueue payload key call seq : KeepsHalted (enqueue cfg payload key call seq).
Proof.
  unfold enqueue, count. apply keeps_bind; [apply _|intros accept]. apply keeps_if; [apply _|].
  apply keeps_decide; [apply _|]. do 3 (apply keeps_bind; [apply _|intros ?]). cbv zeta.
  apply keeps_bind; [apply _|]. intros [e|n]; apply _.
Qed.

#[export] Instance keeps_others os : KeepsHalted (run_others cfg os).
Proof.
  induction os as [|[] os IH]; simpl; apply _.
Qed.
#[export] Instance keeps_yield : KeepsHalted (yield cfg).
Proof. unfold yield. apply _. Qed.

#[export] Instance keeps_worker_db {A} (m : M (Conn Db) A) : KeepsHalted (worker_db cfg m).
Proof. unfold worker_db. apply keeps_bind; [apply _|intros []; apply _]. Qed.
#[export] Instance keeps_settle max_attempts id error permanent :
  KeepsHalted (settle_send_failure cfg max_attempts id error permanent).
Proof.
  unfold settle_send_failure. apply keeps_bind; [apply _|]. intros [cur|]; [|apply _].
  destruct (state cur); apply _.
Qed.

#[export] Instance keeps_on_delivery id err : KeepsHalted (on_delivery cfg id err).
Proof.
  unfold on_delivery, count. apply keeps_bind; [|intros []; apply _].
  apply keeps_decide; [apply keeps_bind; [apply _|intros ?]|]; apply keeps_bind; try apply _; intros res.
  - apply keeps_bind; [apply _|intros ?]. apply keeps_bind; [apply _|intros []]; apply _.
  - apply keeps_bind; [apply _|intros ?]. destruct res; apply _.
Qed.
#[export] Instance keeps_deliver reports : KeepsHalted (deliver cfg reports).
Proof. induction reports as [|[id err] reports IH]; simpl; apply _. Qed.
#[export] Instance keeps_serve : KeepsHalted (serve_reports cfg).
Proof. unfold serve_reports. apply _. Qed.
#[export] Instance keeps_exit : KeepsHalted (worker_exit cfg).
Proof. unfold worker_exit. apply keeps_bind; [apply _|intros []]; apply _. Qed.

(** [stop] returns with the pipeline stopped, or the process dies on the way. *)
Lemma stop_wp p Y : (∀ p', Y p') → wp (stop cfg) (λ _, stopped) (λ _ _, False) Y p.
Proof.
  intros HY. unfold stop. apply wp_bind. unfold halt at 1, modify, wp at 1.
  apply wp_bind. unfold gets, wp at 1. set (p1 := set_flags _ _ _ p).
  assert (halted p1) as H1 by done. clearbody p1.
  apply wp_bind. eapply (wp_mono _ (λ _, halted) _ (λ _ _, False) _ (λ _, True)); [| |done|done].
  - case_decide; [|done]. pose proof (keeps_exit p1 H1) as Hx. unfold wp, noexcept.
    by destruct (worker_exit cfg p1) as [[] ?].
  - intros [] p2 H2. unfold wp, close_outbox, destroy_producer_unlocked, close, modify, mbind, M_bind.
    split; simpl; try done; unfold conn; simpl. all: by destruct (c_open (h_conn (p_outbox p2))) eqn:Ho; simpl; try rewrite Ho.
Qed.
End keeps.
