(* ===== verification/FsModule.v ===== *)
(** The FreeSWITCH module (src/mod_event_kafka.cpp, src/mod_event_kafka.hpp): its configuration, the
    publisher that owns the pipeline, the subscription to events, and loading and unloading.

    FreeSWITCH is a parameter: the class [FreeSwitch] answers the calls made to it. What it keeps for
    the module, the handlers bound to events, is part of the state. *)
From Stdlib Require Import Ascii.
From S2P Require Import Prelude Sqlite Tables Outbox Open Pipeline.

(** ** Configuration *)

(** The static struct [globals]; a string is a [char*], null when nothing was stored. *)
Record Globals := mkGlobals {
  g_brokers : option string;
  g_topic_prefix : option string;
  g_topic : option string;
  g_username : option string;
  g_password : option string;
  g_buffer_size : Z;
  g_compression : option string;
  g_event_filter : option string;
  g_outbox_path : option string;
  g_security_protocol : option string;
  g_ssl_ca_location : option string;
  g_mem_queue_max : Z;
  g_outbox_max_rows : Z;
  g_message_timeout_ms : Z;
  g_enable_idempotence : Z;
  g_require_source_sequence : Z;
  g_outbox_ttl_ms : Z;
}.

(** [memset(&globals, 0, sizeof(globals))]. *)
Definition zero_globals : Globals :=
  mkGlobals None None None None None 0 None None None None None 0 0 0 0 0 0.

(** The members that [instructions] points at. *)
Inductive StringVar :=
  | Brokers | Username | Password | Topic | TopicPrefix | Compression | EventFilter | OutboxPath
  | SecurityProtocol | SslCaLocation.
Inductive IntVar :=
  | BufferSize | MemQueueMax | OutboxMaxRows | OutboxTtlMs | MessageTimeoutMs | EnableIdempotence
  | RequireSourceSequence.
#[export] Instance StringVar_eq_dec : EqDecision StringVar.
Proof. solve_decision. Defined.
#[export] Instance IntVar_eq_dec : EqDecision IntVar.
Proof. solve_decision. Defined.

(** [SWITCH_CONFIG_ITEM]: the key, the variable and the default. *)
Inductive Item :=
  | StringItem (key : string) (var : StringVar) (dflt : string)
  | IntItem (key : string) (var : IntVar) (dflt : Z).

Definition instructions : list Item :=
  [StringItem "bootstrap-servers" Brokers "localhost:9092";
   StringItem "username" Username "";
   StringItem "password" Password "";
   StringItem "topic" Topic "";
   StringItem "topic-prefix" TopicPrefix "fs";
   IntItem "buffer-size" BufferSize 10;
   StringItem "compression" Compression "snappy";
   StringItem "event-filter" EventFilter "";
   StringItem "outbox-path" OutboxPath "/var/lib/freeswitch/event_kafka_outbox.db";
   IntItem "mem-queue-max" MemQueueMax 10000;
   IntItem "outbox-max-rows" OutboxMaxRows 100000;
   IntItem "outbox-ttl-ms" OutboxTtlMs 120000;
   IntItem "message-timeout-ms" MessageTimeoutMs 30000;
   IntItem "enable-idempotence" EnableIdempotence 1;
   IntItem "require-source-sequence" RequireSourceSequence 0;
   StringItem "security-protocol" SecurityProtocol "";
   StringItem "ssl-ca-location" SslCaLocation ""].

(** Storing through the address of a member. *)
Definition set_string (x : StringVar) (v : option string) (g : Globals) : Globals :=
  let store y old := if decide (x = y) then v else old in
  mkGlobals (store Brokers (g_brokers g)) (store TopicPrefix (g_topic_prefix g))
    (store Topic (g_topic g)) (store Username (g_username g)) (store Password (g_password g))
    (g_buffer_size g) (store Compression (g_compression g)) (store EventFilter (g_event_filter g))
    (store OutboxPath (g_outbox_path g)) (store SecurityProtocol (g_security_protocol g))
    (store SslCaLocation (g_ssl_ca_location g)) (g_mem_queue_max g) (g_outbox_max_rows g)
    (g_message_timeout_ms g) (g_enable_idempotence g) (g_require_source_sequence g)
    (g_outbox_ttl_ms g).
Definition set_int (x : IntVar) (v : Z) (g : Globals) : Globals :=
  let store y old := if decide (x = y) then v else old in
  mkGlobals (g_brokers g) (g_topic_prefix g) (g_topic g) (g_username g) (g_password g)
    (store BufferSize (g_buffer_size g)) (g_compression g) (g_event_filter g) (g_outbox_path g)
    (g_security_protocol g) (g_ssl_ca_location g) (store MemQueueMax (g_mem_queue_max g))
    (store OutboxMaxRows (g_outbox_max_rows g)) (store MessageTimeoutMs (g_message_timeout_ms g))
    (store EnableIdempotence (g_enable_idempotence g))
    (store RequireSourceSequence (g_require_source_sequence g))
    (store OutboxTtlMs (g_outbox_ttl_ms g)).

(** ** FreeSWITCH *)

(** The answers of the functions called. *)
Class FreeSwitch := {
  switch_event_t : Type;
  (** [switch_xml_config_parse_module_settings("event_kafka.conf", ...)]: whether it succeeded, and
      what it left in [globals]. *)
  parse_module_settings : list Item → Globals → bool * Globals;
  switch_core_get_switchname : string;
  (** [switch_separate_string(filter, ',', ...)]: the names in the filter, none of a null one. *)
  switch_separate_string : option string → list string;
  (** [switch_name_event]: the event type of a name, if there is one. *)
  switch_name_event : string → option Z;
  SWITCH_EVENT_CUSTOM : Z;
  SWITCH_EVENT_ALL : Z;
  (** whether the n-th [switch_event_bind_removable] succeeds *)
  bind_succeeds : nat → bool;
  switch_event_get_header : switch_event_t → string → option string;
  (** [None]: SWITCH_STATUS_FALSE, the one status that the code tells apart *)
  switch_event_serialize_json : switch_event_t → option string;
}.

(** A handler bound to an event; its user data is the module's publisher. *)
Record Binding := mkBinding { b_node : nat; b_event : Z; b_subclass : option string }.
#[export] Instance Binding_eq_dec : EqDecision Binding.
Proof. solve_decision. Defined.

(** ** State *)

(** The static struct [profile], the handlers FreeSWITCH holds, and the module object. *)
Record Fs := mkFs {
  fs_globals : Globals;
  fs_subscriptions : nat;            (** [profile.event_subscriptions] *)
  fs_ids : gmap nat Z;               (** [profile.event_ids]; absent is the initial 0 *)
  fs_nodes : gmap nat nat;           (** [profile.event_nodes]; absent is null *)
  fs_node : option nat;              (** [KafkaModule::_node] *)
  fs_bound : list Binding;           (** the handlers bound at present *)
  fs_binds : nat;                    (** calls of [switch_event_bind_removable] so far *)
  fs_publisher : option PipelineConfig;
    (** the configuration of the initialised publisher's pipeline; [None] when there is none *)
  fs_pipe : Pipe;
}.

Definition set_globals (g : Globals) (f : Fs) : Fs :=
  mkFs g (fs_subscriptions f) (fs_ids f) (fs_nodes f) (fs_node f) (fs_bound f) (fs_binds f)
    (fs_publisher f) (fs_pipe f).
Definition set_profile (n : nat) (ids : gmap nat Z) (f : Fs) : Fs :=
  mkFs (fs_globals f) n ids (fs_nodes f) (fs_node f) (fs_bound f) (fs_binds f)
    (fs_publisher f) (fs_pipe f).
Definition set_nodes (nodes : gmap nat nat) (node : option nat) (f : Fs) : Fs :=
  mkFs (fs_globals f) (fs_subscriptions f) (fs_ids f) nodes node (fs_bound f) (fs_binds f)
    (fs_publisher f) (fs_pipe f).
Definition set_bound (bound : list Binding) (binds : nat) (f : Fs) : Fs :=
  mkFs (fs_globals f) (fs_subscriptions f) (fs_ids f) (fs_nodes f) (fs_node f) bound binds
    (fs_publisher f) (fs_pipe f).
Definition set_publisher (pub : option PipelineConfig) (f : Fs) : Fs :=
  mkFs (fs_globals f) (fs_subscriptions f) (fs_ids f) (fs_nodes f) (fs_node f) (fs_bound f)
    (fs_binds f) pub (fs_pipe f).
Definition set_pipe (p : Pipe) (f : Fs) : Fs :=
  mkFs (fs_globals f) (fs_subscriptions f) (fs_ids f) (fs_nodes f) (fs_node f) (fs_bound f)
    (fs_binds f) (fs_publisher f) p.

(** Before the first load, on the file [d]. *)
Definition unloaded (d : Db) : Fs :=
  mkFs zero_globals 0 ∅ ∅ None [] 0 None (new_pipe d).

Definition fs_gets {A} (f : Fs → A) : M Fs A := λ s, (Ok (f s), s).
Definition fs_modify (f : Fs → Fs) : M Fs unit := λ s, (Ok tt, f s).
Definition with_pipe {A} (m : M Pipe A) : M Fs A := λ s,
  match m (fs_pipe s) with (o, p) => (o, set_pipe p s) end.
(** Running [cleanup] when an exception unwinds through [m]. *)
Definition on_unwind {S A} (m : M S A) (cleanup : M S unit) : M S A := λ s,
  match m s with
  | (Throw e, s') => (cleanup;; throw e) s'
  | r => r
  end.

Section module.
Context `{E : Env} `{K : Kafka} `{R : Random} `{W : World} `{F : FreeSwitch}.

(** ** [KafkaEventPublisher] *)

(** [load_config]; the constructor ignores its status. *)
Definition load_config : M Fs bool :=
  fs_modify (set_globals zero_globals);;
  g ← fs_gets fs_globals;
  let '(ok, g') := parse_module_settings instructions g in
  fs_modify (set_globals g');; mret ok.

(** An empty topic becomes [topic_prefix + "_" + switchname]; [std::string] of a null pointer
    throws. *)
Definition resolve_topic : M Fs unit :=
  g ← fs_gets fs_globals;
  if decide (g_topic g = Some "") then
    match g_topic_prefix g with
    | Some prefix =>
        fs_modify (set_globals (set_string Topic (Some (prefix +:+ "_" +:+ switch_core_get_switchname)) g))
    | None => throw "basic_string: construction from null is not valid"
    end
  else mret tt.

Definition positive_or (dflt n : Z) : Z := if decide (0 < n) then n else dflt.

(** The [PipelineConfig] that the constructor fills in; the other members keep their defaults. *)
Definition pipeline_config (g : Globals) : PipelineConfig := {|
  brokers := default "localhost:9092" (g_brokers g);
  cfg_topic := default "fs_events" (g_topic g);
  username := default "" (g_username g);
  password := default "" (g_password g);
  security_protocol := default "" (g_security_protocol g);
  ssl_ca_location := default "" (g_ssl_ca_location g);
  compression := default "snappy" (g_compression g);
  outbox_path := default "/var/lib/freeswitch/event_kafka_outbox.db" (g_outbox_path g);
  buffer_size := positive_or 100000 (g_buffer_size g);
  mem_queue_max := positive_or 10000 (g_mem_queue_max g);
  outbox_max_rows := positive_or 100000 (g_outbox_max_rows g);
  outbox_max_bytes := outbox_max_bytes default_config;
  message_timeout_ms := positive_or 30000 (g_message_timeout_ms g);
  enable_idempotence := bool_decide (g_enable_idempotence g ≠ 0);
  require_source_sequence := false;
  worker_idle_ms := worker_idle_ms default_config;
  poll_ms := poll_ms default_config;
  max_attempts_before_dead := max_attempts_before_dead default_config;
  outbox_ttl_ms := if decide (g_outbox_ttl_ms g < 0) then 120000 else g_outbox_ttl_ms g |}.

(** [new KafkaPipeline(cfg)] on the file there is. *)
Definition construct_pipeline (p : Pipe) : Pipe :=
  mkPipe (p_outbox p) false false false false false NoWorker zero_metrics [] [] (p_kafka p)
    (p_random p) (p_point p) [] [].

(** The constructor. When it throws after [pipeline_.reset], the pipeline's destructor stops it. *)
Definition new_publisher (flock_ok : bool) : M Fs unit :=
  load_config;; resolve_topic;;
  g ← fs_gets fs_globals;
  let cfg := pipeline_config g in
  fs_modify (λ s, set_pipe (construct_pipeline (fs_pipe s)) s);;
  on_unwind (
    r ← with_pipe (start cfg flock_ok);
    match r with
    | inl err => throw ("KafkaPipeline start failed: " +:+ err)
    | inr _ => fs_modify (set_publisher (Some cfg))
    end) (with_pipe (stop cfg)).

(** What [PublishEvent] logs. *)
Inductive Published :=
  | NotSerialized
  | NoPublisher
  | Rejected (err : string)
  | Enqueued (event_id : string) (admission_sequence : Z).

Definition PublishEvent (ev : switch_event_t) : M Fs Published :=
  let uuid := switch_event_get_header ev "Channel-Call-UUID" in
  match switch_event_serialize_json ev with
  | None => mret NotSerialized
  | Some payload =>
      pub ← fs_gets fs_publisher;
      match pub with
      | None => mret NoPublisher
      | Some cfg =>
          let key := default "" uuid in
          r ← with_pipe (enqueue cfg payload key key (-1));
          match r with
          | (_, inl err) => mret (Rejected err)
          | (id, inr seq) => mret (Enqueued id seq)
          end
      end
  end.

(** [KafkaEventPublisher::Shutdown]; and the destructor, which stops the pipeline before the
    pipeline's own destructor does. *)
Definition publisher_shutdown : M Fs unit :=
  pub ← fs_gets fs_publisher;
  match pub with Some cfg => with_pipe (stop cfg) | None => mret tt end.
Definition destroy_publisher : M Fs unit :=
  publisher_shutdown;; publisher_shutdown;; fs_modify (set_publisher None).

(** [event_handler]: no exception reaches the C caller. *)
Definition event_handler (ev : switch_event_t) : M Fs unit :=
  catch (PublishEvent ev;; mret tt) (λ _, mret tt).

(** ** [KafkaModule] *)

Definition custom_prefix : string := "SWITCH_EVENT_CUSTOM::".
(** [switch_strstr(name, switch_event_custom)] is not null. *)
Definition is_custom (name : string) : bool :=
  if String.index 0 custom_prefix name then true else false.

(** The loop of [switch_name_event] calls: an unknown name leaves its entry as it was. *)
Fixpoint name_events (i : nat) (names : list string) (ids : gmap nat Z) : gmap nat Z :=
  match names with
  | [] => ids
  | name :: names' =>
      name_events (S i) names'
        match switch_name_event name with Some t => <[i := t]> ids | None => ids end
  end.

(** [switch_event_bind_removable]: the node it stores on success. *)
Definition switch_event_bind_removable (event : Z) (subclass : option string) : M Fs (option nat) :=
  n ← fs_gets fs_binds; bound ← fs_gets fs_bound;
  if bind_succeeds n then
    fs_modify (set_bound (bound ++ [mkBinding n event subclass]) (S n));; mret (Some n)
  else fs_modify (set_bound bound (S n));; mret None.

(** [switch_event_unbind(&node)]: nothing for a null node. *)
Definition switch_event_unbind (node : option nat) : M Fs unit :=
  match node with
  | Some n => fs_modify (λ s, set_bound (filter (λ b, b_node b ≠ n) (fs_bound s)) (fs_binds s) s)
  | None => mret tt
  end.

(** The event type and subclass that entry [i] subscribes to. *)
Definition subscription (ids : gmap nat Z) (i : nat) (name : string) : Z * option string :=
  if is_custom name then
    (SWITCH_EVENT_CUSTOM, Some (String.substring 21 (String.length name - 21) name))
  else (default 0 (ids !! i), None).

(** The binding loop. *)
Fixpoint bind_all (i : nat) (names : list string) : M Fs unit :=
  match names with
  | [] => mret tt
  | name :: names' =>
      ids ← fs_gets fs_ids;
      let '(event, subclass) := subscription ids i name in
      node ← switch_event_bind_removable event subclass;
      match node with
      | None => throw ("Failed to bind event handler for " +:+ name)
      | Some n =>
          fs_modify (λ s, set_nodes (<[i := n]> (fs_nodes s)) (fs_node s) s);;
          bind_all (S i) names'
      end
  end.

Definition subscribe : M Fs unit :=
  g ← fs_gets fs_globals; ids ← fs_gets fs_ids;
  let names := switch_separate_string (g_event_filter g) in
  fs_modify (set_profile (length names) (name_events 0 names ids));;
  if decide ((0 < length names)%nat) then bind_all 0 names
  else
    node ← switch_event_bind_removable SWITCH_EVENT_ALL None;
    match node with
    | None => throw "Couldn't bind to switch events."
    | Some n => fs_modify (λ s, set_nodes (fs_nodes s) (Some n) s)
    end.

(** The constructor: when the subscription throws, the publisher member is destroyed; the body of
    the module's destructor does not run. *)
Definition new_module (flock_ok : bool) : M Fs unit :=
  new_publisher flock_ok;; on_unwind subscribe destroy_publisher.

(** [~KafkaModule]: unbind, then the publisher's destructor. *)
Fixpoint unbind_all (slots : list nat) : M Fs unit :=
  match slots with
  | [] => mret tt
  | i :: slots' =>
      nodes ← fs_gets fs_nodes;
      switch_event_unbind (nodes !! i);;
      fs_modify (λ s, set_nodes (delete i (fs_nodes s)) (fs_node s) s);;
      unbind_all slots'
  end.
Definition destroy_module : M Fs unit :=
  n ← fs_gets fs_subscriptions;
  (if decide ((0 < n)%nat) then unbind_all (seq 0 n)
   else node ← fs_gets fs_node; switch_event_unbind node;;
        fs_modify (λ s, set_nodes (fs_nodes s) None s));;
  destroy_publisher.

(** ** The module interface *)

Inductive Status := SWITCH_STATUS_SUCCESS | SWITCH_STATUS_GENERR.

(** [mod_event_kafka_load]. *)
Definition mod_event_kafka_load (flock_ok : bool) : M Fs Status := λ s,
  match new_module flock_ok s with
  | (Ok _, s') => (Ok SWITCH_STATUS_SUCCESS, s')
  | (Throw _, s') => (Ok SWITCH_STATUS_GENERR, s')
  | (Killed, s') => (Killed, s')
  end.

(** [mod_event_kafka_shutdown] on a loaded module. *)
Definition mod_event_kafka_shutdown : M Fs Status :=
  catch (publisher_shutdown;; destroy_module) (λ _, mret tt);; mret SWITCH_STATUS_SUCCESS.
End module.
