(* ===== verification/FsCalls.v ===== *)
(** The functions of the module one by one: what loading subscribes to and leaves behind when it
    fails, what unloading undoes, what publishing an event commits. *)
From S2P Require Import Prelude Sqlite Tables Outbox OutboxSpec OutboxInv Open System Schedule.
From S2P Require Import EventId Pipeline Backoff PipelineSim PipelineCalls PipelineStop.
From S2P Require Import FsModule.

Section fs.
Context `{E : Env} `{K : Kafka} `{R : Random} `{W : World} `{F : FreeSwitch}.
Implicit Types s : Fs.

(** ** Rules *)

Lemma with_pipe_wp {A} (m : M Pipe A) (Q : A → Fs → Prop) (X : string → Fs → Prop)
    (Y : Fs → Prop) s :
  wp m (λ a p, Q a (set_pipe p s)) (λ e p, X e (set_pipe p s)) (λ p, Y (set_pipe p s)) (fs_pipe s) →
  wp (with_pipe m) Q X Y s.
Proof. unfold wp, with_pipe. by destruct (m _) as [[] ?]. Qed.

Lemma wp_unwind {A} (m : M Fs A) (cleanup : M Fs unit) (Q : A → Fs → Prop)
    (X : string → Fs → Prop) (Y : Fs → Prop) s :
  wp m Q (λ e s', wp cleanup (λ _ s2, X e s2) X Y s') Y s → wp (on_unwind m cleanup) Q X Y s.
Proof.
  intros Hm. unfold wp, on_unwind in *. destruct (m s) as [[a|e|] s']; [done| |done].
  unfold mbind, M_bind, throw. by destruct (cleanup s') as [[[]|e'|] s2].
Qed.

(** ** Subscription *)

(** The handlers that [names] ask for, from entry [i] on, the first under node [n]. *)
Fixpoint bindings (ids : gmap nat Z) (n i : nat) (names : list string) : list Binding :=
  match names with
  | [] => []
  | name :: names' =>
      let '(event, subclass) := subscription ids i name in
      mkBinding n event subclass :: bindings ids (S n) (S i) names'
  end.

Definition wanted s (names : list string) : list Binding :=
  if decide (names = []) then [mkBinding (fs_binds s) SWITCH_EVENT_ALL None]
  else bindings (name_events 0 names (fs_ids s)) (fs_binds s) 0 names.

(** All but the handlers and the nodes that refer to them. *)
Definition same_module s s' : Prop :=
  fs_globals s' = fs_globals s ∧ fs_subscriptions s' = fs_subscriptions s ∧
  fs_ids s' = fs_ids s ∧ fs_publisher s' = fs_publisher s ∧ fs_pipe s' = fs_pipe s.

Lemma same_module_trans s1 s2 s3 : same_module s1 s2 → same_module s2 s3 → same_module s1 s3.
Proof. intros (?&?&?&?&?) (?&?&?&?&?). split_and!; congruence. Qed.

Lemma bind_wp event subclass (Q : option nat → Fs → Prop) X Y s :
  (∀ s', same_module s s' → fs_nodes s' = fs_nodes s → fs_node s' = fs_node s →
     fs_binds s' = S (fs_binds s) →
     (bind_succeeds (fs_binds s) = true →
      fs_bound s' = fs_bound s ++ [mkBinding (fs_binds s) event subclass] →
      Q (Some (fs_binds s)) s') ∧
     (bind_succeeds (fs_binds s) = false → fs_bound s' = fs_bound s → Q None s')) →
  wp (switch_event_bind_removable event subclass) Q X Y s.
Proof.
  intros HQ. unfold switch_event_bind_removable, fs_gets, fs_modify, wp, mbind, M_bind.
  destruct (bind_succeeds (fs_binds s)) eqn:Hb; simpl.
  - by apply (HQ (set_bound (fs_bound s ++ [_]) (S (fs_binds s)) s)).
  - by apply (HQ (set_bound (fs_bound s) (S (fs_binds s)) s)).
Qed.

(** The binding stopped at the first of the handlers [all] that FreeSWITCH refused; those before it
    are bound. *)
Definition stopped_at s (all bound' : list Binding) : Prop := ∃ j,
  (j < length all)%nat ∧ (∀ i, (i < j)%nat → bind_succeeds (fs_binds s + i) = true) ∧
  bind_succeeds (fs_binds s + j) = false ∧ bound' = fs_bound s ++ take j all.

(** The nodes of the entries from [i] on refer to the handlers bound since [n]. *)
Definition slots_hold (nodes : gmap nat nat) (n i len : nat) : Prop :=
  ∀ j, (i ≤ j < i + len)%nat → nodes !! j = Some (n + (j - i))%nat.

Lemma bind_all_wp names i s :
  wp (bind_all i names)
    (λ _ s', same_module s s' ∧ fs_bound s' = fs_bound s ++ bindings (fs_ids s) (fs_binds s) i names ∧
       slots_hold (fs_nodes s') (fs_binds s) i (length names) ∧
       ∀ j, (j < i)%nat → fs_nodes s' !! j = fs_nodes s !! j)
    (λ _ s', same_module s s' ∧ stopped_at s (bindings (fs_ids s) (fs_binds s) i names) (fs_bound s'))
    (λ _, False) s.
Proof.
  revert i s. induction names as [|name names IH]; intros i s; simpl.
  - unfold wp. simpl. split; [done|]. split; [by rewrite app_nil_r|]. split; [|done].
    intros j Hj. simpl in Hj. lia.
  - apply wp_bind. unfold fs_gets, wp at 1. destruct (subscription _ i name) as [event subclass].
    apply wp_bind, bind_wp. intros s1 H1 Hns Hnd Hbs. split; intros Hgo Hb.
    + apply wp_bind. unfold fs_modify, wp at 1. set (s2 := set_nodes _ _ s1).
      assert (same_module s s2) as H2 by done. destruct H2 as (?&?&Hids&?&?).
      assert (fs_bound s2 = fs_bound s ++ [mkBinding (fs_binds s) event subclass]) as Hb2 by done.
      assert (fs_binds s2 = S (fs_binds s)) as Hbs2 by done.
      pose proof (IH (S i) s2) as Hrest. rewrite Hids, Hb2, Hbs2 in Hrest.
      eapply wp_mono; [exact Hrest|..]; [| |done].
      * intros [] s' (Hm & Hbd & Hsl & Hlow). split; [by eapply same_module_trans|].
        split; [by rewrite Hbd, <- app_assoc|]. split.
        -- intros j Hj. simpl in Hj. destruct (decide (j = i)) as [->|Hne].
           ++ rewrite Hlow by lia. unfold s2. simpl. rewrite lookup_insert_eq. f_equal. lia.
           ++ rewrite Hsl by lia. f_equal. lia.
        -- intros j Hj. rewrite Hlow by lia. unfold s2. simpl. rewrite lookup_insert_ne by lia.
           by rewrite Hns.
      * intros e s' (Hm & j & Hj & Hyes & Hno & Hl). split; [by eapply same_module_trans|].
        rewrite Hbs2 in Hyes, Hno. exists (S j). simpl. split; [lia|]. split.
        -- intros [|i'] Hi'; [by rewrite Nat.add_0_r|].
           replace (fs_binds s + S i')%nat with (S (fs_binds s) + i')%nat by lia. apply Hyes. lia.
        -- replace (fs_binds s + S j)%nat with (S (fs_binds s) + j)%nat by lia. split; [done|].
           by rewrite Hl, Hb2, <- app_assoc.
    + unfold wp, throw. split; [done|]. exists 0%nat. simpl. split; [lia|].
      split; [lia|]. rewrite Nat.add_0_r, app_nil_r. by split.
Qed.

(** The nodes that refer to the module's handlers, the first of them [n]. *)
Definition holds_nodes (n : nat) s : Prop :=
  if decide ((0 < fs_subscriptions s)%nat) then
    slots_hold (fs_nodes s) n 0 (fs_subscriptions s)
  else fs_node s = Some n.

Definition subscribed s s' : Prop :=
  let names := switch_separate_string (g_event_filter (fs_globals s)) in
  fs_globals s' = fs_globals s ∧ fs_publisher s' = fs_publisher s ∧ fs_pipe s' = fs_pipe s ∧
  fs_subscriptions s' = length names ∧
  fs_bound s' = fs_bound s ++ wanted s names ∧ holds_nodes (fs_binds s) s'.

Definition half_subscribed s s' : Prop :=
  fs_globals s' = fs_globals s ∧ fs_publisher s' = fs_publisher s ∧ fs_pipe s' = fs_pipe s ∧
  stopped_at s (wanted s (switch_separate_string (g_event_filter (fs_globals s)))) (fs_bound s').

Lemma subscribe_wp s :
  wp subscribe (λ _, subscribed s) (λ _, half_subscribed s) (λ _, False) s.
Proof.
  unfold subscribe. apply wp_bind. unfold fs_gets at 1, wp at 1. apply wp_bind.
  unfold fs_gets, wp at 1. set (names := switch_separate_string _). apply wp_bind.
  unfold fs_modify at 1, wp at 1. set (s1 := set_profile _ _ s).
  unfold subscribed, half_subscribed. fold names. unfold wanted. case_decide as Hn.
  - rewrite decide_False by (by destruct names; simpl in *; [lia|]).
    eapply wp_mono; [exact (bind_all_wp names 0 s1)|..]; [| |done].
    + intros [] s' ((?&Hs&?&?&?) & Hb & Hsl & _). split_and!; try done.
      unfold holds_nodes. rewrite Hs. simpl. rewrite decide_True by done. exact Hsl.
    + intros e s' ((?&?&?&?&?) & Hl). by split_and!.
  - assert (names = []) as Hnil by (destruct names; simpl in *; [done|lia]).
    rewrite (decide_True (P := names = [])) by done.
    apply wp_bind, bind_wp. intros s2 (?&Hs&?&?&?) _ _ _. split; intros Hgo Hb.
    + unfold fs_modify, wp. split_and!; try done. unfold holds_nodes. simpl. rewrite Hs. simpl.
      by rewrite decide_False.
    + unfold wp, throw. split_and!; try done. exists 0%nat. simpl.
      split; [lia|]. split; [lia|]. rewrite Nat.add_0_r, app_nil_r. by split.
Qed.

(** *** Unbinding *)

Definition bound_outside (n m : nat) (bound : list Binding) : list Binding :=
  filter (λ b, ¬ (n ≤ b_node b < m)%nat) bound.

Lemma unbind_wp node X Y s :
  wp (switch_event_unbind node)
    (λ _ s', same_module s s' ∧ fs_nodes s' = fs_nodes s ∧
       fs_bound s' = match node with
                     | Some n => bound_outside n (S n) (fs_bound s)
                     | None => fs_bound s
                     end) X Y s.
Proof.
  destruct node as [n|]; unfold wp; simpl; [|done]. split_and!; try done.
  apply list_filter_iff. intros b. lia.
Qed.

Lemma bound_outside_join n m k bound :
  (n ≤ m ≤ k)%nat → bound_outside m k (bound_outside n m bound) = bound_outside n k bound.
Proof.
  intros Hle. unfold bound_outside. rewrite list_filter_filter. apply list_filter_iff. intros b. lia.
Qed.

Lemma unbind_all_wp len i n X Y s :
  (i ≤ n + i)%nat → slots_hold (fs_nodes s) n i len →
  wp (unbind_all (seq i len))
    (λ _ s', same_module s s' ∧ fs_bound s' = bound_outside n (n + len) (fs_bound s)) X Y s.
Proof.
  revert i n s. induction len as [|len IH]; intros i n s Hi Hsl; simpl.
  - unfold wp. simpl. split; [done|]. unfold bound_outside. symmetry. apply filter_everything. intros b _. lia.
  - apply wp_bind. unfold fs_gets, wp at 1. apply wp_bind.
    eapply wp_mono; [apply unbind_wp|..]; [|done..]. intros [] s1 (H1 & Hn1 & Hb1).
    rewrite (Hsl i) in Hb1 by lia. rewrite Nat.sub_diag, Nat.add_0_r in Hb1.
    apply wp_bind. unfold fs_modify, wp at 1. set (s2 := set_nodes _ _ s1).
    eapply wp_mono; [apply (IH (S i) (S n) s2)|..]; [lia| | |done..].
    + intros j Hj. unfold s2. simpl. rewrite lookup_delete_ne by lia. rewrite Hn1, Hsl by lia.
      f_equal. lia.
    + intros [] s3 (H3 & Hb3). split; [by eapply (same_module_trans _ s2)|]. rewrite Hb3.
      change (fs_bound s2) with (fs_bound s1). rewrite Hb1, bound_outside_join by lia.
      f_equal. lia.
Qed.

(** ** The publisher *)

Lemma publisher_shutdown_wp Y s :
  (∀ s', Y s') →
  wp publisher_shutdown
    (λ _ s', fs_bound s' = fs_bound s ∧ fs_publisher s' = fs_publisher s ∧
       fs_nodes s' = fs_nodes s ∧ fs_node s' = fs_node s ∧ fs_subscriptions s' = fs_subscriptions s ∧
       fs_globals s' = fs_globals s ∧
       (fs_publisher s ≠ None → stopped (fs_pipe s')) ∧
       (stopped (fs_pipe s) → stopped (fs_pipe s')))
    (λ _ _, False) Y s.
Proof.
  intros HY. unfold publisher_shutdown. apply wp_bind. unfold fs_gets, wp at 1.
  destruct (fs_publisher s) as [cfg|] eqn:Hp.
  - apply with_pipe_wp. eapply wp_mono; [by apply (stop_wp cfg _ (λ _, True))|..]; [|done|by intros; apply HY].
    intros [] p Hst. by split_and!.
  - unfold wp. simpl. by split_and!.
Qed.

Lemma destroy_publisher_wp Y s :
  (∀ s', Y s') →
  wp destroy_publisher
    (λ _ s', fs_bound s' = fs_bound s ∧ fs_publisher s' = None ∧ fs_globals s' = fs_globals s ∧
       (fs_publisher s ≠ None ∨ stopped (fs_pipe s) → stopped (fs_pipe s')))
    (λ _ _, False) Y s.
Proof.
  intros HY. unfold destroy_publisher. apply wp_bind.
  eapply wp_mono; [by apply (publisher_shutdown_wp (λ _, True))|..]; [|done|by intros; apply HY].
  intros [] s1 (Hb1 & _ & _ & _ & _ & Hg1 & Hst1 & Hst1'). apply wp_bind.
  eapply wp_mono; [by apply (publisher_shutdown_wp (λ _, True))|..]; [|done|by intros; apply HY].
  intros [] s2 (Hb2 & _ & _ & _ & _ & Hg2 & _ & Hst2). unfold wp. simpl. split; [by rewrite Hb2|].
  split; [done|]. split; [by rewrite Hg2|]. intros [?|?]; auto.
Qed.

(** ** Unloading *)

(** A loaded module: it has a publisher, and its handlers are those bound after [bound0], from
    node [n] on. *)
Definition loaded (n : nat) (bound0 : list Binding) s : Prop :=
  is_Some (fs_publisher s) ∧ holds_nodes n s ∧
  (∀ b, b ∈ bound0 → (b_node b < n)%nat) ∧
  ∃ own, fs_bound s = bound0 ++ own ∧
    ∀ b, b ∈ own → (n ≤ b_node b < n + Nat.max 1 (fs_subscriptions s))%nat.

Lemma bound_outside_own n m bound0 own :
  (∀ b, b ∈ bound0 → (b_node b < n)%nat) → (∀ b, b ∈ own → (n ≤ b_node b < m)%nat) →
  bound_outside n m (bound0 ++ own) = bound0.
Proof.
  intros H0 Hown. unfold bound_outside. rewrite filter_app, filter_everything, (proj2 (filter_none _ own)), app_nil_r.
  - done.
  - intros b Hb Hn. by apply Hn, Hown.
  - intros b Hb. specialize (H0 b Hb). lia.
Qed.

Lemma destroy_module_wp n bound0 Y s :
  (∀ s', Y s') → loaded n bound0 s →
  wp destroy_module
    (λ _ s', fs_bound s' = bound0 ∧ fs_publisher s' = None ∧ stopped (fs_pipe s')) (λ _ _, False) Y s.
Proof.
  intros HY ([cfg Hp] & Hn & H0 & own & Hb & Hown). unfold destroy_module. apply wp_bind.
  unfold fs_gets at 1, wp at 1. unfold holds_nodes in Hn. apply wp_bind.
  apply (wp_mono _ (λ _ s', fs_bound s' = bound0 ∧ fs_publisher s' = Some cfg) _ (λ _ _, False) _ (λ _, False));
    [|intros [] s1 [Hb1 Hp1]|done..].
  - case_decide.
    + eapply wp_mono;
        [apply (unbind_all_wp _ 0 n (λ _ _, False) (λ _, False)); [lia|exact Hn]|..]; [|done..].
      intros [] s1 ((_&_&_&Hp1&_) & Hb1). split; [|congruence]. rewrite Hb1, Hb.
      apply bound_outside_own; [done|]. intros b Hbo%Hown. lia.
    + apply wp_bind. unfold fs_gets, wp at 1. rewrite Hn. unfold wp. simpl. split; [|done].
      rewrite Hb, filter_app, filter_everything, (proj2 (filter_none _ own)), app_nil_r; [done|..].
      * intros b Hbo%Hown Hne. apply Hne. lia.
      * intros b Hb0%H0. lia.
  - eapply wp_mono; [by apply (destroy_publisher_wp (λ _, True))|..]; [|done|by intros; apply HY].
    intros [] s2 (Hb2 & Hp2 & _ & Hst). split; [congruence|]. split; [done|]. apply Hst. left.
    by rewrite Hp1.
Qed.

Lemma shutdown_wp n bound0 Y s :
  (∀ s', Y s') → loaded n bound0 s →
  wp mod_event_kafka_shutdown
    (λ st s', st = SWITCH_STATUS_SUCCESS ∧ fs_bound s' = bound0 ∧ fs_publisher s' = None ∧
       stopped (fs_pipe s')) (λ _ _, False) Y s.
Proof.
  intros HY Hl. unfold mod_event_kafka_shutdown. apply wp_bind.
  assert (wp (publisher_shutdown;; destroy_module) (λ _ s', fs_bound s' = bound0 ∧
    fs_publisher s' = None ∧ stopped (fs_pipe s')) (λ _ _, False) Y s) as Hw.
  { apply wp_bind. eapply wp_mono; [by apply (publisher_shutdown_wp (λ _, True))|..];
      [|done|by intros; apply HY].
    intros [] s1 (Hb1 & Hp1 & Hn1 & Hnd1 & Hs1 & _). apply (destroy_module_wp n); [done|].
    destruct Hl as (Hp & Hn & H0 & Hown). unfold loaded, holds_nodes in *.
    rewrite Hb1, Hp1, Hn1, Hnd1, Hs1. done. }
  unfold wp, catch in *. destruct ((publisher_shutdown;; destroy_module) s) as [[] ?]; done.
Qed.

(** ** Loading *)

Lemma start_stopped cfg flock_ok p Y :
  (∀ p', Y p') → stopped p → c_txn (conn p) = None → wf (pdb p) → current_schema (pdb p) →
  wp (start cfg flock_ok) (started_as flock_ok p) (λ _ _, False) Y p.
Proof.
  intros HY [[Hr _] Hw Ho _ _] Ht Hwf Hsch.
  eapply wp_mono; [exact (start_wp cfg flock_ok p Hw Hr Ho Ht Hwf Hsch)|..]; [done|done|].
  intros p' _. apply HY.
Qed.

Definition same_bindings s s' : Prop :=
  fs_ids s' = fs_ids s ∧ fs_bound s' = fs_bound s ∧ fs_binds s' = fs_binds s.

(** A constructed publisher: its pipeline runs on the configuration that [globals] say. *)
Definition publishing s s' : Prop :=
  fs_publisher s' = Some (pipeline_config (fs_globals s')) ∧
  cfg_topic (pipeline_config (fs_globals s')) ≠ "" ∧
  p_running (fs_pipe s') = true ∧ p_accept (fs_pipe s') = true ∧
  p_worker (fs_pipe s') = Working ∧ h_lock (p_outbox (fs_pipe s')) = true ∧
  c_open (conn (fs_pipe s')) = true ∧
  ∃ t, requeue_txn (pdb (fs_pipe s)) t = inr (tt, pdb (fs_pipe s')).

(** [load_config] and the topic. *)
Lemma resolve_wp s :
  wp resolve_topic
    (λ _ s', ∃ g, s' = set_globals g s ∧ cfg_topic (pipeline_config g) ≠ "")
    (λ _ s', s' = s) (λ _, False) s.
Proof.
  unfold resolve_topic. apply wp_bind. unfold fs_gets, wp at 1.
  case_decide as Ht; [destruct (g_topic_prefix (fs_globals s)) as [prefix|]|].
  - unfold wp, fs_modify. eexists. split; [done|]. simpl. by destruct prefix.
  - done.
  - unfold wp. simpl. exists (fs_globals s). split; [by destruct s|]. simpl.
    destruct (g_topic (fs_globals s)); simpl; [congruence|done].
Qed.

Definition ready_to_load s : Prop :=
  fs_publisher s = None ∧ stopped (fs_pipe s) ∧ c_txn (conn (fs_pipe s)) = None ∧
  wf (pdb (fs_pipe s)) ∧ current_schema (pdb (fs_pipe s)).

Lemma constructed_stopped p : stopped p → stopped (construct_pipeline p).
Proof. intros [_ _ Ho Hl _]. by split. Qed.

Lemma new_publisher_wp flock_ok s :
  ready_to_load s →
  wp (new_publisher flock_ok)
    (λ _ s', flock_ok = true ∧ same_bindings s s' ∧ publishing s s')
    (λ _ s', same_bindings s s' ∧ fs_publisher s' = None ∧ stopped (fs_pipe s'))
    (λ _, True) s.
Proof.
  intros (Hp & Hst & Ht & Hwf & Hsch). unfold new_publisher. apply wp_bind.
  unfold load_config, wp at 1. unfold fs_modify at 1, fs_gets at 1, mbind at 1, M_bind at 1.
  unfold mbind at 1, M_bind at 1. simpl.
  destruct (parse_module_settings instructions zero_globals) as [ok g0]. simpl.
  set (s1 := set_globals g0 _). apply wp_bind.
  eapply wp_mono; [apply resolve_wp|..]; [|intros e s2 ->; by split_and!|done].
  intros [] s2 (g & -> & Htopic). apply wp_bind. unfold fs_gets, wp at 1. apply wp_bind.
  unfold fs_modify at 1, wp at 1. simpl fs_globals. set (cfg := pipeline_config g).
  set (s3 := set_pipe _ (set_globals g s1)).
  pose proof (constructed_stopped _ Hst) as Hst3. change (stopped (fs_pipe s3)) in Hst3.
  apply wp_unwind, wp_bind, with_pipe_wp.
  eapply wp_mono; [exact (start_stopped cfg flock_ok (fs_pipe s3) (λ _, True) (λ _, I) Hst3 Ht Hwf Hsch)|..];
    [|done|done].
  intros [e|[]] p Hres.
  - unfold wp at 1, throw. apply with_pipe_wp.
    eapply wp_mono; [exact (stop_wp cfg p (λ _, True) (λ _, I))|..]; [|done|done].
    intros [] p' Hst'. by split_and!.
  - destruct Hres as (-> & Hr & Ha & Hw & Hl & Ho & _ & _ & Hq). unfold wp, fs_modify.
    split; [done|]. split; [done|]. by split_and!.
Qed.

Definition names_of s : list string := switch_separate_string (g_event_filter (fs_globals s)).

Definition load_result (flock_ok : bool) s (st : Status) s' : Prop :=
  match st with
  | SWITCH_STATUS_SUCCESS =>
      flock_ok = true ∧ publishing s s' ∧ fs_bound s' = fs_bound s ++ wanted s (names_of s') ∧
      holds_nodes (fs_binds s) s' ∧ fs_subscriptions s' = length (names_of s')
  | SWITCH_STATUS_GENERR =>
      fs_publisher s' = None ∧ stopped (fs_pipe s') ∧
      (fs_bound s' = fs_bound s ∨ stopped_at s (wanted s (names_of s')) (fs_bound s'))
  end.

Lemma same_wanted s s' names : same_bindings s s' → wanted s' names = wanted s names.
Proof. intros (Hi & _ & Hn). unfold wanted. by rewrite Hi, Hn. Qed.

Lemma load_wp flock_ok s :
  ready_to_load s → wp (mod_event_kafka_load flock_ok) (load_result flock_ok s) (λ _ _, False) (λ _, True) s.
Proof.
  intros Hs.
  assert (wp (new_module flock_ok) (λ _, load_result flock_ok s SWITCH_STATUS_SUCCESS)
    (λ _, load_result flock_ok s SWITCH_STATUS_GENERR) (λ _, True) s) as Hw.
  { apply wp_bind. eapply wp_mono; [exact (new_publisher_wp flock_ok s Hs)|..]; [| |done].
    - intros [] s1 (Hf & Hsame & Hpub). pose proof Hpub as (Hp1 & _). destruct Hsame as (Hi & Hb & Hn).
      apply wp_unwind. eapply wp_mono; [apply subscribe_wp|..]; [| |done].
      + intros [] s2 (Hg & Hp & Hpipe & Hsub & Hbd & Hnodes). unfold load_result, publishing, names_of.
        rewrite Hg, Hp, Hpipe, <- Hn, <- Hb. split; [done|]. split; [exact Hpub|].
        rewrite <- (same_wanted s s1) by done. by split_and!.
      + intros e s2 (Hg & Hp & Hpipe & Hstop).
        eapply wp_mono; [apply (destroy_publisher_wp (λ _, True)); done|..]; [|done|done].
        intros [] s3 (Hb3 & Hp3 & Hg3 & Hst3). split; [done|]. split.
        * apply Hst3. left. by rewrite Hp, Hp1.
        * right. unfold names_of, stopped_at in *. rewrite Hb3, Hg3, Hg.
          rewrite (same_wanted s s1) in Hstop by done. by rewrite Hn, Hb in Hstop.
    - intros e s1 ((_ & Hb & _) & Hp & Hst). split; [done|]. split; [done|].
      by left. }
  unfold wp, mod_event_kafka_load in *. by destruct (new_module flock_ok s) as [[] ?].
Qed.

Lemma bindings_nodes ids n i names b :
  b ∈ bindings ids n i names → (n ≤ b_node b < n + length names)%nat.
Proof.
  revert n i. induction names as [|name names IH]; intros n i; simpl; [by intros ?%not_elem_of_nil|].
  destruct (subscription ids i name). intros [->|Hb]%elem_of_cons; simpl; [lia|].
  specialize (IH _ _ Hb). lia.
Qed.

(** The nodes of the handlers are numbers of earlier calls. *)
Definition nodes_below s : Prop := ∀ b, b ∈ fs_bound s → (b_node b < fs_binds s)%nat.

Lemma load_loaded flock_ok s s' :
  nodes_below s → load_result flock_ok s SWITCH_STATUS_SUCCESS s' →
  loaded (fs_binds s) (fs_bound s) s'.
Proof.
  intros Hb (_ & (Hp & _) & Hbd & Hnodes & Hsub). split; [by eexists|]. split; [done|].
  split; [done|]. eexists. split; [exact Hbd|]. rewrite Hsub. unfold wanted. case_decide as Hn.
  - rewrite Hn. intros b ->%list_elem_of_singleton. simpl. lia.
  - intros b Hin%bindings_nodes. lia.
Qed.

(** ** Publishing *)

Definition same_but_pipe s s' : Prop := s' = set_pipe (fs_pipe s') s.

Lemma publish_wp ev cfg s :
  fs_publisher s = Some cfg → c_txn (conn (fs_pipe s)) = None →
  let key := default "" (switch_event_get_header ev "Channel-Call-UUID") in
  wp (PublishEvent ev)
    (λ res s', same_but_pipe s s' ∧
       match res with
       | NotSerialized => switch_event_serialize_json ev = None ∧ s' = s
       | NoPublisher => False
       | Rejected _ => pdb (fs_pipe s') = pdb (fs_pipe s)
       | Enqueued id n => p_accept (fs_pipe s) = true ∧
           ∃ payload now t, switch_event_serialize_json ev = Some payload ∧
             insert_txn (limits cfg) (event_of cfg id payload key key (-1) now) (pdb (fs_pipe s)) t
             = inr (n, pdb (fs_pipe s'))
       end)
    (λ _ _, False)
    (λ s', durable (conn (fs_pipe s')) = pdb (fs_pipe s) ∨
       ∃ payload id n now t, switch_event_serialize_json ev = Some payload ∧
         insert_txn (limits cfg) (event_of cfg id payload key key (-1) now) (pdb (fs_pipe s)) t
         = inr (n, durable (conn (fs_pipe s')))) s.
Proof.
  intros Hp Ht key. unfold PublishEvent.
  destruct (switch_event_serialize_json ev) as [payload|];
    [|unfold wp; simpl; split; [by destruct s|done]].
  apply wp_bind. unfold fs_gets, wp at 1. rewrite Hp. fold key. apply wp_bind, with_pipe_wp.
  eapply wp_mono; [exact (enqueue_wp cfg payload key key (-1) (fs_pipe s) Ht)|..]; [|done|].
  - intros [id [err|n]] p Hres; unfold wp; simpl; (split; [by destruct s|]); [apply Hres|].
    destruct Hres as ((Ha & now & t & Hi & _) & _). split; [done|]. by exists payload, now, t.
  - intros p [Hd|(id & n & now & t & Hi)]; [by left|right]. by exists payload, id, n, now, t.
Qed.

(** ** A session *)

(** FreeSWITCH hands events to the handler, one after the other. *)
Fixpoint handle_events (evs : list switch_event_t) : M Fs unit :=
  match evs with [] => mret tt | ev :: evs' => event_handler ev;; handle_events evs' end.
Definition session (flock_ok : bool) (evs : list switch_event_t) : M Fs Status :=
  st ← mod_event_kafka_load flock_ok;
  match st with
  | SWITCH_STATUS_SUCCESS => handle_events evs;; mod_event_kafka_shutdown
  | SWITCH_STATUS_GENERR => mret SWITCH_STATUS_GENERR
  end.

Lemma loaded_pipe n bound0 s s' : same_but_pipe s s' → loaded n bound0 s → loaded n bound0 s'.
Proof. by intros ->. Qed.

Lemma event_handler_wp ev s X Y :
  (∀ s', Y s') → wp (event_handler ev) (λ _, same_but_pipe s) X Y s.
Proof.
  intros HY. unfold wp, event_handler, catch, PublishEvent, fs_gets, mbind, M_bind.
  destruct (switch_event_serialize_json ev) as [payload|]; [|by destruct s].
  destruct (fs_publisher s) as [cfg|]; [|by destruct s]. unfold with_pipe.
  destruct (enqueue cfg payload _ _ _ (fs_pipe s)) as [[[id [err|n]]|e|] p]; simpl;
    solve [by destruct s|apply HY].
Qed.

Lemma handle_events_wp evs n bound0 s Y :
  (∀ s', Y s') → loaded n bound0 s →
  wp (handle_events evs) (λ _, loaded n bound0) (λ _ _, False) Y s.
Proof.
  intros HY. revert s. induction evs as [|ev evs IH]; intros s Hl; simpl; [done|].
  apply wp_bind. eapply wp_mono; [by apply (event_handler_wp ev s (λ _ _, False) Y)|..]; [|done..].
  intros [] s1 H1. by apply IH, (loaded_pipe n bound0 s).
Qed.

Lemma session_wp flock_ok evs s :
  ready_to_load s → nodes_below s →
  wp (session flock_ok evs)
    (λ st s', fs_publisher s' = None ∧ stopped (fs_pipe s') ∧
       match st with
       | SWITCH_STATUS_SUCCESS => fs_bound s' = fs_bound s
       | SWITCH_STATUS_GENERR =>
           fs_bound s' = fs_bound s ∨ stopped_at s (wanted s (names_of s')) (fs_bound s')
       end) (λ _ _, False) (λ _, True) s.
Proof.
  intros Hs Hb. apply wp_bind. eapply wp_mono; [exact (load_wp flock_ok s Hs)|..]; [|done|done].
  intros [] s1 Hres; [|exact Hres]. apply wp_bind.
  pose proof (load_loaded flock_ok s s1 Hb Hres) as Hl.
  eapply wp_mono; [exact (handle_events_wp evs _ _ s1 (λ _, True) (λ _, I) Hl)|..]; [|done|done].
  intros [] s2 Hl2. eapply wp_mono; [apply (shutdown_wp (fs_binds s) (fs_bound s) (λ _, True)); done|..];
    [|done|done]. intros st s3 (-> & ? & ? & ?). by split_and!.
Qed.
End fs.
