(* ===== verification/FsSamples.v ===== *)
(** A concrete FreeSWITCH: a configuration parser over a table of settings, the splitting of a filter
    at commas, a few event names, and loads and sessions computed on them. *)
From Stdlib Require Import Ascii.
From S2P Require Import Prelude Sqlite Tables Outbox OutboxSpec OutboxInv Open System Schedule.
From S2P Require Import Pipeline Backoff PipelineSim PipelineCalls PipelineStop Samples.
From S2P Require Import PipelineSamples FsModule FsCalls.

(** What [switch_xml_config_parse_module_settings] documents: every item's variable gets the value
    that the file gives its key, and its default when the file gives none. *)
Definition store_item (strings : string → option string) (ints : string → option Z)
    (g : Globals) (it : Item) : Globals :=
  match it with
  | StringItem key x dflt => set_string x (Some (default dflt (strings key))) g
  | IntItem key x dflt => set_int x (default dflt (ints key)) g
  end.
Definition store_items strings ints (items : list Item) (g : Globals) : Globals :=
  foldl (store_item strings ints) g items.

Lemma stored_settings strings ints :
  let str key dflt := Some (default dflt (strings key)) in
  let int key dflt := default dflt (ints key) in
  store_items strings ints instructions zero_globals =
  mkGlobals (str "bootstrap-servers" "localhost:9092") (str "topic-prefix" "fs") (str "topic" "")
    (str "username" "") (str "password" "") (int "buffer-size" 10) (str "compression" "snappy")
    (str "event-filter" "") (str "outbox-path" "/var/lib/freeswitch/event_kafka_outbox.db")
    (str "security-protocol" "") (str "ssl-ca-location" "") (int "mem-queue-max" 10000)
    (int "outbox-max-rows" 100000) (int "message-timeout-ms" 30000) (int "enable-idempotence" 1)
    (int "require-source-sequence" 0) (int "outbox-ttl-ms" 120000).
Proof. reflexivity. Qed.

(** Fields of a text separated by commas. *)
Fixpoint split_commas (s : string) (field : string) : list string :=
  match s with
  | EmptyString => if decide (field = "") then [] else [field]
  | String c s' =>
      if decide (c = ","%char) then field :: split_commas s' ""
      else split_commas s' (field +:+ String c "")
  end.

(** An event is its headers and its JSON text. *)
Record SampleEvent := mkSampleEvent { se_uuid : option string; se_json : option string }.

Definition sample_fs (strings : string → option string) (parses : bool) (binds : nat → bool) : FreeSwitch := {|
  switch_event_t := SampleEvent;
  parse_module_settings := λ items g,
    if parses then (true, store_items strings (λ _, None) items g) else (false, g);
  switch_core_get_switchname := "fs1";
  switch_separate_string := λ s, match s with Some s => split_commas s "" | None => [] end;
  switch_name_event := λ name,
    if decide (name = "CHANNEL_CREATE") then Some 5
    else if decide (name = "CHANNEL_HANGUP") then Some 9 else None;
  SWITCH_EVENT_CUSTOM := 0;
  SWITCH_EVENT_ALL := 92;
  bind_succeeds := binds;
  switch_event_get_header := λ ev name, if decide (name = "Channel-Call-UUID") then se_uuid ev else None;
  switch_event_serialize_json := se_json;
|}.

Definition sample_settings (key : string) : option string :=
  if decide (key = "event-filter") then Some "CHANNEL_CREATE,SWITCH_EVENT_CUSTOM::sofia" else None.

#[export] Instance sample_switch : FreeSwitch := sample_fs sample_settings true (λ _, true).

Definition fs0 : Fs := unloaded empty_db.

Lemma fs0_ready : ready_to_load fs0.
Proof.
  split; [reflexivity|]. split; [by split|]. split; [reflexivity|]. split; [exact wf_empty|exact empty_current].
Qed.

Lemma fs0_nodes : nodes_below fs0.
Proof. intros b Hb. simpl in Hb. by apply not_elem_of_nil in Hb. Qed.

Definition fs1 : Fs := snd (mod_event_kafka_load true fs0).

Definition fs1_config : PipelineConfig := default default_config (fs_publisher fs1).
Definition ev1 : switch_event_t := mkSampleEvent (Some "call-a") (Some "{1}").
Definition sample_events : list switch_event_t :=
  [ev1; mkSampleEvent None None; mkSampleEvent None (Some "{2}")].

(** The subscriptions, and the topic made of the prefix and the switch name. *)
Example sample_load :
  fs_bound fs1 = [mkBinding 0 5 None; mkBinding 1 0 (Some "sofia")] ∧
  (cfg_topic <$> fs_publisher fs1) = Some "fs_fs1".
Proof. split; vm_compute; reflexivity. Qed.

(** A load whose second subscription fails: no publisher is left, but the first handler is, and its
    user data is the destroyed publisher. *)
Lemma failed_load_leaves_handler :
  let load := @mod_event_kafka_load _ _ _ _ (sample_fs sample_settings true (λ n, bool_decide (n = 0)%nat)) in
  fst (load true fs0) = Ok SWITCH_STATUS_GENERR ∧ fs_publisher (snd (load true fs0)) = None ∧
  fs_bound (snd (load true fs0)) = [mkBinding 0 5 None].
Proof. split; [|split]; vm_compute; reflexivity. Qed.

(** A load without a configuration file succeeds, with the age limit off. *)
Lemma missing_config_disables_expiry :
  let load := @mod_event_kafka_load _ _ _ _ (sample_fs sample_settings false (λ _, true)) in
  fst (load true fs0) = Ok SWITCH_STATUS_SUCCESS ∧
  (outbox_ttl_ms <$> fs_publisher (snd (load true fs0))) = Some 0.
Proof. split; vm_compute; reflexivity. Qed.
