(* ===== verification/FsTheorems.v ===== *)
(** What the FreeSWITCH module guarantees: what a load leaves behind, that a session undoes its
    subscriptions, that a published event is committed or refused, and which setting reaches which
    member of the pipeline's configuration. *)
From S2P Require Import Prelude Sqlite Tables Outbox OutboxSpec OutboxInv Open System Schedule.
From S2P Require Import Queues EventId Pipeline Backoff PipelineSim PipelineCalls.
From S2P Require Import PipelineStop Samples PipelineSamples FsModule FsCalls FsSamples.

(** [C31] Loading the module on a well-formed file either succeeds, with the pipeline running on the
    configuration read, its topic not empty, every row that was in flight pending again, and one
    handler bound for every entry of the event filter (or one for all events); or it reports an
    error with no publisher, the pipeline stopped, the file closed and its lock released. No
    exception reaches FreeSWITCH. A failed load unbinds nothing: either no handler was bound, or
    FreeSWITCH refused one and exactly those asked for before it stay bound. *)
Theorem load_outcome `{E : Env, K : Kafka, R : Random, W : World, F : FreeSwitch} flock_ok s :
  ready_to_load s →
  wp (mod_event_kafka_load flock_ok) (load_result flock_ok s) (λ _ _, False) (λ _, True) s.
Proof. apply load_wp. Qed.

Lemma load_outcome_witness : ready_to_load fs0 ∧ load_result true fs0 SWITCH_STATUS_SUCCESS fs1.
Proof.
  split; [exact fs0_ready|].
  refine (wp_returns _ _ _ _ _ SWITCH_STATUS_SUCCESS (load_outcome true fs0 fs0_ready) _).
  vm_compute; reflexivity.
Defined.

(** [C32] A session releases what it took. Load the module, deliver any events to its handler, unload
    it: if the load succeeded, the handlers bound are exactly those bound before; in every case no
    publisher is left, the worker is gone, the producer is destroyed, the file is closed and its lock
    is released. No exception reaches FreeSWITCH. *)
Theorem session_releases `{E : Env, K : Kafka, R : Random, W : World, F : FreeSwitch}
    flock_ok evs s :
  ready_to_load s → nodes_below s →
  wp (session flock_ok evs)
    (λ st s', fs_publisher s' = None ∧ stopped (fs_pipe s') ∧
       (st = SWITCH_STATUS_SUCCESS → fs_bound s' = fs_bound s))
    (λ _ _, False) (λ _, True) s.
Proof.
  intros Hs Hb. eapply wp_mono; [exact (session_wp flock_ok evs s Hs Hb)|..]; [|done|done].
  intros st s' (? & ? & Hst). split_and!; [done..|]. by intros ->.
Qed.

Lemma session_releases_witness :
  let s' := snd (session true sample_events fs0) in
  row_count (pdb (fs_pipe s')) = 2 ∧ fs_publisher s' = None ∧ stopped (fs_pipe s') ∧
  (SWITCH_STATUS_SUCCESS = SWITCH_STATUS_SUCCESS → fs_bound s' = []).
Proof.
  intros s'. split; [vm_compute; reflexivity|].
  refine (wp_returns _ _ _ _ _ SWITCH_STATUS_SUCCESS
            (session_releases true sample_events fs0 fs0_ready fs0_nodes) _).
  vm_compute; reflexivity.
Defined.

(** [C33] Publishing an event commits it or refuses it. An event that FreeSWITCH cannot serialise is
    dropped and nothing changes. Otherwise the event is committed with its JSON text as payload, the
    header Channel-Call-UUID both as key and as call (empty when absent) and the next admission
    number of that call; or it is refused and the file is unchanged. Nothing else of the module
    changes, no exception escapes, and if the process dies the event is committed entirely or not
    at all. *)
Theorem publish_event_commits `{E : Env, K : Kafka, R : Random, F : FreeSwitch} ev cfg s :
  fs_publisher s = Some cfg → c_txn (conn (fs_pipe s)) = None →
  let key := default "" (switch_event_get_header ev "Channel-Call-UUID") in
  wp (PublishEvent ev)
    (λ res s', same_but_pipe s s' ∧
       match res with
       | NotSerialized => switch_event_serialize_json ev = None ∧ s' = s
       | NoPublisher => False
       | Rejected _ => pdb (fs_pipe s') = pdb (fs_pipe s)
       | Enqueued id n => p_accept (fs_pipe s) = true ∧
           ∃ payload now t, switch_event_serialize_json ev = Some payload ∧
             insert_txn (limits cfg) (event_of cfg id payload key key (-1) now) (pdb (fs_pipe s)) t
             = inr (n, pdb (fs_pipe s'))
       end)
    (λ _ _, False)
    (λ s', durable (conn (fs_pipe s')) = pdb (fs_pipe s) ∨
       ∃ payload id n now t, switch_event_serialize_json ev = Some payload ∧
         insert_txn (limits cfg) (event_of cfg id payload key key (-1) now) (pdb (fs_pipe s)) t
         = inr (n, durable (conn (fs_pipe s')))) s.
Proof. apply publish_wp. Qed.

Lemma publish_event_commits_witness :
  fs_publisher fs1 = Some fs1_config ∧
  wp (PublishEvent ev1)
    (λ _ s', same_but_pipe fs1 s') (λ _ _, False) (λ _, True) fs1.
Proof.
  assert (fs_publisher fs1 = Some fs1_config) as Hp by (vm_compute; reflexivity).
  split; [exact Hp|]. eapply wp_mono.
  - apply (publish_event_commits ev1 fs1_config fs1 Hp).
    vm_compute; reflexivity.
  - intros a s' [H _]. exact H.
  - intros e s' H. exact H.
  - intros s' _. exact I.
Defined.

(** [C34] Every setting reaches the member of the configuration it is meant for. When the parser
    stores for each item the value of its key or its default: the strings are passed on, the topic
    is the setting or, when that is empty, the prefix joined with the switch name; a size, row limit
    or time-out that is not positive falls back to its built-in value, a negative age limit falls
    back to two minutes and zero turns it off, idempotence is on unless the setting is 0, and source
    sequences are never required. The members without a setting keep their defaults. *)
Theorem settings_reach_pipeline `{E : Env, F : FreeSwitch} strings ints s :
  parse_module_settings instructions zero_globals =
    (true, store_items strings ints instructions zero_globals) →
  let str key dflt := default dflt (strings key) in
  let int key dflt := default dflt (ints key) in
  let positive n dflt := if decide (0 < n) then n else dflt in
  wp (load_config;; resolve_topic)
    (λ _ s', let cfg := pipeline_config (fs_globals s') in
       brokers cfg = str "bootstrap-servers" "localhost:9092" ∧
       cfg_topic cfg = (if decide (str "topic" "" = "")
                        then str "topic-prefix" "fs" +:+ "_" +:+ switch_core_get_switchname
                        else str "topic" "") ∧
       username cfg = str "username" "" ∧ password cfg = str "password" "" ∧
       compression cfg = str "compression" "snappy" ∧
       security_protocol cfg = str "security-protocol" "" ∧
       ssl_ca_location cfg = str "ssl-ca-location" "" ∧
       outbox_path cfg = str "outbox-path" "/var/lib/freeswitch/event_kafka_outbox.db" ∧
       buffer_size cfg = positive (int "buffer-size" 10) 100000 ∧
       mem_queue_max cfg = positive (int "mem-queue-max" 10000) 10000 ∧
       outbox_max_rows cfg = positive (int "outbox-max-rows" 100000) 100000 ∧
       message_timeout_ms cfg = positive (int "message-timeout-ms" 30000) 30000 ∧
       outbox_ttl_ms cfg = (if decide (int "outbox-ttl-ms" 120000 < 0) then 120000
                            else int "outbox-ttl-ms" 120000) ∧
       (enable_idempotence cfg = true ↔ int "enable-idempotence" 1 ≠ 0) ∧
       require_source_sequence cfg = false ∧
       outbox_max_bytes cfg = 536870912 ∧ worker_idle_ms cfg = 50 ∧ poll_ms cfg = 100 ∧
       max_attempts_before_dead cfg = 50 ∧
       g_event_filter (fs_globals s') = Some (str "event-filter" ""))
    (λ _ _, False) (λ _, False) s.
Proof.
  intros Hparse str int positive.
  unfold wp, load_config, resolve_topic, fs_gets, fs_modify, mbind, M_bind, mret, M_ret.
  cbn [fs_globals set_globals]. rewrite Hparse, stored_settings.
  fold (str "topic" "") (str "topic-prefix" "fs"). generalize (str "topic" ""). intros topic.
  cbn [fs_globals set_globals g_topic g_topic_prefix].
  destruct (decide (topic = "")) as [->|Ht]; [rewrite decide_True by done|rewrite decide_False by congruence];
    (split_and!; try done); apply bool_decide_eq_true.
Qed.

Lemma settings_reach_pipeline_witness :
  wp (load_config;; resolve_topic)
    (λ _ s', brokers (pipeline_config (fs_globals s')) = "localhost:9092") (λ _ _, False) (λ _, False) fs0.
Proof.
  eapply wp_mono.
  - apply (settings_reach_pipeline sample_settings (λ _, None) fs0). vm_compute; reflexivity.
  - intros a s' [H _]. exact H.
  - intros e s' H. exact H.
  - intros s' H. exact H.
Defined.
